(** * HTML Rainbow: the three depth lexers, embedded and verified

    A shallow embedding of the text-scanning engine of the extension:
    - [HtmlParser]   (HTML/XML tags, a name stack),
    - [JsxParser]    (JSX/TSX tags, embedded expressions, object literals),
    - [ObjectParser] (plain JS/TS object literals and property keys).

    Source text is a sequence of UTF-16 code units, modelled as [list Z];
    offsets, depths and counters are JavaScript numbers holding integers,
    modelled as [Z].  [text[i]] outside the string is [undefined], modelled
    as [None]. *)

From Stdlib Require Import ZArith List Bool Ascii String Lia.
Import ListNotations.
Local Open Scope Z_scope.

(** ** JavaScript strings and the loop idioms the parsers share *)

Module Js.

Definition text := list Z.

(** A string literal of the source as code units. *)
Definition str (s : string) : text :=
  map (fun a => Z.of_nat (nat_of_ascii a)) (list_ascii_of_string s).

Definition c_tab : Z := 9.
Definition c_nl : Z := 10.         (* '\n' *)
Definition c_space : Z := 32.
Definition c_dquote : Z := 34.     (* double quote *)
Definition c_dollar : Z := 36.
Definition c_squote : Z := 39.     (* single quote *)
Definition c_lparen : Z := 40.
Definition c_rparen : Z := 41.
Definition c_star : Z := 42.
Definition c_comma : Z := 44.
Definition c_minus : Z := 45.
Definition c_dot : Z := 46.
Definition c_slash : Z := 47.
Definition c_colon : Z := 58.
Definition c_lt : Z := 60.
Definition c_eq : Z := 61.
Definition c_gt : Z := 62.
Definition c_quest : Z := 63.
Definition c_lbrack : Z := 91.
Definition c_backslash : Z := 92.
Definition c_rbrack : Z := 93.
Definition c_underscore : Z := 95.
Definition c_backtick : Z := 96.
Definition c_lbrace : Z := 123.
Definition c_rbrace : Z := 125.

(** [text.length], [stack.length] *)
Definition len {A : Type} (t : list A) : Z := Z.of_nat (List.length t).

(** [text[i]]: [undefined] out of range. *)
Definition char_at (t : text) (i : Z) : option Z :=
  if i <? 0 then None else nth_error t (Z.to_nat i).

(** [text[i] === c] for a one-character literal [c]. *)
Definition char_is (t : text) (i : Z) (c : Z) : bool :=
  match char_at t i with
  | Some d => d =? c
  | None => false
  end.

(** [a === b] on strings. *)
Fixpoint str_eqb (a b : text) : bool :=
  match a, b with
  | [], [] => true
  | x :: a', y :: b' => (x =? y) && str_eqb a' b'
  | _, _ => false
  end.

(** [new Set([...]).has(s)] and [[...].includes(s)] *)
Definition has (set : list text) (s : text) : bool := existsb (str_eqb s) set.

(** [text.slice(a, b)] for [0 <= a]. *)
Definition slice (t : text) (a b : Z) : text :=
  firstn (Z.to_nat (b - a)) (skipn (Z.to_nat a) t).

(** Character classes of the regular expressions in the source. *)
Definition is_upper (c : Z) : bool := (65 <=? c) && (c <=? 90).
Definition is_lower (c : Z) : bool := (97 <=? c) && (c <=? 122).
Definition is_digit (c : Z) : bool := (48 <=? c) && (c <=? 57).
(** [[a-zA-Z]] *)
Definition is_alpha (c : Z) : bool := is_lower c || is_upper c.
(** [[a-zA-Z_]] *)
Definition is_alpha_ (c : Z) : bool := is_alpha c || (c =? c_underscore).
(** [[a-zA-Z0-9._-]] *)
Definition is_jsx_name_char (c : Z) : bool :=
  is_alpha c || is_digit c || (c =? c_dot) || (c =? c_underscore) || (c =? c_minus).
(** [[a-zA-Z0-9._:-]] *)
Definition is_html_name_char (c : Z) : bool :=
  is_alpha c || is_digit c || (c =? c_dot) || (c =? c_underscore) || (c =? c_colon)
  || (c =? c_minus).
(** [[a-zA-Z_$]] *)
Definition is_ident_start (c : Z) : bool :=
  is_alpha c || (c =? c_underscore) || (c =? c_dollar).
(** [[a-zA-Z0-9_$]] *)
Definition is_ident_char (c : Z) : bool :=
  is_alpha c || is_digit c || (c =? c_underscore) || (c =? c_dollar).
(** [[gimsuy]] *)
Definition is_regex_flag (c : Z) : bool :=
  (c =? 103) || (c =? 105) || (c =? 109) || (c =? 115) || (c =? 117) || (c =? 121).
(** [\s]: the ECMAScript WhiteSpace and LineTerminator code units. *)
Definition is_space (c : Z) : bool :=
  ((9 <=? c) && (c <=? 13)) || (c =? 32) || (c =? 160) || (c =? 5760)
  || ((8192 <=? c) && (c <=? 8202)) || (c =? 8232) || (c =? 8233) || (c =? 8239)
  || (c =? 8287) || (c =? 12288) || (c =? 65279).

(** [/[class]/.test(text[i])].  [RegExp.prototype.test] converts its argument
    to a string, so on [undefined] the one-character class is searched for in
    the string "undefined". *)
Definition test (class : Z -> bool) (o : option Z) : bool :=
  match o with
  | Some c => class c
  | None => existsb class (str "undefined")
  end.

(** [s.toLowerCase()].  Exact on the ASCII names a tag pattern can capture. *)
Definition lower_char (c : Z) : Z := if is_upper c then c + 32 else c.
Definition toLowerCase (s : text) : text := map lower_char s.

(** [while (pos < text.length && p(text[pos])) pos++;], the value of [pos]
    after the loop.  The fuel is the distance to the end of the text, so the
    loop has left by its own condition when the fuel is spent. *)
Fixpoint scan_fwd_loop (fuel : nat) (p : option Z -> bool) (t : text) (pos : Z) : Z :=
  match fuel with
  | O => pos
  | S f =>
      if (pos <? len t) && p (char_at t pos)
      then scan_fwd_loop f p t (pos + 1)
      else pos
  end.

Definition scan_fwd (p : option Z -> bool) (t : text) (pos : Z) : Z :=
  scan_fwd_loop (Z.to_nat (len t - pos)) p t pos.

(** [while (i >= 0 && p(text[i])) i--;], the value of [i] after the loop
    (-1 when the loop runs off the start of the text). *)
Fixpoint scan_back_loop (fuel : nat) (p : option Z -> bool) (t : text) (i : Z) : Z :=
  match fuel with
  | O => i
  | S f =>
      if (0 <=? i) && p (char_at t i)
      then scan_back_loop f p t (i - 1)
      else i
  end.

Definition scan_back (p : option Z -> bool) (t : text) (i : Z) : Z :=
  scan_back_loop (Z.to_nat (i + 1)) p t i.

(** [o === c] for [o = text[i]]. *)
Definition is_char (c : Z) (o : option Z) : bool :=
  match o with
  | Some d => d =? c
  | None => false
  end.

End Js.

Import Js.

(** ** The output type shared by the three parsers *)

Module Types.

(** [ColoredRange] with its range given by the two offsets it is built from
    ([createColoredRange(document, startOffset, endOffset, depth)]). *)
Record ColoredRange := mkRange {
  startOffset : Z;
  endOffset : Z;
  depth : Z
}.

Definition createColoredRange (startOffset endOffset depth : Z) : ColoredRange :=
  mkRange startOffset endOffset depth.

End Types.

Import Types.

(** ** HtmlParser *)

Module HtmlParser.

Definition VOID_ELEMENTS : list text :=
  map str [ "area"; "base"; "br"; "col"; "embed"; "hr"; "img"; "input";
            "link"; "meta"; "param"; "source"; "track"; "wbr";
            "command"; "keygen"; "menuitem" ]%string.

Inductive TagType := open | close | selfClose.

Record TagMatch := mkTag {
  type : TagType;
  tagName : text;
  bracketStart : Z;
  bracketEnd : Z;
  nameStart : Z;
  nameEnd : Z
}.

(** [findTagEnd]: the [for] loop over [i], with [inString] and [stringChar]
    ([None] is the initial empty string). *)
Fixpoint findTagEnd_loop (fuel : nat) (t : text) (i : Z) (inString : bool)
    (stringChar : option Z) (isClosing : bool) : option (Z * bool) :=
  match fuel with
  | O => None
  | S f =>
      if i <? len t then
        let char := char_at t i in
        if inString then
          if (match char, stringChar with
              | Some c, Some q => c =? q
              | _, _ => false
              end) && negb (char_is t (i - 1) c_backslash)
          then findTagEnd_loop f t (i + 1) false stringChar isClosing
          else findTagEnd_loop f t (i + 1) true stringChar isClosing
        else if char_is t i c_dquote || char_is t i c_squote then
          findTagEnd_loop f t (i + 1) true char isClosing
        else if char_is t i c_gt then
          Some (i + 1, negb isClosing && char_is t (i - 1) c_slash)
        else if char_is t i c_lt then None
        else findTagEnd_loop f t (i + 1) false stringChar isClosing
      else None
  end.

Definition findTagEnd (t : text) (startPos : Z) (isClosing : bool) : option (Z * bool) :=
  findTagEnd_loop (Z.to_nat (len t - startPos)) t startPos false None isClosing.

(** One attempt of [tagStartRegex] (a [<], an optional [/], then a name: a
    letter followed by any number of [[a-zA-Z0-9._:-]]) at position [i]:
    whether the match starts with [</], and where the captured name starts
    and ends (the end of the name is the end of the match). *)
Definition name_start_at (t : text) (i : Z) : bool :=
  match char_at t i with
  | Some c => is_alpha c
  | None => false
  end.

Definition name_char_at (o : option Z) : bool :=
  match o with
  | Some c => is_html_name_char c
  | None => false
  end.

Definition tagStart_at (t : text) (i : Z) : option (bool * Z * Z) :=
  if char_is t i c_lt then
    if char_is t (i + 1) c_slash && name_start_at t (i + 2)
    then Some (true, i + 2, scan_fwd name_char_at t (i + 3))
    else if name_start_at t (i + 1)
    then Some (false, i + 1, scan_fwd name_char_at t (i + 2))
    else None
  else None.

(** [tagStartRegex.exec(text)] with [lastIndex = i]: the leftmost match at or
    after [i], as (index, isClosing, nameStart, nameEnd). *)
Fixpoint exec_loop (fuel : nat) (t : text) (i : Z) : option (Z * bool * Z * Z) :=
  match fuel with
  | O => None
  | S f =>
      if i <? len t then
        match tagStart_at t i with
        | Some (isClosing, ns, ne) => Some (i, isClosing, ns, ne)
        | None => exec_loop f t (i + 1)
        end
      else None
  end.

Definition exec (t : text) (lastIndex : Z) : option (Z * bool * Z * Z) :=
  exec_loop (Z.to_nat (len t - lastIndex)) t lastIndex.

(** The body of the [while] loop of [findAllTags] for one match: the tag it
    pushes, if any. *)
Definition tag_of_match (t : text) (m : Z * bool * Z * Z) : option TagMatch :=
  let '(index, isClosing, _, matchEnd) := m in
  let bracketStart := index in
  let nameStart := if isClosing then index + 2 else index + 1 in
  let tagName := slice t nameStart matchEnd in
  let nameEnd := nameStart + len tagName in
  match findTagEnd t nameEnd isClosing with
  | None => None
  | Some (e, selfClosing) =>
      if isClosing then Some (mkTag close tagName bracketStart e nameStart nameEnd)
      else if selfClosing then Some (mkTag selfClose tagName bracketStart e nameStart nameEnd)
      else Some (mkTag open tagName bracketStart e nameStart nameEnd)
  end.

(** [findAllTags]: one iteration per match of the global regular expression,
    whose [lastIndex] is the end of the previous match. *)
Fixpoint findAllTags_loop (fuel : nat) (t : text) (lastIndex : Z) (tags : list TagMatch)
    : list TagMatch :=
  match fuel with
  | O => tags
  | S f =>
      match exec t lastIndex with
      | None => tags
      | Some ((_, _, _, matchEnd) as m) =>
          match tag_of_match t m with
          | None => findAllTags_loop f t matchEnd tags
          | Some tag => findAllTags_loop f t matchEnd (tags ++ [tag])
          end
      end
  end.

Definition findAllTags (t : text) : list TagMatch :=
  findAllTags_loop (S (List.length t)) t 0 [].

Definition createTagRanges (tag : TagMatch) (depth : Z) : list ColoredRange :=
  match type tag with
  | close =>
      [ createColoredRange (bracketStart tag) (bracketStart tag + 2) depth;
        createColoredRange (nameStart tag) (nameEnd tag) depth;
        createColoredRange (bracketEnd tag - 1) (bracketEnd tag) depth ]
  | selfClose =>
      [ createColoredRange (bracketStart tag) (bracketStart tag + 1) depth;
        createColoredRange (nameStart tag) (nameEnd tag) depth;
        createColoredRange (bracketEnd tag - 2) (bracketEnd tag) depth ]
  | open =>
      [ createColoredRange (bracketStart tag) (bracketStart tag + 1) depth;
        createColoredRange (nameStart tag) (nameEnd tag) depth;
        createColoredRange (bracketEnd tag - 1) (bracketEnd tag) depth ]
  end.

(** [findMatchingOpenTag]: the loop from [stack.length - 1] down to 0; the
    stack is a JavaScript array, index 0 is its bottom. *)
Fixpoint findMatchingOpenTag_loop (fuel : nat) (stack : list text) (lowerTagName : text)
    (i : Z) : Z :=
  match fuel with
  | O => -1
  | S f =>
      if 0 <=? i then
        match nth_error stack (Z.to_nat i) with
        | Some s =>
            if str_eqb (toLowerCase s) lowerTagName then i
            else findMatchingOpenTag_loop f stack lowerTagName (i - 1)
        | None => findMatchingOpenTag_loop f stack lowerTagName (i - 1)
        end
      else -1
  end.

Definition findMatchingOpenTag (stack : list text) (tagName : text) : Z :=
  findMatchingOpenTag_loop (List.length stack) stack (toLowerCase tagName)
    (len stack - 1).

(** The state of [parse] between two tags. *)
Record State := mkState {
  tagStack : list text;
  ranges : list ColoredRange
}.

(** The body of the [for (const tag of tags)] loop. *)
Definition parse_tag (st : State) (tag : TagMatch) : State :=
  match type tag with
  | open =>
      let currentDepth := len (tagStack st) in
      let ranges' := ranges st ++ createTagRanges tag currentDepth in
      if negb (has VOID_ELEMENTS (toLowerCase (tagName tag)))
      then mkState (tagStack st ++ [tagName tag]) ranges'
      else mkState (tagStack st) ranges'
  | selfClose =>
      let currentDepth := len (tagStack st) in
      mkState (tagStack st) (ranges st ++ createTagRanges tag currentDepth)
  | close =>
      let matchIndex := findMatchingOpenTag (tagStack st) (tagName tag) in
      let tagStack' :=
        if negb (matchIndex =? -1)
        then firstn (Z.to_nat matchIndex) (tagStack st)   (* splice(matchIndex) *)
        else tagStack st in
      let currentDepth := len tagStack' in
      mkState tagStack' (ranges st ++ createTagRanges tag currentDepth)
  end.

Definition parse_tags (st : State) (tags : list TagMatch) : State :=
  fold_left parse_tag tags st.

Definition parse_state (t : text) : State :=
  parse_tags (mkState [] []) (findAllTags t).

Definition parse (t : text) : list ColoredRange := ranges (parse_state t).

End HtmlParser.

(** ** JsxParser *)

Module JsxParser.

Inductive TokenType :=
  | JsxOpenStart | JsxOpenEnd | JsxClose | JsxSelfClose
  | ExpressionStart | ExpressionEnd | ObjectBrace | PropertyKey.

Record Token := mkToken {
  type : TokenType;
  start : Z;
  end_ : Z;
  depth : Z;
  tagName : option text
}.

(** The two settings the parser reads from [HtmlRainbowConfig.objectBraces]. *)
Record Config := mkConfig {
  colorizeKeys : bool;
  objectBracesEnabled : bool
}.

Definition skipToEndOfLine (t : text) (pos : Z) : Z :=
  scan_fwd (fun o => negb (is_char c_nl o)) t pos + 1.

Fixpoint skipBlockComment_loop (fuel : nat) (t : text) (pos : Z) : Z :=
  match fuel with
  | O => len t
  | S f =>
      if pos <? len t - 1 then
        if char_is t pos c_star && char_is t (pos + 1) c_slash then pos + 2
        else skipBlockComment_loop f t (pos + 1)
      else len t
  end.

Definition skipBlockComment (t : text) (pos : Z) : Z :=
  skipBlockComment_loop (Z.to_nat (len t - (pos + 2))) t (pos + 2).

(** The inner loop of [skipString] over a [${...}] segment: braces are
    counted, nothing else is looked at. *)
Fixpoint skipInterpolation_loop (fuel : nat) (t : text) (pos depth : Z) : Z :=
  match fuel with
  | O => pos
  | S f =>
      if (pos <? len t) && (0 <? depth) then
        if char_is t pos c_lbrace then skipInterpolation_loop f t (pos + 1) (depth + 1)
        else if char_is t pos c_rbrace then skipInterpolation_loop f t (pos + 1) (depth - 1)
        else skipInterpolation_loop f t (pos + 1) depth
      else pos
  end.

Definition skipInterpolation (t : text) (pos : Z) : Z :=
  skipInterpolation_loop (Z.to_nat (len t - pos)) t pos 1.

Fixpoint skipString_loop (fuel : nat) (t : text) (pos quote : Z) : Z :=
  match fuel with
  | O => pos
  | S f =>
      if pos <? len t then
        if char_is t pos c_backslash then skipString_loop f t (pos + 2) quote
        else if char_is t pos quote then pos + 1
        else if char_is t pos c_nl && negb (quote =? c_backtick) then pos
        else if (quote =? c_backtick) && char_is t pos c_dollar
                && char_is t (pos + 1) c_lbrace
        then skipString_loop f t (skipInterpolation t (pos + 2)) quote
        else skipString_loop f t (pos + 1) quote
      else pos
  end.

Definition skipString (t : text) (pos quote : Z) : Z :=
  skipString_loop (Z.to_nat (len t - (pos + 1))) t (pos + 1) quote.

(** [text[i]] is one of the three quote characters; the character it is. *)
Definition quote_at (t : text) (i : Z) : option Z :=
  match char_at t i with
  | Some c =>
      if (c =? c_dquote) || (c =? c_squote) || (c =? c_backtick) then Some c else None
  | None => None
  end.

Fixpoint skipJsxExpression_loop (fuel : nat) (t : text) (i depth : Z) : Z :=
  match fuel with
  | O => i
  | S f =>
      if (i <? len t) && (0 <? depth) then
        if char_is t i c_lbrace then skipJsxExpression_loop f t (i + 1) (depth + 1)
        else if char_is t i c_rbrace then skipJsxExpression_loop f t (i + 1) (depth - 1)
        else match quote_at t i with
             | Some q => skipJsxExpression_loop f t (skipString t i q) depth
             | None => skipJsxExpression_loop f t (i + 1) depth
             end
      else i
  end.

Definition skipJsxExpression (t : text) (pos : Z) : Z :=
  if negb (char_is t pos c_lbrace) then pos + 1
  else skipJsxExpression_loop (Z.to_nat (len t - (pos + 1))) t (pos + 1) 1.

Definition isInsideJsxTag (_t : text) (_pos : Z) : bool := false.

(** [getKeywordBefore]; the loop on [start] is run on [start - 1]. *)
Definition getKeywordBefore (t : text) (endPos : Z) : option text :=
  if (endPos <? 0) || negb (test is_alpha (char_at t endPos)) then None
  else
    let start := scan_back (test is_alpha) t (endPos - 1) + 1 in
    Some (slice t start (endPos + 1)).

Definition objectContextChars : list Z :=
  [c_eq; c_colon; c_lparen; c_lbrack; c_comma; c_quest; c_lparen].

Definition isObjectContext (t : text) (position : Z) : bool :=
  let i := scan_back (test is_space) t (position - 1) in
  if i <? 0 then false
  else if char_is t i c_gt && (0 <? i) && char_is t (i - 1) c_eq then true
  else if existsb (fun c => char_is t i c) objectContextChars then true
  else match getKeywordBefore t i with
       | Some keyword => str_eqb keyword (str "return")
       | None => false
       end.

(** The top-down search of the stack (index 0 is the bottom), names compared
    as they are. *)
Fixpoint findMatchingOpenTag_loop (fuel : nat) (stack : list text) (tagName : text)
    (i : Z) : Z :=
  match fuel with
  | O => -1
  | S f =>
      if 0 <=? i then
        match nth_error stack (Z.to_nat i) with
        | Some s =>
            if str_eqb s tagName then i
            else findMatchingOpenTag_loop f stack tagName (i - 1)
        | None => findMatchingOpenTag_loop f stack tagName (i - 1)
        end
      else -1
  end.

Definition findMatchingOpenTag (stack : list text) (tagName : text) : Z :=
  findMatchingOpenTag_loop (List.length stack) stack tagName (len stack - 1).

Definition matchPropertyKey (t : text) (pos : Z) : option (Z * Z) :=
  let pos := scan_fwd (test is_space) t pos in
  if len t <=? pos then None
  else if test is_ident_start (char_at t pos) then
    let start := pos in
    let pos := scan_fwd (test is_ident_char) t pos in
    let end_ := pos in
    let pos := scan_fwd (test is_space) t pos in
    if char_is t pos c_colon && negb (char_is t (pos + 1) c_colon)
    then Some (start, end_)
    else None
  else None.

Record OpenTag := mkOpenTag {
  o_tagName : text;
  o_nameStart : Z;
  o_nameEnd : Z;
  o_end : Z;
  o_selfClosing : bool
}.

Record CloseTag := mkCloseTag {
  c_tagName : text;
  c_nameStart : Z;
  c_nameEnd : Z;
  c_end : Z
}.

(** The loop of [parseOpeningTag] that looks for the end of the tag: the
    offset after it and whether it is self-closing. *)
Fixpoint parseOpeningTag_loop (fuel : nat) (t : text) (i : Z) (inString : bool)
    (stringChar : option Z) : option (Z * bool) :=
  match fuel with
  | O => None
  | S f =>
      if i <? len t then
        let char := char_at t i in
        if inString then
          if (match char, stringChar with
              | Some c, Some q => c =? q
              | _, _ => false
              end) && negb (char_is t (i - 1) c_backslash)
          then parseOpeningTag_loop f t (i + 1) false stringChar
          else parseOpeningTag_loop f t (i + 1) true stringChar
        else if char_is t i c_dquote || char_is t i c_squote || char_is t i c_lbrace then
          if char_is t i c_lbrace
          then parseOpeningTag_loop f t (skipJsxExpression t i) false stringChar
          else parseOpeningTag_loop f t (i + 1) true char
        else if char_is t i c_slash && char_is t (i + 1) c_gt then Some (i + 2, true)
        else if char_is t i c_gt then Some (i + 1, false)
        else if char_is t i c_lt then None
        else parseOpeningTag_loop f t (i + 1) false stringChar
      else None
  end.

Definition parseOpeningTag (t : text) (pos : Z) : option OpenTag :=
  if negb (char_is t pos c_lt) then None
  else
    let nameStart := pos + 1 in
    if negb (test is_alpha_ (char_at t nameStart)) then None
    else
      let nameEnd := scan_fwd (test is_jsx_name_char) t nameStart in
      let tagName := slice t nameStart nameEnd in
      match parseOpeningTag_loop (Z.to_nat (len t - nameEnd)) t nameEnd false None with
      | Some (e, selfClosing) => Some (mkOpenTag tagName nameStart nameEnd e selfClosing)
      | None => None
      end.

Definition parseClosingTag (t : text) (pos : Z) : option CloseTag :=
  if negb (char_is t pos c_lt) || negb (char_is t (pos + 1) c_slash) then None
  else
    let nameStart := pos + 2 in
    let i := scan_fwd (test is_space) t nameStart in
    let actualNameStart := i in
    if negb (test is_alpha_ (char_at t i)) then None
    else
      let i := scan_fwd (test is_jsx_name_char) t i in
      let tagName := slice t actualNameStart i in
      let nameEnd := i in
      let i := scan_fwd (test is_space) t i in
      if negb (char_is t i c_gt) then None
      else Some (mkCloseTag tagName actualNameStart nameEnd (i + 1)).

(** The variables of [tokenize].  [objectBraceStack] has its top at the head. *)
Record State := mkState {
  st_i : Z;
  st_depth : Z;
  st_tagStack : list text;
  st_inJsxExpression : bool;
  st_jsxExpressionBraceDepth : Z;
  st_objectBraceStack : list Z;
  st_tokens : list Token
}.

Definition set_i (st : State) (i : Z) : State :=
  mkState i (st_depth st) (st_tagStack st) (st_inJsxExpression st)
    (st_jsxExpressionBraceDepth st) (st_objectBraceStack st) (st_tokens st).

Definition push (st : State) (tok : Token) : State :=
  mkState (st_i st) (st_depth st) (st_tagStack st) (st_inJsxExpression st)
    (st_jsxExpressionBraceDepth st) (st_objectBraceStack st) (st_tokens st ++ [tok]).

Definition tok (ty : TokenType) (s e d : Z) : Token := mkToken ty s e d None.
Definition tok_named (ty : TokenType) (s e d : Z) (name : text) : Token :=
  mkToken ty s e d (Some name).

(** The [if (inJsxExpression) { ... continue; }] block. *)
Definition step_expression (cfg : Config) (t : text) (st : State) : State :=
  let i := st_i st in
  let depth := st_depth st in
  if char_is t i c_lbrace then
    if objectBracesEnabled cfg && isObjectContext t i then
      mkState (i + 1) (depth + 1) (st_tagStack st) (st_inJsxExpression st)
        (st_jsxExpressionBraceDepth st + 1) (depth :: st_objectBraceStack st)
        (st_tokens st ++ [tok ObjectBrace i (i + 1) depth])
    else
      mkState (i + 1) depth (st_tagStack st) (st_inJsxExpression st)
        (st_jsxExpressionBraceDepth st + 1) (st_objectBraceStack st) (st_tokens st)
  else if char_is t i c_rbrace then
    let braces := st_jsxExpressionBraceDepth st - 1 in
    if braces =? 0 then
      mkState (i + 1) depth (st_tagStack st) false braces (st_objectBraceStack st)
        (st_tokens st ++ [tok ExpressionEnd i (i + 1) (depth - 1)])
    else
      match st_objectBraceStack st with
      | braceDepth :: rest =>
          mkState (i + 1) (depth - 1) (st_tagStack st) (st_inJsxExpression st) braces rest
            (st_tokens st ++ [tok ObjectBrace i (i + 1) braceDepth])
      | [] =>
          mkState (i + 1) depth (st_tagStack st) (st_inJsxExpression st) braces []
            (st_tokens st)
      end
  else
    match (if colorizeKeys cfg && (0 <? len (st_objectBraceStack st))
           then matchPropertyKey t i else None) with
    | Some (s, e) => set_i (push st (tok PropertyKey s e (depth - 1))) e
    | None =>
        match quote_at t i with
        | Some q => set_i st (skipString t i q)
        | None => set_i st (i + 1)
        end
    end.

(** The closing-tag part of [if (text[i] === '<')]: [None] when control
    falls through to the opening-tag check. *)
Definition step_closing_tag (t : text) (st : State) : option State :=
  let i := st_i st in
  if char_is t (i + 1) c_slash then
    match parseClosingTag t i with
    | Some closeTag =>
        let matchIndex := findMatchingOpenTag (st_tagStack st) (c_tagName closeTag) in
        let poppedCount := len (st_tagStack st) - matchIndex in
        let tagStack := if negb (matchIndex =? -1)
                        then firstn (Z.to_nat matchIndex) (st_tagStack st)
                        else st_tagStack st in
        let depth := if negb (matchIndex =? -1)
                     then st_depth st - poppedCount
                     else st_depth st in
        Some (mkState (c_end closeTag) depth tagStack (st_inJsxExpression st)
                (st_jsxExpressionBraceDepth st) (st_objectBraceStack st)
                (st_tokens st ++
                   [ tok_named JsxClose i (i + 2) depth (c_tagName closeTag);
                     tok_named JsxClose (c_nameStart closeTag) (c_nameEnd closeTag) depth
                       (c_tagName closeTag);
                     tok JsxClose (c_end closeTag - 1) (c_end closeTag) depth ]))
    | None => None
    end
  else None.

(** The opening-tag part: [None] when control falls out of the [<] block. *)
Definition step_opening_tag (t : text) (st : State) : option State :=
  let i := st_i st in
  match parseOpeningTag t i with
  | Some openTag =>
      let currentDepth := st_depth st in
      let head :=
        [ tok_named JsxOpenStart i (i + 1) currentDepth (o_tagName openTag);
          tok_named JsxOpenStart (o_nameStart openTag) (o_nameEnd openTag) currentDepth
            (o_tagName openTag) ] in
      if o_selfClosing openTag then
        Some (mkState (o_end openTag) (st_depth st) (st_tagStack st) (st_inJsxExpression st)
                (st_jsxExpressionBraceDepth st) (st_objectBraceStack st)
                (st_tokens st ++ head ++
                   [tok JsxSelfClose (o_end openTag - 2) (o_end openTag) currentDepth]))
      else
        Some (mkState (o_end openTag) (st_depth st + 1)
                (st_tagStack st ++ [o_tagName openTag]) (st_inJsxExpression st)
                (st_jsxExpressionBraceDepth st) (st_objectBraceStack st)
                (st_tokens st ++ head ++
                   [tok JsxOpenEnd (o_end openTag - 1) (o_end openTag) currentDepth]))
  | None => None
  end.

Definition step_tag (t : text) (st : State) : option State :=
  if char_is t (st_i st) c_lt then
    match step_closing_tag t st with
    | Some st' => Some st'
    | None => step_opening_tag t st
    end
  else None.

(** The rest of the loop body, after the [<] block. *)
Definition step_rest (cfg : Config) (t : text) (st : State) : State :=
  let i := st_i st in
  let depth := st_depth st in
  if char_is t i c_lbrace && (0 <? len (st_tagStack st)) then
    mkState (i + 1) depth (st_tagStack st) true 1 (st_objectBraceStack st)
      (st_tokens st ++ [tok ExpressionStart i (i + 1) (depth - 1)])
  else if objectBracesEnabled cfg && char_is t i c_lbrace && (len (st_tagStack st) =? 0) then
    if isObjectContext t i then
      mkState (i + 1) (depth + 1) (st_tagStack st) (st_inJsxExpression st)
        (st_jsxExpressionBraceDepth st) (depth :: st_objectBraceStack st)
        (st_tokens st ++ [tok ObjectBrace i (i + 1) depth])
    else set_i st (i + 1)
  else
    match (if objectBracesEnabled cfg && char_is t i c_rbrace
              && (len (st_tagStack st) =? 0)
           then st_objectBraceStack st else []) with
    | braceDepth :: rest =>
        mkState (i + 1) (depth - 1) (st_tagStack st) (st_inJsxExpression st)
          (st_jsxExpressionBraceDepth st) rest
          (st_tokens st ++ [tok ObjectBrace i (i + 1) braceDepth])
    | [] =>
        match (if colorizeKeys cfg && (len (st_tagStack st) =? 0)
                  && (0 <? len (st_objectBraceStack st))
               then matchPropertyKey t i else None) with
        | Some (s, e) => set_i (push st (tok PropertyKey s e (depth - 1))) e
        | None => set_i st (i + 1)
        end
    end.

(** One iteration of the [while (i < text.length)] loop of [tokenize]. *)
Definition tokenize_step (cfg : Config) (t : text) (st : State) : State :=
  let i := st_i st in
  if char_is t i c_slash && (i + 1 <? len t) && char_is t (i + 1) c_slash then
    set_i st (skipToEndOfLine t i)
  else if char_is t i c_slash && (i + 1 <? len t) && char_is t (i + 1) c_star then
    set_i st (skipBlockComment t i)
  else
    match (if negb (isInsideJsxTag t i) then quote_at t i else None) with
    | Some q => set_i st (skipString t i q)
    | None =>
        if st_inJsxExpression st then step_expression cfg t st
        else match step_tag t st with
             | Some st' => st'
             | None => step_rest cfg t st
             end
    end.

(** The loop itself.  Every iteration moves [i] forward, so [length t]
    iterations reach the end of the text. *)
Fixpoint tokenize_loop (fuel : nat) (cfg : Config) (t : text) (st : State) : State :=
  match fuel with
  | O => st
  | S f =>
      if st_i st <? len t then tokenize_loop f cfg t (tokenize_step cfg t st) else st
  end.

Definition init : State := mkState 0 0 [] false 0 [] [].

Definition tokenize_state (cfg : Config) (t : text) : State :=
  tokenize_loop (List.length t) cfg t init.

Definition tokenize (cfg : Config) (t : text) : list Token :=
  st_tokens (tokenize_state cfg t).

Definition parse (cfg : Config) (t : text) : list ColoredRange :=
  map (fun token => createColoredRange (start token) (end_ token) (depth token))
    (tokenize cfg t).

End JsxParser.

(** ** ObjectParser *)

Module ObjectParser.

Definition BLOCK_KEYWORDS : list text :=
  map str [ "if"; "else"; "for"; "while"; "do"; "switch"; "try"; "catch"; "finally";
            "with"; "class"; "function"; "async"; "get"; "set" ]%string.

Definition OBJECT_CONTEXT_CHARS : list Z :=
  [c_eq; c_colon; c_lparen; c_lbrack; c_comma; c_quest].

Definition OBJECT_CONTEXT_KEYWORDS : list text := map str [ "return"; "=>" ]%string.

Record BraceMatch := mkBrace {
  position : Z;
  isObject : bool;
  depth : Z
}.

Record PropertyKeyMatch := mkKey {
  start : Z;
  end_ : Z;
  k_depth : Z
}.

(** An entry of [braceStack]. *)
Record Frame := mkFrame {
  f_isObject : bool;
  f_depth : Z
}.

Record Config := mkConfig {
  colorizeKeys : bool;
  objectBracesEnabled : bool
}.

(** A computation that returns or throws a TypeError. *)
Inductive result (A : Type) : Type :=
  | Ok (a : A)
  | Throw.
Arguments Ok {A} a.
Arguments Throw {A}.

Definition bind {A B : Type} (c : result A) (k : A -> result B) : result B :=
  match c with
  | Ok a => k a
  | Throw => Throw
  end.

Notation "x <- c ;; k" := (bind c (fun x => k))
  (at level 61, c at next level, right associativity).

(** [o.field]: a TypeError when [o] is [undefined]. *)
Definition prop {A B : Type} (o : option A) (field : A -> B) : result B :=
  match o with
  | Some a => Ok (field a)
  | None => Throw
  end.

(** [o && o.field]: [undefined] is falsy and ends the conjunction. *)
Definition and_prop {A : Type} (o : option A) (field : A -> bool) : result bool :=
  match o with
  | None => Ok false
  | Some _ => prop o field
  end.

Definition skipToEndOfLine (t : text) (pos : Z) : Z :=
  scan_fwd (fun o => negb (is_char c_nl o)) t pos + 1.

Fixpoint skipBlockComment_loop (fuel : nat) (t : text) (pos : Z) : Z :=
  match fuel with
  | O => len t
  | S f =>
      if pos <? len t - 1 then
        if char_is t pos c_star && char_is t (pos + 1) c_slash then pos + 2
        else skipBlockComment_loop f t (pos + 1)
      else len t
  end.

Definition skipBlockComment (t : text) (pos : Z) : Z :=
  skipBlockComment_loop (Z.to_nat (len t - (pos + 2))) t (pos + 2).

(** [skipString] with a backtick: the loop over the template
    ([skipTemplate_loop], entered after the opening backtick) and the loop
    over an interpolation, which calls [skipString] again on a nested
    backtick. *)
Fixpoint skipTemplate_loop (fuel : nat) (t : text) (pos : Z) {struct fuel} : Z :=
  match fuel with
  | O => pos
  | S f =>
      if pos <? len t then
        if char_is t pos c_backslash then skipTemplate_loop f t (pos + 2)
        else if char_is t pos c_backtick then pos + 1
        else if char_is t pos c_dollar && char_is t (pos + 1) c_lbrace
        then skipTemplate_loop f t (skipInterpolation_loop f t (pos + 2) 1)
        else skipTemplate_loop f t (pos + 1)
      else pos
  end
with skipInterpolation_loop (fuel : nat) (t : text) (pos depth : Z) {struct fuel} : Z :=
  match fuel with
  | O => pos
  | S f =>
      if (pos <? len t) && (0 <? depth) then
        if char_is t pos c_lbrace then skipInterpolation_loop f t (pos + 1) (depth + 1)
        else if char_is t pos c_rbrace then skipInterpolation_loop f t (pos + 1) (depth - 1)
        else if char_is t pos c_backtick
        then skipInterpolation_loop f t (skipTemplate_loop f t (pos + 1)) depth
        else skipInterpolation_loop f t (pos + 1) depth
      else pos
  end.

(** [skipString] with a single or double quote. *)
Fixpoint skipQuoted_loop (fuel : nat) (t : text) (pos quote : Z) : Z :=
  match fuel with
  | O => pos
  | S f =>
      if pos <? len t then
        if char_is t pos c_backslash then skipQuoted_loop f t (pos + 2) quote
        else if char_is t pos quote then pos + 1
        else if char_is t pos c_nl && negb (quote =? c_backtick) then pos
        else skipQuoted_loop f t (pos + 1) quote
      else pos
  end.

Definition skipString (t : text) (pos quote : Z) : Z :=
  if quote =? c_backtick
  then skipTemplate_loop (Z.to_nat (len t - (pos + 1))) t (pos + 1)
  else skipQuoted_loop (Z.to_nat (len t - (pos + 1))) t (pos + 1) quote.

Definition quote_at (t : text) (i : Z) : option Z :=
  match char_at t i with
  | Some c =>
      if (c =? c_dquote) || (c =? c_squote) || (c =? c_backtick) then Some c else None
  | None => None
  end.

(** [getKeywordBefore]; the loop on [start] is run on [start - 1]. *)
Definition getKeywordBefore (t : text) (endPos : Z) : option text :=
  if (endPos <? 0) || negb (test is_alpha (char_at t endPos)) then None
  else
    let start := scan_back (test is_alpha) t (endPos - 1) + 1 in
    Some (slice t start (endPos + 1)).

Definition regexContextChars : list Z :=
  [ c_lparen; c_lbrack; c_lbrace; c_comma; 59; c_colon; c_eq; 33; 38; 124; c_quest;
    43; c_minus; 126; 94 ].

Definition regexKeywords : list text :=
  map str [ "return"; "case"; "throw"; "in"; "typeof"; "instanceof"; "void";
            "delete"; "new" ]%string.

Definition isRegexContext (t : text) (pos : Z) : bool :=
  let i := scan_back (test is_space) t (pos - 1) in
  if i <? 0 then true
  else if existsb (fun c => char_is t i c) regexContextChars then true
  else match getKeywordBefore t i with
       | Some keyword => has regexKeywords keyword
       | None => false
       end.

(** The loop of [skipRegex] over a character class, entered after the [[]. *)
Fixpoint skipClass_loop (fuel : nat) (t : text) (pos : Z) : Z :=
  match fuel with
  | O => pos
  | S f =>
      if (pos <? len t) && negb (char_is t pos c_rbrack) then
        if char_is t pos c_backslash then skipClass_loop f t (pos + 2)
        else skipClass_loop f t (pos + 1)
      else pos
  end.

Fixpoint skipRegex_loop (fuel : nat) (t : text) (pos : Z) : Z :=
  match fuel with
  | O => pos
  | S f =>
      if pos <? len t then
        if char_is t pos c_backslash then skipRegex_loop f t (pos + 2)
        else if char_is t pos c_slash then scan_fwd (test is_regex_flag) t (pos + 1)
        else if char_is t pos c_nl then pos
        else if char_is t pos c_lbrack then
          skipRegex_loop f t
            (skipClass_loop (Z.to_nat (len t - (pos + 1))) t (pos + 1) + 1)
        else skipRegex_loop f t (pos + 1)
      else pos
  end.

Definition skipRegex (t : text) (pos : Z) : Z :=
  skipRegex_loop (Z.to_nat (len t - (pos + 1))) t (pos + 1).

Inductive ParenContext := control | arrow | call | unknown.

(** The backward search of [getParenContext] for the matching [(]. *)
Fixpoint paren_back_loop (fuel : nat) (t : text) (i depth : Z) : Z :=
  match fuel with
  | O => i
  | S f =>
      if (0 <=? i) && (0 <? depth) then
        if char_is t i c_rparen then paren_back_loop f t (i - 1) (depth + 1)
        else if char_is t i c_lparen then paren_back_loop f t (i - 1) (depth - 1)
        else paren_back_loop f t (i - 1) depth
      else i
  end.

Definition getParenContext (t : text) (closeParenPos : Z) : ParenContext :=
  let i := paren_back_loop (Z.to_nat closeParenPos) t (closeParenPos - 1) 1 in
  let openParenPos := i + 1 in
  let j := scan_back (test is_space) t (openParenPos - 1) in
  if j <? 0 then unknown
  else
    if match getKeywordBefore t j with
       | Some keyword => has BLOCK_KEYWORDS keyword
       | None => false
       end
    then control
    else
      let k := scan_fwd (test is_space) t (closeParenPos + 1) in
      if (k <? len t - 1) && char_is t k c_eq && char_is t (k + 1) c_gt then arrow
      else call.

Definition isObjectContext (t : text) (position : Z) : bool :=
  let i := scan_back (test is_space) t (position - 1) in
  if i <? 0 then false
  else if char_is t i c_gt && (0 <? i) && char_is t (i - 1) c_eq then true
  else if existsb (fun c => char_is t i c) OBJECT_CONTEXT_CHARS then true
  else
    match (if char_is t i c_rparen then getParenContext t i else unknown) with
    | control => false
    | arrow | call => true
    | unknown =>
        match getKeywordBefore t i with
        | Some keyword =>
            if has OBJECT_CONTEXT_KEYWORDS keyword then true
            else if has BLOCK_KEYWORDS keyword then false
            else false
        | None => false
        end
    end.

(** The loop of [matchPropertyKey] over a quoted key, entered after the
    opening quote. *)
Fixpoint stringKey_loop (fuel : nat) (t : text) (pos quote : Z) : Z :=
  match fuel with
  | O => pos
  | S f =>
      if (pos <? len t) && negb (char_is t pos quote) then
        if char_is t pos c_backslash then stringKey_loop f t (pos + 2) quote
        else stringKey_loop f t (pos + 1) quote
      else pos
  end.

(** The loop of [matchPropertyKey] over a computed key, entered after the
    opening bracket. *)
Fixpoint computedKey_loop (fuel : nat) (t : text) (pos depth : Z) : Z :=
  match fuel with
  | O => pos
  | S f =>
      if (pos <? len t) && (0 <? depth) then
        if char_is t pos c_lbrack then computedKey_loop f t (pos + 1) (depth + 1)
        else if char_is t pos c_rbrack then computedKey_loop f t (pos + 1) (depth - 1)
        else computedKey_loop f t (pos + 1) depth
      else pos
  end.

(** [text[pos] === ':' && text[pos + 1] !== ':'] *)
Definition colon_at (t : text) (pos : Z) : bool :=
  char_is t pos c_colon && negb (char_is t (pos + 1) c_colon).

(** The three attempts of [matchPropertyKey]; each returns the key ([inl]) or
    hands the position it has reached to the next one ([inr]), as the
    variable [pos] is shared by the three. *)
Definition identifierKey (t : text) (pos : Z) : (Z * Z) + Z :=
  if test is_ident_start (char_at t pos) then
    let start := pos in
    let pos := scan_fwd (test is_ident_char) t pos in
    let end_ := pos in
    let pos := scan_fwd (test is_space) t pos in
    if colon_at t pos then inl (start, end_) else inr pos
  else inr pos.

Definition stringKey (t : text) (pos : Z) : (Z * Z) + Z :=
  if char_is t pos c_dquote || char_is t pos c_squote then
    let quote := match char_at t pos with Some c => c | None => 0 end in
    let start := pos in
    let pos := stringKey_loop (Z.to_nat (len t - (pos + 1))) t (pos + 1) quote in
    if pos <? len t then
      let pos := pos + 1 in
      let end_ := pos in
      let pos := scan_fwd (test is_space) t pos in
      if colon_at t pos then inl (start, end_) else inr pos
    else inr pos
  else inr pos.

Definition computedKey (t : text) (pos : Z) : option (Z * Z) :=
  if char_is t pos c_lbrack then
    let start := pos in
    let pos := computedKey_loop (Z.to_nat (len t - (pos + 1))) t (pos + 1) 1 in
    let end_ := pos in
    let pos := scan_fwd (test is_space) t pos in
    if colon_at t pos then Some (start, end_) else None
  else None.

Definition matchPropertyKey (t : text) (pos : Z) : option (Z * Z) :=
  let pos := scan_fwd (test is_space) t pos in
  if len t <=? pos then None
  else
    match identifierKey t pos with
    | inl key => Some key
    | inr pos =>
        match stringKey t pos with
        | inl key => Some key
        | inr pos => computedKey t pos
        end
    end.

(** The variables of [findObjectBracesAndKeys].  [braceStack] has its top at
    the head. *)
Record State := mkState {
  st_i : Z;
  st_braceStack : list Frame;
  st_braces : list BraceMatch;
  st_propertyKeys : list PropertyKeyMatch
}.

Definition set_i (st : State) (i : Z) : State :=
  mkState i (st_braceStack st) (st_braces st) (st_propertyKeys st).

(** [braceStack.filter(b => b.isObject).length] *)
Definition objectCount (braceStack : list Frame) : Z :=
  len (filter f_isObject braceStack).

(** One iteration of the [while (i < text.length)] loop. *)
Definition step (cfg : Config) (t : text) (st : State) : result State :=
  let i := st_i st in
  if char_is t i c_slash && (i + 1 <? len t) && char_is t (i + 1) c_slash then
    Ok (set_i st (skipToEndOfLine t i))
  else if char_is t i c_slash && (i + 1 <? len t) && char_is t (i + 1) c_star then
    Ok (set_i st (skipBlockComment t i))
  else
    match quote_at t i with
    | Some q => Ok (set_i st (skipString t i q))
    | None =>
        if char_is t i c_slash && isRegexContext t i then Ok (set_i st (skipRegex t i))
        else if char_is t i c_lbrace then
          let isObject := isObjectContext t i in
          let depth := objectCount (st_braceStack st) in
          Ok (mkState (i + 1) (mkFrame isObject depth :: st_braceStack st)
                (if isObject then st_braces st ++ [mkBrace i true depth] else st_braces st)
                (st_propertyKeys st))
        else if char_is t i c_rbrace then
          let context := hd_error (st_braceStack st) in     (* braceStack.pop() *)
          let braceStack := tl (st_braceStack st) in
          b <- and_prop context f_isObject ;;
          if b then
            d <- prop context f_depth ;;
            Ok (mkState (i + 1) braceStack (st_braces st ++ [mkBrace i true d])
                  (st_propertyKeys st))
          else Ok (mkState (i + 1) braceStack (st_braces st) (st_propertyKeys st))
        else
          inObject <-
            (if colorizeKeys cfg && (0 <? len (st_braceStack st))
             then prop (hd_error (st_braceStack st)) f_isObject
             else Ok false) ;;
          match (if inObject then matchPropertyKey t i else None) with
          | Some (s, e) =>
              let currentDepth := objectCount (st_braceStack st) - 1 in
              Ok (mkState e (st_braceStack st) (st_braces st)
                    (st_propertyKeys st ++ [mkKey s e currentDepth]))
          | None => Ok (set_i st (i + 1))
          end
    end.

Fixpoint loop (fuel : nat) (cfg : Config) (t : text) (st : State) : result State :=
  match fuel with
  | O => Ok st
  | S f =>
      if st_i st <? len t then st' <- step cfg t st ;; loop f cfg t st'
      else Ok st
  end.

Definition init : State := mkState 0 [] [] [].

Definition findObjectBracesAndKeys (cfg : Config) (t : text)
    : result (list BraceMatch * list PropertyKeyMatch) :=
  st <- loop (List.length t) cfg t init ;;
  Ok (st_braces st, st_propertyKeys st).

Definition parse (cfg : Config) (t : text) : result (list ColoredRange) :=
  if negb (objectBracesEnabled cfg) then Ok []
  else
    r <- findObjectBracesAndKeys cfg t ;;
    let '(braces, propertyKeys) := r in
    let ranges :=
      map (fun brace => createColoredRange (position brace) (position brace + 1) (depth brace))
        (filter isObject braces) in
    Ok (if colorizeKeys cfg
        then ranges ++
             map (fun key => createColoredRange (start key) (end_ key) (k_depth key))
               propertyKeys
        else ranges).

End ObjectParser.

(** ** configuration.ts *)

Module Configuration.

(** [HtmlRainbowConfig].  [languages] is a [Record<string, boolean>]: the
    look-up of a language id yields a boolean or [undefined]. *)
Record HtmlRainbowConfig := mkConfig {
  enabled : bool;
  colors : list text;
  languages : text -> option bool;
  objectBraces_enabled : bool;
  objectBraces_colorizeKeys : bool;
  debounceMs : Z
}.

Definition DEFAULT_COLORS : list text :=
  map str [ "#E6B800"; "#E65C00"; "#E600E6"; "#7A00E6"; "#0066E6";
            "#00B3E6"; "#00E699"; "#00E600"; "#99E600"; "#E6E600" ]%string.

(** An object literal with boolean values, looked up by key. *)
Fixpoint lookup (entries : list (text * bool)) (key : text) : option bool :=
  match entries with
  | [] => None
  | (k, v) :: rest => if str_eqb k key then Some v else lookup rest key
  end.

Definition DEFAULT_LANGUAGES : text -> option bool :=
  lookup [ (str "html", true); (str "xml", true); (str "javascriptreact", true);
           (str "typescriptreact", true); (str "javascript", true);
           (str "typescript", true) ].

(** [getConfiguration] with no setting changed by the user. *)
Definition defaultConfiguration : HtmlRainbowConfig :=
  mkConfig true DEFAULT_COLORS DEFAULT_LANGUAGES true true 100.

Definition isLanguageEnabled (languageId : text) (config : HtmlRainbowConfig) : bool :=
  if negb (enabled config) then false
  else match languages config languageId with
       | Some b => b
       | None => false
       end.

Definition isHtmlLanguage (languageId : text) : bool :=
  str_eqb languageId (str "html") || str_eqb languageId (str "xml").

Definition isJsxLanguage (languageId : text) : bool :=
  str_eqb languageId (str "javascriptreact") || str_eqb languageId (str "typescriptreact").

Definition isJsTsLanguage (languageId : text) : bool :=
  str_eqb languageId (str "javascript") || str_eqb languageId (str "typescript").

End Configuration.

(** ** decorationManager.ts *)

Module DecorationManager.

(** [vscode.Range], by the two offsets it is built from. *)
Definition Range : Type := (Z * Z)%type.

Definition range (coloredRange : ColoredRange) : Range :=
  (startOffset coloredRange, endOffset coloredRange).

(** A decoration type, created with a colour. *)
Record TextEditorDecorationType := createTextEditorDecorationType { color : text }.

(** A call of [editor.setDecorations]. *)
Record Call := setDecorations {
  decorationType : TextEditorDecorationType;
  levelRanges : list Range
}.

Record Manager := mkManager {
  decorationTypes : list TextEditorDecorationType;
  colors : list text
}.

Definition dispose (_ : Manager) : Manager := mkManager [] [].

(** [createDecorationTypes], which disposes of the types there are and
    creates one for each colour. *)
Definition createDecorationTypes (_ : Manager) (colors : list text) : Manager :=
  mkManager (map createTextEditorDecorationType colors) colors.

(** [new DecorationManager(config)] *)
Definition new (config : Configuration.HtmlRainbowConfig) : Manager :=
  createDecorationTypes (mkManager [] []) (Configuration.colors config).

(** [Map<number, vscode.Range[]>], the entries in the order of insertion. *)
Definition LevelMap : Type := list (Z * list Range).

Fixpoint get (rangesByLevel : LevelMap) (level : Z) : option (list Range) :=
  match rangesByLevel with
  | [] => None
  | (k, l) :: rest => if k =? level then Some l else get rest level
  end.

(** [rangesByLevel.get(level).push(r)], the array found being changed in
    place. *)
Fixpoint push_at (rangesByLevel : LevelMap) (level : Z) (r : Range) : LevelMap :=
  match rangesByLevel with
  | [] => []
  | (k, l) :: rest =>
      if k =? level then (k, l ++ [r]) :: rest
      else (k, l) :: push_at rest level r
  end.

(** [for (let i = 0; i < numColors; i++) rangesByLevel.set(i, [])], from
    [i] on. *)
Fixpoint set_levels (count : nat) (i : Z) : LevelMap :=
  match count with
  | O => []
  | S n => (i, []) :: set_levels n (i + 1)
  end.

(** The loop over [ranges].  [%] is the remainder of JavaScript, which has
    the sign of the depth; [get(level)!] on a level that is no key of the
    map is [undefined], and [push] on it throws. *)
Fixpoint group (numColors : Z) (ranges : list ColoredRange) (rangesByLevel : LevelMap)
    : ObjectParser.result LevelMap :=
  match ranges with
  | [] => ObjectParser.Ok rangesByLevel
  | coloredRange :: rest =>
      let level := Z.rem (depth coloredRange) numColors in
      match get rangesByLevel level with
      | Some _ => group numColors rest (push_at rangesByLevel level (range coloredRange))
      | None => ObjectParser.Throw
      end
  end.

(** The loop over the levels, from [i] on. *)
Fixpoint set_all (types : list TextEditorDecorationType) (i : Z) (rangesByLevel : LevelMap)
    : list Call :=
  match types with
  | [] => []
  | ty :: rest =>
      setDecorations ty (match get rangesByLevel i with Some l => l | None => [] end)
      :: set_all rest (i + 1) rangesByLevel
  end.

(** [applyDecorations]: the calls of [editor.setDecorations] it makes, in
    order. *)
Definition applyDecorations (m : Manager) (ranges : list ColoredRange)
    : ObjectParser.result (list Call) :=
  if len (decorationTypes m) =? 0 then ObjectParser.Ok []
  else
    let numColors := len (decorationTypes m) in
    match group numColors ranges (set_levels (List.length (decorationTypes m)) 0) with
    | ObjectParser.Ok rangesByLevel =>
        ObjectParser.Ok (set_all (decorationTypes m) 0 rangesByLevel)
    | ObjectParser.Throw => ObjectParser.Throw
    end.

Definition clearDecorations (m : Manager) : list Call :=
  map (fun ty => setDecorations ty []) (decorationTypes m).

End DecorationManager.

(** ** extension.ts *)

Module Extension.
Import Configuration DecorationManager.

Inductive Parser := htmlParser | jsxParser | objectParser.

Definition getParser (languageId : text) : option Parser :=
  if isHtmlLanguage languageId then Some htmlParser
  else if isJsxLanguage languageId then Some jsxParser
  else if isJsTsLanguage languageId then Some objectParser
  else None.

(** [parser.parse(document).ranges]; the two script parsers hold the
    settings of the current configuration. *)
Definition parse (config : HtmlRainbowConfig) (parser : Parser) (t : text)
    : ObjectParser.result (list ColoredRange) :=
  match parser with
  | htmlParser => ObjectParser.Ok (HtmlParser.parse t)
  | jsxParser =>
      ObjectParser.Ok (JsxParser.parse
            (JsxParser.mkConfig (objectBraces_colorizeKeys config) (objectBraces_enabled config))
            t)
  | objectParser =>
      ObjectParser.parse
        (ObjectParser.mkConfig (objectBraces_colorizeKeys config) (objectBraces_enabled config))
        t
  end.

(** [updateDecorations] on an editor whose document has the language
    [languageId] and the text [t]: the calls of [editor.setDecorations]. *)
Definition updateDecorations (config : HtmlRainbowConfig) (m : Manager)
    (languageId : text) (t : text) : ObjectParser.result (list Call) :=
  if negb (isLanguageEnabled languageId config) then ObjectParser.Ok (clearDecorations m)
  else
    match getParser languageId with
    | None => ObjectParser.Ok (clearDecorations m)
    | Some parser =>
        match parse config parser t with
        | ObjectParser.Ok ranges => applyDecorations m ranges
        | ObjectParser.Throw => ObjectParser.Throw
        end
    end.

End Extension.

(** ** utils/debounce.ts *)

Module Debounce.

Section DebouncedFunction.

(** The arguments of a call. *)
Variable Args : Type.

(** A timer the host holds after [setTimeout]: its id, its delay, and the
    arguments its callback passes to [func]. *)
Record Timer := mkTimer {
  id : Z;
  delay : Z;
  args : Args
}.

(** The fields [timeoutId] and [wait] of a [DebouncedFunction], with the
    timers of the host that are pending, the id the next [setTimeout]
    returns, and the calls of [func] made so far. *)
Record State := mkState {
  timeoutId : option Z;
  wait : Z;
  timers : list Timer;
  nextId : Z;
  invoked : list Args
}.

(** [new DebouncedFunction(func, wait)] *)
Definition new (wait : Z) : State := mkState None wait [] 0 [].

Definition clearTimeout (timers : list Timer) (timeoutId : Z) : list Timer :=
  filter (fun timer => negb (id timer =? timeoutId)) timers.

Definition cancel (s : State) : State :=
  match timeoutId s with
  | Some timeoutId =>
      mkState None (wait s) (clearTimeout (timers s) timeoutId) (nextId s) (invoked s)
  | None => s
  end.

Definition call (s : State) (a : Args) : State :=
  let s := cancel s in
  mkState (Some (nextId s)) (wait s) (timers s ++ [mkTimer (nextId s) (wait s) a])
    (nextId s + 1) (invoked s).

Definition setWait (s : State) (wait : Z) : State :=
  mkState (timeoutId s) wait (timers s) (nextId s) (invoked s).

Definition dispose (s : State) : State := cancel s.

(** The host runs the callback of the pending timer [timeoutId]:
    [this.func(...args); this.timeoutId = undefined]. *)
Definition expire (s : State) (timeoutId : Z) : State :=
  match find (fun timer => id timer =? timeoutId) (timers s) with
  | Some timer =>
      mkState None (wait s) (clearTimeout (timers s) timeoutId) (nextId s)
        (invoked s ++ [args timer])
  | None => s
  end.

(** What happens to a [DebouncedFunction]: its methods are called, and
    timers expire. *)
Inductive Event :=
  | Call (a : Args)
  | Cancel
  | SetWait (wait : Z)
  | Dispose
  | Expire (timeoutId : Z).

Definition step (s : State) (e : Event) : State :=
  match e with
  | Call a => call s a
  | Cancel => cancel s
  | SetWait w => setWait s w
  | Dispose => dispose s
  | Expire timeoutId => expire s timeoutId
  end.

Definition run (events : list Event) (s : State) : State := fold_left step events s.

End DebouncedFunction.

Arguments mkTimer {Args}.
Arguments mkState {Args}.
Arguments id {Args}.
Arguments delay {Args}.
Arguments args {Args}.
Arguments timeoutId {Args}.
Arguments wait {Args}.
Arguments timers {Args}.
Arguments nextId {Args}.
Arguments invoked {Args}.
Arguments new {Args}.
Arguments cancel {Args}.
Arguments call {Args}.
Arguments setWait {Args}.
Arguments dispose {Args}.
Arguments expire {Args}.
Arguments Call {Args}.
Arguments Cancel {Args}.
Arguments SetWait {Args}.
Arguments Dispose {Args}.
Arguments Expire {Args}.
Arguments step {Args}.
Arguments run {Args}.

End Debounce.

(** * Properties *)

Set Warnings "-register-all".

Arguments has : simpl never.
Arguments str : simpl never.
Arguments scan_fwd : simpl never.
Arguments scan_back : simpl never.

(** ** Facts on strings and on the two scanning loops *)

Lemma len_nonneg {A : Type} (l : list A) : 0 <= len l.
Proof. unfold len. lia. Qed.

Lemma len_app {A : Type} (a b : list A) : len (a ++ b) = len a + len b.
Proof. unfold len. rewrite length_app. lia. Qed.

Lemma len_cons {A : Type} (x : A) (l : list A) : len (x :: l) = 1 + len l.
Proof. unfold len. simpl List.length. lia. Qed.

Lemma len_nil {A : Type} : len (@nil A) = 0.
Proof. reflexivity. Qed.

Lemma str_eqb_eq (a b : text) : str_eqb a b = true <-> a = b.
Proof.
  revert b. induction a as [|x a IH]; intros [|y b]; simpl; split; intro H;
    try reflexivity; try discriminate.
  - apply andb_true_iff in H. destruct H as [Hxy Hab].
    apply Z.eqb_eq in Hxy. apply IH in Hab. congruence.
  - inversion H; subst. rewrite Z.eqb_refl. simpl. apply IH. reflexivity.
Qed.

Lemma str_eqb_refl (a : text) : str_eqb a a = true.
Proof. apply str_eqb_eq. reflexivity. Qed.

Lemma str_eqb_neq (a b : text) : str_eqb a b = false <-> a <> b.
Proof.
  split.
  - intros H E. apply str_eqb_eq in E. congruence.
  - intro H. destruct (str_eqb a b) eqn:E; [|reflexivity].
    apply str_eqb_eq in E. contradiction.
Qed.

Lemma char_at_Some (t : text) (i c : Z) :
  char_at t i = Some c -> 0 <= i < len t.
Proof.
  unfold char_at, len. destruct (i <? 0) eqn:E; [discriminate|].
  intro H. apply Z.ltb_ge in E.
  assert (Hn : (Z.to_nat i < List.length t)%nat)
    by (apply nth_error_Some; congruence).
  lia.
Qed.

Lemma char_at_None (t : text) (i : Z) :
  char_at t i = None <-> i < 0 \/ len t <= i.
Proof.
  unfold char_at, len. destruct (i <? 0) eqn:E.
  - apply Z.ltb_lt in E. split; auto.
  - apply Z.ltb_ge in E. rewrite nth_error_None. lia.
Qed.

Lemma char_at_in_range (t : text) (i : Z) :
  0 <= i < len t -> exists c, char_at t i = Some c.
Proof.
  intro H. destruct (char_at t i) eqn:E; [eauto|].
  apply char_at_None in E. lia.
Qed.

Lemma char_is_true (t : text) (i c : Z) :
  char_is t i c = true <-> char_at t i = Some c.
Proof.
  unfold char_is. destruct (char_at t i) as [d|]; split; intro H; try discriminate.
  - apply Z.eqb_eq in H. congruence.
  - inversion H. apply Z.eqb_refl.
Qed.

Lemma char_is_in_range (t : text) (i c : Z) :
  char_is t i c = true -> 0 <= i < len t.
Proof. intro H. apply char_is_true in H. eapply char_at_Some; eauto. Qed.

Lemma char_is_other (t : text) (i c d : Z) :
  char_is t i c = true -> c <> d -> char_is t i d = false.
Proof.
  intros H Hne. apply char_is_true in H. unfold char_is. rewrite H.
  apply Z.eqb_neq. exact Hne.
Qed.

Lemma char_at_app_l (a b : text) (i : Z) :
  i < len a -> char_at (a ++ b) i = char_at a i.
Proof.
  unfold char_at, len. intro H. destruct (i <? 0) eqn:E; [reflexivity|].
  apply Z.ltb_ge in E. apply nth_error_app1. lia.
Qed.

Lemma char_at_app_r (a b : text) (i : Z) :
  len a <= i -> char_at (a ++ b) i = char_at b (i - len a).
Proof.
  unfold char_at, len. intro H.
  destruct (i <? 0) eqn:E; [apply Z.ltb_lt in E; lia|].
  destruct (i - Z.of_nat (List.length a) <? 0) eqn:E'; [apply Z.ltb_lt in E'; lia|].
  rewrite nth_error_app2 by lia. f_equal. lia.
Qed.

Lemma char_at_cons_0 (c : Z) (t : text) : char_at (c :: t) 0 = Some c.
Proof. reflexivity. Qed.

Lemma Forall_snoc {A : Type} (P : A -> Prop) (l : list A) (x : A) :
  Forall P l -> P x -> Forall P (l ++ [x]).
Proof. intros Hl Hx. apply Forall_app. split; [exact Hl|]. constructor; [exact Hx|constructor]. Qed.

Lemma is_alpha_range (c : Z) :
  is_alpha c = true -> (97 <= c <= 122) \/ (65 <= c <= 90).
Proof.
  unfold is_alpha, is_lower, is_upper. intro H. apply orb_true_iff in H.
  destruct H as [H|H]; apply andb_true_iff in H; destruct H as [H1 H2];
    apply Z.leb_le in H1, H2; [left|right]; lia.
Qed.

Lemma is_alpha_name_char (c : Z) : is_alpha c = true -> is_html_name_char c = true.
Proof. intro H. unfold is_html_name_char. rewrite H. reflexivity. Qed.

(** A name character is none of the characters that delimit a tag. *)
Lemma name_char_not_special (c : Z) :
  is_html_name_char c = true ->
  c <> c_lt /\ c <> c_gt /\ c <> c_slash /\ c <> c_dquote /\ c <> c_squote /\
  c <> c_backslash /\ c <> c_space.
Proof.
  unfold is_html_name_char, is_alpha, is_lower, is_upper, is_digit,
    c_dot, c_underscore, c_colon, c_minus, c_lt, c_gt, c_slash, c_dquote, c_squote,
    c_backslash, c_space.
  intro H. lia.
Qed.

(** The equations of the two loops: the fuel is not visible in them. *)
Lemma scan_fwd_eq (p : option Z -> bool) (t : text) (pos : Z) :
  scan_fwd p t pos =
  if (pos <? len t) && p (char_at t pos) then scan_fwd p t (pos + 1) else pos.
Proof.
  unfold scan_fwd. destruct (pos <? len t) eqn:E.
  - apply Z.ltb_lt in E.
    replace (Z.to_nat (len t - pos)) with (S (Z.to_nat (len t - (pos + 1)))) by lia.
    simpl. apply Z.ltb_lt in E. rewrite E. reflexivity.
  - simpl. destruct (Z.to_nat (len t - pos)); simpl; [reflexivity|].
    rewrite E. reflexivity.
Qed.

Lemma scan_back_eq (p : option Z -> bool) (t : text) (i : Z) :
  scan_back p t i =
  if (0 <=? i) && p (char_at t i) then scan_back p t (i - 1) else i.
Proof.
  unfold scan_back. destruct (0 <=? i) eqn:E.
  - apply Z.leb_le in E.
    replace (Z.to_nat (i + 1)) with (S (Z.to_nat (i - 1 + 1))) by lia.
    simpl. apply Z.leb_le in E. rewrite E. reflexivity.
  - simpl. destruct (Z.to_nat (i + 1)); simpl; [reflexivity|].
    rewrite E. reflexivity.
Qed.

Lemma scan_fwd_loop_ge (fuel : nat) p (t : text) (pos : Z) :
  pos <= scan_fwd_loop fuel p t pos.
Proof.
  revert pos. induction fuel as [|f IH]; intro pos; simpl; [lia|].
  destruct ((pos <? len t) && p (char_at t pos)); [|lia].
  specialize (IH (pos + 1)). lia.
Qed.

Lemma scan_fwd_ge p (t : text) (pos : Z) : pos <= scan_fwd p t pos.
Proof. apply scan_fwd_loop_ge. Qed.

Lemma scan_fwd_loop_le (fuel : nat) p (t : text) (pos : Z) :
  pos <= len t -> scan_fwd_loop fuel p t pos <= len t.
Proof.
  revert pos. induction fuel as [|f IH]; intros pos H; simpl; [lia|].
  destruct (pos <? len t) eqn:E; simpl; [|lia].
  apply Z.ltb_lt in E. destruct (p (char_at t pos)); [|lia].
  apply IH. lia.
Qed.

Lemma scan_fwd_le p (t : text) (pos : Z) :
  pos <= len t -> scan_fwd p t pos <= len t.
Proof. apply scan_fwd_loop_le. Qed.

(** What [scan_fwd] returns: the first position at or after [pos] where the
    text ends or [p] fails. *)
Lemma scan_fwd_spec p (t : text) (pos r : Z) :
  pos <= r ->
  (forall j, pos <= j < r -> j < len t /\ p (char_at t j) = true) ->
  (r < len t -> p (char_at t r) = false) ->
  scan_fwd p t pos = r.
Proof.
  intros Hle Hrun Hstop.
  remember (Z.to_nat (r - pos)) as n eqn:Hn. revert pos Hle Hrun Hn.
  induction n as [|n IH]; intros pos Hle Hrun Hn; rewrite scan_fwd_eq.
  - assert (pos = r) by lia. subst pos.
    destruct (r <? len t) eqn:E; simpl; [|reflexivity].
    apply Z.ltb_lt in E. rewrite (Hstop E). reflexivity.
  - destruct (Hrun pos) as [Hlt Hp]; [lia|].
    apply Z.ltb_lt in Hlt. rewrite Hlt, Hp. simpl.
    apply IH; [lia| |lia]. intros j Hj. apply Hrun. lia.
Qed.

Lemma scan_fwd_stop p (t : text) (pos : Z) :
  scan_fwd p t pos < len t -> p (char_at t (scan_fwd p t pos)) = false.
Proof.
  unfold scan_fwd. remember (Z.to_nat (len t - pos)) as n eqn:Hn.
  assert (Hfuel : len t - pos <= Z.of_nat n) by lia. clear Hn.
  revert pos Hfuel. induction n as [|n IH]; intros pos Hfuel; simpl.
  - lia.
  - destruct (pos <? len t) eqn:E; simpl.
    + destruct (p (char_at t pos)) eqn:Hp; [|intros _; exact Hp].
      apply IH. lia.
    + apply Z.ltb_ge in E. lia.
Qed.

Lemma scan_fwd_run p (t : text) (pos j : Z) :
  pos <= j < scan_fwd p t pos -> p (char_at t j) = true.
Proof.
  unfold scan_fwd. generalize (Z.to_nat (len t - pos)) as n.
  intro n. revert pos. induction n as [|n IH]; intros pos; simpl; [lia|].
  destruct ((pos <? len t) && p (char_at t pos)) eqn:E; [|lia].
  apply andb_true_iff in E. destruct E as [_ Hp].
  intro H. destruct (Z.eq_dec j pos) as [->|Hne]; [exact Hp|].
  apply (IH (pos + 1)). lia.
Qed.

Lemma scan_back_le p (t : text) (i : Z) : scan_back p t i <= i.
Proof.
  unfold scan_back. generalize (Z.to_nat (i + 1)) as n. intro n. revert i.
  induction n as [|n IH]; intro i; simpl; [lia|].
  destruct ((0 <=? i) && p (char_at t i)); [|lia].
  specialize (IH (i - 1)). lia.
Qed.

Lemma scan_back_ge p (t : text) (i : Z) : -1 <= i -> -1 <= scan_back p t i.
Proof.
  unfold scan_back. generalize (Z.to_nat (i + 1)) as n. intro n. revert i.
  induction n as [|n IH]; intros i H; simpl; [lia|].
  destruct (0 <=? i) eqn:E; simpl; [|lia].
  apply Z.leb_le in E. destruct (p (char_at t i)); [|lia].
  apply IH. lia.
Qed.

(** What [scan_back] returns: the first position at or before [i] where the
    text starts or [p] fails. *)
Lemma scan_back_spec p (t : text) (i r : Z) :
  r <= i ->
  (forall j, r < j <= i -> 0 <= j /\ p (char_at t j) = true) ->
  (0 <= r -> p (char_at t r) = false) ->
  scan_back p t i = r.
Proof.
  intros Hle Hrun Hstop.
  remember (Z.to_nat (i - r)) as n eqn:Hn. revert i Hle Hrun Hn.
  induction n as [|n IH]; intros i Hle Hrun Hn; rewrite scan_back_eq.
  - assert (i = r) by lia. subst i.
    destruct (0 <=? r) eqn:E; simpl; [|reflexivity].
    apply Z.leb_le in E. rewrite (Hstop E). reflexivity.
  - destruct (Hrun i) as [Hlt Hp]; [lia|].
    apply Z.leb_le in Hlt. rewrite Hlt, Hp. simpl.
    apply IH; [lia| |lia]. intros j Hj. apply Hrun. lia.
Qed.

(** ** HtmlParser: the replay of the tag sequence against the name stack *)

Module HtmlFacts.
Import HtmlParser.

(** [name] closes the frame [s]: the comparison of [findMatchingOpenTag]. *)
Definition closes (name s : text) : Prop := toLowerCase s = toLowerCase name.

(** [k] is the index of the topmost frame of [stack] that [name] closes. *)
Definition topmost_match (stack : list text) (name : text) (k : nat) : Prop :=
  (exists s, nth_error stack k = Some s /\ closes name s) /\
  (forall j s, (k < j)%nat -> nth_error stack j = Some s -> ~ closes name s).

Definition no_match (stack : list text) (name : text) : Prop :=
  forall j s, nth_error stack j = Some s -> ~ closes name s.

(** A tag that pushes no frame: self-closing, or opening with a void name. *)
Definition pushes_nothing (tag : TagMatch) : Prop :=
  type tag = selfClose \/
  (type tag = open /\ has VOID_ELEMENTS (toLowerCase (tagName tag)) = true).

(** An element as a nest of tags: its opening tag, its closing tag and
    the nests of its children, as found in well-formed markup. *)
Inductive TagNest : Type :=
  | Nest (o c : TagMatch) (children : list TagNest).

Fixpoint tags_of (e : TagNest) : list TagMatch :=
  match e with
  | Nest o c children => o :: flat_map tags_of children ++ [c]
  end.

(** The spans the depth law assigns to an element at nesting level [n]: its
    opening and closing tags at [n], its children one level deeper. *)
Fixpoint spans_at (n : Z) (e : TagNest) : list ColoredRange :=
  match e with
  | Nest o c children =>
      createTagRanges o n ++ flat_map (spans_at (n + 1)) children ++ createTagRanges c n
  end.

(** Well-formed nesting of non-void tags. *)
Fixpoint well_formed (e : TagNest) : Prop :=
  match e with
  | Nest o c children =>
      type o = open /\ type c = close /\
      has VOID_ELEMENTS (toLowerCase (tagName o)) = false /\
      closes (tagName c) (tagName o) /\
      fold_right (fun e' P => well_formed e' /\ P) True children
  end.

(** The spans [parse] adds when it replays [tags] from [stack]. *)
Definition emitted (stack : list text) (tags : list TagMatch) : list ColoredRange :=
  ranges (parse_tags (mkState stack []) tags).

Definition stack_after (stack : list text) (tags : list TagMatch) : list text :=
  tagStack (parse_tags (mkState stack []) tags).

Lemma findMatchingOpenTag_loop_found (fuel : nat) (stack : list text) (lname : text) (i : Z) :
  i < len stack -> i < Z.of_nat fuel ->
  let r := findMatchingOpenTag_loop fuel stack lname i in
  (r = -1 /\ forall j s, (Z.of_nat j <= i) -> nth_error stack j = Some s ->
                         toLowerCase s <> lname) \/
  (0 <= r <= i /\ (exists s, nth_error stack (Z.to_nat r) = Some s /\ toLowerCase s = lname) /\
   forall j s, r < Z.of_nat j <= i -> nth_error stack j = Some s -> toLowerCase s <> lname).
Proof.
  revert i. induction fuel as [|f IH]; intros i Hlen Hfuel; simpl.
  - left. split; [reflexivity|]. intros j s Hj. lia.
  - destruct (0 <=? i) eqn:E.
    + apply Z.leb_le in E.
      destruct (nth_error stack (Z.to_nat i)) as [s|] eqn:Hs.
      * destruct (str_eqb (toLowerCase s) lname) eqn:Heq.
        -- right. apply str_eqb_eq in Heq. split; [lia|]. split; [eauto|].
           intros j s' Hj. lia.
        -- apply str_eqb_neq in Heq.
           destruct (IH (i - 1)) as [[Hr Hno]|[Hr [Hex Hno]]]; [lia|lia| |].
           ++ left. split; [exact Hr|]. intros j s' Hj Hs'.
              destruct (Z.eq_dec (Z.of_nat j) i) as [Hji|Hji].
              ** replace (Z.to_nat i) with j in Hs by lia. congruence.
              ** apply (Hno j); [lia|exact Hs'].
           ++ right. split; [lia|]. split; [exact Hex|].
              intros j s' Hj Hs'.
              destruct (Z.eq_dec (Z.of_nat j) i) as [Hji|Hji].
              ** replace (Z.to_nat i) with j in Hs by lia. congruence.
              ** apply (Hno j); [lia|exact Hs'].
      * apply nth_error_None in Hs. unfold len in Hlen. lia.
    + apply Z.leb_gt in E. left. split; [reflexivity|]. intros j s Hj. lia.
Qed.

(** [findMatchingOpenTag] returns the index of the topmost frame the name
    closes, or -1 when it closes none. *)
Lemma findMatchingOpenTag_spec (stack : list text) (name : text) :
  (findMatchingOpenTag stack name = -1 /\ no_match stack name) \/
  (exists k, findMatchingOpenTag stack name = Z.of_nat k /\ topmost_match stack name k).
Proof.
  unfold findMatchingOpenTag.
  destruct (findMatchingOpenTag_loop_found (List.length stack) stack (toLowerCase name)
              (len stack - 1)) as [[Hr Hno]|[Hr [[s [Hs Heq]] Hno]]];
    try (unfold len; lia).
  - left. split; [exact Hr|]. intros j s Hs. apply (Hno j s); [|exact Hs].
    assert (j < List.length stack)%nat by (apply nth_error_Some; congruence).
    unfold len. lia.
  - right. exists (Z.to_nat (findMatchingOpenTag_loop (List.length stack) stack
                                 (toLowerCase name) (len stack - 1))).
    split; [symmetry; apply Z2Nat.id; apply Hr|]. split.
    + exists s. split; [exact Hs|exact Heq].
    + intros j s' Hj Hs'. apply (Hno j); [|exact Hs'].
      assert (j < List.length stack)%nat by (apply nth_error_Some; congruence).
      unfold len in *. lia.
Qed.

Lemma topmost_match_unique (stack : list text) (name : text) (k k' : nat) :
  topmost_match stack name k -> topmost_match stack name k' -> k = k'.
Proof.
  intros [[s [Hs Hc]] Hk] [[s' [Hs' Hc']] Hk'].
  destruct (Nat.lt_trichotomy k k') as [H|[H|H]]; [|exact H|].
  - exfalso. exact (Hk k' s' H Hs' Hc').
  - exfalso. exact (Hk' k s H Hs Hc).
Qed.

Lemma topmost_match_lt (stack : list text) (name : text) (k : nat) :
  topmost_match stack name k -> (k < List.length stack)%nat.
Proof. intros [[s [Hs _]] _]. apply nth_error_Some. congruence. Qed.

Lemma findMatchingOpenTag_found (stack : list text) (name : text) (k : nat) :
  topmost_match stack name k -> findMatchingOpenTag stack name = Z.of_nat k.
Proof.
  intro Hk. destruct (findMatchingOpenTag_spec stack name) as [[_ Hno]|[k' [Hr Hk']]].
  - destruct Hk as [[s [Hs Hc]] _]. exfalso. exact (Hno k s Hs Hc).
  - rewrite Hr. f_equal. eapply topmost_match_unique; eauto.
Qed.

Lemma findMatchingOpenTag_none (stack : list text) (name : text) :
  no_match stack name -> findMatchingOpenTag stack name = -1.
Proof.
  intro Hno. destruct (findMatchingOpenTag_spec stack name) as [[Hr _]|[k [_ Hk]]].
  - exact Hr.
  - destruct Hk as [[s [Hs Hc]] _]. exfalso. exact (Hno k s Hs Hc).
Qed.

(** Some frame is closed by the name if and only if a topmost one is. *)
Lemma match_has_topmost (stack : list text) (name : text) :
  (exists i s, nth_error stack i = Some s /\ closes name s) ->
  exists k, topmost_match stack name k.
Proof.
  intros [i [s [Hs Hc]]].
  destruct (findMatchingOpenTag_spec stack name) as [[_ Hno]|[k [_ Hk]]].
  - exfalso. exact (Hno i s Hs Hc).
  - exists k. exact Hk.
Qed.

(** The ranges already emitted are a prefix of the result, and the rest
    depends on the stack and the tags only. *)
Lemma parse_tag_ranges (stack : list text) (rs : list ColoredRange) (tag : TagMatch) :
  parse_tag (mkState stack rs) tag =
  mkState (tagStack (parse_tag (mkState stack []) tag))
          (rs ++ ranges (parse_tag (mkState stack []) tag)).
Proof.
  unfold parse_tag. cbn [tagStack ranges]. destruct (type tag).
  - destruct (negb (has VOID_ELEMENTS (toLowerCase (tagName tag)))); reflexivity.
  - reflexivity.
  - reflexivity.
Qed.

Lemma parse_tags_ranges (tags : list TagMatch) (stack : list text) (rs : list ColoredRange) :
  parse_tags (mkState stack rs) tags =
  mkState (stack_after stack tags) (rs ++ emitted stack tags).
Proof.
  unfold stack_after, emitted, parse_tags.
  revert stack rs. induction tags as [|tag tags IH]; intros stack rs; simpl.
  - rewrite app_nil_r. reflexivity.
  - rewrite parse_tag_ranges.
    destruct (parse_tag (mkState stack []) tag) as [s1 r1].
    cbn [tagStack ranges]. rewrite IH. rewrite (IH s1 r1).
    cbn [tagStack ranges]. rewrite app_assoc. reflexivity.
Qed.

Lemma emitted_app (stack : list text) (a b : list TagMatch) :
  emitted stack (a ++ b) = emitted stack a ++ emitted (stack_after stack a) b.
Proof.
  unfold emitted at 1. unfold parse_tags. rewrite fold_left_app.
  fold (parse_tags (mkState stack []) a). rewrite parse_tags_ranges.
  fold (parse_tags (mkState (stack_after stack a) ([] ++ emitted stack a)) b).
  rewrite parse_tags_ranges. reflexivity.
Qed.

Lemma stack_after_app (stack : list text) (a b : list TagMatch) :
  stack_after stack (a ++ b) = stack_after (stack_after stack a) b.
Proof.
  unfold stack_after at 1. unfold parse_tags. rewrite fold_left_app.
  fold (parse_tags (mkState stack []) a). rewrite parse_tags_ranges.
  fold (parse_tags (mkState (stack_after stack a) ([] ++ emitted stack a)) b).
  rewrite parse_tags_ranges. reflexivity.
Qed.

Lemma emitted_cons (stack : list text) (tag : TagMatch) (tags : list TagMatch) :
  emitted stack (tag :: tags) =
  emitted stack [tag] ++ emitted (stack_after stack [tag]) tags.
Proof. apply (emitted_app stack [tag] tags). Qed.

Lemma stack_after_cons (stack : list text) (tag : TagMatch) (tags : list TagMatch) :
  stack_after stack (tag :: tags) = stack_after (stack_after stack [tag]) tags.
Proof. apply (stack_after_app stack [tag] tags). Qed.

(** One tag replayed from [stack], by type. *)
Lemma emitted_open (stack : list text) (tag : TagMatch) :
  type tag = open ->
  emitted stack [tag] = createTagRanges tag (len stack) /\
  stack_after stack [tag] =
    if has VOID_ELEMENTS (toLowerCase (tagName tag)) then stack
    else stack ++ [tagName tag].
Proof.
  intro Ht. unfold emitted, stack_after, parse_tags. cbn [fold_left].
  unfold parse_tag. rewrite Ht. cbn [tagStack ranges].
  destruct (has VOID_ELEMENTS (toLowerCase (tagName tag))); split; reflexivity.
Qed.

Lemma emitted_selfClose (stack : list text) (tag : TagMatch) :
  type tag = selfClose ->
  emitted stack [tag] = createTagRanges tag (len stack) /\
  stack_after stack [tag] = stack.
Proof.
  intro Ht. unfold emitted, stack_after, parse_tags. cbn [fold_left].
  unfold parse_tag. rewrite Ht. split; reflexivity.
Qed.

Lemma emitted_close_found (stack : list text) (tag : TagMatch) (k : nat) :
  type tag = close -> topmost_match stack (tagName tag) k ->
  emitted stack [tag] = createTagRanges tag (Z.of_nat k) /\
  stack_after stack [tag] = firstn k stack.
Proof.
  intros Ht Hk. unfold emitted, stack_after, parse_tags. cbn [fold_left].
  unfold parse_tag. rewrite Ht. cbn [tagStack ranges].
  rewrite (findMatchingOpenTag_found _ _ _ Hk).
  replace (Z.of_nat k =? -1) with false by (symmetry; apply Z.eqb_neq; lia).
  cbn [negb]. rewrite Nat2Z.id.
  assert (Hlen : len (firstn k stack) = Z.of_nat k).
  { unfold len. rewrite length_firstn. apply topmost_match_lt in Hk. lia. }
  rewrite Hlen. split; reflexivity.
Qed.

Lemma emitted_close_none (stack : list text) (tag : TagMatch) :
  type tag = close -> no_match stack (tagName tag) ->
  emitted stack [tag] = createTagRanges tag (len stack) /\
  stack_after stack [tag] = stack.
Proof.
  intros Ht Hno. unfold emitted, stack_after, parse_tags. cbn [fold_left].
  unfold parse_tag. rewrite Ht. cbn [tagStack ranges].
  rewrite (findMatchingOpenTag_none _ _ Hno). split; reflexivity.
Qed.

(** The frame an opening tag has just pushed is the topmost one its closing
    tag closes. *)
Lemma topmost_match_last (stack : list text) (s name : text) :
  closes name s -> topmost_match (stack ++ [s]) name (List.length stack).
Proof.
  intro Hc. split.
  - exists s. split; [|exact Hc].
    rewrite nth_error_app2 by lia. rewrite Nat.sub_diag. reflexivity.
  - intros j s' Hj Hs'.
    assert (j < List.length (stack ++ [s]))%nat by (apply nth_error_Some; congruence).
    rewrite length_app in H. simpl in H. lia.
Qed.

Lemma TagNest_induction (P : TagNest -> Prop) :
  (forall o c children, Forall P children -> P (Nest o c children)) ->
  forall e, P e.
Proof.
  intro H. fix IH 1. intros [o c children]. apply H.
  induction children as [|e children IHc]; constructor.
  - apply IH.
  - exact IHc.
Qed.

Lemma well_formed_children (children : list TagNest) :
  fold_right (fun e' P => well_formed e' /\ P) True children ->
  Forall well_formed children.
Proof.
  induction children as [|e children IH]; intro H; constructor.
  - apply H.
  - apply IH. apply H.
Qed.

Lemma emitted_forest (forest : list TagNest) :
  Forall (fun e => forall stack, well_formed e ->
            emitted stack (tags_of e) = spans_at (len stack) e /\
            stack_after stack (tags_of e) = stack) forest ->
  forall stack, Forall well_formed forest ->
    emitted stack (flat_map tags_of forest) = flat_map (spans_at (len stack)) forest /\
    stack_after stack (flat_map tags_of forest) = stack.
Proof.
  induction 1 as [|e forest He _ IH]; intros stack Hwf.
  - split; reflexivity.
  - inversion Hwf as [|? ? Hwe Hwr]; subst.
    destruct (He stack Hwe) as [He1 He2]. destruct (IH stack Hwr) as [Hr1 Hr2].
    cbn [flat_map]. rewrite emitted_app, stack_after_app, He1, He2, Hr1, Hr2.
    split; reflexivity.
Qed.

(** The balanced depth law on the tag sequence of one element. *)
Lemma emitted_element (e : TagNest) :
  forall stack, well_formed e ->
    emitted stack (tags_of e) = spans_at (len stack) e /\
    stack_after stack (tags_of e) = stack.
Proof.
  induction e as [o c children IH] using TagNest_induction.
  intros stack Hwf. cbn [well_formed] in Hwf.
  destruct Hwf as [Ho [Hc [Hvoid [Hcl Hch]]]].
  apply well_formed_children in Hch.
  destruct (emitted_open stack o Ho) as [Eo So]. rewrite Hvoid in So.
  destruct (emitted_forest children IH (stack ++ [tagName o]) Hch) as [Eb Sb].
  destruct (emitted_close_found (stack ++ [tagName o]) c (List.length stack) Hc
              (topmost_match_last stack (tagName o) (tagName c) Hcl)) as [Ec Sc].
  assert (Hpop : firstn (List.length stack) (stack ++ [tagName o]) = stack).
  { rewrite firstn_app, firstn_all, Nat.sub_diag. cbn [firstn]. apply app_nil_r. }
  rewrite Hpop in Sc.
  replace (len (stack ++ [tagName o])) with (len stack + 1) in Eb
    by (rewrite len_app; reflexivity).
  cbn [tags_of spans_at]. split.
  - rewrite emitted_cons, Eo, So, emitted_app, Eb, Sb, Ec. reflexivity.
  - rewrite stack_after_cons, So, stack_after_app, Sb, Sc. reflexivity.
Qed.

(** A tag that pushes nothing, replayed anywhere in a tag sequence: the
    spans of the others and the stack are what they are without it. *)
Lemma emitted_insert (stack : list text) (pre post : list TagMatch) (v : TagMatch) :
  pushes_nothing v ->
  emitted stack (pre ++ v :: post) =
    emitted stack pre ++ createTagRanges v (len (stack_after stack pre))
      ++ emitted (stack_after stack pre) post /\
  emitted stack (pre ++ post) = emitted stack pre ++ emitted (stack_after stack pre) post /\
  stack_after stack (pre ++ [v]) = stack_after stack pre /\
  stack_after stack (pre ++ v :: post) = stack_after stack (pre ++ post).
Proof.
  intro Hv.
  assert (H1 : emitted (stack_after stack pre) [v] =
               createTagRanges v (len (stack_after stack pre)) /\
               stack_after (stack_after stack pre) [v] = stack_after stack pre).
  { destruct Hv as [Hs|[Ho Hvoid]].
    - apply emitted_selfClose. exact Hs.
    - destruct (emitted_open (stack_after stack pre) v Ho) as [E S].
      rewrite Hvoid in S. split; assumption. }
  destruct H1 as [E S].
  repeat split.
  - rewrite emitted_app, emitted_cons, E, S. reflexivity.
  - apply emitted_app.
  - rewrite stack_after_app. exact S.
  - rewrite !stack_after_app, stack_after_cons, S. reflexivity.
Qed.

Lemma createTagRanges_depth (tag : TagMatch) (d : Z) :
  map Types.depth (createTagRanges tag d) = [d; d; d].
Proof. unfold createTagRanges. destruct (type tag); reflexivity. Qed.

Lemma createTagRanges_nonneg (tag : TagMatch) (d : Z) :
  0 <= d -> Forall (fun r => 0 <= Types.depth r) (createTagRanges tag d).
Proof.
  intro H. unfold createTagRanges.
  destruct (type tag); repeat constructor; cbn; exact H.
Qed.

Lemma parse_tag_nonneg (st : State) (tag : TagMatch) :
  Forall (fun r => 0 <= Types.depth r) (ranges st) ->
  Forall (fun r => 0 <= Types.depth r) (ranges (parse_tag st tag)).
Proof.
  intro H. unfold parse_tag. destruct (type tag).
  - destruct (negb (has VOID_ELEMENTS (toLowerCase (tagName tag))));
      cbn [ranges]; apply Forall_app; split; try exact H;
      apply createTagRanges_nonneg; apply len_nonneg.
  - cbn [ranges]. apply Forall_app. split; [exact H|].
    apply createTagRanges_nonneg. apply len_nonneg.
  - cbn [ranges]. apply Forall_app. split; [exact H|].
    apply createTagRanges_nonneg. apply len_nonneg.
Qed.

Lemma parse_tags_nonneg (tags : list TagMatch) (st : State) :
  Forall (fun r => 0 <= Types.depth r) (ranges st) ->
  Forall (fun r => 0 <= Types.depth r) (ranges (parse_tags st tags)).
Proof.
  unfold parse_tags. revert st. induction tags as [|tag tags IH]; intros st H; simpl.
  - exact H.
  - apply IH. apply parse_tag_nonneg. exact H.
Qed.

End HtmlFacts.

(** ** HtmlParser: the scan for tags *)

Module HtmlScan.
Import HtmlParser.

(** [findTagEnd] entered at [i] with the loop variables [inString] and
    [stringChar]. *)
Definition tagEnd_from (t : text) (i : Z) (inString : bool) (stringChar : option Z)
    (isClosing : bool) : option (Z * bool) :=
  findTagEnd_loop (Z.to_nat (len t - i)) t i inString stringChar isClosing.

(** [findAllTags] entered with [lastIndex = i]. *)
Definition tags_from (t : text) (i : Z) : list TagMatch :=
  findAllTags_loop (Z.to_nat (len t - i + 1)) t i [].

(** The equation of the loop of [findTagEnd]. *)
Lemma tagEnd_from_eq (t : text) (i : Z) (inString : bool) (stringChar : option Z)
    (isClosing : bool) :
  tagEnd_from t i inString stringChar isClosing =
  if i <? len t then
    if inString then
      if (match char_at t i, stringChar with
          | Some c, Some q => c =? q
          | _, _ => false
          end) && negb (char_is t (i - 1) c_backslash)
      then tagEnd_from t (i + 1) false stringChar isClosing
      else tagEnd_from t (i + 1) true stringChar isClosing
    else if char_is t i c_dquote || char_is t i c_squote then
      tagEnd_from t (i + 1) true (char_at t i) isClosing
    else if char_is t i c_gt then
      Some (i + 1, negb isClosing && char_is t (i - 1) c_slash)
    else if char_is t i c_lt then None
    else tagEnd_from t (i + 1) false stringChar isClosing
  else None.
Proof.
  unfold tagEnd_from. destruct (i <? len t) eqn:E.
  - apply Z.ltb_lt in E.
    replace (Z.to_nat (len t - i)) with (S (Z.to_nat (len t - (i + 1)))) by lia.
    cbn [findTagEnd_loop]. apply Z.ltb_lt in E. rewrite E. reflexivity.
  - destruct (Z.to_nat (len t - i)); cbn [findTagEnd_loop]; [reflexivity|].
    rewrite E. reflexivity.
Qed.

Lemma findTagEnd_tagEnd_from (t : text) (startPos : Z) (isClosing : bool) :
  findTagEnd t startPos isClosing = tagEnd_from t startPos false None isClosing.
Proof. reflexivity. Qed.

(** The equation of the search [exec] makes for the next match. *)
Lemma exec_eq (t : text) (i : Z) :
  exec t i =
  if i <? len t then
    match tagStart_at t i with
    | Some (isClosing, ns, ne) => Some (i, isClosing, ns, ne)
    | None => exec t (i + 1)
    end
  else None.
Proof.
  unfold exec. destruct (i <? len t) eqn:E.
  - apply Z.ltb_lt in E.
    replace (Z.to_nat (len t - i)) with (S (Z.to_nat (len t - (i + 1)))) by lia.
    cbn [exec_loop]. apply Z.ltb_lt in E. rewrite E. reflexivity.
  - destruct (Z.to_nat (len t - i)); cbn [exec_loop]; [reflexivity|].
    rewrite E. reflexivity.
Qed.

(** A match starts with [<], is at least two characters long and ends inside
    the text. *)
Lemma tagStart_at_bounds (t : text) (i : Z) (isClosing : bool) (ns ne : Z) :
  tagStart_at t i = Some (isClosing, ns, ne) ->
  char_is t i c_lt = true /\ 0 <= i /\
  ns = (if isClosing then i + 2 else i + 1) /\ ns < ne <= len t.
Proof.
  unfold tagStart_at. destruct (char_is t i c_lt) eqn:Hlt; [|discriminate].
  pose proof (char_is_in_range _ _ _ Hlt) as Hi.
  assert (Hns : forall j, name_start_at t j = true -> 0 <= j < len t).
  { intros j Hj. unfold name_start_at in Hj.
    destruct (char_at t j) eqn:E; [|discriminate]. eapply char_at_Some; eauto. }
  destruct (char_is t (i + 1) c_slash && name_start_at t (i + 2)) eqn:E1.
  - apply andb_true_iff in E1. destruct E1 as [_ E1]. apply Hns in E1.
    intro H. inversion H; subst. split; [reflexivity|]. split; [lia|]. split; [reflexivity|].
    pose proof (scan_fwd_ge name_char_at t (i + 3)).
    pose proof (scan_fwd_le name_char_at t (i + 3)). lia.
  - destruct (name_start_at t (i + 1)) eqn:E2; [|discriminate]. apply Hns in E2.
    intro H. inversion H; subst. split; [reflexivity|]. split; [lia|]. split; [reflexivity|].
    pose proof (scan_fwd_ge name_char_at t (i + 2)).
    pose proof (scan_fwd_le name_char_at t (i + 2)). lia.
Qed.

Lemma tagStart_at_not_lt (t : text) (i : Z) :
  char_is t i c_lt = false -> tagStart_at t i = None.
Proof. intro H. unfold tagStart_at. rewrite H. reflexivity. Qed.

(** [exec] passes over positions where no match starts. *)
Lemma exec_skip (t : text) (i k : Z) :
  i <= k -> (forall j, i <= j < k -> tagStart_at t j = None) -> exec t i = exec t k.
Proof.
  intros Hle Hno. remember (Z.to_nat (k - i)) as n eqn:Hn. revert i Hle Hno Hn.
  induction n as [|n IH]; intros i Hle Hno Hn.
  - replace i with k by lia. reflexivity.
  - rewrite exec_eq. destruct (i <? len t) eqn:E.
    + rewrite (Hno i) by lia. apply IH; [lia| |lia]. intros j Hj. apply Hno. lia.
    + apply Z.ltb_ge in E. rewrite (exec_eq t k).
      replace (k <? len t) with false by (symmetry; apply Z.ltb_ge; lia). reflexivity.
Qed.

Lemma exec_found (t : text) (i k : Z) (isClosing : bool) (ns ne : Z) :
  i <= k -> (forall j, i <= j < k -> tagStart_at t j = None) ->
  tagStart_at t k = Some (isClosing, ns, ne) ->
  exec t i = Some (k, isClosing, ns, ne).
Proof.
  intros Hle Hno Hk. rewrite (exec_skip t i k Hle Hno). rewrite exec_eq.
  destruct (tagStart_at_bounds _ _ _ _ _ Hk) as [Hlt _].
  apply char_is_in_range in Hlt.
  replace (k <? len t) with true by (symmetry; apply Z.ltb_lt; lia).
  rewrite Hk. reflexivity.
Qed.

Lemma exec_none (t : text) (i : Z) :
  (forall j, i <= j < len t -> tagStart_at t j = None) -> exec t i = None.
Proof.
  intro Hno. destruct (Z_lt_le_dec i (len t)) as [Hlt|Hge].
  - rewrite (exec_skip t i (len t)) by (auto; lia). rewrite exec_eq.
    rewrite Z.ltb_irrefl. reflexivity.
  - rewrite exec_eq. replace (i <? len t) with false by (symmetry; apply Z.ltb_ge; lia).
    reflexivity.
Qed.

(** What [exec] returns: the leftmost match at or after [i]. *)
Lemma exec_Some (t : text) (i k : Z) (isClosing : bool) (ns ne : Z) :
  exec t i = Some (k, isClosing, ns, ne) ->
  i <= k /\ tagStart_at t k = Some (isClosing, ns, ne) /\
  forall j, i <= j < k -> tagStart_at t j = None.
Proof.
  unfold exec. generalize (Z.to_nat (len t - i)) as n. intro n. revert i.
  induction n as [|n IH]; intros i H; cbn [exec_loop] in H; [discriminate|].
  destruct (i <? len t); [|discriminate].
  destruct (tagStart_at t i) as [[[c ns'] ne']|] eqn:E.
  - inversion H; subst. split; [lia|]. split; [exact E|]. intros j Hj. lia.
  - destruct (IH (i + 1) H) as [H1 [H2 H3]]. split; [lia|]. split; [exact H2|].
    intros j Hj. destruct (Z.eq_dec j i) as [->|Hne]; [exact E|]. apply H3. lia.
Qed.

(** The tags already found are a prefix of the result. *)
Lemma findAllTags_loop_acc (fuel : nat) (t : text) (i : Z) (tags : list TagMatch) :
  findAllTags_loop fuel t i tags = tags ++ findAllTags_loop fuel t i [].
Proof.
  revert i tags. induction fuel as [|f IH]; intros i tags; cbn [findAllTags_loop].
  - rewrite app_nil_r. reflexivity.
  - destruct (exec t i) as [[[[k c] ns] ne]|]; [|rewrite app_nil_r; reflexivity].
    destruct (tag_of_match t (k, c, ns, ne)) as [tag|].
    + cbn [app]. rewrite IH. rewrite (IH ne [tag]). rewrite app_assoc. reflexivity.
    + apply IH.
Qed.

(** Every iteration moves [lastIndex] forward, so the iterations allowed by
    the length of the text are enough: more of them change nothing. *)
Lemma findAllTags_loop_fuel (f1 f2 : nat) (t : text) (i : Z) :
  len t - i + 1 <= Z.of_nat f1 -> len t - i + 1 <= Z.of_nat f2 ->
  findAllTags_loop f1 t i [] = findAllTags_loop f2 t i [].
Proof.
  revert f2 i. induction f1 as [|f1 IH]; intros f2 i H1 H2.
  - destruct f2 as [|f2]; [reflexivity|]. cbn [findAllTags_loop].
    rewrite exec_eq. replace (i <? len t) with false by (symmetry; apply Z.ltb_ge; lia).
    reflexivity.
  - destruct f2 as [|f2].
    + cbn [findAllTags_loop].
      rewrite exec_eq. replace (i <? len t) with false by (symmetry; apply Z.ltb_ge; lia).
      reflexivity.
    + cbn [findAllTags_loop].
      destruct (exec t i) as [[[[k c] ns] ne]|] eqn:E; [|reflexivity].
      destruct (exec_Some _ _ _ _ _ _ E) as [Hk [Hm _]].
      destruct (tagStart_at_bounds _ _ _ _ _ Hm) as [_ [_ [Hns Hne]]].
      assert (i < ne) by (destruct c; lia).
      destruct (tag_of_match t (k, c, ns, ne)) as [tag|].
      * cbn [app]. rewrite findAllTags_loop_acc. rewrite (findAllTags_loop_acc f2).
        f_equal. apply IH; lia.
      * apply IH; lia.
Qed.

(** The equation of the loop of [findAllTags]. *)
Lemma tags_from_eq (t : text) (i : Z) :
  tags_from t i =
  match exec t i with
  | None => []
  | Some (k, isClosing, ns, ne) =>
      match tag_of_match t (k, isClosing, ns, ne) with
      | None => tags_from t ne
      | Some tag => tag :: tags_from t ne
      end
  end.
Proof.
  unfold tags_from at 1.
  destruct (Z.to_nat (len t - i + 1)) as [|f] eqn:Ef.
  - cbn [findAllTags_loop]. rewrite exec_eq.
    replace (i <? len t) with false by (symmetry; apply Z.ltb_ge; lia). reflexivity.
  - cbn [findAllTags_loop].
    destruct (exec t i) as [[[[k c] ns] ne]|] eqn:E; [|reflexivity].
    destruct (exec_Some _ _ _ _ _ _ E) as [Hk [Hm _]].
    destruct (tagStart_at_bounds _ _ _ _ _ Hm) as [_ [_ [Hns Hne]]].
    assert (i < ne) by (destruct c; lia).
    destruct (tag_of_match t (k, c, ns, ne)) as [tag|].
    + rewrite findAllTags_loop_acc. cbn [app]. f_equal.
      apply findAllTags_loop_fuel; lia.
    + apply findAllTags_loop_fuel; lia.
Qed.

Lemma findAllTags_tags_from (t : text) : findAllTags t = tags_from t 0.
Proof.
  unfold findAllTags, tags_from. f_equal. unfold len. lia.
Qed.

End HtmlScan.

(** ** Markup as text: the documents the laws on markup are stated for *)

Module Markup.
Import HtmlParser.

(** A piece of what stands between the name of a tag and its closing
    bracket: one character outside quotes, or a quoted value. *)
Inductive AttrPiece : Type :=
  | Plain (c : Z)
  | Quoted (q : Z) (body : text).

Definition render_piece (p : AttrPiece) : text :=
  match p with
  | Plain c => [c]
  | Quoted q body => q :: body ++ [q]
  end.

Definition render_attrs (attrs : list AttrPiece) : text := flat_map render_piece attrs.

(** An item of a document: character data, or a tag. *)
Inductive Item : Type :=
  | Chars (s : text)
  | Tag (ty : TagType) (name : text) (attrs : list AttrPiece).

Definition closing_bracket (ty : TagType) : text :=
  match ty with
  | selfClose => [c_slash; c_gt]
  | _ => [c_gt]
  end.

Definition opening_bracket (ty : TagType) : text :=
  match ty with
  | close => [c_lt; c_slash]
  | _ => [c_lt]
  end.

Definition render_tag (ty : TagType) (name : text) (attrs : list AttrPiece) : text :=
  opening_bracket ty ++ name ++ render_attrs attrs ++ closing_bracket ty.

Definition render_item (it : Item) : text :=
  match it with
  | Chars s => s
  | Tag ty name attrs => render_tag ty name attrs
  end.

Definition render (items : list Item) : text := flat_map render_item items.

(** A name the tag pattern captures whole. *)
Definition valid_name (name : text) : Prop :=
  match name with
  | [] => False
  | a :: rest => is_alpha a = true /\ forallb is_html_name_char rest = true
  end.

Definition ok_piece (p : AttrPiece) : Prop :=
  match p with
  | Plain c => c <> c_lt /\ c <> c_gt /\ c <> c_dquote /\ c <> c_squote
  | Quoted q body =>
      (q = c_dquote \/ q = c_squote) /\ ~ In q body /\ ~ In c_lt body /\
      last body 0 <> c_backslash
  end.

(** Character data holds no [<].  The attributes of a tag are well-quoted
    pieces that do not start with a name character; those of an opening tag
    do not end with a slash. *)
Definition ok_item (it : Item) : Prop :=
  match it with
  | Chars s => ~ In c_lt s
  | Tag ty name attrs =>
      valid_name name /\ Forall ok_piece attrs /\
      match render_attrs attrs with
      | [] => True
      | c :: _ => is_html_name_char c = false
      end /\
      (ty = open -> last (render_attrs attrs) 0 <> c_slash)
  end.

(** The tag [findAllTags] is to find for a tag rendered at offset [off]. *)
Definition tag_at (off : Z) (ty : TagType) (name : text) (attrs : list AttrPiece)
    : TagMatch :=
  let ns := off + len (opening_bracket ty) in
  mkTag ty name off (off + len (render_tag ty name attrs)) ns (ns + len name).

Fixpoint tag_seq (off : Z) (items : list Item) : list TagMatch :=
  match items with
  | [] => []
  | Chars s :: rest => tag_seq (off + len s) rest
  | Tag ty name attrs :: rest =>
      tag_at off ty name attrs :: tag_seq (off + len (render_tag ty name attrs)) rest
  end.

(** The text [x] stands in [t] at offset [off]. *)
Definition text_at (t : text) (off : Z) (x : text) : Prop :=
  0 <= off <= len t /\
  forall j c, nth_error x j = Some c -> char_at t (off + Z.of_nat j) = Some c.

End Markup.

(** ** HtmlParser on rendered markup: every tag is found where it stands *)

Module HtmlLex.
Import HtmlParser Markup HtmlScan.

Lemma text_at_nil (t : text) (off : Z) : 0 <= off <= len t -> text_at t off [].
Proof. intro H. split; [exact H|]. intros [|j] c Hj; discriminate. Qed.

Lemma text_at_cons (t : text) (off c : Z) (x : text) :
  text_at t off (c :: x) <-> char_at t off = Some c /\ text_at t (off + 1) x.
Proof.
  split.
  - intros [H0 H]. split.
    + specialize (H 0%nat c eq_refl). rewrite Z.add_0_r in H. exact H.
    + pose proof (H 0%nat c eq_refl) as Hc. rewrite Z.add_0_r in Hc.
      apply char_at_Some in Hc.
      split; [lia|]. intros j d Hj. specialize (H (S j) d Hj).
      replace (off + 1 + Z.of_nat j) with (off + Z.of_nat (S j)) by lia. exact H.
  - intros [Hc [H0 H]]. pose proof (char_at_Some _ _ _ Hc) as Hr.
    split; [lia|]. intros [|j] d Hj.
    + inversion Hj; subst. rewrite Z.add_0_r. exact Hc.
    + specialize (H j d Hj).
      replace (off + Z.of_nat (S j)) with (off + 1 + Z.of_nat j) by lia. exact H.
Qed.

Lemma text_at_app (t : text) (off : Z) (x y : text) :
  text_at t off (x ++ y) <-> text_at t off x /\ text_at t (off + len x) y.
Proof.
  revert off. induction x as [|c x IH]; intro off.
  - cbn [app]. rewrite len_nil, Z.add_0_r. split.
    + intro H. split; [apply text_at_nil; apply H|exact H].
    + intros [_ H]. exact H.
  - cbn [app]. rewrite !text_at_cons, IH, len_cons.
    replace (off + 1 + len x) with (off + (1 + len x)) by lia. tauto.
Qed.

Lemma text_at_mid (P x R : text) : text_at (P ++ x ++ R) (len P) x.
Proof.
  split; [rewrite len_app; pose proof (len_nonneg P); pose proof (len_nonneg (x ++ R)); lia|].
  intros j c Hj.
  rewrite char_at_app_r by lia.
  replace (len P + Z.of_nat j - len P) with (Z.of_nat j) by lia.
  assert (Hlt : (j < List.length x)%nat) by (apply nth_error_Some; congruence).
  rewrite char_at_app_l by (unfold len; lia).
  unfold char_at. replace (Z.of_nat j <? 0) with false by (symmetry; apply Z.ltb_ge; lia).
  rewrite Nat2Z.id. exact Hj.
Qed.

Lemma text_at_in (t : text) (off : Z) (x : text) (j : Z) :
  text_at t off x -> off <= j < off + len x ->
  exists c, char_at t j = Some c /\ In c x.
Proof.
  intros [H0 H] Hj.
  destruct (nth_error x (Z.to_nat (j - off))) as [c|] eqn:E.
  - exists c. split.
    + specialize (H _ _ E). rewrite Z2Nat.id in H by lia.
      replace (off + (j - off)) with j in H by lia. exact H.
    + eapply nth_error_In; eauto.
  - apply nth_error_None in E. unfold len in Hj. lia.
Qed.

Lemma text_at_end (t : text) (off : Z) (x : text) :
  text_at t off x -> off + len x <= len t.
Proof.
  intros Hx. destruct x as [|c x] using rev_ind.
  - rewrite len_nil. destruct Hx as [H0 _]. lia.
  - clear IHx. apply text_at_app in Hx. destruct Hx as [_ Hc].
    apply text_at_cons in Hc. destruct Hc as [Hc _].
    apply char_at_Some in Hc. rewrite len_app, len_cons, len_nil. lia.
Qed.

(** [slice] gives back a text that stands there. *)
Lemma slice_text_at (t : text) (off : Z) (x : text) :
  text_at t off x -> slice t off (off + len x) = x.
Proof.
  intros Hx. unfold slice. replace (off + len x - off) with (len x) by lia.
  unfold len. rewrite Nat2Z.id.
  destruct Hx as [H0 H]. revert off H0 H. induction x as [|c x IH]; intros off H0 H.
  - reflexivity.
  - assert (Hc : char_at t off = Some c).
    { specialize (H 0%nat c eq_refl). rewrite Z.add_0_r in H. exact H. }
    unfold char_at in Hc. replace (off <? 0) with false in Hc by (symmetry; apply Z.ltb_ge; lia).
    destruct (skipn (Z.to_nat off) t) as [|d rest] eqn:Es.
    + assert (Hs : nth_error (skipn (Z.to_nat off) t) 0 = Some c)
        by (rewrite nth_error_skipn, Nat.add_0_r; exact Hc).
      rewrite Es in Hs. discriminate.
    + assert (Hs : nth_error (skipn (Z.to_nat off) t) 0 = Some c)
        by (rewrite nth_error_skipn, Nat.add_0_r; exact Hc).
      rewrite Es in Hs. inversion Hs; subst d. cbn [List.length firstn]. f_equal.
      specialize (IH (off + 1)).
      replace (Z.to_nat (off + 1)) with (S (Z.to_nat off)) in IH by lia.
      assert (Hrest : skipn (S (Z.to_nat off)) t = rest).
      { replace (S (Z.to_nat off)) with (1 + Z.to_nat off)%nat by lia.
        rewrite <- skipn_skipn, Es. reflexivity. }
      assert (Hlt : (Z.to_nat off < List.length t)%nat)
        by (apply nth_error_Some; congruence).
      rewrite Hrest in IH. apply IH; [unfold len in *; lia|].
      intros j e Hj. specialize (H (S j) e Hj).
      replace (off + 1 + Z.of_nat j) with (off + Z.of_nat (S j)) by lia. exact H.
Qed.

(** [scan_fwd] runs over a text that stands there and satisfies the test,
    up to a character that fails it. *)
Lemma scan_fwd_text_at (p : option Z -> bool) (t : text) (pos : Z) (x : text) :
  text_at t pos x ->
  (forall c, In c x -> p (Some c) = true) ->
  (pos + len x < len t -> p (char_at t (pos + len x)) = false) ->
  scan_fwd p t pos = pos + len x.
Proof.
  intros Hx Hp Hstop. apply scan_fwd_spec.
  - pose proof (len_nonneg x). lia.
  - intros j Hj. pose proof (text_at_end _ _ _ Hx).
    destruct (text_at_in t pos x j Hx Hj) as [c [Hc Hin]].
    split; [lia|]. rewrite Hc. apply Hp. exact Hin.
  - exact Hstop.
Qed.

Lemma text_at_last (t : text) (off : Z) (x : text) (d : Z) :
  text_at t off x -> x <> [] -> char_at t (off + len x - 1) = Some (last x d).
Proof.
  intros Hx Hne. destruct (exists_last Hne) as [x' [c ->]].
  rewrite last_last. apply text_at_app in Hx. destruct Hx as [_ Hc].
  apply text_at_cons in Hc. destruct Hc as [Hc _].
  rewrite len_app, len_cons, len_nil.
  replace (off + (len x' + (1 + 0)) - 1) with (off + len x') by lia. exact Hc.
Qed.

Lemma char_is_of_char_at (t : text) (i c d : Z) :
  char_at t i = Some c -> char_is t i d = (c =? d).
Proof. intro H. unfold char_is. rewrite H. reflexivity. Qed.

(** Outside quotes [findTagEnd] steps over a character that is no quote and
    no angle bracket. *)
Lemma tagEnd_plain (t : text) (i c : Z) (q : option Z) (cl : bool) :
  char_at t i = Some c ->
  c <> c_lt -> c <> c_gt -> c <> c_dquote -> c <> c_squote ->
  tagEnd_from t i false q cl = tagEnd_from t (i + 1) false q cl.
Proof.
  intros Hc H1 H2 H3 H4. rewrite tagEnd_from_eq.
  pose proof (char_at_Some _ _ _ Hc) as Hr.
  replace (i <? len t) with true by (symmetry; apply Z.ltb_lt; lia).
  rewrite !(char_is_of_char_at t i c) by exact Hc.
  apply Z.eqb_neq in H1, H2, H3, H4. rewrite H1, H2, H3, H4. reflexivity.
Qed.

(** Inside quotes it steps over a body that does not hold the quote. *)
Lemma tagEnd_body (body : text) (t : text) (i qc : Z) (cl : bool) :
  text_at t i body -> ~ In qc body ->
  tagEnd_from t i true (Some qc) cl = tagEnd_from t (i + len body) true (Some qc) cl.
Proof.
  revert i. induction body as [|b body IH]; intros i Hx Hq.
  - rewrite len_nil, Z.add_0_r. reflexivity.
  - apply text_at_cons in Hx. destruct Hx as [Hb Hx].
    rewrite tagEnd_from_eq. pose proof (char_at_Some _ _ _ Hb) as Hr.
    replace (i <? len t) with true by (symmetry; apply Z.ltb_lt; lia).
    rewrite Hb.
    replace (b =? qc) with false
      by (symmetry; apply Z.eqb_neq; intro E; apply Hq; left; congruence).
    cbn [andb]. rewrite IH; [|exact Hx|intro E; apply Hq; right; exact E].
    rewrite len_cons. f_equal. lia.
Qed.

(** A quoted value is stepped over whole. *)
Lemma tagEnd_quoted (t : text) (i qc : Z) (body : text) (q : option Z) (cl : bool) :
  text_at t i (render_piece (Quoted qc body)) -> ok_piece (Quoted qc body) ->
  tagEnd_from t i false q cl =
  tagEnd_from t (i + len (render_piece (Quoted qc body))) false (Some qc) cl.
Proof.
  intros Hx [Hq [Hnq [_ Hlast]]]. cbn [render_piece] in *.
  apply text_at_cons in Hx. destruct Hx as [Hopen Hx].
  apply text_at_app in Hx. destruct Hx as [Hbody Hclose].
  apply text_at_cons in Hclose. destruct Hclose as [Hclose _].
  pose proof (char_at_Some _ _ _ Hopen) as Hr.
  rewrite tagEnd_from_eq.
  replace (i <? len t) with true by (symmetry; apply Z.ltb_lt; lia).
  assert (Hquote : char_is t i c_dquote || char_is t i c_squote = true).
  { rewrite !(char_is_of_char_at t i qc) by exact Hopen.
    destruct Hq as [-> | ->]; reflexivity. }
  rewrite Hquote, Hopen.
  rewrite (tagEnd_body body t (i + 1) qc cl Hbody Hnq).
  rewrite tagEnd_from_eq. pose proof (char_at_Some _ _ _ Hclose) as Hr2.
  replace (i + 1 + len body <? len t) with true by (symmetry; apply Z.ltb_lt; lia).
  rewrite Hclose, Z.eqb_refl.
  assert (Hprev : char_is t (i + 1 + len body - 1) c_backslash = false).
  { destruct body as [|b body'] eqn:Eb.
    - rewrite len_nil. replace (i + 1 + 0 - 1) with i by lia.
      rewrite (char_is_of_char_at t i qc) by exact Hopen.
      apply Z.eqb_neq. destruct Hq as [-> | ->]; discriminate.
    - rewrite <- Eb in *.
      rewrite (char_is_of_char_at t _ (last body 0)).
      + apply Z.eqb_neq. exact Hlast.
      + apply text_at_last; [exact Hbody|]. rewrite Eb. discriminate. }
  rewrite Hprev. cbn [andb negb]. f_equal.
  rewrite len_cons, len_app, len_cons, len_nil. lia.
Qed.

Lemma tagEnd_piece (t : text) (i : Z) (p : AttrPiece) (q : option Z) (cl : bool) :
  text_at t i (render_piece p) -> ok_piece p ->
  exists q', tagEnd_from t i false q cl =
             tagEnd_from t (i + len (render_piece p)) false q' cl.
Proof.
  destruct p as [c|qc body]; intros Hx Hok.
  - exists q. destruct Hok as [H1 [H2 [H3 H4]]]. cbn [render_piece] in *.
    apply text_at_cons in Hx. destruct Hx as [Hc _].
    rewrite len_cons, len_nil. replace (i + (1 + 0)) with (i + 1) by lia.
    apply tagEnd_plain with (c := c); assumption.
  - exists (Some qc). apply tagEnd_quoted; assumption.
Qed.

(** The attributes of a tag are stepped over whole, outside quotes at both
    ends. *)
Lemma tagEnd_attrs (attrs : list AttrPiece) (t : text) (i : Z) (q : option Z) (cl : bool) :
  text_at t i (render_attrs attrs) -> Forall ok_piece attrs ->
  exists q', tagEnd_from t i false q cl =
             tagEnd_from t (i + len (render_attrs attrs)) false q' cl.
Proof.
  revert i q. induction attrs as [|p attrs IH]; intros i q Hx Hok.
  - exists q. cbn. rewrite Z.add_0_r. reflexivity.
  - inversion Hok as [|? ? Hp Hrest]; subst.
    unfold render_attrs in Hx. cbn [flat_map] in Hx. fold (render_attrs attrs) in Hx.
    apply text_at_app in Hx. destruct Hx as [Hx1 Hx2].
    destruct (tagEnd_piece t i p q cl Hx1 Hp) as [q1 E1].
    destruct (IH (i + len (render_piece p)) q1 Hx2 Hrest) as [q2 E2].
    exists q2. rewrite E1, E2. unfold render_attrs at 2. cbn [flat_map].
    fold (render_attrs attrs). rewrite len_app. f_equal. lia.
Qed.

(** No [<] stands in the attributes. *)
Lemma attrs_no_lt (attrs : list AttrPiece) :
  Forall ok_piece attrs -> ~ In c_lt (render_attrs attrs).
Proof.
  induction 1 as [|p attrs Hp _ IH]; [intros []|].
  unfold render_attrs. cbn [flat_map]. fold (render_attrs attrs).
  intro Hin. apply in_app_or in Hin. destruct Hin as [Hin|Hin]; [|exact (IH Hin)].
  destruct p as [c|qc body]; cbn [render_piece ok_piece] in *.
  - destruct Hin as [Hin|[]]. destruct Hp as [Hp _]. congruence.
  - destruct Hp as [Hq [_ [Hlt _]]].
    destruct Hin as [Hin|Hin]; [destruct Hq; subst; discriminate|].
    apply in_app_or in Hin. destruct Hin as [Hin|[Hin|[]]]; [exact (Hlt Hin)|].
    destruct Hq; subst; discriminate.
Qed.

Definition is_closing (ty : TagType) : bool :=
  match ty with
  | close => true
  | _ => false
  end.

(** The parts of a rendered tag, each where it stands. *)
Lemma render_tag_parts (t : text) (off : Z) (ty : TagType) (name : text)
    (attrs : list AttrPiece) :
  text_at t off (render_tag ty name attrs) ->
  let ns := off + len (opening_bracket ty) in
  let ne := ns + len name in
  let p := ne + len (render_attrs attrs) in
  text_at t off (opening_bracket ty) /\ text_at t ns name /\
  text_at t ne (render_attrs attrs) /\ text_at t p (closing_bracket ty) /\
  p + len (closing_bracket ty) = off + len (render_tag ty name attrs).
Proof.
  intros Hx ns ne p. unfold render_tag in *.
  apply text_at_app in Hx. destruct Hx as [Ho Hx].
  apply text_at_app in Hx. destruct Hx as [Hn Hx].
  apply text_at_app in Hx. destruct Hx as [Ha Hc].
  split; [exact Ho|]. split; [exact Hn|]. split; [exact Ha|]. split; [exact Hc|].
  subst p ne ns. rewrite !len_app. lia.
Qed.

(** The character after the name is no name character. *)
Lemma after_name (t : text) (ne : Z) (ty : TagType) (attrs : list AttrPiece) :
  text_at t ne (render_attrs attrs) ->
  text_at t (ne + len (render_attrs attrs)) (closing_bracket ty) ->
  match render_attrs attrs with
  | [] => True
  | c :: _ => is_html_name_char c = false
  end ->
  exists c, char_at t ne = Some c /\ is_html_name_char c = false.
Proof.
  intros Ha Hc Hfirst. destruct (render_attrs attrs) as [|c r].
  - rewrite len_nil, Z.add_0_r in Hc.
    destruct ty; cbn [closing_bracket] in Hc; apply text_at_cons in Hc;
      destruct Hc as [Hc _]; eexists; (split; [exact Hc|reflexivity]).
  - apply text_at_cons in Ha. destruct Ha as [Ha _]. exists c. split; assumption.
Qed.

(** The tag pattern matches a rendered tag at its first character and
    captures its name. *)
Lemma tagStart_at_tag (t : text) (off : Z) (ty : TagType) (name : text)
    (attrs : list AttrPiece) :
  text_at t off (render_tag ty name attrs) ->
  ok_item (Tag ty name attrs) ->
  let ns := off + len (opening_bracket ty) in
  tagStart_at t off = Some (is_closing ty, ns, ns + len name).
Proof.
  intros Hx [Hname [_ [Hfirst _]]] ns.
  destruct (render_tag_parts t off ty name attrs Hx) as [Ho [Hn [Ha [Hc _]]]].
  fold ns in Hn, Ha, Hc.
  destruct name as [|a rest]; [contradiction|]. destruct Hname as [Halpha Hrest].
  apply text_at_cons in Hn. destruct Hn as [Hfirstc Hn].
  destruct (after_name t (ns + len (a :: rest)) ty attrs Ha Hc Hfirst) as [c [Hcc Hcn]].
  assert (Hscan : scan_fwd name_char_at t (ns + 1) = ns + len (a :: rest)).
  { rewrite len_cons. replace (ns + (1 + len rest)) with (ns + 1 + len rest) by lia.
    apply scan_fwd_text_at.
    - exact Hn.
    - intros d Hd. cbn [name_char_at]. rewrite forallb_forall in Hrest.
      apply Hrest. exact Hd.
    - intros _. rewrite len_cons in Hcc.
      replace (ns + 1 + len rest) with (ns + (1 + len rest)) by lia.
      rewrite Hcc. exact Hcn. }
  assert (Hstart : name_start_at t ns = true).
  { unfold name_start_at. rewrite Hfirstc. exact Halpha. }
  unfold tagStart_at.
  destruct ty; cbn [opening_bracket is_closing] in *.
  - apply text_at_cons in Ho. destruct Ho as [Hlt _].
    rewrite (char_is_of_char_at t off c_lt) by exact Hlt. rewrite Z.eqb_refl.
    unfold ns in *. rewrite len_cons, len_nil in *.
    replace (off + (1 + 0)) with (off + 1) in * by lia.
    rewrite (char_is_of_char_at t (off + 1) a) by exact Hfirstc.
    replace (a =? c_slash) with false
      by (symmetry; apply Z.eqb_neq; apply is_alpha_name_char in Halpha;
          apply name_char_not_special in Halpha; tauto).
    cbn [andb]. rewrite Hstart.
    replace (off + 2) with (off + 1 + 1) by lia. rewrite Hscan. reflexivity.
  - apply text_at_cons in Ho. destruct Ho as [Hlt Ho].
    apply text_at_cons in Ho. destruct Ho as [Hsl _].
    rewrite (char_is_of_char_at t off c_lt) by exact Hlt. rewrite Z.eqb_refl.
    rewrite (char_is_of_char_at t (off + 1) c_slash) by exact Hsl. rewrite Z.eqb_refl.
    unfold ns in *. rewrite !len_cons, len_nil in *.
    replace (off + (1 + (1 + 0))) with (off + 2) in * by lia.
    rewrite Hstart. cbn [andb].
    replace (off + 3) with (off + 2 + 1) by lia. rewrite Hscan. reflexivity.
  - apply text_at_cons in Ho. destruct Ho as [Hlt _].
    rewrite (char_is_of_char_at t off c_lt) by exact Hlt. rewrite Z.eqb_refl.
    unfold ns in *. rewrite len_cons, len_nil in *.
    replace (off + (1 + 0)) with (off + 1) in * by lia.
    rewrite (char_is_of_char_at t (off + 1) a) by exact Hfirstc.
    replace (a =? c_slash) with false
      by (symmetry; apply Z.eqb_neq; apply is_alpha_name_char in Halpha;
          apply name_char_not_special in Halpha; tauto).
    cbn [andb]. rewrite Hstart.
    replace (off + 2) with (off + 1 + 1) by lia. rewrite Hscan. reflexivity.
Qed.

(** The character before the closing bracket of an opening tag is no
    slash. *)
Lemma before_bracket (t : text) (ns : Z) (name : text) (attrs : list AttrPiece) :
  valid_name name ->
  text_at t ns name -> text_at t (ns + len name) (render_attrs attrs) ->
  last (render_attrs attrs) 0 <> c_slash ->
  char_is t (ns + len name + len (render_attrs attrs) - 1) c_slash = false.
Proof.
  intros Hname Hn Ha Hlast. destruct (render_attrs attrs) as [|c r] eqn:Er.
  - rewrite len_nil, Z.add_0_r.
    assert (Hne : name <> []) by (destruct name; [contradiction|discriminate]).
    rewrite (char_is_of_char_at t _ (last name 0))
      by (apply text_at_last; assumption).
    apply Z.eqb_neq.
    assert (Hin : In (last name 0) name).
    { destruct (exists_last Hne) as [n' [d ->]]. rewrite last_last.
      apply in_or_app. right. left. reflexivity. }
    destruct name as [|a rest]; [contradiction|]. destruct Hname as [Halpha Hrest].
    assert (Hchar : is_html_name_char (last (a :: rest) 0) = true).
    { destruct Hin as [<-|Hin]; [apply is_alpha_name_char; exact Halpha|].
      rewrite forallb_forall in Hrest. apply Hrest. exact Hin. }
    apply name_char_not_special in Hchar. tauto.
  - rewrite (char_is_of_char_at t _ (last (c :: r) 0)).
    + apply Z.eqb_neq. exact Hlast.
    + apply text_at_last; [exact Ha|discriminate].
Qed.

(** [findTagEnd] from the end of the name of a rendered tag finds its
    closing bracket, and the tag is recorded with its type and offsets. *)
Lemma tag_of_match_tag (t : text) (off : Z) (ty : TagType) (name : text)
    (attrs : list AttrPiece) :
  text_at t off (render_tag ty name attrs) ->
  ok_item (Tag ty name attrs) ->
  let ns := off + len (opening_bracket ty) in
  tag_of_match t (off, is_closing ty, ns, ns + len name) =
    Some (tag_at off ty name attrs).
Proof.
  intros Hx Hok ns. pose proof Hok as [Hname [Hattrs [Hfirst Hlast]]].
  destruct (render_tag_parts t off ty name attrs Hx) as [Ho [Hn [Ha [Hc Hlen]]]].
  fold ns in Hn, Ha, Hc, Hlen.
  assert (Hns : (if is_closing ty then off + 2 else off + 1) = ns).
  { unfold ns. destruct ty; cbn [is_closing opening_bracket];
      rewrite ?len_cons, len_nil; lia. }
  unfold tag_of_match. rewrite Hns.
  rewrite (slice_text_at t ns name Hn).
  rewrite findTagEnd_tagEnd_from.
  destruct (tagEnd_attrs attrs t (ns + len name) None (is_closing ty) Ha Hattrs) as [q' Eq].
  rewrite Eq.
  set (p := ns + len name + len (render_attrs attrs)) in *.
  unfold tag_at. fold ns. rewrite <- Hlen.
  destruct ty; cbn [closing_bracket is_closing] in *.
  - apply text_at_cons in Hc. destruct Hc as [Hgt _].
    pose proof (char_at_Some _ _ _ Hgt) as Hr.
    rewrite tagEnd_from_eq.
    replace (p <? len t) with true by (symmetry; apply Z.ltb_lt; lia).
    rewrite !(char_is_of_char_at t p c_gt) by exact Hgt.
    change (c_gt =? c_dquote) with false. change (c_gt =? c_squote) with false.
    rewrite Z.eqb_refl. cbn [orb negb andb].
    unfold p. rewrite (before_bracket t ns name attrs Hname Hn Ha (Hlast eq_refl)).
    reflexivity.
  - apply text_at_cons in Hc. destruct Hc as [Hgt _].
    pose proof (char_at_Some _ _ _ Hgt) as Hr.
    rewrite tagEnd_from_eq.
    replace (p <? len t) with true by (symmetry; apply Z.ltb_lt; lia).
    rewrite !(char_is_of_char_at t p c_gt) by exact Hgt.
    change (c_gt =? c_dquote) with false. change (c_gt =? c_squote) with false.
    rewrite Z.eqb_refl. cbn [orb negb andb].
    reflexivity.
  - apply text_at_cons in Hc. destruct Hc as [Hsl Hc].
    apply text_at_cons in Hc. destruct Hc as [Hgt _].
    pose proof (char_at_Some _ _ _ Hgt) as Hr.
    rewrite (tagEnd_plain t p c_slash) by (try exact Hsl; discriminate).
    rewrite tagEnd_from_eq.
    replace (p + 1 <? len t) with true by (symmetry; apply Z.ltb_lt; lia).
    rewrite !(char_is_of_char_at t (p + 1) c_gt) by exact Hgt.
    change (c_gt =? c_dquote) with false. change (c_gt =? c_squote) with false.
    rewrite Z.eqb_refl. cbn [orb negb andb].
    replace (p + 1 - 1) with p by lia.
    rewrite (char_is_of_char_at t p c_slash) by exact Hsl. rewrite Z.eqb_refl.
    unfold p. cbn [len List.length Z.of_nat]. f_equal. f_equal. lia.
Qed.

Lemma char_is_not_in (t : text) (off : Z) (x : text) (j c : Z) :
  text_at t off x -> ~ In c x -> off <= j < off + len x -> char_is t j c = false.
Proof.
  intros Hx Hnot Hj. destruct (text_at_in t off x j Hx Hj) as [d [Hd Hin]].
  rewrite (char_is_of_char_at t j d) by exact Hd.
  apply Z.eqb_neq. intros ->. exact (Hnot Hin).
Qed.

(** After the name of a rendered tag no [<] stands in it. *)
Lemma tag_tail_no_lt (t : text) (off : Z) (ty : TagType) (name : text)
    (attrs : list AttrPiece) (j : Z) :
  text_at t off (render_tag ty name attrs) ->
  Forall ok_piece attrs ->
  off + len (opening_bracket ty) + len name <= j < off + len (render_tag ty name attrs) ->
  char_is t j c_lt = false.
Proof.
  intros Hx Hattrs Hj.
  destruct (render_tag_parts t off ty name attrs Hx) as [_ [_ [Ha [Hc Hlen]]]].
  destruct (Z_lt_le_dec j (off + len (opening_bracket ty) + len name
                           + len (render_attrs attrs))) as [Hlt|Hge].
  - eapply (char_is_not_in t _ (render_attrs attrs)); [exact Ha| |lia].
    apply attrs_no_lt. exact Hattrs.
  - eapply (char_is_not_in t _ (closing_bracket ty)); [exact Hc| |lia].
    destruct ty; cbn [closing_bracket]; intro Hin;
      repeat (destruct Hin as [Hin|Hin]; [discriminate|]); exact Hin.
Qed.

(** [findAllTags] on rendered items, entered at a [lastIndex] after which no
    [<] stands before the items: it finds the tags of the items, each where
    it stands. *)
Lemma tags_from_render (items : list Item) :
  Forall ok_item items ->
  forall (P t : text) (L : Z),
    t = P ++ render items ->
    0 <= L <= len P ->
    (forall j, L <= j < len P -> char_is t j c_lt = false) ->
    tags_from t L = tag_seq (len P) items.
Proof.
  induction 1 as [|it items Hit _ IH]; intros P t L Ht HL Hno.
  - cbn [render flat_map] in Ht. rewrite app_nil_r in Ht. subst t.
    rewrite tags_from_eq. rewrite exec_none; [reflexivity|].
    intros j Hj. apply tagStart_at_not_lt. apply Hno. lia.
  - unfold render in Ht. cbn [flat_map] in Ht. fold (render items) in Ht.
    pose proof (text_at_mid P (render_item it) (render items)) as Hx.
    rewrite <- Ht in Hx.
    destruct it as [s0|ty name attrs]; cbn [render_item tag_seq] in *.
    + rewrite <- len_app. apply IH.
      * rewrite <- app_assoc. exact Ht.
      * rewrite len_app. pose proof (len_nonneg s0). lia.
      * intros j Hj. rewrite len_app in Hj.
        destruct (Z_lt_le_dec j (len P)) as [Hlt|Hge]; [apply Hno; lia|].
        apply (char_is_not_in t (len P) s0); [exact Hx|exact Hit|lia].
    + pose proof Hit as [Hname [Hattrs _]].
      pose proof (tagStart_at_tag t (len P) ty name attrs Hx Hit) as Hstart.
      pose proof (tag_of_match_tag t (len P) ty name attrs Hx Hit) as Hmatch.
      cbv zeta in Hstart, Hmatch.
      rewrite tags_from_eq.
      rewrite (exec_found t L (len P) _ _ _ (proj2 HL)
                 (fun j Hj => tagStart_at_not_lt t j (Hno j Hj)) Hstart).
      rewrite Hmatch. f_equal.
      replace (len P + len (render_tag ty name attrs))
        with (len (P ++ render_tag ty name attrs)) by apply len_app.
      apply IH.
      * rewrite <- app_assoc. exact Ht.
      * rewrite len_app. unfold render_tag. rewrite !len_app.
        pose proof (len_nonneg (opening_bracket ty)). pose proof (len_nonneg name).
        pose proof (len_nonneg (render_attrs attrs)).
        pose proof (len_nonneg (closing_bracket ty)). lia.
      * intros j Hj. rewrite len_app in Hj.
        apply (tag_tail_no_lt t (len P) ty name attrs j Hx Hattrs). lia.
Qed.

(** [findAllTags] finds in a rendered document the tags of its items. *)
Lemma findAllTags_render (items : list Item) :
  Forall ok_item items -> findAllTags (render items) = tag_seq 0 items.
Proof.
  intro Hok. rewrite findAllTags_tags_from.
  apply (tags_from_render items Hok [] (render items) 0).
  - reflexivity.
  - cbn. lia.
  - intros j Hj. cbn in Hj. lia.
Qed.

End HtmlLex.

(** ** HtmlParser: a tag candidate that finds no end *)

Module HtmlDiscard.
Import HtmlParser HtmlScan HtmlLex.

(** The text with the character at [m] replaced by a space. *)
Definition blank (t : text) (m : Z) : text :=
  firstn (Z.to_nat m) t ++ c_space :: skipn (S (Z.to_nat m)) t.

Lemma len_slice (t : text) (a b : Z) :
  0 <= a <= b -> b <= len t -> len (slice t a b) = b - a.
Proof.
  intros Hab Hb. unfold slice, len in *. rewrite length_firstn, length_skipn. lia.
Qed.

Lemma exec_None (t : text) (i : Z) :
  exec t i = None -> forall j, i <= j < len t -> tagStart_at t j = None.
Proof.
  unfold exec. remember (Z.to_nat (len t - i)) as n eqn:Hn.
  assert (Hfuel : len t - i <= Z.of_nat n) by lia. clear Hn.
  revert i Hfuel. induction n as [|n IH]; intros i Hfuel H j Hj; [lia|].
  cbn [exec_loop] in H. destruct (i <? len t) eqn:E; [|apply Z.ltb_ge in E; lia].
  destruct (tagStart_at t i) as [[[c ns] ne]|] eqn:Es; [discriminate|].
  destruct (Z.eq_dec j i) as [->|Hne]; [exact Es|]. apply (IH (i + 1)); [lia|exact H|lia].
Qed.

(** Two texts of the same length that a test cannot tell apart are scanned
    alike. *)
Lemma scan_fwd_ext (p : option Z -> bool) (t t' : text) (pos : Z) :
  len t' = len t ->
  (forall j, p (char_at t' j) = p (char_at t j)) ->
  scan_fwd p t' pos = scan_fwd p t pos.
Proof.
  intros Hlen Hp. unfold scan_fwd. rewrite Hlen.
  generalize (Z.to_nat (len t - pos)) as n. intro n. revert pos.
  induction n as [|n IH]; intro pos; cbn [scan_fwd_loop]; [reflexivity|].
  rewrite Hlen, Hp. destruct ((pos <? len t) && p (char_at t pos)); [apply IH|reflexivity].
Qed.

(** The characters of a match after its [<]: a slash or name characters,
    none of which ends or interrupts a tag. *)
Lemma tagStart_at_region (t : text) (m : Z) (cl : bool) (ns ne : Z) :
  tagStart_at t m = Some (cl, ns, ne) ->
  forall j, m < j < ne ->
    exists c, char_at t j = Some c /\
      c <> c_lt /\ c <> c_gt /\ c <> c_dquote /\ c <> c_squote.
Proof.
  intros H j Hj. unfold tagStart_at in H.
  destruct (char_is t m c_lt); [|discriminate].
  assert (Hname : forall k, name_start_at t k = true ->
            exists c, char_at t k = Some c /\ is_html_name_char c = true).
  { intros k Hk. unfold name_start_at in Hk. destruct (char_at t k) as [c|]; [|discriminate].
    exists c. split; [reflexivity|]. apply is_alpha_name_char. exact Hk. }
  assert (Hrun : forall a k, a <= k < scan_fwd name_char_at t a ->
            exists c, char_at t k = Some c /\ is_html_name_char c = true).
  { intros a k Hk. pose proof (scan_fwd_run name_char_at t a k Hk) as Hr.
    unfold name_char_at in Hr. destruct (char_at t k) as [c|]; [|discriminate].
    exists c. split; [reflexivity|exact Hr]. }
  assert (Hconcl : forall c, is_html_name_char c = true ->
            c <> c_lt /\ c <> c_gt /\ c <> c_dquote /\ c <> c_squote).
  { intros c Hc. apply name_char_not_special in Hc. tauto. }
  destruct (char_is t (m + 1) c_slash && name_start_at t (m + 2)) eqn:E1.
  - apply andb_true_iff in E1. destruct E1 as [Hsl Hst]. inversion H; subst.
    destruct (Z.eq_dec j (m + 1)) as [->|Hj1].
    + apply char_is_true in Hsl. exists c_slash. split; [exact Hsl|].
      repeat split; discriminate.
    + destruct (Z.eq_dec j (m + 2)) as [->|Hj2].
      * destruct (Hname _ Hst) as [c [Hc Hn]]. exists c. split; [exact Hc|auto].
      * destruct (Hrun (m + 3) j) as [c [Hc Hn]]; [lia|]. exists c. split; [exact Hc|auto].
  - destruct (name_start_at t (m + 1)) eqn:E2; [|discriminate]. inversion H; subst.
    destruct (Z.eq_dec j (m + 1)) as [->|Hj1].
    + destruct (Hname _ E2) as [c [Hc Hn]]. exists c. split; [exact Hc|auto].
    + destruct (Hrun (m + 2) j) as [c [Hc Hn]]; [lia|]. exists c. split; [exact Hc|auto].
Qed.

(** The name a match captures holds name characters only. *)
Lemma tagStart_at_name (t : text) (m : Z) (cl : bool) (ns ne : Z) :
  tagStart_at t m = Some (cl, ns, ne) ->
  forall j, ns <= j < ne ->
    exists c, char_at t j = Some c /\ is_html_name_char c = true.
Proof.
  intros H j Hj. unfold tagStart_at in H.
  destruct (char_is t m c_lt); [|discriminate].
  assert (Hname : forall k, name_start_at t k = true ->
            exists c, char_at t k = Some c /\ is_html_name_char c = true).
  { intros k Hk. unfold name_start_at in Hk. destruct (char_at t k) as [c|]; [|discriminate].
    exists c. split; [reflexivity|]. apply is_alpha_name_char. exact Hk. }
  assert (Hrun : forall a k, a <= k < scan_fwd name_char_at t a ->
            exists c, char_at t k = Some c /\ is_html_name_char c = true).
  { intros a k Hk. pose proof (scan_fwd_run name_char_at t a k Hk) as Hr.
    unfold name_char_at in Hr. destruct (char_at t k) as [c|]; [|discriminate].
    exists c. split; [reflexivity|exact Hr]. }
  destruct (char_is t (m + 1) c_slash && name_start_at t (m + 2)) eqn:E1.
  - apply andb_true_iff in E1. destruct E1 as [Hsl Hst]. inversion H; subst.
    destruct (Z.eq_dec j (m + 2)) as [->|Hj2]; [apply Hname; exact Hst|].
    apply (Hrun (m + 3)). lia.
  - destruct (name_start_at t (m + 1)) eqn:E2; [|discriminate]. inversion H; subst.
    destruct (Z.eq_dec j (m + 1)) as [->|Hj1]; [apply Hname; exact E2|].
    apply (Hrun (m + 2)). lia.
Qed.

(** The tag recorded for a match starts at the match. *)
Lemma tag_of_match_start (t : text) (k : Z) (cl : bool) (ns ne : Z) (tag : TagMatch) :
  tag_of_match t (k, cl, ns, ne) = Some tag -> bracketStart tag = k.
Proof.
  unfold tag_of_match.
  destruct (findTagEnd t _ cl) as [[e sc]|]; [|discriminate].
  destruct cl; [|destruct sc]; intro H; inversion H; reflexivity.
Qed.

(** What [tag_of_match] does, with the end of the name it computes spelled
    out. *)
Lemma tag_of_match_eq (t : text) (k : Z) (cl : bool) (ns ne : Z) :
  tagStart_at t k = Some (cl, ns, ne) ->
  tag_of_match t (k, cl, ns, ne) =
  match findTagEnd t ne cl with
  | None => None
  | Some (e, selfClosing) =>
      Some (mkTag (if cl then close else if selfClosing then selfClose else open)
              (slice t ns ne) k e ns ne)
  end.
Proof.
  intro H. destruct (tagStart_at_bounds _ _ _ _ _ H) as [_ [Hk [Hns Hne]]].
  unfold tag_of_match. rewrite <- Hns.
  rewrite (len_slice t ns ne) by (destruct cl; lia).
  replace (ns + (ne - ns)) with ne by lia.
  destruct (findTagEnd t ne cl) as [[e sc]|]; [|reflexivity].
  destruct cl; [reflexivity|]. destruct sc; reflexivity.
Qed.

(** Every tag [findAllTags] returns comes from a match whose end was
    found. *)
Lemma tags_from_In (t : text) (tag : TagMatch) (n : nat) :
  forall i, len t - i <= Z.of_nat n ->
    In tag (tags_from t i) ->
    exists cl ns ne,
      tagStart_at t (bracketStart tag) = Some (cl, ns, ne) /\
      tag_of_match t (bracketStart tag, cl, ns, ne) = Some tag.
Proof.
  induction n as [|n IH]; intros i Hn Hin; rewrite tags_from_eq in Hin.
  - rewrite exec_eq in Hin.
    replace (i <? len t) with false in Hin by (symmetry; apply Z.ltb_ge; lia).
    destruct Hin.
  - destruct (exec t i) as [[[[k c] ns] ne]|] eqn:E; [|destruct Hin].
    destruct (exec_Some _ _ _ _ _ _ E) as [Hk [Hm _]].
    destruct (tagStart_at_bounds _ _ _ _ _ Hm) as [_ [_ [Hns Hne]]].
    assert (i < ne) by (destruct c; lia).
    destruct (tag_of_match t (k, c, ns, ne)) as [tag'|] eqn:Et.
    + destruct Hin as [<-|Hin].
      * pose proof (tag_of_match_start _ _ _ _ _ _ Et) as Hs. rewrite Hs.
        exists c, ns, ne. split; assumption.
      * apply (IH ne); [lia|exact Hin].
    + apply (IH ne); [lia|exact Hin].
Qed.

(** Whether [findTagEnd] fails does not depend on the kind of tag, nor on
    the last quote it has seen once it is outside quotes. *)
Lemma findTagEnd_loop_None (t : text) (fuel : nat) :
  forall i s q q' c c',
    (s = true -> q = q') ->
    findTagEnd_loop fuel t i s q c = None ->
    findTagEnd_loop fuel t i s q' c' = None.
Proof.
  induction fuel as [|f IH]; intros i s q q' c c' Hq H; [reflexivity|].
  cbn [findTagEnd_loop] in *.
  destruct (i <? len t); [|reflexivity].
  destruct s.
  - rewrite <- (Hq eq_refl).
    destruct ((match char_at t i, q with
               | Some c0, Some q0 => c0 =? q0
               | _, _ => false
               end) && negb (char_is t (i - 1) c_backslash)).
    + apply (IH (i + 1) false q q c c'); [intro; reflexivity|exact H].
    + apply (IH (i + 1) true q q c c'); [intro; reflexivity|exact H].
  - destruct (char_is t i c_dquote || char_is t i c_squote).
    + apply (IH (i + 1) true (char_at t i) (char_at t i) c c');
        [intro; reflexivity|exact H].
    + destruct (char_is t i c_gt); [discriminate|].
      destruct (char_is t i c_lt); [reflexivity|].
      apply (IH (i + 1) false q q' c c'); [intro; discriminate|exact H].
Qed.

Section Blank.

(** A match at [m] whose end [findTagEnd] does not find. *)
Variables (t : text) (m : Z) (cl : bool) (ns ne : Z).
Hypothesis Hstart : tagStart_at t m = Some (cl, ns, ne).
Hypothesis Hfail : findTagEnd t ne cl = None.

Lemma blank_m_range : 0 <= m < len t.
Proof.
  destruct (tagStart_at_bounds _ _ _ _ _ Hstart) as [Hlt _].
  apply (char_is_in_range _ _ _ Hlt).
Qed.

Lemma blank_m_lt : char_at t m = Some c_lt.
Proof.
  destruct (tagStart_at_bounds _ _ _ _ _ Hstart) as [Hlt _].
  apply char_is_true. exact Hlt.
Qed.

Lemma len_blank : len (blank t m) = len t.
Proof.
  pose proof blank_m_range as Hm. unfold blank, len in *.
  rewrite length_app. cbn [List.length]. rewrite length_firstn, length_skipn. lia.
Qed.

Lemma char_at_blank_m : char_at (blank t m) m = Some c_space.
Proof.
  pose proof blank_m_range as Hm. unfold char_at, blank.
  replace (m <? 0) with false by (symmetry; apply Z.ltb_ge; lia).
  rewrite nth_error_app2 by (rewrite length_firstn; unfold len in Hm; lia).
  rewrite length_firstn.
  replace (Z.to_nat m - Nat.min (Z.to_nat m) (List.length t))%nat with 0%nat
    by (unfold len in Hm; lia).
  reflexivity.
Qed.

Lemma char_at_blank_other (j : Z) : j <> m -> char_at (blank t m) j = char_at t j.
Proof.
  intro Hj. pose proof blank_m_range as Hm. unfold char_at, blank.
  destruct (j <? 0) eqn:E; [reflexivity|]. apply Z.ltb_ge in E.
  destruct (Z_lt_le_dec j m) as [Hlt|Hge].
  - rewrite nth_error_app1 by (rewrite length_firstn; unfold len in Hm; lia).
    rewrite nth_error_firstn.
    replace (Z.to_nat j <? Z.to_nat m)%nat with true
      by (symmetry; apply Nat.ltb_lt; lia).
    reflexivity.
  - rewrite nth_error_app2 by (rewrite length_firstn; unfold len in Hm; lia).
    rewrite length_firstn.
    replace (Z.to_nat j - Nat.min (Z.to_nat m) (List.length t))%nat
      with (S (Z.to_nat j - S (Z.to_nat m)))%nat by (unfold len in Hm; lia).
    cbn [nth_error]. rewrite nth_error_skipn. f_equal. lia.
Qed.

(** Comparisons with a character that is neither [<] nor a space do not see
    the replacement. *)
Lemma char_is_blank (j c : Z) :
  c <> c_lt -> c <> c_space -> char_is (blank t m) j c = char_is t j c.
Proof.
  intros H1 H2. unfold char_is. destruct (Z.eq_dec j m) as [->|Hj].
  - rewrite char_at_blank_m, blank_m_lt. apply Z.eqb_neq in H1, H2.
    rewrite Z.eqb_sym, H2. rewrite Z.eqb_sym, H1. reflexivity.
  - rewrite (char_at_blank_other j Hj). reflexivity.
Qed.

Lemma char_is_blank_other (j c : Z) :
  j <> m -> char_is (blank t m) j c = char_is t j c.
Proof. intro Hj. unfold char_is. rewrite (char_at_blank_other j Hj). reflexivity. Qed.

Lemma name_char_at_blank (j : Z) :
  name_char_at (char_at (blank t m) j) = name_char_at (char_at t j).
Proof.
  destruct (Z.eq_dec j m) as [->|Hj].
  - rewrite char_at_blank_m, blank_m_lt. reflexivity.
  - rewrite (char_at_blank_other j Hj). reflexivity.
Qed.

Lemma name_start_at_blank (j : Z) :
  name_start_at (blank t m) j = name_start_at t j.
Proof.
  unfold name_start_at. destruct (Z.eq_dec j m) as [->|Hj].
  - rewrite char_at_blank_m, blank_m_lt. reflexivity.
  - rewrite (char_at_blank_other j Hj). reflexivity.
Qed.

(** No match starts at [m] any more; the other matches are the same. *)
Lemma tagStart_at_blank_m : tagStart_at (blank t m) m = None.
Proof.
  unfold tagStart_at, char_is. rewrite char_at_blank_m. reflexivity.
Qed.

Lemma tagStart_at_blank_other (j : Z) :
  j <> m -> tagStart_at (blank t m) j = tagStart_at t j.
Proof.
  intro Hj. unfold tagStart_at.
  rewrite (char_is_blank_other j c_lt Hj).
  rewrite (char_is_blank (j + 1) c_slash) by discriminate.
  rewrite !name_start_at_blank.
  rewrite !(scan_fwd_ext name_char_at t (blank t m)) by
    (try apply len_blank; intro k; apply name_char_at_blank).
  reflexivity.
Qed.

Lemma slice_blank (a b : Z) :
  0 <= a -> (m < a \/ b <= m) -> slice (blank t m) a b = slice t a b.
Proof.
  intros Ha Hm. pose proof blank_m_range as Hr. unfold slice.
  apply nth_error_ext. intro n.
  destruct (Nat.lt_ge_cases n (Z.to_nat (b - a))) as [Hn|Hn].
  - rewrite !nth_error_firstn, !nth_error_skipn.
    apply Nat.ltb_lt in Hn. rewrite Hn.
    pose proof (char_at_blank_other (Z.of_nat (Z.to_nat a + n))) as Hc.
    unfold char_at in Hc.
    replace (Z.of_nat (Z.to_nat a + n) <? 0) with false in Hc
      by (symmetry; apply Z.ltb_ge; lia).
    rewrite Nat2Z.id in Hc. apply Hc. apply Nat.ltb_lt in Hn. lia.
  - rewrite !nth_error_firstn. apply Nat.ltb_ge in Hn. rewrite Hn. reflexivity.
Qed.

(** After [m] the search for the end of a tag reads the same characters. *)
Lemma findTagEnd_loop_blank_after (fuel : nat) :
  forall i s q c, m < i ->
    findTagEnd_loop fuel (blank t m) i s q c = findTagEnd_loop fuel t i s q c.
Proof.
  induction fuel as [|f IH]; intros i s q c Hi; [reflexivity|].
  cbn [findTagEnd_loop]. rewrite len_blank.
  rewrite (char_at_blank_other i) by lia.
  rewrite (char_is_blank (i - 1) c_backslash) by discriminate.
  rewrite (char_is_blank (i - 1) c_slash) by discriminate.
  rewrite !(char_is_blank_other i) by lia.
  rewrite !IH by lia. reflexivity.
Qed.

Lemma tagEnd_from_blank_after (i : Z) (s : bool) (q : option Z) (c : bool) :
  m < i -> tagEnd_from (blank t m) i s q c = tagEnd_from t i s q c.
Proof.
  intro Hi. unfold tagEnd_from. rewrite len_blank.
  apply findTagEnd_loop_blank_after. exact Hi.
Qed.

(** Outside quotes, the search steps over the rest of the match. *)
Lemma tagEnd_from_region (q : option Z) (c : bool) (n : nat) :
  forall i, m < i <= ne -> Z.to_nat (ne - i) = n ->
    tagEnd_from t i false q c = tagEnd_from t ne false q c.
Proof.
  induction n as [|n IH]; intros i Hi Hn.
  - replace i with ne by lia. reflexivity.
  - destruct (tagStart_at_region t m cl ns ne Hstart i) as [d [Hd [H1 [H2 [H3 H4]]]]];
      [lia|].
    rewrite (tagEnd_plain t i d q c Hd H1 H2 H3 H4). apply IH; lia.
Qed.

(** A search that passes over [m] outside quotes fails, on the text as on
    the text without the candidate. *)
Lemma tagEnd_from_after_m_fails (q : option Z) (c : bool) :
  tagEnd_from t (m + 1) false q c = None.
Proof.
  destruct (tagStart_at_bounds _ _ _ _ _ Hstart) as [_ [_ [Hns Hne]]].
  rewrite (tagEnd_from_region q c (Z.to_nat (ne - (m + 1))) (m + 1))
    by (try reflexivity; destruct cl; lia).
  unfold tagEnd_from.
  apply (findTagEnd_loop_None t _ ne false None q cl c); [intro; discriminate|].
  exact Hfail.
Qed.

(** The search for the end of any tag gives the same result on both texts,
    from before [m] as well. *)
Lemma tagEnd_from_blank_before (n : nat) :
  forall i s q c, i <= m -> Z.to_nat (m - i) = n ->
    (s = true -> q = Some c_dquote \/ q = Some c_squote) ->
    tagEnd_from (blank t m) i s q c = tagEnd_from t i s q c.
Proof.
  pose proof blank_m_range as Hm.
  induction n as [|n IH]; intros i s q c Hi Hn Hq.
  - assert (i = m) by lia. subst i.
    rewrite (tagEnd_from_eq (blank t m)), (tagEnd_from_eq t), len_blank.
    replace (m <? len t) with true by (symmetry; apply Z.ltb_lt; lia).
    rewrite char_at_blank_m, blank_m_lt.
    rewrite !(char_is_of_char_at (blank t m) m c_space) by apply char_at_blank_m.
    rewrite !(char_is_of_char_at t m c_lt) by apply blank_m_lt.
    destruct s.
    + assert (Hc1 : match q with Some q0 => c_space =? q0 | None => false end = false)
        by (destruct (Hq eq_refl) as [-> | ->]; reflexivity).
      assert (Hc2 : match q with Some q0 => c_lt =? q0 | None => false end = false)
        by (destruct (Hq eq_refl) as [-> | ->]; reflexivity).
      rewrite Hc1, Hc2. cbn [andb].
      apply tagEnd_from_blank_after. lia.
    + change (c_space =? c_dquote) with false. change (c_space =? c_squote) with false.
      change (c_space =? c_gt) with false. change (c_space =? c_lt) with false.
      change (c_lt =? c_dquote) with false. change (c_lt =? c_squote) with false.
      change (c_lt =? c_gt) with false. change (c_lt =? c_lt) with true.
      cbn [orb]. rewrite tagEnd_from_blank_after by lia.
      apply tagEnd_from_after_m_fails.
  - rewrite (tagEnd_from_eq (blank t m)), (tagEnd_from_eq t), len_blank.
    rewrite (char_at_blank_other i) by lia.
    rewrite (char_is_blank (i - 1) c_backslash) by discriminate.
    rewrite (char_is_blank (i - 1) c_slash) by discriminate.
    rewrite !(char_is_blank_other i) by lia.
    destruct (i <? len t); [|reflexivity].
    destruct s.
    + rewrite !(IH (i + 1)) by (try lia; auto; intro; discriminate). reflexivity.
    + destruct (char_is t i c_dquote || char_is t i c_squote) eqn:Equote.
      * apply IH; [lia|lia|]. intros _.
        apply orb_true_iff in Equote.
        destruct Equote as [E|E]; apply char_is_true in E; rewrite E; [left|right]; reflexivity.
      * rewrite !(IH (i + 1)) by (try lia; intro; discriminate). reflexivity.
Qed.

Lemma findTagEnd_blank (e : Z) (c : bool) :
  findTagEnd (blank t m) e c = findTagEnd t e c.
Proof.
  rewrite !findTagEnd_tagEnd_from.
  destruct (Z_le_gt_dec e m) as [Hle|Hgt].
  - apply (tagEnd_from_blank_before (Z.to_nat (m - e))); [exact Hle|reflexivity|].
    intro; discriminate.
  - apply tagEnd_from_blank_after. lia.
Qed.

(** The candidate itself is recorded as no tag. *)
Lemma tag_of_match_failed : tag_of_match t (m, cl, ns, ne) = None.
Proof. rewrite (tag_of_match_eq t m cl ns ne Hstart), Hfail. reflexivity. Qed.

(** [m] lies in the name of no match, and a match before [m] ends at or
    before [m]. *)
Lemma m_not_in_name (k : Z) (c : bool) (ns' ne' : Z) :
  tagStart_at t k = Some (c, ns', ne') -> m < ns' \/ ne' <= m.
Proof.
  intro Hk. destruct (Z_lt_le_dec m ns') as [H|H]; [left; exact H|].
  destruct (Z_le_gt_dec ne' m) as [H'|H']; [right; exact H'|].
  exfalso. destruct (tagStart_at_name t k c ns' ne' Hk m) as [d [Hd Hn]]; [lia|].
  rewrite blank_m_lt in Hd. inversion Hd; subst d. discriminate Hn.
Qed.

Lemma match_before_m (k : Z) (c : bool) (ns' ne' : Z) :
  tagStart_at t k = Some (c, ns', ne') -> k < m -> ne' <= m.
Proof.
  intros Hk Hlt. destruct (Z_le_gt_dec ne' m) as [H|H]; [exact H|].
  exfalso. destruct (tagStart_at_region t k c ns' ne' Hk m) as [d [Hd [Hn _]]]; [lia|].
  rewrite blank_m_lt in Hd. inversion Hd; subst d. apply Hn. reflexivity.
Qed.

Lemma tag_of_match_blank (k : Z) (c : bool) (ns' ne' : Z) :
  tagStart_at t k = Some (c, ns', ne') -> k <> m ->
  tag_of_match (blank t m) (k, c, ns', ne') = tag_of_match t (k, c, ns', ne').
Proof.
  intros Hk Hne.
  rewrite (tag_of_match_eq t k c ns' ne' Hk).
  rewrite (tag_of_match_eq (blank t m) k c ns' ne')
    by (rewrite tagStart_at_blank_other; assumption).
  rewrite findTagEnd_blank.
  destruct (tagStart_at_bounds _ _ _ _ _ Hk) as [_ [Hk0 [Hns _]]].
  rewrite slice_blank; [reflexivity|destruct c; lia|].
  apply (m_not_in_name k c ns' ne' Hk).
Qed.

Lemma exec_blank_after (i : Z) : m < i -> exec (blank t m) i = exec t i.
Proof.
  intro Hi. unfold exec. rewrite len_blank.
  generalize (Z.to_nat (len t - i)) as n. intro n. revert i Hi.
  induction n as [|n IH]; intros i Hi; cbn [exec_loop]; [reflexivity|].
  rewrite len_blank, tagStart_at_blank_other by lia.
  rewrite IH by lia. reflexivity.
Qed.

(** After [m] the same tags are found. *)
Lemma tags_from_blank_after (n : nat) :
  forall i, m < i -> len t - i <= Z.of_nat n ->
    tags_from (blank t m) i = tags_from t i.
Proof.
  induction n as [|n IH]; intros i Hi Hn;
    rewrite (tags_from_eq (blank t m)), (tags_from_eq t), exec_blank_after by exact Hi.
  - rewrite exec_eq. replace (i <? len t) with false by (symmetry; apply Z.ltb_ge; lia).
    reflexivity.
  - destruct (exec t i) as [[[[k c] ns'] ne']|] eqn:E; [|reflexivity].
    destruct (exec_Some _ _ _ _ _ _ E) as [Hk [Hm _]].
    destruct (tagStart_at_bounds _ _ _ _ _ Hm) as [_ [_ [Hns Hne]]].
    assert (i < ne') by (destruct c; lia).
    rewrite (tag_of_match_blank k c ns' ne' Hm) by lia.
    rewrite (IH ne') by lia. reflexivity.
Qed.

(** The matches after the candidate are those after its name. *)
Lemma exec_after_candidate : exec t (m + 1) = exec t ne.
Proof.
  destruct (tagStart_at_bounds _ _ _ _ _ Hstart) as [_ [_ [Hns Hne]]].
  apply exec_skip; [destruct cl; lia|].
  intros j Hj. apply tagStart_at_not_lt.
  destruct (tagStart_at_region t m cl ns ne Hstart j) as [d [Hd [Hn _]]]; [lia|].
  rewrite (char_is_of_char_at t j d) by exact Hd. apply Z.eqb_neq. exact Hn.
Qed.

(** From any [lastIndex] at or before [m], the same tags are found with and
    without the candidate. *)
Lemma tags_from_blank_before (n : nat) :
  forall i, i <= m -> m - i <= Z.of_nat n ->
    tags_from (blank t m) i = tags_from t i.
Proof.
  pose proof blank_m_range as Hm.
  induction n as [|n IH]; intros i Hi Hn.
  - assert (i = m) by lia. subst i.
    rewrite (tags_from_eq t).
    rewrite (exec_found t m m cl ns ne) by (try exact Hstart; try lia; intros; lia).
    rewrite tag_of_match_failed.
    rewrite (tags_from_eq (blank t m)).
    rewrite (exec_skip (blank t m) m (m + 1))
      by (try lia; intros j Hj; replace j with m by lia; apply tagStart_at_blank_m).
    rewrite <- (tags_from_eq (blank t m) (m + 1)).
    rewrite (tags_from_blank_after (Z.to_nat (len t)) (m + 1)) by lia.
    rewrite (tags_from_eq t (m + 1)), exec_after_candidate, <- tags_from_eq.
    reflexivity.
  - destruct (Z.eq_dec i m) as [->|Hne]; [apply (IH m); lia|].
    rewrite (tags_from_eq t).
    destruct (exec t i) as [[[[k c] ns'] ne']|] eqn:E.
    + destruct (exec_Some _ _ _ _ _ _ E) as [Hk [Hmatch Hmin]].
      assert (Hkm : k <= m).
      { destruct (Z_le_gt_dec k m) as [H|H]; [exact H|].
        rewrite (Hmin m) in Hstart by lia. discriminate. }
      destruct (Z.eq_dec k m) as [->|Hkne].
      * rewrite Hstart in Hmatch. inversion Hmatch; subst c ns' ne'.
        rewrite tag_of_match_failed.
        rewrite (tags_from_eq (blank t m)).
        rewrite (exec_skip (blank t m) i (m + 1)).
        -- rewrite <- (tags_from_eq (blank t m) (m + 1)).
           rewrite (tags_from_blank_after (Z.to_nat (len t)) (m + 1)) by lia.
           rewrite (tags_from_eq t (m + 1)), exec_after_candidate, <- tags_from_eq.
           reflexivity.
        -- lia.
        -- intros j Hj. destruct (Z.eq_dec j m) as [->|Hjm];
             [apply tagStart_at_blank_m|].
           rewrite tagStart_at_blank_other by exact Hjm. apply Hmin. lia.
      * rewrite (tags_from_eq (blank t m)).
        rewrite (exec_found (blank t m) i k c ns' ne').
        -- rewrite (tag_of_match_blank k c ns' ne' Hmatch Hkne).
           pose proof (match_before_m k c ns' ne' Hmatch ltac:(lia)) as Hend.
           destruct (tagStart_at_bounds _ _ _ _ _ Hmatch) as [_ [_ [Hns Hnes]]].
           assert (i < ne') by (destruct c; lia).
           rewrite (IH ne') by lia. reflexivity.
        -- exact Hk.
        -- intros j Hj. rewrite tagStart_at_blank_other by lia. apply Hmin. exact Hj.
        -- rewrite tagStart_at_blank_other by exact Hkne. exact Hmatch.
    + exfalso. rewrite (exec_None t i E m) in Hstart by lia. discriminate.
Qed.

(** Without the candidate, the same tags are found at the same offsets. *)
Lemma findAllTags_blank : findAllTags (blank t m) = findAllTags t.
Proof.
  pose proof blank_m_range as Hm. rewrite !findAllTags_tags_from.
  apply (tags_from_blank_before (Z.to_nat m)); lia.
Qed.

(** No tag is recorded for the candidate. *)
Lemma no_tag_at_candidate (tag : TagMatch) :
  In tag (findAllTags t) -> bracketStart tag <> m.
Proof.
  intros Hin Heq. rewrite findAllTags_tags_from in Hin.
  destruct (tags_from_In t tag (Z.to_nat (len t)) 0 ltac:(lia) Hin)
    as [c [ns' [ne' [Hs Ht]]]].
  rewrite Heq in Hs, Ht. rewrite Hstart in Hs. inversion Hs; subst c ns' ne'.
  rewrite tag_of_match_failed in Ht. discriminate.
Qed.

End Blank.

End HtmlDiscard.

(** ** The laws on markup, on the text *)

Module MarkupLaws.
Import HtmlParser Markup HtmlFacts HtmlLex.

(** What the replay reads of a tag: its type and its name. *)
Definition kind (tag : TagMatch) : TagType * text := (type tag, tagName tag).

(** A tree of elements with character data between them. *)
Inductive Node : Type :=
  | Text (s : text)
  | Element (name : text) (attrs : list AttrPiece) (cname : text) (children : list Node).

Fixpoint items_of (n : Node) : list Item :=
  match n with
  | Text s => [Chars s]
  | Element name attrs cname children =>
      Tag open name attrs :: flat_map items_of children ++ [Tag close cname []]
  end.

Definition render_node (n : Node) : text := render (items_of n).

Definition render_forest (forest : list Node) : text := render (flat_map items_of forest).

(** Well-formed nesting of non-void elements: the closing tag bears the name
    of the opening tag, up to case. *)
Fixpoint wf_node (n : Node) : Prop :=
  match n with
  | Text s => ~ In c_lt s
  | Element name attrs cname children =>
      ok_item (Tag open name attrs) /\ valid_name cname /\
      has VOID_ELEMENTS (toLowerCase name) = false /\
      closes cname name /\
      fold_right (fun c P => wf_node c /\ P) True children
  end.

(** The spans the depth law assigns to a node rendered at offset [off] under
    [level] open elements: the three spans of the opening tag and the three
    spans of the closing tag at [level], the children one level deeper. *)
Fixpoint node_spans (level off : Z) (n : Node) : list ColoredRange :=
  match n with
  | Text _ => []
  | Element name attrs cname children =>
      let inner := off + len (render_tag open name attrs) in
      let coff := inner + len (render_forest children) in
      [ mkRange off (off + 1) level;
        mkRange (off + 1) (off + 1 + len name) level;
        mkRange (inner - 1) inner level ]
      ++ (fix go (l : list Node) (o : Z) : list ColoredRange :=
            match l with
            | [] => []
            | c :: l' => node_spans (level + 1) o c ++ go l' (o + len (render_node c))
            end) children inner
      ++ [ mkRange coff (coff + 2) level;
           mkRange (coff + 2) (coff + 2 + len cname) level;
           mkRange (coff + 2 + len cname) (coff + 3 + len cname) level ]
  end.

Fixpoint forest_spans (level off : Z) (forest : list Node) : list ColoredRange :=
  match forest with
  | [] => []
  | n :: rest =>
      node_spans level off n ++ forest_spans level (off + len (render_node n)) rest
  end.

Lemma node_spans_Element (level off : Z) (name : text) (attrs : list AttrPiece)
    (cname : text) (children : list Node) :
  node_spans level off (Element name attrs cname children) =
  let inner := off + len (render_tag open name attrs) in
  let coff := inner + len (render_forest children) in
  [ mkRange off (off + 1) level;
    mkRange (off + 1) (off + 1 + len name) level;
    mkRange (inner - 1) inner level ]
  ++ forest_spans (level + 1) inner children
  ++ [ mkRange coff (coff + 2) level;
       mkRange (coff + 2) (coff + 2 + len cname) level;
       mkRange (coff + 2 + len cname) (coff + 3 + len cname) level ].
Proof.
  cbn [node_spans]. cbv zeta. f_equal. f_equal.
  generalize (off + len (render_tag open name attrs)) as o.
  induction children as [|c children IH]; intro o; [reflexivity|].
  cbn [forest_spans]. f_equal. apply IH.
Qed.

Lemma Node_induction (P : Node -> Prop) :
  (forall s, P (Text s)) ->
  (forall name attrs cname children,
      Forall P children -> P (Element name attrs cname children)) ->
  forall n, P n.
Proof.
  intros Ht He. fix IH 1. intros [s|name attrs cname children].
  - apply Ht.
  - apply He. induction children as [|c children IHc]; constructor.
    + apply IH.
    + exact IHc.
Qed.

Lemma wf_children (children : list Node) :
  fold_right (fun c P => wf_node c /\ P) True children -> Forall wf_node children.
Proof.
  induction children as [|c children IH]; intro H; constructor.
  - apply H.
  - apply IH. apply H.
Qed.

Lemma render_app (a b : list Item) : render (a ++ b) = render a ++ render b.
Proof. unfold render. apply flat_map_app. Qed.

Lemma tag_seq_app (a b : list Item) (off : Z) :
  tag_seq off (a ++ b) = tag_seq off a ++ tag_seq (off + len (render a)) b.
Proof.
  revert off. induction a as [|it a IH]; intro off.
  - cbn. rewrite Z.add_0_r. reflexivity.
  - unfold render. cbn [app flat_map]. fold (render a). rewrite len_app.
    destruct it as [s0|ty name attrs]; cbn [tag_seq render_item].
    + rewrite IH. f_equal. f_equal. lia.
    + rewrite IH. cbn [app]. f_equal. f_equal. f_equal. lia.
Qed.

(** The items of a well-formed node are well-formed items. *)
Lemma wf_node_items (n : Node) : wf_node n -> Forall ok_item (items_of n).
Proof.
  induction n as [s0|name attrs cname children IH] using Node_induction; intro Hwf.
  - constructor; [exact Hwf|constructor].
  - destruct Hwf as [Hopen [Hcname [_ [_ Hch]]]]. apply wf_children in Hch.
    cbn [items_of]. constructor; [exact Hopen|].
    apply Forall_app. split.
    + apply Forall_flat_map. rewrite Forall_forall in *. intros c Hc.
      apply IH; [exact Hc|]. apply Hch. exact Hc.
    + constructor; [|constructor]. cbn.
      split; [exact Hcname|]. split; [constructor|]. split; [exact I|discriminate].
Qed.

Lemma wf_forest_items (forest : list Node) :
  Forall wf_node forest -> Forall ok_item (flat_map items_of forest).
Proof.
  intro H. apply Forall_flat_map. rewrite Forall_forall in *. intros n Hn.
  apply wf_node_items. apply H. exact Hn.
Qed.

Lemma parse_emitted (t : text) : parse t = emitted [] (findAllTags t).
Proof. reflexivity. Qed.

Lemma createTagRanges_tag_at (off : Z) (ty : TagType) (name : text)
    (attrs : list AttrPiece) (d : Z) :
  createTagRanges (tag_at off ty name attrs) d =
  let e := off + len (render_tag ty name attrs) in
  let ns := off + len (opening_bracket ty) in
  [ mkRange off ns d; mkRange ns (ns + len name) d;
    mkRange (e - len (closing_bracket ty)) e d ].
Proof.
  unfold createTagRanges, tag_at. cbn [type bracketStart bracketEnd nameStart nameEnd].
  destruct ty; reflexivity.
Qed.

Lemma open_spans (off : Z) (name : text) (attrs : list AttrPiece) (d : Z) :
  createTagRanges (tag_at off open name attrs) d =
  [ mkRange off (off + 1) d; mkRange (off + 1) (off + 1 + len name) d;
    mkRange (off + len (render_tag open name attrs) - 1)
      (off + len (render_tag open name attrs)) d ].
Proof. reflexivity. Qed.

Lemma close_spans (off : Z) (cname : text) (d : Z) :
  createTagRanges (tag_at off close cname []) d =
  [ mkRange off (off + 2) d; mkRange (off + 2) (off + 2 + len cname) d;
    mkRange (off + 2 + len cname) (off + 3 + len cname) d ].
Proof.
  rewrite createTagRanges_tag_at. cbv zeta. cbn [opening_bracket closing_bracket].
  assert (Hlen : len (render_tag close cname []) = len cname + 3).
  { unfold render_tag. rewrite !len_app. cbn [opening_bracket closing_bracket render_attrs flat_map].
    change (len [c_lt; c_slash]) with 2. change (len [c_gt]) with 1.
    change (len (@nil Z)) with 0. lia. }
  rewrite Hlen. change (len [c_lt; c_slash]) with 2. change (len [c_gt]) with 1.
  f_equal. f_equal. f_equal. f_equal; lia.
Qed.

(** The replay of the tags of a forest of well-formed nodes. *)
Lemma emitted_nodes (forest : list Node) :
  Forall (fun n => forall stack off, wf_node n ->
            emitted stack (tag_seq off (items_of n)) = node_spans (len stack) off n /\
            stack_after stack (tag_seq off (items_of n)) = stack) forest ->
  forall stack off, Forall wf_node forest ->
    emitted stack (tag_seq off (flat_map items_of forest)) =
      forest_spans (len stack) off forest /\
    stack_after stack (tag_seq off (flat_map items_of forest)) = stack.
Proof.
  induction 1 as [|n forest Hn _ IH]; intros stack off Hwf.
  - split; reflexivity.
  - inversion Hwf as [|? ? Hwn Hwr]; subst.
    destruct (Hn stack off Hwn) as [En Sn].
    destruct (IH stack (off + len (render_node n)) Hwr) as [Er Sr].
    cbn [flat_map forest_spans]. rewrite tag_seq_app.
    fold (render_node n). split.
    + rewrite emitted_app, En, Sn, Er. reflexivity.
    + rewrite stack_after_app, Sn, Sr. reflexivity.
Qed.

(** The balanced depth law on the tags of one well-formed node. *)
Lemma emitted_node (n : Node) :
  forall stack off, wf_node n ->
    emitted stack (tag_seq off (items_of n)) = node_spans (len stack) off n /\
    stack_after stack (tag_seq off (items_of n)) = stack.
Proof.
  induction n as [s0|name attrs cname children IH] using Node_induction;
    intros stack off Hwf.
  - split; reflexivity.
  - destruct Hwf as [Hopen [Hcname [Hvoid [Hcl Hch]]]]. apply wf_children in Hch.
    rewrite node_spans_Element. cbv zeta.
    set (inner := off + len (render_tag open name attrs)).
    set (coff := inner + len (render_forest children)).
    set (o := tag_at off open name attrs).
    set (c := tag_at coff close cname []).
    assert (Hseq : tag_seq off (items_of (Element name attrs cname children)) =
                   o :: tag_seq inner (flat_map items_of children) ++ [c]).
    { cbn [items_of tag_seq]. fold o. fold inner. f_equal.
      rewrite tag_seq_app. reflexivity. }
    rewrite Hseq.
    destruct (emitted_open stack o eq_refl) as [Eo So].
    change (tagName o) with name in So. rewrite Hvoid in So.
    destruct (emitted_nodes children IH (stack ++ [name]) inner Hch) as [Eb Sb].
    destruct (emitted_close_found (stack ++ [name]) c (List.length stack) eq_refl
                (topmost_match_last stack name cname Hcl)) as [Ec Sc].
    assert (Hpop : firstn (List.length stack) (stack ++ [name]) = stack).
    { rewrite firstn_app, firstn_all, Nat.sub_diag. cbn [firstn]. apply app_nil_r. }
    rewrite Hpop in Sc.
    replace (len (stack ++ [name])) with (len stack + 1) in Eb
      by (rewrite len_app; reflexivity).
    split.
    + rewrite emitted_cons, Eo, So, emitted_app, Eb, Sb, Ec.
      unfold o, c. rewrite open_spans, close_spans. reflexivity.
    + rewrite stack_after_cons, So, stack_after_app, Sb, Sc. reflexivity.
Qed.

(** The balanced depth law on the text of a well-formed forest. *)
Lemma parse_render_forest (forest : list Node) :
  Forall wf_node forest ->
  parse (render_forest forest) = forest_spans 0 0 forest /\
  tagStack (parse_state (render_forest forest)) = [].
Proof.
  intro Hwf. unfold render_forest.
  pose proof (findAllTags_render _ (wf_forest_items forest Hwf)) as Hlex.
  assert (Hall : Forall (fun n => forall stack off, wf_node n ->
            emitted stack (tag_seq off (items_of n)) = node_spans (len stack) off n /\
            stack_after stack (tag_seq off (items_of n)) = stack) forest).
  { apply Forall_forall. intros n _. apply emitted_node. }
  destruct (emitted_nodes forest Hall [] 0 Hwf) as [E S].
  split.
  - rewrite parse_emitted, Hlex. exact E.
  - unfold parse_state. rewrite Hlex. exact S.
Qed.

(** The depths the replay emits, and the stack it leaves, depend on the
    types and names of the tags only, not on their offsets. *)
Lemma emitted_kind (a b : TagMatch) (stack : list text) :
  kind a = kind b ->
  map Types.depth (emitted stack [a]) = map Types.depth (emitted stack [b]) /\
  stack_after stack [a] = stack_after stack [b].
Proof.
  unfold kind. intro H. inversion H as [[Hty Hname]].
  unfold emitted, stack_after, parse_tags. cbn [fold_left]. unfold parse_tag.
  rewrite Hty, Hname. cbn [tagStack ranges].
  destruct (type b).
  - destruct (negb (has VOID_ELEMENTS (toLowerCase (tagName b)))); cbn [tagStack ranges app];
      rewrite !createTagRanges_depth; split; reflexivity.
  - cbn [tagStack ranges app]. rewrite !createTagRanges_depth. split; reflexivity.
  - cbn [tagStack ranges app]. rewrite !createTagRanges_depth. split; reflexivity.
Qed.

Lemma emitted_kinds (a b : list TagMatch) :
  map kind a = map kind b ->
  forall stack,
    map Types.depth (emitted stack a) = map Types.depth (emitted stack b) /\
    stack_after stack a = stack_after stack b.
Proof.
  revert b. induction a as [|x a IH]; intros [|y b] H stack; try discriminate.
  - split; reflexivity.
  - cbn [map] in H.
    assert (Hxy : kind x = kind y) by congruence.
    assert (Hab : map kind a = map kind b) by congruence.
    destruct (emitted_kind x y stack Hxy) as [E1 S1].
    destruct (IH b Hab (stack_after stack [x])) as [E2 S2].
    split.
    + rewrite (emitted_cons stack x), (emitted_cons stack y), <- S1.
      rewrite !map_app, E1, E2. reflexivity.
    + rewrite (stack_after_cons stack x), (stack_after_cons stack y), <- S1.
      exact S2.
Qed.

Lemma tag_seq_kinds (items : list Item) (off off' : Z) :
  map kind (tag_seq off items) = map kind (tag_seq off' items).
Proof.
  revert off off'. induction items as [|it items IH]; intros off off'; [reflexivity|].
  destruct it as [s0|ty name attrs]; cbn [tag_seq map].
  - apply IH.
  - f_equal. apply IH.
Qed.

(** A tag that pushes nothing, inserted between two items of a document:
    the depths of the other tags are what they are without it, it is emitted
    at the length the stack has there, and the stack at the end is the
    same. *)
Lemma insert_on_text (pre post : list Item) (ty : TagType) (name : text)
    (attrs : list AttrPiece) :
  Forall ok_item pre -> Forall ok_item post -> ok_item (Tag ty name attrs) ->
  pushes_nothing (tag_at 0 ty name attrs) ->
  let d := len (tagStack (parse_state (render pre))) in
  let before := map Types.depth (parse (render pre)) in
  exists after,
    map Types.depth (parse (render (pre ++ post))) = before ++ after /\
    map Types.depth (parse (render (pre ++ Tag ty name attrs :: post))) =
      before ++ [d; d; d] ++ after /\
    tagStack (parse_state (render (pre ++ Tag ty name attrs :: post))) =
      tagStack (parse_state (render (pre ++ post))).
Proof.
  intros Hpre Hpost Hv Hpush d before.
  assert (Hall1 : Forall ok_item (pre ++ post)) by (apply Forall_app; split; assumption).
  assert (Hall2 : Forall ok_item (pre ++ Tag ty name attrs :: post))
    by (apply Forall_app; split; [assumption|constructor; assumption]).
  set (s1 := stack_after [] (tag_seq 0 pre)).
  set (o1 := 0 + len (render pre)).
  set (v := tag_at o1 ty name attrs).
  assert (Hd : d = len s1).
  { unfold d, parse_state. rewrite (findAllTags_render pre Hpre). reflexivity. }
  assert (Hbefore : before = map Types.depth (emitted [] (tag_seq 0 pre))).
  { unfold before. rewrite parse_emitted, (findAllTags_render pre Hpre). reflexivity. }
  assert (Hpv : pushes_nothing v).
  { destruct Hpush as [H|[H1 H2]]; [left; exact H|right; split; assumption]. }
  destruct (emitted_insert [] (tag_seq 0 pre)
              (tag_seq (o1 + len (render_tag ty name attrs)) post) v Hpv)
    as [E1 [_ [_ S1]]].
  destruct (emitted_kinds (tag_seq (o1 + len (render_tag ty name attrs)) post)
              (tag_seq o1 post) (tag_seq_kinds post _ _) s1) as [Ek Sk].
  exists (map Types.depth (emitted s1 (tag_seq o1 post))).
  split; [|split].
  - rewrite parse_emitted, (findAllTags_render _ Hall1), tag_seq_app.
    fold o1. rewrite emitted_app, map_app, Hbefore. reflexivity.
  - rewrite parse_emitted, (findAllTags_render _ Hall2), tag_seq_app.
    fold o1. cbn [tag_seq]. fold v. rewrite E1. fold s1.
    rewrite !map_app, createTagRanges_depth, Ek, Hbefore, Hd. reflexivity.
  - unfold parse_state.
    rewrite (findAllTags_render _ Hall1), (findAllTags_render _ Hall2), !tag_seq_app.
    fold o1. cbn [tag_seq]. fold v.
    fold (stack_after [] (tag_seq 0 pre ++ v :: tag_seq (o1 + len (render_tag ty name attrs)) post)).
    fold (stack_after [] (tag_seq 0 pre ++ tag_seq o1 post)).
    rewrite S1. rewrite !stack_after_app. fold s1. exact Sk.
Qed.

End MarkupLaws.

(** ** JsxParser: one iteration of the loop of [tokenize] *)

Module JsxFacts.
Import JsxParser.

Lemma quote_at_not_quote (t : text) (i c : Z) :
  char_is t i c = true -> c <> c_dquote -> c <> c_squote -> c <> c_backtick ->
  quote_at t i = None.
Proof.
  intros H H1 H2 H3. apply char_is_true in H. unfold quote_at. rewrite H.
  apply Z.eqb_neq in H1, H2, H3. rewrite H1, H2, H3. reflexivity.
Qed.

(** On a brace the loop body skips no comment and no string. *)
Lemma tokenize_step_brace (cfg : Config) (t : text) (st : State) (c : Z) :
  c = c_lbrace \/ c = c_rbrace ->
  char_is t (st_i st) c = true ->
  tokenize_step cfg t st =
    if st_inJsxExpression st then step_expression cfg t st
    else match step_tag t st with
         | Some st' => st'
         | None => step_rest cfg t st
         end.
Proof.
  intros Hc H. unfold tokenize_step.
  assert (Hs : char_is t (st_i st) c_slash = false)
    by (apply (char_is_other _ _ _ _ H); destruct Hc; subst; discriminate).
  rewrite Hs. cbn [andb].
  rewrite (quote_at_not_quote t (st_i st) c H)
    by (destruct Hc; subst; discriminate).
  destruct (negb (isInsideJsxTag t (st_i st))); reflexivity.
Qed.

Lemma step_tag_not_lt (t : text) (st : State) (c : Z) :
  char_is t (st_i st) c = true -> c <> c_lt -> step_tag t st = None.
Proof.
  intros H Hne. unfold step_tag. rewrite (char_is_other _ _ _ _ H Hne). reflexivity.
Qed.

(** *** The invariant of the loop *)

(** The depth counter is the sum of the lengths of the two stacks, an
    expression is only open under an open tag, the depths stored in the
    object frames and the depths emitted so far are not negative. *)
Definition inv (st : State) : Prop :=
  st_depth st = len (st_tagStack st) + len (st_objectBraceStack st) /\
  (st_inJsxExpression st = true -> st_tagStack st <> []) /\
  Forall (fun d => 0 <= d) (st_objectBraceStack st) /\
  Forall (fun tk => 0 <= depth tk) (st_tokens st).

Lemma findMatchingOpenTag_loop_range (fuel : nat) (stack : list text) (name : text) (i : Z) :
  let r := findMatchingOpenTag_loop fuel stack name i in
  r = -1 \/ 0 <= r <= i.
Proof.
  revert i. induction fuel as [|f IH]; intro i; simpl; [left; reflexivity|].
  destruct (0 <=? i) eqn:E; [|left; reflexivity].
  apply Z.leb_le in E.
  destruct (nth_error stack (Z.to_nat i)) as [s|].
  - destruct (str_eqb s name); [right; lia|].
    destruct (IH (i - 1)) as [H|H]; [left; exact H|right; lia].
  - destruct (IH (i - 1)) as [H|H]; [left; exact H|right; lia].
Qed.

Lemma findMatchingOpenTag_range (stack : list text) (name : text) :
  findMatchingOpenTag stack name = -1 \/
  0 <= findMatchingOpenTag stack name < len stack.
Proof.
  unfold findMatchingOpenTag.
  destruct (findMatchingOpenTag_loop_range (List.length stack) stack name (len stack - 1))
    as [H|H]; [left; exact H|right; lia].
Qed.

Lemma len_firstn_le {A : Type} (l : list A) (k : Z) :
  0 <= k <= len l -> len (firstn (Z.to_nat k) l) = k.
Proof. intro H. unfold len in *. rewrite length_firstn. lia. Qed.

Lemma len_pos_nonempty {A : Type} (l : list A) : l <> [] -> 1 <= len l.
Proof.
  destruct l; [contradiction|]. intros _. rewrite len_cons.
  pose proof (len_nonneg l). lia.
Qed.

Lemma inv_set_i (st : State) (i : Z) : inv st -> inv (set_i st i).
Proof. intro H. exact H. Qed.

Lemma inv_step_expression (cfg : Config) (t : text) (st : State) :
  st_inJsxExpression st = true -> inv st -> inv (step_expression cfg t st).
Proof.
  intros Hin [Hd [Hexp [Hobj Htok]]].
  pose proof (len_nonneg (st_tagStack st)) as Ht0.
  pose proof (len_nonneg (st_objectBraceStack st)) as Ho0.
  pose proof (len_pos_nonempty _ (Hexp Hin)) as Ht1.
  unfold step_expression.
  destruct (char_is t (st_i st) c_lbrace).
  - destruct (objectBracesEnabled cfg && isObjectContext t (st_i st)).
    + repeat split; cbn [st_depth st_tagStack st_objectBraceStack st_tokens st_inJsxExpression depth].
      * rewrite len_cons. lia.
      * exact Hexp.
      * constructor; [lia|exact Hobj].
      * apply Forall_snoc; [exact Htok|cbn; lia].
    + repeat split; assumption.
  - destruct (char_is t (st_i st) c_rbrace).
    + destruct (st_jsxExpressionBraceDepth st - 1 =? 0).
      * repeat split; cbn [st_depth st_tagStack st_objectBraceStack st_tokens st_inJsxExpression];
          try assumption.
        -- intro; discriminate.
        -- apply Forall_snoc; [exact Htok|cbn; lia].
      * destruct (st_objectBraceStack st) as [|d rest] eqn:Es.
        -- repeat split; cbn [st_depth st_tagStack st_objectBraceStack st_tokens st_inJsxExpression];
             try assumption.
        -- inversion Hobj; subst. rewrite len_cons in Hd.
           repeat split; cbn [st_depth st_tagStack st_objectBraceStack st_tokens st_inJsxExpression];
             try assumption.
           ++ lia.
           ++ apply Forall_snoc; [exact Htok|cbn; assumption].
    + destruct (colorizeKeys cfg && (0 <? len (st_objectBraceStack st))) eqn:Ek.
      * destruct (matchPropertyKey t (st_i st)) as [[s e]|].
        -- apply andb_true_iff in Ek. destruct Ek as [_ Ek]. apply Z.ltb_lt in Ek.
           repeat split; cbn [set_i push st_depth st_tagStack st_objectBraceStack st_tokens st_inJsxExpression];
             try assumption.
           apply Forall_snoc; [exact Htok|cbn; lia].
        -- destruct (quote_at t (st_i st)); repeat split; assumption.
      * destruct (quote_at t (st_i st)); repeat split; assumption.
Qed.

Lemma inv_step_closing_tag (t : text) (st st' : State) :
  st_inJsxExpression st = false -> inv st -> step_closing_tag t st = Some st' -> inv st'.
Proof.
  intros Hin [Hd [Hexp [Hobj Htok]]] Hs.
  pose proof (len_nonneg (st_tagStack st)) as Ht0.
  pose proof (len_nonneg (st_objectBraceStack st)) as Ho0.
  unfold step_closing_tag in Hs.
  destruct (char_is t (st_i st + 1) c_slash); [|discriminate].
  destruct (parseClosingTag t (st_i st)) as [closeTag|]; [|discriminate].
  inversion Hs; subst st'; clear Hs.
  destruct (findMatchingOpenTag_range (st_tagStack st) (c_tagName closeTag)) as [Hr|Hr].
  - rewrite Hr. change (negb (-1 =? -1)) with false. cbv iota.
    repeat split; cbn [st_depth st_tagStack st_objectBraceStack st_tokens st_inJsxExpression];
      try assumption.
    apply Forall_app. split; [exact Htok|].
    repeat constructor; cbn; lia.
  - replace (findMatchingOpenTag (st_tagStack st) (c_tagName closeTag) =? -1) with false
      by (symmetry; apply Z.eqb_neq; lia).
    cbn [negb].
    repeat split; cbn [st_depth st_tagStack st_objectBraceStack st_tokens st_inJsxExpression];
      try assumption.
    + rewrite len_firstn_le by lia. lia.
    + rewrite Hin. intro; discriminate.
    + apply Forall_app. split; [exact Htok|].
      repeat constructor; cbn; lia.
Qed.

Lemma inv_step_opening_tag (t : text) (st st' : State) :
  st_inJsxExpression st = false -> inv st -> step_opening_tag t st = Some st' -> inv st'.
Proof.
  intros Hin [Hd [Hexp [Hobj Htok]]] Hs.
  pose proof (len_nonneg (st_tagStack st)) as Ht0.
  pose proof (len_nonneg (st_objectBraceStack st)) as Ho0.
  unfold step_opening_tag in Hs.
  destruct (parseOpeningTag t (st_i st)) as [openTag|]; [|discriminate].
  destruct (o_selfClosing openTag); inversion Hs; subst st'; clear Hs.
  - repeat split; cbn [st_depth st_tagStack st_objectBraceStack st_tokens st_inJsxExpression];
      try assumption.
    apply Forall_app. split; [exact Htok|]. repeat constructor; cbn; lia.
  - repeat split; cbn [st_depth st_tagStack st_objectBraceStack st_tokens st_inJsxExpression];
      try assumption.
    + rewrite len_app, len_cons, len_nil. lia.
    + rewrite Hin. intro; discriminate.
    + apply Forall_app. split; [exact Htok|]. repeat constructor; cbn; lia.
Qed.

Lemma inv_step_rest (cfg : Config) (t : text) (st : State) :
  st_inJsxExpression st = false -> inv st -> inv (step_rest cfg t st).
Proof.
  intros Hin Hinv. pose proof Hinv as [Hd [Hexp [Hobj Htok]]].
  pose proof (len_nonneg (st_tagStack st)) as Ht0.
  pose proof (len_nonneg (st_objectBraceStack st)) as Ho0.
  unfold step_rest.
  destruct (char_is t (st_i st) c_lbrace && (0 <? len (st_tagStack st))) eqn:E1.
  - apply andb_true_iff in E1. destruct E1 as [_ E1]. apply Z.ltb_lt in E1.
    repeat split; cbn [st_depth st_tagStack st_objectBraceStack st_tokens st_inJsxExpression];
      try assumption.
    + intros _ Hnil. rewrite Hnil in E1. unfold len in E1. simpl in E1. lia.
    + apply Forall_snoc; [exact Htok|cbn; lia].
  - destruct (objectBracesEnabled cfg && char_is t (st_i st) c_lbrace
              && (len (st_tagStack st) =? 0)).
    + destruct (isObjectContext t (st_i st)); [|exact Hinv].
      repeat split; cbn [st_depth st_tagStack st_objectBraceStack st_tokens st_inJsxExpression];
        try assumption.
      * rewrite len_cons. lia.
      * constructor; [lia|exact Hobj].
      * apply Forall_snoc; [exact Htok|cbn; lia].
    + assert (Hkey : inv match (if colorizeKeys cfg && (len (st_tagStack st) =? 0)
                                   && (0 <? len (st_objectBraceStack st))
                                then matchPropertyKey t (st_i st) else None) with
                         | Some (s, e) =>
                             set_i (push st (tok PropertyKey s e (st_depth st - 1))) e
                         | None => set_i st (st_i st + 1)
                         end).
      { destruct (colorizeKeys cfg && (len (st_tagStack st) =? 0)
                  && (0 <? len (st_objectBraceStack st))) eqn:Ek; [|exact Hinv].
        destruct (matchPropertyKey t (st_i st)) as [[s e]|]; [|exact Hinv].
        apply andb_true_iff in Ek. destruct Ek as [_ Ek]. apply Z.ltb_lt in Ek.
        repeat split; cbn [set_i push st_depth st_tagStack st_objectBraceStack st_tokens st_inJsxExpression];
          try assumption.
        apply Forall_snoc; [exact Htok|cbn; lia]. }
      destruct (objectBracesEnabled cfg && char_is t (st_i st) c_rbrace
                && (len (st_tagStack st) =? 0)); [|exact Hkey].
      destruct (st_objectBraceStack st) as [|d rest] eqn:Es; [exact Hkey|].
      inversion Hobj; subst. rewrite len_cons in Hd.
      repeat split; cbn [st_depth st_tagStack st_objectBraceStack st_tokens st_inJsxExpression];
        try assumption.
      * lia.
      * apply Forall_snoc; [exact Htok|cbn; assumption].
Qed.

Lemma inv_tokenize_step (cfg : Config) (t : text) (st : State) :
  inv st -> inv (tokenize_step cfg t st).
Proof.
  intro H. unfold tokenize_step.
  destruct (char_is t (st_i st) c_slash && (st_i st + 1 <? len t)
            && char_is t (st_i st + 1) c_slash); [apply inv_set_i; exact H|].
  destruct (char_is t (st_i st) c_slash && (st_i st + 1 <? len t)
            && char_is t (st_i st + 1) c_star); [apply inv_set_i; exact H|].
  destruct (if negb (isInsideJsxTag t (st_i st)) then quote_at t (st_i st) else None);
    [apply inv_set_i; exact H|].
  destruct (st_inJsxExpression st) eqn:Hin.
  - apply inv_step_expression; assumption.
  - unfold step_tag. destruct (char_is t (st_i st) c_lt).
    + destruct (step_closing_tag t st) as [st'|] eqn:Ec.
      * eapply inv_step_closing_tag; eauto.
      * destruct (step_opening_tag t st) as [st'|] eqn:Eo.
        -- eapply inv_step_opening_tag; eauto.
        -- apply inv_step_rest; assumption.
    + apply inv_step_rest; assumption.
Qed.

Lemma inv_init_jsx : inv init.
Proof.
  repeat split; cbn; try constructor. intro; discriminate.
Qed.

Lemma inv_tokenize_loop (fuel : nat) (cfg : Config) (t : text) (st : State) :
  inv st -> inv (tokenize_loop fuel cfg t st).
Proof.
  revert st. induction fuel as [|f IH]; intros st H; simpl; [exact H|].
  destruct (st_i st <? len t); [|exact H].
  apply IH. apply inv_tokenize_step. exact H.
Qed.

End JsxFacts.

(** ** Every skipping function moves forward *)

Module Progress.

Lemma scan_fwd_step (p : option Z -> bool) (t : text) (pos : Z) :
  pos < len t -> p (char_at t pos) = true -> pos + 1 <= scan_fwd p t pos.
Proof.
  intros Hlt Hp. rewrite scan_fwd_eq. apply Z.ltb_lt in Hlt. rewrite Hlt, Hp.
  cbn [andb]. apply scan_fwd_ge.
Qed.

Lemma skipToEndOfLine_gt (t : text) (pos : Z) : pos < ObjectParser.skipToEndOfLine t pos.
Proof.
  unfold ObjectParser.skipToEndOfLine.
  pose proof (scan_fwd_ge (fun o => negb (is_char c_nl o)) t pos). lia.
Qed.

Lemma skipBlockComment_loop_ge (fuel : nat) (t : text) (pos : Z) :
  len t <= ObjectParser.skipBlockComment_loop fuel t pos \/
  pos + 2 <= ObjectParser.skipBlockComment_loop fuel t pos.
Proof.
  revert pos. induction fuel as [|f IH]; intro pos; cbn [ObjectParser.skipBlockComment_loop].
  - left. lia.
  - destruct (pos <? len t - 1); [|left; lia].
    destruct (char_is t pos c_star && char_is t (pos + 1) c_slash); [right; lia|].
    destruct (IH (pos + 1)) as [H|H]; [left; exact H|right; lia].
Qed.

Lemma skipBlockComment_gt (t : text) (pos : Z) :
  pos + 1 < len t -> pos < ObjectParser.skipBlockComment t pos.
Proof.
  intro H. unfold ObjectParser.skipBlockComment.
  destruct (skipBlockComment_loop_ge (Z.to_nat (len t - (pos + 2))) t (pos + 2)); lia.
Qed.

Lemma skipTemplate_loop_ge (fuel : nat) (t : text) :
  (forall pos, pos <= ObjectParser.skipTemplate_loop fuel t pos) /\
  (forall pos depth, pos <= ObjectParser.skipInterpolation_loop fuel t pos depth).
Proof.
  induction fuel as [|f [IHt IHi]]; (split; [intros pos|intros pos d]);
    cbn [ObjectParser.skipTemplate_loop ObjectParser.skipInterpolation_loop]; try lia.
  - destruct (pos <? len t); [|lia].
    destruct (char_is t pos c_backslash); [specialize (IHt (pos + 2)); lia|].
    destruct (char_is t pos c_backtick); [lia|].
    destruct (char_is t pos c_dollar && char_is t (pos + 1) c_lbrace).
    + pose proof (IHi (pos + 2) 1).
      pose proof (IHt (ObjectParser.skipInterpolation_loop f t (pos + 2) 1)). lia.
    + specialize (IHt (pos + 1)). lia.
  - destruct ((pos <? len t) && (0 <? d)); [|lia].
    destruct (char_is t pos c_lbrace); [specialize (IHi (pos + 1) (d + 1)); lia|].
    destruct (char_is t pos c_rbrace); [specialize (IHi (pos + 1) (d - 1)); lia|].
    destruct (char_is t pos c_backtick).
    + pose proof (IHt (pos + 1)).
      pose proof (IHi (ObjectParser.skipTemplate_loop f t (pos + 1)) d). lia.
    + specialize (IHi (pos + 1) d). lia.
Qed.

Lemma skipQuoted_loop_ge (fuel : nat) (t : text) (pos quote : Z) :
  pos <= ObjectParser.skipQuoted_loop fuel t pos quote.
Proof.
  revert pos. induction fuel as [|f IH]; intro pos; cbn [ObjectParser.skipQuoted_loop]; [lia|].
  destruct (pos <? len t); [|lia].
  destruct (char_is t pos c_backslash); [specialize (IH (pos + 2)); lia|].
  destruct (char_is t pos quote); [lia|].
  destruct (char_is t pos c_nl && negb (quote =? c_backtick)); [lia|].
  specialize (IH (pos + 1)). lia.
Qed.

Lemma object_skipString_gt (t : text) (pos quote : Z) :
  pos < ObjectParser.skipString t pos quote.
Proof.
  unfold ObjectParser.skipString. destruct (quote =? c_backtick).
  - pose proof (proj1 (skipTemplate_loop_ge (Z.to_nat (len t - (pos + 1))) t) (pos + 1)). lia.
  - pose proof (skipQuoted_loop_ge (Z.to_nat (len t - (pos + 1))) t (pos + 1) quote). lia.
Qed.

Lemma skipClass_loop_ge (fuel : nat) (t : text) (pos : Z) :
  pos <= ObjectParser.skipClass_loop fuel t pos.
Proof.
  revert pos. induction fuel as [|f IH]; intro pos; cbn [ObjectParser.skipClass_loop]; [lia|].
  destruct ((pos <? len t) && negb (char_is t pos c_rbrack)); [|lia].
  destruct (char_is t pos c_backslash);
    [specialize (IH (pos + 2))|specialize (IH (pos + 1))]; lia.
Qed.

Lemma skipRegex_loop_ge (fuel : nat) (t : text) (pos : Z) :
  pos <= ObjectParser.skipRegex_loop fuel t pos.
Proof.
  revert pos. induction fuel as [|f IH]; intro pos; cbn [ObjectParser.skipRegex_loop]; [lia|].
  destruct (pos <? len t); [|lia].
  destruct (char_is t pos c_backslash); [specialize (IH (pos + 2)); lia|].
  destruct (char_is t pos c_slash).
  { pose proof (scan_fwd_ge (test is_regex_flag) t (pos + 1)). lia. }
  destruct (char_is t pos c_nl); [lia|].
  destruct (char_is t pos c_lbrack).
  - pose proof (skipClass_loop_ge (Z.to_nat (len t - (pos + 1))) t (pos + 1)).
    pose proof (IH (ObjectParser.skipClass_loop (Z.to_nat (len t - (pos + 1))) t (pos + 1) + 1)).
    lia.
  - specialize (IH (pos + 1)). lia.
Qed.

Lemma skipRegex_gt (t : text) (pos : Z) : pos < ObjectParser.skipRegex t pos.
Proof.
  unfold ObjectParser.skipRegex.
  pose proof (skipRegex_loop_ge (Z.to_nat (len t - (pos + 1))) t (pos + 1)). lia.
Qed.

Lemma stringKey_loop_ge (fuel : nat) (t : text) (pos quote : Z) :
  pos <= ObjectParser.stringKey_loop fuel t pos quote.
Proof.
  revert pos. induction fuel as [|f IH]; intro pos; cbn [ObjectParser.stringKey_loop]; [lia|].
  destruct ((pos <? len t) && negb (char_is t pos quote)); [|lia].
  destruct (char_is t pos c_backslash);
    [specialize (IH (pos + 2))|specialize (IH (pos + 1))]; lia.
Qed.

Lemma computedKey_loop_ge (fuel : nat) (t : text) (pos d : Z) :
  pos <= ObjectParser.computedKey_loop fuel t pos d.
Proof.
  revert pos d. induction fuel as [|f IH]; intros pos d;
    cbn [ObjectParser.computedKey_loop]; [lia|].
  destruct ((pos <? len t) && (0 <? d)); [|lia].
  destruct (char_is t pos c_lbrack); [specialize (IH (pos + 1) (d + 1)); lia|].
  destruct (char_is t pos c_rbrack); [specialize (IH (pos + 1) (d - 1)); lia|].
  specialize (IH (pos + 1) d). lia.
Qed.

Lemma ident_start_char (c : Z) : is_ident_start c = true -> is_ident_char c = true.
Proof.
  unfold is_ident_start, is_ident_char. intro H.
  apply orb_true_iff in H. destruct H as [H|H].
  - apply orb_true_iff in H. destruct H as [H|H]; rewrite H; cbn;
      rewrite ?orb_true_r; reflexivity.
  - rewrite H. rewrite !orb_true_r. reflexivity.
Qed.

(** An identifier key is not empty. *)
Lemma identifier_end_gt (t : text) (pos : Z) :
  0 <= pos < len t -> test is_ident_start (char_at t pos) = true ->
  pos < scan_fwd (test is_ident_char) t pos.
Proof.
  intros Hr Hs. destruct (char_at_in_range t pos Hr) as [c Hc].
  rewrite Hc in Hs. cbn [test] in Hs.
  pose proof (scan_fwd_step (test is_ident_char) t pos (proj2 Hr)) as H.
  rewrite Hc in H. cbn [test] in H. specialize (H (ident_start_char c Hs)). lia.
Qed.

(** A key [ObjectParser.matchPropertyKey] finds is not empty and starts at
    or after the position it is asked at. *)
Lemma object_matchPropertyKey_gt (t : text) (pos s e : Z) :
  0 <= pos -> ObjectParser.matchPropertyKey t pos = Some (s, e) -> pos <= s < e.
Proof.
  intros H0 H. unfold ObjectParser.matchPropertyKey in H.
  pose proof (scan_fwd_ge (test is_space) t pos) as Hws.
  set (p0 := scan_fwd (test is_space) t pos) in *.
  destruct (len t <=? p0) eqn:E; [discriminate|]. apply Z.leb_gt in E.
  assert (H1 : match ObjectParser.identifierKey t p0 with
               | inl (s', e') => p0 <= s' < e'
               | inr p1 => p0 <= p1
               end).
  { unfold ObjectParser.identifierKey.
    destruct (test is_ident_start (char_at t p0)) eqn:Ei; [|lia].
    pose proof (identifier_end_gt t p0 ltac:(lia) Ei) as Hid.
    set (p1 := scan_fwd (test is_ident_char) t p0) in *.
    pose proof (scan_fwd_ge (test is_space) t p1).
    destruct (ObjectParser.colon_at t (scan_fwd (test is_space) t p1)); lia. }
  destruct (ObjectParser.identifierKey t p0) as [[s1 e1]|p1].
  { inversion H; subst. lia. }
  assert (H2 : match ObjectParser.stringKey t p1 with
               | inl (s', e') => p1 <= s' < e'
               | inr p2 => p1 <= p2
               end).
  { unfold ObjectParser.stringKey.
    destruct (char_is t p1 c_dquote || char_is t p1 c_squote); [|lia].
    set (q := match char_at t p1 with Some c => c | None => 0 end).
    pose proof (stringKey_loop_ge (Z.to_nat (len t - (p1 + 1))) t (p1 + 1) q) as Hl.
    set (p2 := ObjectParser.stringKey_loop (Z.to_nat (len t - (p1 + 1))) t (p1 + 1) q) in *.
    destruct (p2 <? len t); [|lia].
    pose proof (scan_fwd_ge (test is_space) t (p2 + 1)).
    destruct (ObjectParser.colon_at t (scan_fwd (test is_space) t (p2 + 1))); lia. }
  destruct (ObjectParser.stringKey t p1) as [[s2 e2]|p2].
  { inversion H; subst. lia. }
  unfold ObjectParser.computedKey in H.
  destruct (char_is t p2 c_lbrack); [|discriminate].
  pose proof (computedKey_loop_ge (Z.to_nat (len t - (p2 + 1))) t (p2 + 1) 1) as Hl.
  destruct (ObjectParser.colon_at t _); [|discriminate].
  inversion H; subst. lia.
Qed.

End Progress.

(** ** ObjectParser: the loop of [findObjectBracesAndKeys] *)

Module ObjectFacts.
Import ObjectParser.

(** The depths stored in the frames, in the braces and in the keys found so
    far are not negative. *)
Definition inv (st : State) : Prop :=
  Forall (fun f => 0 <= f_depth f) (st_braceStack st) /\
  Forall (fun b => 0 <= depth b) (st_braces st) /\
  Forall (fun k => 0 <= k_depth k) (st_propertyKeys st).

Lemma objectCount_nonneg (braceStack : list Frame) : 0 <= objectCount braceStack.
Proof. apply len_nonneg. Qed.

Lemma objectCount_top (f : Frame) (braceStack : list Frame) :
  f_isObject f = true -> 1 <= objectCount (f :: braceStack).
Proof.
  intro H. unfold objectCount. cbn [filter]. rewrite H. rewrite len_cons.
  pose proof (len_nonneg (filter f_isObject braceStack)). lia.
Qed.

(** One iteration never throws and keeps the invariant. *)
Lemma step_ok (cfg : Config) (t : text) (st : State) :
  inv st -> exists st', step cfg t st = Ok st' /\ inv st'.
Proof.
  intros Hinv. pose proof Hinv as [Hstack [Hbr Hkeys]].
  unfold step.
  destruct (char_is t (st_i st) c_slash && (st_i st + 1 <? len t)
            && char_is t (st_i st + 1) c_slash); [eexists; split; [reflexivity|exact Hinv]|].
  destruct (char_is t (st_i st) c_slash && (st_i st + 1 <? len t)
            && char_is t (st_i st + 1) c_star); [eexists; split; [reflexivity|exact Hinv]|].
  destruct (quote_at t (st_i st)); [eexists; split; [reflexivity|exact Hinv]|].
  destruct (char_is t (st_i st) c_slash && isRegexContext t (st_i st));
    [eexists; split; [reflexivity|exact Hinv]|].
  destruct (char_is t (st_i st) c_lbrace).
  { eexists; split; [reflexivity|].
    pose proof (objectCount_nonneg (st_braceStack st)).
    repeat split; cbn [st_braceStack st_braces st_propertyKeys].
    - constructor; [cbn; assumption|exact Hstack].
    - destruct (isObjectContext t (st_i st)); [|exact Hbr].
      apply Forall_snoc; [exact Hbr|cbn; assumption].
    - exact Hkeys. }
  destruct (char_is t (st_i st) c_rbrace).
  { destruct (st_braceStack st) as [|f rest] eqn:Es; cbn [hd_error tl and_prop prop bind].
    - eexists; split; [reflexivity|]. repeat split; cbn [st_braceStack st_braces st_propertyKeys];
        try assumption.
    - inversion Hstack; subst.
      destruct (f_isObject f); cbn [bind prop];
        (eexists; split; [reflexivity|]);
        repeat split; cbn [st_braceStack st_braces st_propertyKeys]; try assumption.
      apply Forall_snoc; [exact Hbr|cbn; assumption]. }
  destruct (colorizeKeys cfg && (0 <? len (st_braceStack st))) eqn:Ek.
  - apply andb_true_iff in Ek. destruct Ek as [_ Ek]. apply Z.ltb_lt in Ek.
    destruct (st_braceStack st) as [|f rest] eqn:Es; [unfold len in Ek; simpl in Ek; lia|].
    cbn [hd_error prop bind].
    destruct (f_isObject f) eqn:Ef.
    + destruct (matchPropertyKey t (st_i st)) as [[s e]|].
      * eexists; split; [reflexivity|].
        repeat split; cbn [st_braceStack st_braces st_propertyKeys]; try assumption.
        apply Forall_snoc; [exact Hkeys|]. cbn.
        pose proof (objectCount_top f rest Ef). lia.
      * eexists; split; [reflexivity|]. unfold set_i, inv. cbn. rewrite Es.
        split; [exact Hstack|split; assumption].
    + eexists; split; [reflexivity|]. unfold set_i, inv. cbn. rewrite Es.
        split; [exact Hstack|split; assumption].
  - cbn [bind]. eexists; split; [reflexivity|exact Hinv].
Qed.

Lemma loop_ok (fuel : nat) (cfg : Config) (t : text) (st : State) :
  inv st -> exists st', loop fuel cfg t st = Ok st' /\ inv st'.
Proof.
  revert st. induction fuel as [|f IH]; intros st H; simpl.
  - exists st. split; [reflexivity|exact H].
  - destruct (st_i st <? len t); [|exists st; split; [reflexivity|exact H]].
    destruct (step_ok cfg t st H) as [st1 [E1 H1]]. rewrite E1. cbn [bind].
    apply IH. exact H1.
Qed.

Lemma inv_init_object : inv init.
Proof. repeat split; constructor. Qed.

(** [parse] never throws, and its depths are not negative. *)
Lemma parse_ok (cfg : Config) (t : text) :
  exists rs, parse cfg t = Ok rs /\ Forall (fun r => 0 <= Types.depth r) rs.
Proof.
  unfold parse. destruct (negb (objectBracesEnabled cfg)).
  - exists []. split; [reflexivity|constructor].
  - unfold findObjectBracesAndKeys.
    destruct (loop_ok (List.length t) cfg t init inv_init_object) as [st [E [_ [Hbr Hkeys]]]].
    rewrite E. cbn [bind]. eexists; split; [reflexivity|].
    assert (Hb : Forall (fun r => 0 <= Types.depth r)
                   (map (fun brace => createColoredRange (position brace) (position brace + 1)
                                        (depth brace))
                      (filter isObject (st_braces st)))).
    { apply Forall_map. apply Forall_forall. intros b Hb. apply filter_In in Hb.
      destruct Hb as [Hb _]. rewrite Forall_forall in Hbr. cbn. apply Hbr. exact Hb. }
    destruct (colorizeKeys cfg); [|exact Hb].
    apply Forall_app. split; [exact Hb|].
    apply Forall_map. apply Forall_forall. intros k Hk.
    rewrite Forall_forall in Hkeys. cbn. apply Hkeys. exact Hk.
Qed.

(** [j] is the position of the nearest character before [position] that is
    not white space, and [c] is that character. *)
Definition nearest_before (t : text) (position j c : Z) : Prop :=
  j < position /\ char_at t j = Some c /\ is_space c = false /\
  forall k, j < k < position -> exists d, char_at t k = Some d /\ is_space d = true.

Lemma nearest_before_scan (t : text) (position j c : Z) :
  nearest_before t position j c ->
  scan_back (test is_space) t (position - 1) = j /\ 0 <= j.
Proof.
  intros [Hlt [Hc [Hsp Hws]]]. pose proof (char_at_Some _ _ _ Hc) as Hr. split; [|lia].
  apply scan_back_spec.
  - lia.
  - intros k Hk. split; [lia|]. destruct (Hws k) as [d [Hd Hs]]; [lia|].
    rewrite Hd. exact Hs.
  - intros _. rewrite Hc. exact Hsp.
Qed.

(** On a brace the loop body skips nothing. *)
Lemma step_brace_head (t : text) (i c : Z) :
  c = c_lbrace \/ c = c_rbrace -> char_is t i c = true ->
  char_is t i c_slash = false /\ quote_at t i = None.
Proof.
  intros Hc H. split.
  - apply (char_is_other _ _ _ _ H). destruct Hc; subst; discriminate.
  - apply char_is_true in H. unfold quote_at. rewrite H.
    destruct Hc; subst; reflexivity.
Qed.

Lemma step_open_brace (cfg : Config) (t : text) (st : State) :
  char_is t (st_i st) c_lbrace = true ->
  step cfg t st =
    let isObject := isObjectContext t (st_i st) in
    let depth := objectCount (st_braceStack st) in
    Ok (mkState (st_i st + 1) (mkFrame isObject depth :: st_braceStack st)
          (if isObject then st_braces st ++ [mkBrace (st_i st) true depth]
           else st_braces st)
          (st_propertyKeys st)).
Proof.
  intro H. destruct (step_brace_head t (st_i st) c_lbrace (or_introl eq_refl) H) as [Hs Hq].
  unfold step. rewrite Hs, Hq, H. reflexivity.
Qed.

Lemma step_close_brace (cfg : Config) (t : text) (st : State) :
  char_is t (st_i st) c_rbrace = true ->
  step cfg t st =
    match st_braceStack st with
    | [] => Ok (mkState (st_i st + 1) [] (st_braces st) (st_propertyKeys st))
    | f :: rest =>
        Ok (mkState (st_i st + 1) rest
              (if f_isObject f then st_braces st ++ [mkBrace (st_i st) true (f_depth f)]
               else st_braces st)
              (st_propertyKeys st))
    end.
Proof.
  intro H. destruct (step_brace_head t (st_i st) c_rbrace (or_intror eq_refl) H) as [Hs Hq].
  assert (Hl : char_is t (st_i st) c_lbrace = false)
    by (apply (char_is_other _ _ _ _ H); discriminate).
  unfold step. rewrite Hs, Hq, Hl, H. cbn [andb].
  destruct (st_braceStack st) as [|f rest]; [reflexivity|].
  cbn [hd_error tl and_prop prop bind]. destruct (f_isObject f); reflexivity.
Qed.

(** After one of the six characters of [OBJECT_CONTEXT_CHARS] a brace is an
    object literal. *)
Lemma isObjectContext_after_char (t : text) (position j c : Z) :
  nearest_before t position j c -> In c OBJECT_CONTEXT_CHARS ->
  isObjectContext t position = true.
Proof.
  intros Hn Hin. destruct (nearest_before_scan _ _ _ _ Hn) as [Hscan Hj].
  destruct Hn as [_ [Hc _]].
  unfold isObjectContext. rewrite Hscan.
  replace (j <? 0) with false by (symmetry; apply Z.ltb_ge; lia).
  destruct (char_is t j c_gt && (0 <? j) && char_is t (j - 1) c_eq); [reflexivity|].
  assert (Hex : existsb (fun c0 => char_is t j c0) OBJECT_CONTEXT_CHARS = true).
  { apply existsb_exists. exists c. split; [exact Hin|]. apply char_is_true. exact Hc. }
  rewrite Hex. reflexivity.
Qed.

(** After a keyword of [BLOCK_KEYWORDS] a brace is a block. *)
Lemma isObjectContext_after_block_keyword (t : text) (position j c : Z) (keyword : text) :
  nearest_before t position j c ->
  getKeywordBefore t j = Some keyword ->
  has BLOCK_KEYWORDS keyword = true ->
  isObjectContext t position = false.
Proof.
  intros Hn Hkw Hblock. destruct (nearest_before_scan _ _ _ _ Hn) as [Hscan Hj].
  destruct Hn as [_ [Hc _]].
  assert (Halpha : is_alpha c = true).
  { unfold getKeywordBefore in Hkw. rewrite Hc in Hkw. cbn [test] in Hkw.
    destruct (is_alpha c); [reflexivity|].
    rewrite orb_true_r in Hkw. discriminate. }
  assert (Hnot : forall d, is_alpha d = false -> char_is t j d = false).
  { intros d Hd. unfold char_is. rewrite Hc. apply Z.eqb_neq. intros ->. congruence. }
  unfold isObjectContext. rewrite Hscan.
  replace (j <? 0) with false by (symmetry; apply Z.ltb_ge; lia).
  rewrite (Hnot c_gt) by reflexivity. cbn [andb].
  assert (Hex : existsb (fun c0 => char_is t j c0) OBJECT_CONTEXT_CHARS = false).
  { unfold OBJECT_CONTEXT_CHARS. cbn [existsb].
    rewrite !Hnot by reflexivity. reflexivity. }
  rewrite Hex. rewrite (Hnot c_rparen) by reflexivity.
  rewrite Hkw, Hblock.
  destruct (has OBJECT_CONTEXT_KEYWORDS keyword) eqn:Eo; [|reflexivity].
  exfalso. unfold has, OBJECT_CONTEXT_KEYWORDS, BLOCK_KEYWORDS in *.
  cbn [map existsb] in Eo. rewrite orb_false_r in Eo.
  apply orb_true_iff in Eo. destruct Eo as [Eo|Eo]; apply str_eqb_eq in Eo; subst keyword;
    vm_compute in Hblock; discriminate.
Qed.

(** After the [)] of a control statement a brace is a block. *)
Lemma isObjectContext_after_control_paren (t : text) (position j : Z) :
  nearest_before t position j c_rparen ->
  getParenContext t j = control ->
  isObjectContext t position = false.
Proof.
  intros Hn Hctl. destruct (nearest_before_scan _ _ _ _ Hn) as [Hscan Hj].
  destruct Hn as [_ [Hc _]].
  assert (Hp : char_is t j c_rparen = true) by (apply char_is_true; exact Hc).
  assert (Hnot : forall d, d <> c_rparen -> char_is t j d = false)
    by (intros d Hd; apply (char_is_other _ _ _ _ Hp); intro E; apply Hd; symmetry; exact E).
  unfold isObjectContext. rewrite Hscan.
  replace (j <? 0) with false by (symmetry; apply Z.ltb_ge; lia).
  rewrite (Hnot c_gt) by discriminate. cbn [andb].
  assert (Hex : existsb (fun c0 => char_is t j c0) OBJECT_CONTEXT_CHARS = false).
  { unfold OBJECT_CONTEXT_CHARS. cbn [existsb].
    rewrite !Hnot by discriminate. reflexivity. }
  rewrite Hex, Hp, Hctl. reflexivity.
Qed.

(** The characters of [OBJECT_CONTEXT_CHARS] are six: a brace is not one of
    them, and a brace that follows a brace is a block.  In [={{}}] only the
    outer pair is emitted. *)
Lemma brace_after_brace_is_block :
  isObjectContext (str "={{}}") 2 = false /\
  parse (mkConfig true true) (str "={{}}") = Ok [mkRange 1 2 0; mkRange 4 5 0].
Proof. split; vm_compute; reflexivity. Qed.

(** *** The loop reaches the end of the text *)

(** One iteration moves [i] forward. *)
Lemma step_progress (cfg : Config) (t : text) (st st' : State) :
  0 <= st_i st -> st_i st + 1 < len t + 1 ->
  step cfg t st = Ok st' -> st_i st < st_i st'.
Proof.
  intros H0 Hlt H. unfold step in H.
  destruct (char_is t (st_i st) c_slash && (st_i st + 1 <? len t)
            && char_is t (st_i st + 1) c_slash).
  { inversion H; subst. cbn. apply Progress.skipToEndOfLine_gt. }
  destruct (char_is t (st_i st) c_slash && (st_i st + 1 <? len t)
            && char_is t (st_i st + 1) c_star) eqn:Ec.
  { inversion H; subst. cbn. apply Progress.skipBlockComment_gt.
    apply andb_true_iff in Ec. destruct Ec as [Ec _].
    apply andb_true_iff in Ec. destruct Ec as [_ Ec]. apply Z.ltb_lt in Ec. exact Ec. }
  destruct (quote_at t (st_i st)).
  { inversion H; subst. cbn. apply Progress.object_skipString_gt. }
  destruct (char_is t (st_i st) c_slash && isRegexContext t (st_i st)).
  { inversion H; subst. cbn. apply Progress.skipRegex_gt. }
  destruct (char_is t (st_i st) c_lbrace).
  { inversion H; subst. cbn. lia. }
  destruct (char_is t (st_i st) c_rbrace).
  { destruct (hd_error (st_braceStack st)) as [f|]; cbn [and_prop prop bind] in H.
    - destruct (f_isObject f); inversion H; subst; cbn; lia.
    - inversion H; subst. cbn. lia. }
  destruct (colorizeKeys cfg && (0 <? len (st_braceStack st))).
  - destruct (hd_error (st_braceStack st)) as [f|]; cbn [prop bind] in H; [|discriminate].
    destruct (f_isObject f).
    + destruct (matchPropertyKey t (st_i st)) as [[s e]|] eqn:Ek.
      * inversion H; subst. cbn.
        pose proof (Progress.object_matchPropertyKey_gt t (st_i st) s e H0 Ek). lia.
      * inversion H; subst. cbn. lia.
    + inversion H; subst. cbn. lia.
  - cbn [bind] in H. inversion H; subst. cbn. lia.
Qed.

(** [length t] iterations are enough: the loop has then left by its own
    condition. *)
Lemma loop_reaches_end (cfg : Config) (t : text) (fuel : nat) :
  forall st st', 0 <= st_i st -> len t - st_i st <= Z.of_nat fuel ->
    loop fuel cfg t st = Ok st' -> len t <= st_i st'.
Proof.
  induction fuel as [|f IH]; intros st st' H0 Hf H; cbn [loop] in H.
  - inversion H; subst. lia.
  - destruct (st_i st <? len t) eqn:E.
    + apply Z.ltb_lt in E.
      destruct (step cfg t st) as [st1|] eqn:Es; cbn [bind] in H; [|discriminate].
      pose proof (step_progress cfg t st st1 H0 ltac:(lia) Es).
      apply (IH st1 st'); [lia|lia|exact H].
    + apply Z.ltb_ge in E. inversion H; subst. exact E.
Qed.

(** Iterations compose; once the end is reached, more iterations change
    nothing. *)
Lemma loop_add (cfg : Config) (t : text) (n k : nat) (st : State) :
  loop (n + k) cfg t st = bind (loop n cfg t st) (fun st1 => loop k cfg t st1).
Proof.
  revert st. induction n as [|n IH]; intro st; cbn [loop Nat.add bind]; [reflexivity|].
  destruct (st_i st <? len t) eqn:E.
  - destruct (step cfg t st) as [st1|]; cbn [bind]; [apply IH|reflexivity].
  - cbn [bind]. destruct k as [|k]; cbn [loop]; [reflexivity|]. rewrite E. reflexivity.
Qed.

Lemma loop_index (cfg : Config) (t : text) (n : nat) :
  forall st0 st, 0 <= st_i st0 -> loop n cfg t st0 = Ok st ->
    st_i st0 <= st_i st /\ (st_i st < len t -> st_i st0 + Z.of_nat n <= st_i st).
Proof.
  induction n as [|n IH]; intros st0 st H0 H; cbn [loop] in H.
  - inversion H; subst. lia.
  - destruct (st_i st0 <? len t) eqn:E.
    + apply Z.ltb_lt in E.
      destruct (step cfg t st0) as [st1|] eqn:Es; cbn [bind] in H; [|discriminate].
      pose proof (step_progress cfg t st0 st1 H0 ltac:(lia) Es).
      destruct (IH st1 st ltac:(lia) H). lia.
    + apply Z.ltb_ge in E. inversion H; subst. lia.
Qed.

(** What one iteration records: it takes nothing back, and what it adds
    starts in the part of the text it has moved over. *)
Definition appended (st st' : State) : Prop :=
  exists bs ks,
    st_braces st' = st_braces st ++ bs /\
    st_propertyKeys st' = st_propertyKeys st ++ ks /\
    Forall (fun b => st_i st <= position b < st_i st' /\ isObject b = true) bs /\
    Forall (fun k => st_i st <= start k < st_i st') ks.

Lemma appended_nothing (st st' : State) :
  st_braces st' = st_braces st -> st_propertyKeys st' = st_propertyKeys st ->
  appended st st'.
Proof.
  intros Hb Hk. exists [], []. rewrite !app_nil_r. repeat split; auto.
Qed.

Lemma appended_trans (a b c : State) :
  st_i a <= st_i b -> st_i b <= st_i c ->
  appended a b -> appended b c -> appended a c.
Proof.
  intros Hab Hbc [bs1 [ks1 [Hb1 [Hk1 [Fb1 Fk1]]]]] [bs2 [ks2 [Hb2 [Hk2 [Fb2 Fk2]]]]].
  exists (bs1 ++ bs2), (ks1 ++ ks2).
  split; [rewrite Hb2, Hb1, app_assoc; reflexivity|].
  split; [rewrite Hk2, Hk1, app_assoc; reflexivity|].
  split; apply Forall_app; split.
  - eapply Forall_impl; [|exact Fb1]. cbv beta. intros x Hx. split; [lia|apply Hx].
  - eapply Forall_impl; [|exact Fb2]. cbv beta. intros x Hx. split; [lia|apply Hx].
  - eapply Forall_impl; [|exact Fk1]. cbv beta. intros x Hx. lia.
  - eapply Forall_impl; [|exact Fk2]. cbv beta. intros x Hx. lia.
Qed.

Lemma step_appends (cfg : Config) (t : text) (st st' : State) :
  0 <= st_i st -> step cfg t st = Ok st' -> appended st st'.
Proof.
  intros H0 H. unfold step in H.
  destruct (char_is t (st_i st) c_slash && (st_i st + 1 <? len t)
            && char_is t (st_i st + 1) c_slash);
    [inversion H; apply appended_nothing; reflexivity|].
  destruct (char_is t (st_i st) c_slash && (st_i st + 1 <? len t)
            && char_is t (st_i st + 1) c_star);
    [inversion H; apply appended_nothing; reflexivity|].
  destruct (quote_at t (st_i st)); [inversion H; apply appended_nothing; reflexivity|].
  destruct (char_is t (st_i st) c_slash && isRegexContext t (st_i st));
    [inversion H; apply appended_nothing; reflexivity|].
  destruct (char_is t (st_i st) c_lbrace).
  { inversion H; subst. destruct (isObjectContext t (st_i st));
      [|apply appended_nothing; reflexivity].
    exists [mkBrace (st_i st) true (objectCount (st_braceStack st))], [].
    cbn. rewrite app_nil_r.
    split; [reflexivity|]. split; [reflexivity|].
    split; repeat constructor; cbn; lia. }
  destruct (char_is t (st_i st) c_rbrace).
  { destruct (hd_error (st_braceStack st)) as [f|]; cbn [and_prop prop bind] in H.
    - destruct (f_isObject f); inversion H; subst;
        [|apply appended_nothing; reflexivity].
      exists [mkBrace (st_i st) true (f_depth f)], [].
      cbn. rewrite app_nil_r.
      split; [reflexivity|]. split; [reflexivity|].
      split; repeat constructor; cbn; lia.
    - inversion H; subst. apply appended_nothing; reflexivity. }
  destruct (colorizeKeys cfg && (0 <? len (st_braceStack st))).
  - destruct (hd_error (st_braceStack st)) as [f|]; cbn [prop bind] in H; [|discriminate].
    destruct (f_isObject f).
    + destruct (matchPropertyKey t (st_i st)) as [[s e]|] eqn:Ek.
      * inversion H; subst.
        pose proof (Progress.object_matchPropertyKey_gt t (st_i st) s e H0 Ek).
        exists [], [mkKey s e (objectCount (st_braceStack st) - 1)].
        cbn. rewrite app_nil_r.
        split; [reflexivity|]. split; [reflexivity|].
        split; repeat constructor; cbn; lia.
      * inversion H. apply appended_nothing; reflexivity.
    + inversion H. apply appended_nothing; reflexivity.
  - cbn [bind] in H. inversion H. apply appended_nothing; reflexivity.
Qed.

Lemma loop_appends (cfg : Config) (t : text) (n : nat) :
  forall st st', 0 <= st_i st -> loop n cfg t st = Ok st' ->
    st_i st <= st_i st' /\ appended st st'.
Proof.
  induction n as [|n IH]; intros st st' H0 H; cbn [loop] in H.
  - inversion H; subst. split; [lia|apply appended_nothing; reflexivity].
  - destruct (st_i st <? len t) eqn:E;
      [|inversion H; subst; split; [lia|apply appended_nothing; reflexivity]].
    apply Z.ltb_lt in E.
    destruct (step cfg t st) as [st1|] eqn:Es; cbn [bind] in H; [|discriminate].
    pose proof (step_progress cfg t st st1 H0 ltac:(lia) Es) as Hp.
    destruct (IH st1 st' ltac:(lia) H) as [Hle Happ].
    split; [lia|]. apply (appended_trans st st1 st'); try lia; [|exact Happ].
    apply (step_appends cfg t st st1 H0 Es).
Qed.

(** A state the loop reaches before the end of the text, the state after one
    more iteration, and the state at the end of the text. *)
Lemma run_through (cfg : Config) (t : text) (n : nat) (st st1 : State) :
  loop n cfg t init = Ok st -> st_i st < len t -> step cfg t st = Ok st1 ->
  exists final,
    loop (List.length t) cfg t init = Ok final /\
    0 <= st_i st /\ st_i st < st_i st1 /\
    appended init st /\ appended st st1 /\ st_i st1 <= st_i final /\ appended st1 final.
Proof.
  intros Hn Hlt Hs.
  destruct (loop_appends cfg t n init st ltac:(cbn; lia) Hn) as [H0 Ha0]. cbn in H0.
  destruct (loop_index cfg t n init st ltac:(cbn; lia) Hn) as [_ Hidx].
  specialize (Hidx Hlt). cbn in Hidx.
  pose proof (step_progress cfg t st st1 H0 ltac:(lia) Hs) as Hp.
  assert (Hsplit : List.length t = (n + (1 + (List.length t - S n)))%nat)
    by (unfold len in *; lia).
  destruct (loop_ok (List.length t) cfg t init inv_init_object) as [final [Hf _]].
  exists final. split; [exact Hf|].
  rewrite Hsplit, loop_add, Hn in Hf. cbn [bind] in Hf.
  rewrite loop_add in Hf. cbn [loop] in Hf. apply Z.ltb_lt in Hlt. rewrite Hlt, Hs in Hf.
  cbn [bind] in Hf. apply Z.ltb_lt in Hlt.
  destruct (loop_appends cfg t _ st1 final ltac:(lia) Hf) as [Hle Ha2].
  repeat split; try assumption; try lia.
  apply (step_appends cfg t st st1 H0 Hs).
Qed.

(** The ranges of [parse] are those of the braces, then those of the keys. *)
Lemma parse_ranges (cfg : Config) (t : text) (final : State) :
  objectBracesEnabled cfg = true ->
  loop (List.length t) cfg t init = Ok final ->
  parse cfg t =
    Ok (map (fun b => createColoredRange (position b) (position b + 1) (depth b))
          (filter isObject (st_braces final))
        ++ (if colorizeKeys cfg
            then map (fun k => createColoredRange (start k) (end_ k) (k_depth k))
                   (st_propertyKeys final)
            else [])).
Proof.
  intros He Hf. unfold parse, findObjectBracesAndKeys. rewrite He, Hf. cbn [negb bind].
  destruct (colorizeKeys cfg); [reflexivity|]. rewrite app_nil_r. reflexivity.
Qed.

(** A brace recorded by an iteration the loop makes is in the result of
    [parse]. *)
Lemma brace_emitted (cfg : Config) (t : text) (n : nat) (st st1 : State) (b : BraceMatch) :
  objectBracesEnabled cfg = true ->
  loop n cfg t init = Ok st -> st_i st < len t -> step cfg t st = Ok st1 ->
  st_braces st1 = st_braces st ++ [b] -> isObject b = true ->
  exists rs, parse cfg t = Ok rs /\
    In (mkRange (position b) (position b + 1) (depth b)) rs.
Proof.
  intros He Hn Hlt Hs Hb Hobj.
  destruct (run_through cfg t n st st1 Hn Hlt Hs) as [final [Hf [_ [_ [_ [_ [_ Ha]]]]]]].
  destruct Ha as [bs [ks [Hbs _]]].
  rewrite (parse_ranges cfg t final He Hf). eexists. split; [reflexivity|].
  apply in_or_app. left.
  apply (in_map (fun b0 => createColoredRange (position b0) (position b0 + 1) (depth b0))
           _ b).
  apply filter_In. split; [|exact Hobj].
  rewrite Hbs, Hb. apply in_or_app. left. apply in_or_app. right. left. reflexivity.
Qed.

(** When an iteration the loop makes at [i] records nothing, no range of the
    result of [parse] starts at [i]. *)
Lemma nothing_emitted (cfg : Config) (t : text) (n : nat) (st st1 : State) :
  loop n cfg t init = Ok st -> st_i st < len t -> step cfg t st = Ok st1 ->
  st_braces st1 = st_braces st -> st_propertyKeys st1 = st_propertyKeys st ->
  exists rs, parse cfg t = Ok rs /\
    forall r, In r rs -> startOffset r <> st_i st.
Proof.
  intros Hn Hlt Hs Hb Hk.
  destruct (run_through cfg t n st st1 Hn Hlt Hs)
    as [final [Hf [H0 [Hp [Ha0 [_ [Hle Ha2]]]]]]].
  destruct Ha0 as [bs0 [ks0 [Hb0 [Hk0 [Fb0 Fk0]]]]].
  destruct Ha2 as [bs2 [ks2 [Hb2 [Hk2 [Fb2 Fk2]]]]].
  cbn [init st_braces st_propertyKeys st_i app] in Hb0, Hk0, Fb0, Fk0.
  destruct (objectBracesEnabled cfg) eqn:He.
  - rewrite (parse_ranges cfg t final He Hf). eexists. split; [reflexivity|].
    intros r Hr Heq. apply in_app_or in Hr. destruct Hr as [Hr|Hr].
    + apply in_map_iff in Hr. destruct Hr as [b [Hrb Hin]]. subst r. cbn in Heq.
      apply filter_In in Hin. destruct Hin as [Hin _].
      rewrite Hb2, Hb, Hb0 in Hin. apply in_app_or in Hin. destruct Hin as [Hin|Hin].
      * rewrite Forall_forall in Fb0. specialize (Fb0 b Hin). lia.
      * rewrite Forall_forall in Fb2. specialize (Fb2 b Hin). lia.
    + destruct (colorizeKeys cfg); [|destruct Hr].
      apply in_map_iff in Hr. destruct Hr as [k [Hrk Hin]]. subst r. cbn in Heq.
      rewrite Hk2, Hk, Hk0 in Hin. apply in_app_or in Hin. destruct Hin as [Hin|Hin].
      * rewrite Forall_forall in Fk0. specialize (Fk0 k Hin). lia.
      * rewrite Forall_forall in Fk2. specialize (Fk2 k Hin). lia.
  - unfold parse. rewrite He. cbn [negb]. exists []. split; [reflexivity|].
    intros r [].
Qed.

End ObjectFacts.

(** * The claims *)

(** ** JsxParser: the loop of [tokenize] reaches the end of the text *)

Module JsxRun.
Import JsxParser.

Lemma jsx_skipToEndOfLine_gt (t : text) (pos : Z) : pos < skipToEndOfLine t pos.
Proof.
  unfold skipToEndOfLine.
  pose proof (scan_fwd_ge (fun o => negb (is_char c_nl o)) t pos). lia.
Qed.

Lemma jsx_skipBlockComment_loop_ge (fuel : nat) (t : text) (pos : Z) :
  len t <= skipBlockComment_loop fuel t pos \/
  pos + 2 <= skipBlockComment_loop fuel t pos.
Proof.
  revert pos. induction fuel as [|f IH]; intro pos; cbn [skipBlockComment_loop].
  - left. lia.
  - destruct (pos <? len t - 1); [|left; lia].
    destruct (char_is t pos c_star && char_is t (pos + 1) c_slash); [right; lia|].
    destruct (IH (pos + 1)) as [H|H]; [left; exact H|right; lia].
Qed.

Lemma jsx_skipBlockComment_gt (t : text) (pos : Z) :
  pos + 1 < len t -> pos < skipBlockComment t pos.
Proof.
  intro H. unfold skipBlockComment.
  destruct (jsx_skipBlockComment_loop_ge (Z.to_nat (len t - (pos + 2))) t (pos + 2)); lia.
Qed.

Lemma jsx_skipInterpolation_loop_ge (fuel : nat) (t : text) (pos d : Z) :
  pos <= skipInterpolation_loop fuel t pos d.
Proof.
  revert pos d. induction fuel as [|f IH]; intros pos d;
    cbn [skipInterpolation_loop]; [lia|].
  destruct ((pos <? len t) && (0 <? d)); [|lia].
  destruct (char_is t pos c_lbrace); [specialize (IH (pos + 1) (d + 1)); lia|].
  destruct (char_is t pos c_rbrace); [specialize (IH (pos + 1) (d - 1)); lia|].
  specialize (IH (pos + 1) d). lia.
Qed.

Lemma jsx_skipString_loop_ge (fuel : nat) (t : text) (pos quote : Z) :
  pos <= skipString_loop fuel t pos quote.
Proof.
  revert pos. induction fuel as [|f IH]; intro pos; cbn [skipString_loop]; [lia|].
  destruct (pos <? len t); [|lia].
  destruct (char_is t pos c_backslash); [specialize (IH (pos + 2)); lia|].
  destruct (char_is t pos quote); [lia|].
  destruct (char_is t pos c_nl && negb (quote =? c_backtick)); [lia|].
  destruct ((quote =? c_backtick) && char_is t pos c_dollar && char_is t (pos + 1) c_lbrace).
  - pose proof (jsx_skipInterpolation_loop_ge (Z.to_nat (len t - (pos + 2))) t (pos + 2) 1) as Hi.
    fold (skipInterpolation t (pos + 2)) in Hi.
    specialize (IH (skipInterpolation t (pos + 2))). lia.
  - specialize (IH (pos + 1)). lia.
Qed.

Lemma jsx_skipString_gt (t : text) (pos quote : Z) : pos < skipString t pos quote.
Proof.
  unfold skipString.
  pose proof (jsx_skipString_loop_ge (Z.to_nat (len t - (pos + 1))) t (pos + 1) quote). lia.
Qed.

Lemma skipJsxExpression_loop_ge (fuel : nat) (t : text) (i d : Z) :
  i <= skipJsxExpression_loop fuel t i d.
Proof.
  revert i d. induction fuel as [|f IH]; intros i d;
    cbn [skipJsxExpression_loop]; [lia|].
  destruct ((i <? len t) && (0 <? d)); [|lia].
  destruct (char_is t i c_lbrace); [specialize (IH (i + 1) (d + 1)); lia|].
  destruct (char_is t i c_rbrace); [specialize (IH (i + 1) (d - 1)); lia|].
  destruct (quote_at t i) as [q|].
  - pose proof (jsx_skipString_gt t i q). specialize (IH (skipString t i q) d). lia.
  - specialize (IH (i + 1) d). lia.
Qed.

Lemma skipJsxExpression_gt (t : text) (pos : Z) : pos < skipJsxExpression t pos.
Proof.
  unfold skipJsxExpression. destruct (negb (char_is t pos c_lbrace)); [lia|].
  pose proof (skipJsxExpression_loop_ge (Z.to_nat (len t - (pos + 1))) t (pos + 1) 1). lia.
Qed.

Lemma parseOpeningTag_loop_gt (fuel : nat) (t : text) :
  forall i inString stringChar e selfClosing,
    parseOpeningTag_loop fuel t i inString stringChar = Some (e, selfClosing) -> i < e.
Proof.
  induction fuel as [|f IH]; intros i b q e sc H; cbn [parseOpeningTag_loop] in H;
    [discriminate|].
  destruct (i <? len t); [|discriminate]. cbv zeta in H.
  destruct b.
  - destruct (_ && _) in H; apply IH in H; lia.
  - destruct (char_is t i c_dquote || char_is t i c_squote || char_is t i c_lbrace).
    + destruct (char_is t i c_lbrace).
      * apply IH in H. pose proof (skipJsxExpression_gt t i). lia.
      * apply IH in H. lia.
    + destruct (char_is t i c_slash && char_is t (i + 1) c_gt).
      { inversion H; subst. lia. }
      destruct (char_is t i c_gt).
      { inversion H; subst. lia. }
      destruct (char_is t i c_lt); [discriminate|].
      apply IH in H. lia.
Qed.

Lemma parseOpeningTag_gt (t : text) (pos : Z) (openTag : OpenTag) :
  parseOpeningTag t pos = Some openTag -> pos < o_end openTag.
Proof.
  unfold parseOpeningTag. intro H.
  destruct (negb (char_is t pos c_lt)); [discriminate|].
  destruct (negb (test is_alpha_ (char_at t (pos + 1)))); [discriminate|].
  cbv zeta in H.
  pose proof (scan_fwd_ge (test is_jsx_name_char) t (pos + 1)) as Hn.
  destruct (parseOpeningTag_loop _ t _ false None) as [[e sc]|] eqn:El; [|discriminate].
  apply parseOpeningTag_loop_gt in El. inversion H; subst. cbn. lia.
Qed.

Lemma parseClosingTag_gt (t : text) (pos : Z) (closeTag : CloseTag) :
  parseClosingTag t pos = Some closeTag -> pos < c_end closeTag.
Proof.
  unfold parseClosingTag. intro H.
  destruct (negb (char_is t pos c_lt) || negb (char_is t (pos + 1) c_slash)); [discriminate|].
  cbv zeta in H.
  pose proof (scan_fwd_ge (test is_space) t (pos + 2)) as H1.
  set (i1 := scan_fwd (test is_space) t (pos + 2)) in *.
  destruct (negb (test is_alpha_ (char_at t i1))); [discriminate|].
  pose proof (scan_fwd_ge (test is_jsx_name_char) t i1) as H2.
  set (i2 := scan_fwd (test is_jsx_name_char) t i1) in *.
  pose proof (scan_fwd_ge (test is_space) t i2) as H3.
  destruct (negb (char_is t (scan_fwd (test is_space) t i2) c_gt)); [discriminate|].
  inversion H; subst. cbn. lia.
Qed.

(** A key [matchPropertyKey] finds ends after the position it is asked at. *)
Lemma jsx_matchPropertyKey_gt (t : text) (pos s e : Z) :
  0 <= pos -> matchPropertyKey t pos = Some (s, e) -> pos <= s < e.
Proof.
  intros H0 H. unfold matchPropertyKey in H.
  pose proof (scan_fwd_ge (test is_space) t pos) as Hws.
  set (p0 := scan_fwd (test is_space) t pos) in *.
  destruct (len t <=? p0) eqn:E; [discriminate|]. apply Z.leb_gt in E.
  destruct (test is_ident_start (char_at t p0)) eqn:Ei; [|discriminate].
  pose proof (Progress.identifier_end_gt t p0 ltac:(lia) Ei) as Hid.
  cbv zeta in H.
  destruct (_ && _) in H; [|discriminate].
  inversion H; subst. lia.
Qed.

Lemma step_expression_progress (cfg : Config) (t : text) (st : State) :
  0 <= st_i st -> st_i st < st_i (step_expression cfg t st).
Proof.
  intro H0. unfold step_expression.
  destruct (char_is t (st_i st) c_lbrace).
  { destruct (objectBracesEnabled cfg && isObjectContext t (st_i st)); cbn; lia. }
  destruct (char_is t (st_i st) c_rbrace).
  { destruct (st_jsxExpressionBraceDepth st - 1 =? 0); [cbn; lia|].
    destruct (st_objectBraceStack st); cbn; lia. }
  destruct (if colorizeKeys cfg && (0 <? len (st_objectBraceStack st))
            then matchPropertyKey t (st_i st) else None) as [[s e]|] eqn:Ek.
  - destruct (colorizeKeys cfg && (0 <? len (st_objectBraceStack st))); [|discriminate].
    pose proof (jsx_matchPropertyKey_gt t (st_i st) s e H0 Ek). cbn. lia.
  - destruct (quote_at t (st_i st)) as [q|]; cbn; [apply jsx_skipString_gt|lia].
Qed.

Lemma step_tag_progress (t : text) (st st' : State) :
  step_tag t st = Some st' -> st_i st < st_i st'.
Proof.
  unfold step_tag. intro H.
  destruct (char_is t (st_i st) c_lt); [|discriminate].
  destruct (step_closing_tag t st) as [st1|] eqn:Ec.
  - inversion H; subst st1. clear H. unfold step_closing_tag in Ec.
    destruct (char_is t (st_i st + 1) c_slash); [|discriminate].
    destruct (parseClosingTag t (st_i st)) as [closeTag|] eqn:Ep; [|discriminate].
    apply parseClosingTag_gt in Ep. inversion Ec; subst. cbn. exact Ep.
  - unfold step_opening_tag in H.
    destruct (parseOpeningTag t (st_i st)) as [openTag|] eqn:Ep; [|discriminate].
    apply parseOpeningTag_gt in Ep.
    destruct (o_selfClosing openTag); inversion H; subst; cbn; exact Ep.
Qed.

Lemma step_rest_progress (cfg : Config) (t : text) (st : State) :
  0 <= st_i st -> st_i st < st_i (step_rest cfg t st).
Proof.
  intro H0. unfold step_rest.
  destruct (char_is t (st_i st) c_lbrace && (0 <? len (st_tagStack st))); [cbn; lia|].
  destruct (objectBracesEnabled cfg && char_is t (st_i st) c_lbrace
            && (len (st_tagStack st) =? 0)).
  { destruct (isObjectContext t (st_i st)); cbn; lia. }
  destruct (if objectBracesEnabled cfg && char_is t (st_i st) c_rbrace
               && (len (st_tagStack st) =? 0)
            then st_objectBraceStack st else []) as [|d rest]; [|cbn; lia].
  destruct (if colorizeKeys cfg && (len (st_tagStack st) =? 0)
               && (0 <? len (st_objectBraceStack st))
            then matchPropertyKey t (st_i st) else None) as [[s e]|] eqn:Ek; [|cbn; lia].
  destruct (colorizeKeys cfg && (len (st_tagStack st) =? 0)
            && (0 <? len (st_objectBraceStack st))); [|discriminate].
  pose proof (jsx_matchPropertyKey_gt t (st_i st) s e H0 Ek). cbn. lia.
Qed.

(** One iteration of the loop of [tokenize] moves [i] forward. *)
Lemma tokenize_step_progress (cfg : Config) (t : text) (st : State) :
  0 <= st_i st -> st_i st < st_i (tokenize_step cfg t st).
Proof.
  intro H0. unfold tokenize_step.
  destruct (char_is t (st_i st) c_slash && (st_i st + 1 <? len t)
            && char_is t (st_i st + 1) c_slash).
  { cbn. apply jsx_skipToEndOfLine_gt. }
  destruct (char_is t (st_i st) c_slash && (st_i st + 1 <? len t)
            && char_is t (st_i st + 1) c_star) eqn:Ec.
  { cbn. apply jsx_skipBlockComment_gt.
    apply andb_true_iff in Ec. destruct Ec as [Ec _].
    apply andb_true_iff in Ec. destruct Ec as [_ Ec]. apply Z.ltb_lt in Ec. exact Ec. }
  destruct (if negb (isInsideJsxTag t (st_i st)) then quote_at t (st_i st) else None) as [q|].
  { cbn. apply jsx_skipString_gt. }
  destruct (st_inJsxExpression st).
  - apply step_expression_progress. exact H0.
  - destruct (step_tag t st) as [st'|] eqn:Et.
    + apply (step_tag_progress t). exact Et.
    + apply step_rest_progress. exact H0.
Qed.

(** With as many iterations as the text has characters the loop has left by
    its own condition. *)
Lemma tokenize_loop_reaches_end (cfg : Config) (t : text) (fuel : nat) :
  forall st, 0 <= st_i st -> len t - st_i st <= Z.of_nat fuel ->
    len t <= st_i (tokenize_loop fuel cfg t st).
Proof.
  induction fuel as [|f IH]; intros st H0 Hf; cbn [tokenize_loop]; [lia|].
  destruct (st_i st <? len t) eqn:E; [|apply Z.ltb_ge in E; exact E].
  pose proof (tokenize_step_progress cfg t st H0).
  apply IH; lia.
Qed.

Lemma tokenize_loop_add (cfg : Config) (t : text) (n k : nat) (st : State) :
  tokenize_loop (n + k) cfg t st = tokenize_loop k cfg t (tokenize_loop n cfg t st).
Proof.
  revert st. induction n as [|n IH]; intro st; cbn [tokenize_loop Nat.add]; [reflexivity|].
  destruct (st_i st <? len t) eqn:E; [apply IH|].
  destruct k as [|k]; cbn [tokenize_loop]; [reflexivity|]. rewrite E. reflexivity.
Qed.

Lemma tokenize_state_end (cfg : Config) (t : text) : len t <= st_i (tokenize_state cfg t).
Proof.
  unfold tokenize_state. apply tokenize_loop_reaches_end; cbn; unfold len; lia.
Qed.

(** More iterations than [length t] change nothing. *)
Lemma tokenize_loop_enough (cfg : Config) (t : text) (k : nat) :
  tokenize_loop (List.length t + k) cfg t init = tokenize_state cfg t.
Proof.
  rewrite tokenize_loop_add. fold (tokenize_state cfg t).
  pose proof (tokenize_state_end cfg t) as H.
  destruct k as [|k]; cbn [tokenize_loop]; [reflexivity|].
  replace (st_i (tokenize_state cfg t) <? len t) with false
    by (symmetry; apply Z.ltb_ge; exact H).
  reflexivity.
Qed.

(** *** Tokens are only appended *)

Lemma tokenize_step_tokens (cfg : Config) (t : text) (st : State) :
  exists new, st_tokens (tokenize_step cfg t st) = st_tokens st ++ new.
Proof.
  assert (Hsame : forall st', st_tokens st' = st_tokens st ->
                    exists new, st_tokens st' = st_tokens st ++ new).
  { intros st' H. exists []. rewrite app_nil_r. exact H. }
  unfold tokenize_step.
  destruct (char_is t (st_i st) c_slash && (st_i st + 1 <? len t)
            && char_is t (st_i st + 1) c_slash); [apply Hsame; reflexivity|].
  destruct (char_is t (st_i st) c_slash && (st_i st + 1 <? len t)
            && char_is t (st_i st + 1) c_star); [apply Hsame; reflexivity|].
  destruct (if negb (isInsideJsxTag t (st_i st)) then quote_at t (st_i st) else None);
    [apply Hsame; reflexivity|].
  destruct (st_inJsxExpression st).
  - unfold step_expression.
    destruct (char_is t (st_i st) c_lbrace).
    { destruct (objectBracesEnabled cfg && isObjectContext t (st_i st));
        [eexists; reflexivity|apply Hsame; reflexivity]. }
    destruct (char_is t (st_i st) c_rbrace).
    { destruct (st_jsxExpressionBraceDepth st - 1 =? 0); [eexists; reflexivity|].
      destruct (st_objectBraceStack st); [apply Hsame; reflexivity|eexists; reflexivity]. }
    destruct (if colorizeKeys cfg && (0 <? len (st_objectBraceStack st))
              then matchPropertyKey t (st_i st) else None) as [[s e]|];
      [eexists; reflexivity|].
    destruct (quote_at t (st_i st)); apply Hsame; reflexivity.
  - destruct (step_tag t st) as [st'|] eqn:Et.
    + unfold step_tag in Et. destruct (char_is t (st_i st) c_lt); [|discriminate].
      destruct (step_closing_tag t st) as [st1|] eqn:Ec.
      * inversion Et; subst st1. unfold step_closing_tag in Ec.
        destruct (char_is t (st_i st + 1) c_slash); [|discriminate].
        destruct (parseClosingTag t (st_i st)); [|discriminate].
        inversion Ec; subst. eexists; reflexivity.
      * unfold step_opening_tag in Et.
        destruct (parseOpeningTag t (st_i st)) as [openTag|]; [|discriminate].
        destruct (o_selfClosing openTag); inversion Et; subst; eexists; reflexivity.
    + unfold step_rest.
      destruct (char_is t (st_i st) c_lbrace && (0 <? len (st_tagStack st)));
        [eexists; reflexivity|].
      destruct (objectBracesEnabled cfg && char_is t (st_i st) c_lbrace
                && (len (st_tagStack st) =? 0)).
      { destruct (isObjectContext t (st_i st)); [eexists; reflexivity|apply Hsame; reflexivity]. }
      destruct (if objectBracesEnabled cfg && char_is t (st_i st) c_rbrace
                   && (len (st_tagStack st) =? 0)
                then st_objectBraceStack st else []); [|eexists; reflexivity].
      destruct (if colorizeKeys cfg && (len (st_tagStack st) =? 0)
                   && (0 <? len (st_objectBraceStack st))
                then matchPropertyKey t (st_i st) else None) as [[s e]|];
        [eexists; reflexivity|apply Hsame; reflexivity].
Qed.

Lemma tokenize_loop_tokens (cfg : Config) (t : text) (n : nat) :
  forall st, exists new, st_tokens (tokenize_loop n cfg t st) = st_tokens st ++ new.
Proof.
  induction n as [|n IH]; intro st; cbn [tokenize_loop].
  - exists []. rewrite app_nil_r. reflexivity.
  - destruct (st_i st <? len t).
    + destruct (IH (tokenize_step cfg t st)) as [new1 H1].
      destruct (tokenize_step_tokens cfg t st) as [new0 H0].
      exists (new0 ++ new1). rewrite H1, H0, app_assoc. reflexivity.
    + exists []. rewrite app_nil_r. reflexivity.
Qed.

(** What an iteration of the loop holds after a scanned position is in the
    result of [tokenize]. *)
Lemma token_emitted (cfg : Config) (t : text) (n : nat) (st : State) (tk : Token) :
  tokenize_loop n cfg t init = st -> st_i st < len t ->
  In tk (st_tokens (tokenize_step cfg t st)) ->
  In tk (tokenize cfg t).
Proof.
  intros Hn Hlt Hin.
  assert (H1 : tokenize_loop (n + 1) cfg t init = tokenize_step cfg t st).
  { rewrite tokenize_loop_add, Hn. cbn [tokenize_loop].
    apply Z.ltb_lt in Hlt. rewrite Hlt. reflexivity. }
  assert (H2 : tokenize_state cfg t = tokenize_loop (List.length t) cfg t (tokenize_step cfg t st)).
  { rewrite <- (tokenize_loop_enough cfg t (n + 1)).
    rewrite Nat.add_comm, tokenize_loop_add, H1. reflexivity. }
  unfold tokenize. rewrite H2.
  destruct (tokenize_loop_tokens cfg t (List.length t) (tokenize_step cfg t st)) as [new H].
  rewrite H. apply in_or_app. left. exact Hin.
Qed.

Lemma range_emitted (cfg : Config) (t : text) (n : nat) (st : State) (tk : Token) :
  tokenize_loop n cfg t init = st -> st_i st < len t ->
  In tk (st_tokens (tokenize_step cfg t st)) ->
  In (mkRange (start tk) (end_ tk) (depth tk)) (parse cfg t).
Proof.
  intros Hn Hlt Hin. unfold parse.
  apply (in_map (fun token => createColoredRange (start token) (end_ token) (depth token))).
  apply (token_emitted cfg t n st tk Hn Hlt Hin).
Qed.

(** *** Where the tokens of an iteration start *)

Lemma parseOpeningTag_loop_bounds (fuel : nat) (t : text) :
  forall i inString stringChar e selfClosing,
    parseOpeningTag_loop fuel t i inString stringChar = Some (e, selfClosing) ->
    i < e /\ (selfClosing = true -> i + 2 <= e).
Proof.
  induction fuel as [|f IH]; intros i b q e sc H; cbn [parseOpeningTag_loop] in H;
    [discriminate|].
  destruct (i <? len t); [|discriminate]. cbv zeta in H.
  destruct b.
  - destruct (_ && _) in H; apply IH in H; lia.
  - destruct (char_is t i c_dquote || char_is t i c_squote || char_is t i c_lbrace).
    + destruct (char_is t i c_lbrace).
      * apply IH in H. pose proof (skipJsxExpression_gt t i). lia.
      * apply IH in H. lia.
    + destruct (char_is t i c_slash && char_is t (i + 1) c_gt).
      { inversion H; subst. lia. }
      destruct (char_is t i c_gt).
      { inversion H; subst. split; [lia|discriminate]. }
      destruct (char_is t i c_lt); [discriminate|].
      apply IH in H. lia.
Qed.

Lemma parseOpeningTag_bounds (t : text) (pos : Z) (openTag : OpenTag) :
  parseOpeningTag t pos = Some openTag ->
  o_nameStart openTag = pos + 1 /\
  o_nameStart openTag <= o_nameEnd openTag < o_end openTag /\
  (o_selfClosing openTag = true -> o_nameEnd openTag + 2 <= o_end openTag).
Proof.
  unfold parseOpeningTag. intro H.
  destruct (negb (char_is t pos c_lt)); [discriminate|].
  destruct (negb (test is_alpha_ (char_at t (pos + 1)))); [discriminate|].
  cbv zeta in H.
  pose proof (scan_fwd_ge (test is_jsx_name_char) t (pos + 1)) as Hn.
  destruct (parseOpeningTag_loop _ t _ false None) as [[e sc]|] eqn:El; [|discriminate].
  apply parseOpeningTag_loop_bounds in El. destruct El as [E1 E2].
  inversion H; subst. cbn.
  split; [reflexivity|]. split; [lia|]. intro Hsc. specialize (E2 Hsc). lia.
Qed.

Lemma parseClosingTag_bounds (t : text) (pos : Z) (closeTag : CloseTag) :
  parseClosingTag t pos = Some closeTag ->
  pos + 2 <= c_nameStart closeTag /\
  c_nameStart closeTag <= c_nameEnd closeTag < c_end closeTag.
Proof.
  unfold parseClosingTag. intro H.
  destruct (negb (char_is t pos c_lt) || negb (char_is t (pos + 1) c_slash)); [discriminate|].
  cbv zeta in H.
  pose proof (scan_fwd_ge (test is_space) t (pos + 2)) as H1.
  set (i1 := scan_fwd (test is_space) t (pos + 2)) in *.
  destruct (negb (test is_alpha_ (char_at t i1))); [discriminate|].
  pose proof (scan_fwd_ge (test is_jsx_name_char) t i1) as H2.
  set (i2 := scan_fwd (test is_jsx_name_char) t i1) in *.
  pose proof (scan_fwd_ge (test is_space) t i2) as H3.
  destruct (negb (char_is t (scan_fwd (test is_space) t i2) c_gt)); [discriminate|].
  inversion H; subst. cbn. lia.
Qed.

(** What one iteration adds: tokens that start in the part of the text it
    moves over. *)
Definition added (st st' : State) : Prop :=
  exists new,
    st_tokens st' = st_tokens st ++ new /\
    Forall (fun tk => st_i st <= start tk < st_i st') new.

Lemma added_nothing (st st' : State) : st_tokens st' = st_tokens st -> added st st'.
Proof. intro H. exists []. rewrite app_nil_r. split; [exact H|constructor]. Qed.

Lemma added_one (st st' : State) (tk : Token) :
  st_tokens st' = st_tokens st ++ [tk] -> st_i st <= start tk < st_i st' -> added st st'.
Proof. intros H Hr. exists [tk]. split; [exact H|]. constructor; [exact Hr|constructor]. Qed.

Lemma added_trans (a b c : State) :
  st_i a <= st_i b -> st_i b <= st_i c -> added a b -> added b c -> added a c.
Proof.
  intros Hab Hbc [n1 [H1 F1]] [n2 [H2 F2]]. exists (n1 ++ n2).
  split; [rewrite H2, H1, app_assoc; reflexivity|].
  apply Forall_app; split.
  - eapply Forall_impl; [|exact F1]. cbv beta. intros x Hx. lia.
  - eapply Forall_impl; [|exact F2]. cbv beta. intros x Hx. lia.
Qed.

Lemma tokenize_step_added (cfg : Config) (t : text) (st : State) :
  0 <= st_i st -> added st (tokenize_step cfg t st).
Proof.
  intro H0. unfold tokenize_step.
  destruct (char_is t (st_i st) c_slash && (st_i st + 1 <? len t)
            && char_is t (st_i st + 1) c_slash); [apply added_nothing; reflexivity|].
  destruct (char_is t (st_i st) c_slash && (st_i st + 1 <? len t)
            && char_is t (st_i st + 1) c_star); [apply added_nothing; reflexivity|].
  destruct (if negb (isInsideJsxTag t (st_i st)) then quote_at t (st_i st) else None);
    [apply added_nothing; reflexivity|].
  destruct (st_inJsxExpression st).
  - unfold step_expression.
    destruct (char_is t (st_i st) c_lbrace).
    { destruct (objectBracesEnabled cfg && isObjectContext t (st_i st));
        [|apply added_nothing; reflexivity].
      eapply added_one; [reflexivity|cbn; lia]. }
    destruct (char_is t (st_i st) c_rbrace).
    { destruct (st_jsxExpressionBraceDepth st - 1 =? 0);
        [eapply added_one; [reflexivity|cbn; lia]|].
      destruct (st_objectBraceStack st); [apply added_nothing; reflexivity|].
      eapply added_one; [reflexivity|cbn; lia]. }
    destruct (if colorizeKeys cfg && (0 <? len (st_objectBraceStack st))
              then matchPropertyKey t (st_i st) else None) as [[s e]|] eqn:Ek.
    + destruct (colorizeKeys cfg && (0 <? len (st_objectBraceStack st))); [|discriminate].
      pose proof (jsx_matchPropertyKey_gt t (st_i st) s e H0 Ek).
      eapply added_one; [reflexivity|cbn; lia].
    + destruct (quote_at t (st_i st)); apply added_nothing; reflexivity.
  - destruct (step_tag t st) as [st'|] eqn:Et.
    + unfold step_tag in Et. destruct (char_is t (st_i st) c_lt); [|discriminate].
      destruct (step_closing_tag t st) as [st1|] eqn:Ec.
      * inversion Et; subst st1. unfold step_closing_tag in Ec.
        destruct (char_is t (st_i st + 1) c_slash); [|discriminate].
        destruct (parseClosingTag t (st_i st)) as [closeTag|] eqn:Ep; [|discriminate].
        apply parseClosingTag_bounds in Ep.
        inversion Ec; subst. eexists. split; [reflexivity|].
        repeat constructor; cbn; lia.
      * unfold step_opening_tag in Et.
        destruct (parseOpeningTag t (st_i st)) as [openTag|] eqn:Ep; [|discriminate].
        apply parseOpeningTag_bounds in Ep. destruct Ep as [Hs [Hn Hsc]].
        destruct (o_selfClosing openTag); inversion Et; subst;
          (eexists; split; [reflexivity|]); repeat constructor; cbn; lia.
    + unfold step_rest.
      destruct (char_is t (st_i st) c_lbrace && (0 <? len (st_tagStack st)));
        [eapply added_one; [reflexivity|cbn; lia]|].
      destruct (objectBracesEnabled cfg && char_is t (st_i st) c_lbrace
                && (len (st_tagStack st) =? 0)).
      { destruct (isObjectContext t (st_i st)); [|apply added_nothing; reflexivity].
        eapply added_one; [reflexivity|cbn; lia]. }
      destruct (if objectBracesEnabled cfg && char_is t (st_i st) c_rbrace
                   && (len (st_tagStack st) =? 0)
                then st_objectBraceStack st else []);
        [|eapply added_one; [reflexivity|cbn; lia]].
      destruct (if colorizeKeys cfg && (len (st_tagStack st) =? 0)
                   && (0 <? len (st_objectBraceStack st))
                then matchPropertyKey t (st_i st) else None) as [[s e]|] eqn:Ek;
        [|apply added_nothing; reflexivity].
      destruct (colorizeKeys cfg && (len (st_tagStack st) =? 0)
                && (0 <? len (st_objectBraceStack st))); [|discriminate].
      pose proof (jsx_matchPropertyKey_gt t (st_i st) s e H0 Ek).
      eapply added_one; [reflexivity|cbn; lia].
Qed.

Lemma tokenize_loop_added (cfg : Config) (t : text) (n : nat) :
  forall st, 0 <= st_i st ->
    st_i st <= st_i (tokenize_loop n cfg t st) /\ added st (tokenize_loop n cfg t st).
Proof.
  induction n as [|n IH]; intros st H0; cbn [tokenize_loop].
  - split; [lia|apply added_nothing; reflexivity].
  - destruct (st_i st <? len t); [|split; [lia|apply added_nothing; reflexivity]].
    pose proof (tokenize_step_progress cfg t st H0) as Hp.
    destruct (IH (tokenize_step cfg t st) ltac:(lia)) as [Hle Ha].
    split; [lia|].
    apply (added_trans st (tokenize_step cfg t st)); try lia; [|exact Ha].
    apply tokenize_step_added. exact H0.
Qed.

(** When an iteration the loop makes at [i] adds no token, no range of the
    result of [parse] starts at [i]. *)
Lemma no_range_at (cfg : Config) (t : text) (n : nat) (st : State) :
  tokenize_loop n cfg t init = st -> st_i st < len t ->
  st_tokens (tokenize_step cfg t st) = st_tokens st ->
  forall r, In r (parse cfg t) -> startOffset r <> st_i st.
Proof.
  intros Hn Hlt Hsame r Hr Heq.
  destruct (tokenize_loop_added cfg t n init ltac:(cbn; lia)) as [H0 [new0 [Ht0 F0]]].
  rewrite Hn in H0, Ht0, F0. cbn [init st_i st_tokens app] in H0, Ht0, F0.
  pose proof (tokenize_step_progress cfg t st H0) as Hp.
  assert (H2 : tokenize_state cfg t = tokenize_loop (List.length t) cfg t (tokenize_step cfg t st)).
  { rewrite <- (tokenize_loop_enough cfg t (n + 1)).
    rewrite Nat.add_comm, tokenize_loop_add. f_equal.
    rewrite tokenize_loop_add, Hn. cbn [tokenize_loop].
    apply Z.ltb_lt in Hlt. rewrite Hlt. reflexivity. }
  destruct (tokenize_loop_added cfg t (List.length t) (tokenize_step cfg t st) ltac:(lia))
    as [_ [new2 [Ht2 F2]]].
  unfold parse, tokenize in Hr. rewrite H2, Ht2, Hsame, Ht0 in Hr.
  apply in_map_iff in Hr. destruct Hr as [tk [Hrk Hin]]. subst r. cbn in Heq.
  apply in_app_or in Hin. destruct Hin as [Hin|Hin].
  - rewrite Forall_forall in F0. specialize (F0 tk Hin). lia.
  - rewrite Forall_forall in F2. specialize (F2 tk Hin). lia.
Qed.

End JsxRun.

(** ** The fuel of the inner loops

    Each inner loop is given the distance to the end of the text (to its
    start, for the backward ones) as fuel.  Every iteration moves at least
    one character, so with that much fuel, or more, the loop leaves by its
    own condition: the result does not depend on the fuel. *)

Module Fuel.

Ltac past_end :=
  match goal with
  | |- context [?pos <? len ?t] =>
      replace (pos <? len t) with false by (symmetry; apply Z.ltb_ge; lia);
      cbn [andb]; reflexivity
  end.

Ltac before_start :=
  match goal with
  | |- context [0 <=? ?i] =>
      replace (0 <=? i) with false by (symmetry; apply Z.leb_gt; lia);
      cbn [andb]; reflexivity
  end.

Lemma jsx_skipBlockComment_loop_fuel (t : text) :
  forall f1 f2 pos, len t - pos <= Z.of_nat f1 -> len t - pos <= Z.of_nat f2 ->
    JsxParser.skipBlockComment_loop f1 t pos = JsxParser.skipBlockComment_loop f2 t pos.
Proof.
  induction f1 as [|f1 IH]; intros [|f2] pos H1 H2; cbn [JsxParser.skipBlockComment_loop];
    try reflexivity.
  - replace (pos <? len t - 1) with false by (symmetry; apply Z.ltb_ge; lia). reflexivity.
  - replace (pos <? len t - 1) with false by (symmetry; apply Z.ltb_ge; lia). reflexivity.
  - destruct (pos <? len t - 1); [|reflexivity].
    destruct (char_is t pos c_star && char_is t (pos + 1) c_slash); [reflexivity|].
    apply IH; lia.
Qed.

Lemma jsx_skipInterpolation_loop_fuel (t : text) :
  forall f1 f2 pos d, len t - pos <= Z.of_nat f1 -> len t - pos <= Z.of_nat f2 ->
    JsxParser.skipInterpolation_loop f1 t pos d = JsxParser.skipInterpolation_loop f2 t pos d.
Proof.
  induction f1 as [|f1 IH]; intros [|f2] pos d H1 H2; cbn [JsxParser.skipInterpolation_loop];
    try reflexivity; try past_end.
  destruct ((pos <? len t) && (0 <? d)); [|reflexivity].
  destruct (char_is t pos c_lbrace); [apply IH; lia|].
  destruct (char_is t pos c_rbrace); apply IH; lia.
Qed.

Lemma jsx_skipString_loop_fuel (t : text) (quote : Z) :
  forall f1 f2 pos, len t - pos <= Z.of_nat f1 -> len t - pos <= Z.of_nat f2 ->
    JsxParser.skipString_loop f1 t pos quote = JsxParser.skipString_loop f2 t pos quote.
Proof.
  induction f1 as [|f1 IH]; intros [|f2] pos H1 H2; cbn [JsxParser.skipString_loop];
    try reflexivity; try past_end.
  destruct (pos <? len t); [|reflexivity].
  destruct (char_is t pos c_backslash); [apply IH; lia|].
  destruct (char_is t pos quote); [reflexivity|].
  destruct (char_is t pos c_nl && negb (quote =? c_backtick)); [reflexivity|].
  destruct ((quote =? c_backtick) && char_is t pos c_dollar && char_is t (pos + 1) c_lbrace).
  - pose proof (JsxRun.jsx_skipInterpolation_loop_ge
                  (Z.to_nat (len t - (pos + 2))) t (pos + 2) 1) as Hi.
    fold (JsxParser.skipInterpolation t (pos + 2)) in Hi. apply IH; lia.
  - apply IH; lia.
Qed.

Lemma skipJsxExpression_loop_fuel (t : text) :
  forall f1 f2 i d, len t - i <= Z.of_nat f1 -> len t - i <= Z.of_nat f2 ->
    JsxParser.skipJsxExpression_loop f1 t i d = JsxParser.skipJsxExpression_loop f2 t i d.
Proof.
  induction f1 as [|f1 IH]; intros [|f2] i d H1 H2; cbn [JsxParser.skipJsxExpression_loop];
    try reflexivity; try past_end.
  destruct ((i <? len t) && (0 <? d)); [|reflexivity].
  destruct (char_is t i c_lbrace); [apply IH; lia|].
  destruct (char_is t i c_rbrace); [apply IH; lia|].
  destruct (JsxParser.quote_at t i) as [q|]; [|apply IH; lia].
  pose proof (JsxRun.jsx_skipString_gt t i q). apply IH; lia.
Qed.

Lemma parseOpeningTag_loop_fuel (t : text) :
  forall f1 f2 i inString stringChar,
    len t - i <= Z.of_nat f1 -> len t - i <= Z.of_nat f2 ->
    JsxParser.parseOpeningTag_loop f1 t i inString stringChar =
    JsxParser.parseOpeningTag_loop f2 t i inString stringChar.
Proof.
  induction f1 as [|f1 IH]; intros [|f2] i b q H1 H2; cbn [JsxParser.parseOpeningTag_loop];
    try reflexivity; try past_end.
  destruct (i <? len t); [|reflexivity]. cbv zeta.
  destruct b.
  - destruct (_ && _); apply IH; lia.
  - destruct (char_is t i c_dquote || char_is t i c_squote || char_is t i c_lbrace).
    + destruct (char_is t i c_lbrace); [|apply IH; lia].
      pose proof (JsxRun.skipJsxExpression_gt t i). apply IH; lia.
    + destruct (char_is t i c_slash && char_is t (i + 1) c_gt); [reflexivity|].
      destruct (char_is t i c_gt); [reflexivity|].
      destruct (char_is t i c_lt); [reflexivity|]. apply IH; lia.
Qed.

Lemma jsx_findMatchingOpenTag_loop_fuel (stack : list text) (name : text) :
  forall f1 f2 i, i + 1 <= Z.of_nat f1 -> i + 1 <= Z.of_nat f2 ->
    JsxParser.findMatchingOpenTag_loop f1 stack name i =
    JsxParser.findMatchingOpenTag_loop f2 stack name i.
Proof.
  induction f1 as [|f1 IH]; intros [|f2] i H1 H2; cbn [JsxParser.findMatchingOpenTag_loop];
    try reflexivity; try before_start.
  destruct (0 <=? i); [|reflexivity].
  destruct (nth_error stack (Z.to_nat i)) as [s|]; [|apply IH; lia].
  destruct (str_eqb s name); [reflexivity|apply IH; lia].
Qed.

Lemma object_skipBlockComment_loop_fuel (t : text) :
  forall f1 f2 pos, len t - pos <= Z.of_nat f1 -> len t - pos <= Z.of_nat f2 ->
    ObjectParser.skipBlockComment_loop f1 t pos = ObjectParser.skipBlockComment_loop f2 t pos.
Proof.
  induction f1 as [|f1 IH]; intros [|f2] pos H1 H2; cbn [ObjectParser.skipBlockComment_loop];
    try reflexivity.
  - replace (pos <? len t - 1) with false by (symmetry; apply Z.ltb_ge; lia). reflexivity.
  - replace (pos <? len t - 1) with false by (symmetry; apply Z.ltb_ge; lia). reflexivity.
  - destruct (pos <? len t - 1); [|reflexivity].
    destruct (char_is t pos c_star && char_is t (pos + 1) c_slash); [reflexivity|].
    apply IH; lia.
Qed.

(** The template loop and the interpolation loop call each other: the two
    are taken together. *)
Lemma skipTemplate_loop_fuel (t : text) :
  forall f1 f2,
    (forall pos, len t - pos <= Z.of_nat f1 -> len t - pos <= Z.of_nat f2 ->
       ObjectParser.skipTemplate_loop f1 t pos = ObjectParser.skipTemplate_loop f2 t pos) /\
    (forall pos d, len t - pos <= Z.of_nat f1 -> len t - pos <= Z.of_nat f2 ->
       ObjectParser.skipInterpolation_loop f1 t pos d =
       ObjectParser.skipInterpolation_loop f2 t pos d).
Proof.
  induction f1 as [|f1 IH]; intros [|f2]; (split; [intros pos H1 H2|intros pos d H1 H2]);
    cbn [ObjectParser.skipTemplate_loop ObjectParser.skipInterpolation_loop];
    try reflexivity; try past_end.
  - destruct (IH f2) as [IHt IHi].
    destruct (pos <? len t); [|reflexivity].
    destruct (char_is t pos c_backslash); [apply IHt; lia|].
    destruct (char_is t pos c_backtick); [reflexivity|].
    destruct (char_is t pos c_dollar && char_is t (pos + 1) c_lbrace); [|apply IHt; lia].
    rewrite (IHi (pos + 2) 1) by lia.
    pose proof (proj2 (Progress.skipTemplate_loop_ge f2 t) (pos + 2) 1).
    apply IHt; lia.
  - destruct (IH f2) as [IHt IHi].
    destruct ((pos <? len t) && (0 <? d)); [|reflexivity].
    destruct (char_is t pos c_lbrace); [apply IHi; lia|].
    destruct (char_is t pos c_rbrace); [apply IHi; lia|].
    destruct (char_is t pos c_backtick); [|apply IHi; lia].
    rewrite (IHt (pos + 1)) by lia.
    pose proof (proj1 (Progress.skipTemplate_loop_ge f2 t) (pos + 1)).
    apply IHi; lia.
Qed.

Lemma skipQuoted_loop_fuel (t : text) (quote : Z) :
  forall f1 f2 pos, len t - pos <= Z.of_nat f1 -> len t - pos <= Z.of_nat f2 ->
    ObjectParser.skipQuoted_loop f1 t pos quote = ObjectParser.skipQuoted_loop f2 t pos quote.
Proof.
  induction f1 as [|f1 IH]; intros [|f2] pos H1 H2; cbn [ObjectParser.skipQuoted_loop];
    try reflexivity; try past_end.
  destruct (pos <? len t); [|reflexivity].
  destruct (char_is t pos c_backslash); [apply IH; lia|].
  destruct (char_is t pos quote); [reflexivity|].
  destruct (char_is t pos c_nl && negb (quote =? c_backtick)); [reflexivity|].
  apply IH; lia.
Qed.

Lemma skipClass_loop_fuel (t : text) :
  forall f1 f2 pos, len t - pos <= Z.of_nat f1 -> len t - pos <= Z.of_nat f2 ->
    ObjectParser.skipClass_loop f1 t pos = ObjectParser.skipClass_loop f2 t pos.
Proof.
  induction f1 as [|f1 IH]; intros [|f2] pos H1 H2; cbn [ObjectParser.skipClass_loop];
    try reflexivity; try past_end.
  destruct ((pos <? len t) && negb (char_is t pos c_rbrack)); [|reflexivity].
  destruct (char_is t pos c_backslash); apply IH; lia.
Qed.

Lemma skipRegex_loop_fuel (t : text) :
  forall f1 f2 pos, len t - pos <= Z.of_nat f1 -> len t - pos <= Z.of_nat f2 ->
    ObjectParser.skipRegex_loop f1 t pos = ObjectParser.skipRegex_loop f2 t pos.
Proof.
  induction f1 as [|f1 IH]; intros [|f2] pos H1 H2; cbn [ObjectParser.skipRegex_loop];
    try reflexivity; try past_end.
  destruct (pos <? len t); [|reflexivity].
  destruct (char_is t pos c_backslash); [apply IH; lia|].
  destruct (char_is t pos c_slash); [reflexivity|].
  destruct (char_is t pos c_nl); [reflexivity|].
  destruct (char_is t pos c_lbrack); [|apply IH; lia].
  pose proof (Progress.skipClass_loop_ge (Z.to_nat (len t - (pos + 1))) t (pos + 1)).
  apply IH; lia.
Qed.

Lemma paren_back_loop_fuel (t : text) :
  forall f1 f2 i d, i + 1 <= Z.of_nat f1 -> i + 1 <= Z.of_nat f2 ->
    ObjectParser.paren_back_loop f1 t i d = ObjectParser.paren_back_loop f2 t i d.
Proof.
  induction f1 as [|f1 IH]; intros [|f2] i d H1 H2; cbn [ObjectParser.paren_back_loop];
    try reflexivity; try before_start.
  destruct ((0 <=? i) && (0 <? d)); [|reflexivity].
  destruct (char_is t i c_rparen); [apply IH; lia|].
  destruct (char_is t i c_lparen); apply IH; lia.
Qed.

Lemma stringKey_loop_fuel (t : text) (quote : Z) :
  forall f1 f2 pos, len t - pos <= Z.of_nat f1 -> len t - pos <= Z.of_nat f2 ->
    ObjectParser.stringKey_loop f1 t pos quote = ObjectParser.stringKey_loop f2 t pos quote.
Proof.
  induction f1 as [|f1 IH]; intros [|f2] pos H1 H2; cbn [ObjectParser.stringKey_loop];
    try reflexivity; try past_end.
  destruct ((pos <? len t) && negb (char_is t pos quote)); [|reflexivity].
  destruct (char_is t pos c_backslash); apply IH; lia.
Qed.

Lemma computedKey_loop_fuel (t : text) :
  forall f1 f2 pos d, len t - pos <= Z.of_nat f1 -> len t - pos <= Z.of_nat f2 ->
    ObjectParser.computedKey_loop f1 t pos d = ObjectParser.computedKey_loop f2 t pos d.
Proof.
  induction f1 as [|f1 IH]; intros [|f2] pos d H1 H2; cbn [ObjectParser.computedKey_loop];
    try reflexivity; try past_end.
  destruct ((pos <? len t) && (0 <? d)); [|reflexivity].
  destruct (char_is t pos c_lbrack); [apply IH; lia|].
  destruct (char_is t pos c_rbrack); apply IH; lia.
Qed.

End Fuel.

Section Claims.

Import HtmlFacts Markup MarkupLaws.

(** Well-formedness of a concrete document, by evaluation. *)
Ltac not_in :=
  let Hin := fresh "Hin" in
  intro Hin; vm_compute in Hin;
  repeat (destruct Hin as [Hin|Hin]; [discriminate Hin|]); exact Hin.

Ltac well_formed_document :=
  cbn -[has HtmlParser.VOID_ELEMENTS];
  repeat match goal with
    | |- Forall _ (_ :: _) => apply Forall_cons
    | |- Forall _ [] => apply Forall_nil
    | |- _ /\ _ => split
    | |- True => exact I
    | |- ~ In _ _ => not_in
    | |- valid_name _ => vm_compute
    | |- closes _ _ => reflexivity
    | |- ok_piece _ => cbn [ok_piece]
    | |- wf_node _ => cbn -[has HtmlParser.VOID_ELEMENTS]
    | |- ok_item _ => cbn -[has HtmlParser.VOID_ELEMENTS]
    | |- _ = _ => reflexivity
    | |- _ <> _ => discriminate
    | |- _ -> _ <> _ => intros _; discriminate
    | |- _ \/ _ => (left; reflexivity) || (right; reflexivity)
    end.

(** C1.  The balanced depth law of [HtmlParser].  On the text of any forest
    of well-formed nested non-void elements (character data between the
    tags, attributes in the opening tags), [parse] emits for every element
    the three spans of its opening tag at the number of elements that
    enclose it, which is the stack length before its push, the three spans
    of its closing tag at the same depth, and leaves the stack empty.  The
    same holds of the replay of any well-nested tag sequence from any stack,
    wherever its tags stand.  On [<div><span></span></div>] the spans are
    those of scenario 1, [div] at depth 0 and [span] at depth 1. *)
Theorem C1_balanced_depth (forest : list Node) (elements : list TagNest)
    (stack : list text) :
  Forall wf_node forest ->
  Forall well_formed elements ->
  (HtmlParser.parse (render_forest forest) = forest_spans 0 0 forest /\
   HtmlParser.tagStack (HtmlParser.parse_state (render_forest forest)) = []) /\
  (emitted stack (flat_map tags_of elements) = flat_map (spans_at (len stack)) elements /\
   stack_after stack (flat_map tags_of elements) = stack) /\
  HtmlParser.parse (str "<div><span></span></div>") =
    [ mkRange 0 1 0; mkRange 1 4 0; mkRange 4 5 0;
      mkRange 5 6 1; mkRange 6 10 1; mkRange 10 11 1;
      mkRange 11 13 1; mkRange 13 17 1; mkRange 17 18 1;
      mkRange 18 20 0; mkRange 20 23 0; mkRange 23 24 0 ].
Proof.
  intros Hforest Helements. split; [|split].
  - apply parse_render_forest. exact Hforest.
  - apply emitted_forest; [|exact Helements].
    apply Forall_forall. intros e _. apply emitted_element.
  - vm_compute. reflexivity.
Qed.

Lemma C1_balanced_depth_witness :
  let forest :=
    [Element (str "ul") [Plain c_space; Plain 97]
       (str "UL")
       [Text (str "a"); Element (str "li") [] (str "li") [Text (str "x > y")]]] in
  render_forest forest = str "<ul a>a<li>x > y</li></UL>" /\
  HtmlParser.parse (str "<ul a>a<li>x > y</li></UL>") =
    [ mkRange 0 1 0; mkRange 1 3 0; mkRange 5 6 0;
      mkRange 7 8 1; mkRange 8 10 1; mkRange 10 11 1;
      mkRange 16 18 1; mkRange 18 20 1; mkRange 20 21 1;
      mkRange 21 23 0; mkRange 23 25 0; mkRange 25 26 0 ].
Proof.
  intro forest. split; [reflexivity|].
  assert (Hwf : Forall wf_node forest) by (unfold forest; well_formed_document).
  destruct (C1_balanced_depth forest [] [] Hwf (Forall_nil _)) as [[H _] _].
  change (str "<ul a>a<li>x > y</li></UL>") with (render_forest forest).
  rewrite H. reflexivity.
Defined.

(** C7.  The no-op law for void elements and self-closing tags.  A tag that
    is self-closing, or opening with the name of a void element (in any
    case), put between two items of any document: [HtmlParser.parse] gives
    the other tags the depths they have without it, emits its three spans at
    the length the stack has there, and ends with the same stack; it pushes
    no frame.  The same holds of the replay of any tag sequence from any
    stack.  On the text of scenario 2 the [img] tag is at depth 0, pushes
    nothing, and [p] opens and closes at depth 0. *)
Theorem C7_void_and_self_closing (pre post : list Item) (ty : HtmlParser.TagType)
    (name : text) (attrs : list AttrPiece)
    (before after : list HtmlParser.TagMatch) (v : HtmlParser.TagMatch)
    (stack : list text) :
  Forall ok_item pre -> Forall ok_item post -> ok_item (Tag ty name attrs) ->
  (ty = HtmlParser.selfClose \/
   (ty = HtmlParser.open /\
    has HtmlParser.VOID_ELEMENTS (toLowerCase name) = true)) ->
  pushes_nothing v ->
  (let d := len (HtmlParser.tagStack (HtmlParser.parse_state (render pre))) in
   exists rest,
     map Types.depth (HtmlParser.parse (render (pre ++ post))) =
       map Types.depth (HtmlParser.parse (render pre)) ++ rest /\
     map Types.depth (HtmlParser.parse (render (pre ++ Tag ty name attrs :: post))) =
       map Types.depth (HtmlParser.parse (render pre)) ++ [d; d; d] ++ rest /\
     HtmlParser.tagStack
       (HtmlParser.parse_state (render (pre ++ Tag ty name attrs :: post))) =
     HtmlParser.tagStack (HtmlParser.parse_state (render (pre ++ post)))) /\
  (emitted stack (before ++ v :: after) =
     emitted stack before
       ++ HtmlParser.createTagRanges v (len (stack_after stack before))
       ++ emitted (stack_after stack before) after /\
   emitted stack (before ++ after) =
     emitted stack before ++ emitted (stack_after stack before) after /\
   stack_after stack (before ++ [v]) = stack_after stack before /\
   stack_after stack (before ++ v :: after) = stack_after stack (before ++ after)) /\
  (let t := str "<img src=" ++ [c_dquote] ++ str "x" ++ [c_dquote] ++ str "><p>t</p>" in
   HtmlParser.parse t =
     [ mkRange 0 1 0; mkRange 1 4 0; mkRange 12 13 0;
       mkRange 13 14 0; mkRange 14 15 0; mkRange 15 16 0;
       mkRange 17 19 0; mkRange 19 20 0; mkRange 20 21 0 ] /\
   HtmlParser.tagStack
     (HtmlParser.parse_state
        (str "<img src=" ++ [c_dquote] ++ str "x" ++ [c_dquote] ++ str ">")) = []).
Proof.
  intros Hpre Hpost Hv Hty Hpush. split; [|split].
  - apply insert_on_text; assumption.
  - apply emitted_insert. exact Hpush.
  - vm_compute. split; reflexivity.
Qed.

Lemma C7_void_and_self_closing_witness :
  let img := Tag HtmlParser.open (str "IMG")
               [Plain c_space; Plain 115; Plain 61; Quoted c_dquote (str "a>b")] in
  let pre := [Tag HtmlParser.open (str "p") []; Chars (str "t")] in
  let post := [Tag HtmlParser.selfClose (str "b") []; Tag HtmlParser.close (str "p") []] in
  map Types.depth (HtmlParser.parse (render (pre ++ post))) =
    [0; 0; 0] ++ [1; 1; 1; 0; 0; 0] /\
  map Types.depth (HtmlParser.parse (render (pre ++ img :: post))) =
    [0; 0; 0] ++ [1; 1; 1] ++ [1; 1; 1; 0; 0; 0].
Proof.
  intros img pre post.
  assert (Hpre : Forall ok_item pre) by (unfold pre; well_formed_document).
  assert (Hpost : Forall ok_item post) by (unfold post; well_formed_document).
  assert (Himg : ok_item img) by (unfold img; well_formed_document).
  destruct (C7_void_and_self_closing pre post HtmlParser.open (str "IMG")
              [Plain c_space; Plain 115; Plain 61; Quoted c_dquote (str "a>b")]
              [] [] (HtmlParser.mkTag HtmlParser.selfClose [] 0 0 0 0) []
              Hpre Hpost Himg (or_intror (conj eq_refl eq_refl)) (or_introl eq_refl))
    as [[rest [H1 [H2 _]]] _].
  assert (Hrest : rest = [1; 1; 1; 0; 0; 0]).
  { vm_compute in H1. inversion H1. reflexivity. }
  subst rest. split; [exact H1|exact H2].
Defined.

(** C8.  A tag candidate of [HtmlParser] (a match of the tag pattern at
    [m]) for which [findTagEnd] finds no end, because the text ends or a [<]
    outside quotes comes first, is discarded: the loop of [findAllTags] goes
    on from the end of the matched name with the tags it had, no tag is
    recorded for the candidate, and the tags found, their spans, their
    depths and the stack are those of the text in which the [<] of the
    candidate is replaced by a space.  In [<div <span></span>] the [span]
    tags are at depth 0; in [<p>a</p><div class=] only [p] is emitted. *)
Theorem C8_unterminated_tag_discarded (t : text) (m : Z) (cl : bool) (ns ne : Z) :
  HtmlParser.tagStart_at t m = Some (cl, ns, ne) ->
  HtmlParser.findTagEnd t ne cl = None ->
  (forall fuel lastIndex tags,
     HtmlParser.exec t lastIndex = Some (m, cl, ns, ne) ->
     HtmlParser.findAllTags_loop (S fuel) t lastIndex tags =
     HtmlParser.findAllTags_loop fuel t ne tags) /\
  (forall tag, In tag (HtmlParser.findAllTags t) -> HtmlParser.bracketStart tag <> m) /\
  HtmlParser.findAllTags (HtmlDiscard.blank t m) = HtmlParser.findAllTags t /\
  HtmlParser.parse_state (HtmlDiscard.blank t m) = HtmlParser.parse_state t /\
  HtmlParser.parse (str "<div <span></span>") =
    [ mkRange 5 6 0; mkRange 6 10 0; mkRange 10 11 0;
      mkRange 11 13 0; mkRange 13 17 0; mkRange 17 18 0 ] /\
  HtmlParser.parse (str "<p>a</p><div class=") =
    [ mkRange 0 1 0; mkRange 1 2 0; mkRange 2 3 0;
      mkRange 4 6 0; mkRange 6 7 0; mkRange 7 8 0 ].
Proof.
  intros Hstart Hfail.
  split; [|split; [|split; [|split; [|split]]]].
  - intros fuel lastIndex tags Hexec. cbn [HtmlParser.findAllTags_loop].
    rewrite Hexec. rewrite (HtmlDiscard.tag_of_match_failed t m cl ns ne Hstart Hfail).
    reflexivity.
  - apply (HtmlDiscard.no_tag_at_candidate t m cl ns ne Hstart Hfail).
  - apply (HtmlDiscard.findAllTags_blank t m cl ns ne Hstart Hfail).
  - unfold HtmlParser.parse_state.
    rewrite (HtmlDiscard.findAllTags_blank t m cl ns ne Hstart Hfail). reflexivity.
  - vm_compute. reflexivity.
  - vm_compute. reflexivity.
Qed.

Lemma C8_unterminated_tag_discarded_witness :
  let t := str "<a b=" ++ [c_dquote] ++ str "x<i>" in
  HtmlDiscard.blank t 0 = str " a b=" ++ [c_dquote] ++ str "x<i>" /\
  HtmlParser.parse (HtmlDiscard.blank t 0) = HtmlParser.parse t /\
  HtmlParser.parse t = [mkRange 7 8 0; mkRange 8 9 0; mkRange 9 10 0].
Proof.
  intro t. split; [reflexivity|].
  destruct (C8_unterminated_tag_discarded t 0 false 1 2 eq_refl eq_refl)
    as [_ [_ [_ [H _]]]].
  split.
  - unfold HtmlParser.parse. rewrite H. reflexivity.
  - reflexivity.
Defined.

(** C4.  A closing tag replayed by [HtmlParser.parse] from any stack: when
    its name closes some frame (names compared in lower case), the stack is
    cut to the index [k] of the topmost such frame, so that frame and all
    above it are popped, and the three spans of the tag are emitted at the
    new stack length [k]; when it closes none, the stack is left as it is and
    the spans are emitted at its length.  In particular [</div>] alone is
    emitted at depth 0 and leaves the stack empty. *)
Theorem C4_closing_tag (stack : list text) (rs : list ColoredRange)
    (tag : HtmlParser.TagMatch) :
  HtmlParser.type tag = HtmlParser.close ->
  let st' := HtmlParser.parse_tag (HtmlParser.mkState stack rs) tag in
  let spans d :=
    [ mkRange (HtmlParser.bracketStart tag) (HtmlParser.bracketStart tag + 2) d;
      mkRange (HtmlParser.nameStart tag) (HtmlParser.nameEnd tag) d;
      mkRange (HtmlParser.bracketEnd tag - 1) (HtmlParser.bracketEnd tag) d ] in
  ((exists i s, nth_error stack i = Some s /\ closes (HtmlParser.tagName tag) s) ->
   exists k, topmost_match stack (HtmlParser.tagName tag) k /\
     HtmlParser.tagStack st' = firstn k stack /\
     len (HtmlParser.tagStack st') = Z.of_nat k /\
     HtmlParser.ranges st' = rs ++ spans (Z.of_nat k)) /\
  (no_match stack (HtmlParser.tagName tag) ->
     HtmlParser.tagStack st' = stack /\
     HtmlParser.ranges st' = rs ++ spans (len stack)) /\
  HtmlParser.parse_state (str "</div>") =
    HtmlParser.mkState [] [mkRange 0 2 0; mkRange 2 5 0; mkRange 5 6 0].
Proof.
  intros Ht st' spans.
  assert (Hspans : forall d, HtmlParser.createTagRanges tag d = spans d).
  { intro d. unfold HtmlParser.createTagRanges. rewrite Ht. reflexivity. }
  assert (Hst : st' = HtmlParser.mkState (stack_after stack [tag]) (rs ++ emitted stack [tag])).
  { apply (parse_tags_ranges [tag]). }
  split; [|split].
  - intro Hex. destruct (match_has_topmost _ _ Hex) as [k Hk]. exists k.
    destruct (emitted_close_found stack tag k Ht Hk) as [E S].
    rewrite Hst, E, S, Hspans. cbn [HtmlParser.tagStack HtmlParser.ranges].
    split; [exact Hk|]. split; [reflexivity|]. split; [|reflexivity].
    apply topmost_match_lt in Hk. unfold len. rewrite length_firstn. lia.
  - intro Hno. destruct (emitted_close_none stack tag Ht Hno) as [E S].
    rewrite Hst, E, S, Hspans. split; reflexivity.
  - vm_compute. reflexivity.
Qed.

Lemma C4_closing_tag_witness :
  let stack := [str "div"; str "span"] in
  let tag := HtmlParser.mkTag HtmlParser.close (str "DIV") 11 17 13 16 in
  HtmlParser.type tag = HtmlParser.close /\
  HtmlParser.parse_tag (HtmlParser.mkState stack []) tag =
    HtmlParser.mkState [] [mkRange 11 13 0; mkRange 13 16 0; mkRange 16 17 0].
Proof.
  intros stack tag. split; [reflexivity|].
  destruct (C4_closing_tag stack [] tag eq_refl) as [Hfound _].
  destruct Hfound as [k [Hk [Hs [Hl Hr]]]].
  - exists 0%nat, (str "div"). split; reflexivity.
  - assert (Hk0 : k = 0%nat).
    { apply (topmost_match_unique stack (HtmlParser.tagName tag) k 0 Hk).
      split.
      - exists (str "div"). split; reflexivity.
      - intros j s Hj Hs' Hc. destruct j as [|[|j]]; [lia| |].
        + inversion Hs'; subst s. vm_compute in Hc. discriminate.
        + destruct j; discriminate. }
    subst k. vm_compute. reflexivity.
Defined.

Import JsxParser.



(** How the expression state of [JsxParser.tokenize] handles a [}]: by the
    counter and the frame stack, not by the brace the [}] closes.  It first
    lowers the brace counter, and then does exactly one of three things: if
    the counter has reached 0 it ends the expression and is emitted at
    [depth - 1]; otherwise, if an object-literal frame is pending, it pops
    that frame, lowers the depth by one and is emitted at the depth stored
    in the frame; otherwise it emits nothing and leaves the depth and the
    frame stack as they are.  When the loop reaches that state, [parse]
    returns the range of the brace at the depth said in the first two
    cases, and no range that starts at the brace in the third. *)
Lemma expression_closing_brace_by_state (cfg : Config) (t : text) (st : State) :
  st_inJsxExpression st = true ->
  char_is t (st_i st) c_rbrace = true ->
  let i := st_i st in
  let n := st_jsxExpressionBraceDepth st - 1 in
  let st' := tokenize_step cfg t st in
  (n = 0 ->
     st' = mkState (i + 1) (st_depth st) (st_tagStack st) false 0 (st_objectBraceStack st)
             (st_tokens st ++ [tok ExpressionEnd i (i + 1) (st_depth st - 1)])) /\
  (n <> 0 -> forall d rest, st_objectBraceStack st = d :: rest ->
     st' = mkState (i + 1) (st_depth st - 1) (st_tagStack st) true n rest
             (st_tokens st ++ [tok ObjectBrace i (i + 1) d])) /\
  (n <> 0 -> st_objectBraceStack st = [] ->
     st' = mkState (i + 1) (st_depth st) (st_tagStack st) true n [] (st_tokens st)) /\
  ((n = 0 /\ st_inJsxExpression st' = false) \/
   (n <> 0 /\ st_objectBraceStack st <> [] /\ st_inJsxExpression st' = true /\
    st_depth st' = st_depth st - 1) \/
   (n <> 0 /\ st_objectBraceStack st = [] /\ st_inJsxExpression st' = true /\
    st_depth st' = st_depth st /\ st_tokens st' = st_tokens st)) /\
  (forall k : nat, tokenize_loop k cfg t init = st ->
     (n = 0 -> In (mkRange i (i + 1) (st_depth st - 1)) (parse cfg t)) /\
     (n <> 0 -> forall d rest, st_objectBraceStack st = d :: rest ->
        In (mkRange i (i + 1) d) (parse cfg t)) /\
     (n <> 0 -> st_objectBraceStack st = [] ->
        forall r, In r (parse cfg t) -> startOffset r <> i)).
Proof.
  intros Hin Hc i n st'.
  pose proof (char_is_in_range _ _ _ Hc) as Hrange.
  cut ((n = 0 ->
     st' = mkState (i + 1) (st_depth st) (st_tagStack st) false 0 (st_objectBraceStack st)
             (st_tokens st ++ [tok ExpressionEnd i (i + 1) (st_depth st - 1)])) /\
  (n <> 0 -> forall d rest, st_objectBraceStack st = d :: rest ->
     st' = mkState (i + 1) (st_depth st - 1) (st_tagStack st) true n rest
             (st_tokens st ++ [tok ObjectBrace i (i + 1) d])) /\
  (n <> 0 -> st_objectBraceStack st = [] ->
     st' = mkState (i + 1) (st_depth st) (st_tagStack st) true n [] (st_tokens st)) /\
  ((n = 0 /\ st_inJsxExpression st' = false) \/
   (n <> 0 /\ st_objectBraceStack st <> [] /\ st_inJsxExpression st' = true /\
    st_depth st' = st_depth st - 1) \/
   (n <> 0 /\ st_objectBraceStack st = [] /\ st_inJsxExpression st' = true /\
    st_depth st' = st_depth st /\ st_tokens st' = st_tokens st))).
  { intros [H1 [H2 [H3 H4]]].
    split; [exact H1|]. split; [exact H2|]. split; [exact H3|]. split; [exact H4|].
    intros k Hk. split; [|split].
    - intro En.
      apply (JsxRun.range_emitted cfg t k st
               (tok ExpressionEnd i (i + 1) (st_depth st - 1)) Hk (proj2 Hrange)).
      fold st'. rewrite (H1 En). cbn [st_tokens]. apply in_or_app. right. left. reflexivity.
    - intros En d rest Es.
      apply (JsxRun.range_emitted cfg t k st (tok ObjectBrace i (i + 1) d) Hk (proj2 Hrange)).
      fold st'. rewrite (H2 En d rest Es). cbn [st_tokens].
      apply in_or_app. right. left. reflexivity.
    - intros En Es.
      apply (JsxRun.no_range_at cfg t k st Hk (proj2 Hrange)).
      fold st'. rewrite (H3 En Es). reflexivity. }
  assert (Hst : st' = step_expression cfg t st).
  { unfold st'. rewrite (JsxFacts.tokenize_step_brace cfg t st c_rbrace)
      by (auto; right; reflexivity).
    rewrite Hin. reflexivity. }
  assert (Hl : char_is t (st_i st) c_lbrace = false)
    by (apply (char_is_other _ _ _ _ Hc); discriminate).
  unfold step_expression in Hst. rewrite Hl, Hc, Hin in Hst.
  fold n in Hst. fold i in Hst.
  destruct (n =? 0) eqn:En.
  - apply Z.eqb_eq in En. rewrite Hst. rewrite En.
    split; [intros _; reflexivity|]. split; [intro; contradiction|].
    split; [intro; contradiction|]. left. split; reflexivity.
  - apply Z.eqb_neq in En. split; [intro; contradiction|].
    destruct (st_objectBraceStack st) as [|d rest] eqn:Es.
    + rewrite Hst. split; [intros _ d rest H; discriminate|].
      split; [intros _ _; reflexivity|].
      right. right. repeat split; auto.
    + rewrite Hst. split; [intros _ d' rest' H; inversion H; subst; reflexivity|].
      split; [intros _ H; discriminate|].
      right. left. repeat split; auto. discriminate.
Qed.

(** C5, the code at the failing input.  In the expression of [<a>] the
    argument of [f] is an object literal whose first value is a function.
    The braces of the function body are a block: its [{] pushes no frame.
    Its [}] closes neither the expression nor an object literal, but it
    finds the counter above 0 and the frame of the object literal pending:
    it pops that frame, lowers the depth and is emitted as an object brace
    (offset 24, depth 1).  The [}] of the object literal itself (offset 31)
    then finds no frame and emits nothing, and the key [c] before it, looked
    for only while a frame is pending, is not emitted.  With a number in
    the place of the function the three behaviours are those of the claim.
    In the third text the object literal is around the element: the [}] of
    the function body pops its frame inside the expression of [<p>], so the
    expression end is emitted at depth 0 while its [{] and the tag [<p>]
    are at depth 1, [</p>] is emitted at depth 0, and the [}] of the object
    literal emits nothing.  With a number in the place of the function the
    expression end and [</p>] are at depth 1 and the object brace closes at
    depth 0. *)
Theorem C5_block_brace_in_expression :
  let cfg := mkConfig true true in
  tokenize cfg (str "<a>{f({b: function(){ x }, c: 1})}</a>") =
    [ tok_named JsxOpenStart 0 1 0 (str "a"); tok_named JsxOpenStart 1 2 0 (str "a");
      tok JsxOpenEnd 2 3 0; tok ExpressionStart 3 4 0;
      tok ObjectBrace 6 7 1; tok PropertyKey 7 8 1;
      tok ObjectBrace 24 25 1;
      tok ExpressionEnd 33 34 0;
      tok_named JsxClose 34 36 0 (str "a"); tok_named JsxClose 36 37 0 (str "a");
      tok JsxClose 37 38 0 ] /\
  tokenize cfg (str "<a>{f({b: 0, c: 1})}</a>") =
    [ tok_named JsxOpenStart 0 1 0 (str "a"); tok_named JsxOpenStart 1 2 0 (str "a");
      tok JsxOpenEnd 2 3 0; tok ExpressionStart 3 4 0;
      tok ObjectBrace 6 7 1; tok PropertyKey 7 8 1; tok PropertyKey 13 14 1;
      tok ObjectBrace 17 18 1;
      tok ExpressionEnd 19 20 0;
      tok_named JsxClose 20 22 0 (str "a"); tok_named JsxClose 22 23 0 (str "a");
      tok JsxClose 23 24 0 ] /\
  tokenize cfg (str "o = {k: <p>{f(function(){})}</p>}") =
    [ tok ObjectBrace 4 5 0; tok PropertyKey 5 6 0;
      tok_named JsxOpenStart 8 9 1 (str "p"); tok_named JsxOpenStart 9 10 1 (str "p");
      tok JsxOpenEnd 10 11 1; tok ExpressionStart 11 12 1;
      tok ObjectBrace 25 26 0;
      tok ExpressionEnd 27 28 0;
      tok_named JsxClose 28 30 0 (str "p"); tok_named JsxClose 30 31 0 (str "p");
      tok JsxClose 31 32 0 ] /\
  tokenize cfg (str "o = {k: <p>{f(0)}</p>}") =
    [ tok ObjectBrace 4 5 0; tok PropertyKey 5 6 0;
      tok_named JsxOpenStart 8 9 1 (str "p"); tok_named JsxOpenStart 9 10 1 (str "p");
      tok JsxOpenEnd 10 11 1; tok ExpressionStart 11 12 1;
      tok ExpressionEnd 16 17 1;
      tok_named JsxClose 17 19 1 (str "p"); tok_named JsxClose 19 20 1 (str "p");
      tok JsxClose 20 21 1;
      tok ObjectBrace 21 22 0 ].
Proof. vm_compute. repeat split; reflexivity. Qed.

(** C9.  Whatever the text and the settings, every range emitted by
    [HtmlParser.parse], by [JsxParser.parse] and by [ObjectParser.parse] has a
    depth that is not negative.  In [JsxParser.tokenize] the depth counter is,
    after any number of iterations, the sum of the lengths of the tag stack
    and of the object-frame stack, and an expression is open only while the
    tag stack is not empty, which is why the emissions at [depth - 1] are not
    negative.  The tokens [JsxParser.parse] maps are those of the whole
    run: the loop has ended after [length t] iterations and more iterations
    change nothing. *)
Theorem C9_depth_not_negative (t : text) (jsx : JsxParser.Config)
    (obj : ObjectParser.Config) :
  Forall (fun r => 0 <= Types.depth r) (HtmlParser.parse t) /\
  Forall (fun r => 0 <= Types.depth r) (JsxParser.parse jsx t) /\
  (exists rs, ObjectParser.parse obj t = ObjectParser.Ok rs /\
              Forall (fun r => 0 <= Types.depth r) rs) /\
  (forall n : nat,
     let st := JsxParser.tokenize_loop n jsx t JsxParser.init in
     JsxParser.st_depth st =
       len (JsxParser.st_tagStack st) + len (JsxParser.st_objectBraceStack st) /\
     (JsxParser.st_inJsxExpression st = true -> JsxParser.st_tagStack st <> []) /\
     Forall (fun tk => 0 <= JsxParser.depth tk) (JsxParser.st_tokens st)) /\
  (forall k : nat,
     JsxParser.tokenize_loop (List.length t + k) jsx t JsxParser.init =
       JsxParser.tokenize_state jsx t).
Proof.
  split; [|split; [|split; [|split]]]; [| | | |apply JsxRun.tokenize_loop_enough].
  - unfold HtmlParser.parse, HtmlParser.parse_state.
    apply parse_tags_nonneg. constructor.
  - unfold JsxParser.parse, JsxParser.tokenize, JsxParser.tokenize_state.
    destruct (JsxFacts.inv_tokenize_loop (List.length t) jsx t JsxParser.init
                JsxFacts.inv_init_jsx) as [_ [_ [_ H]]].
    apply Forall_map. apply Forall_forall. intros tk Htk.
    rewrite Forall_forall in H. cbn. apply H. exact Htk.
  - apply ObjectFacts.parse_ok.
  - intros n st.
    destruct (JsxFacts.inv_tokenize_loop n jsx t JsxParser.init JsxFacts.inv_init_jsx)
      as [H1 [H2 [_ H4]]].
    split; [exact H1|]. split; [exact H2|exact H4].
Qed.

(** A [{] the loop of [ObjectParser] scans (it stands outside the strings,
    comments and regular expressions the loop skips) is classified by
    [isObjectContext] and pushed with the number of the frames on the stack
    that are object literals.  When the nearest character before it that is
    not white space is one of the characters of the set
    [OBJECT_CONTEXT_CHARS], that is [=], [:], [(], [[], [,] or [?], it is an
    object literal, recorded at that number, and [parse] emits its range at
    that depth.  When the letters that end at that character spell a keyword
    of [BLOCK_KEYWORDS] it is a block: nothing is recorded and no range of
    the result starts at it. *)
Lemma open_brace_object_or_block (cfg : ObjectParser.Config) (t : text) (n : nat)
    (st : ObjectParser.State) :
  ObjectParser.loop n cfg t ObjectParser.init = ObjectParser.Ok st ->
  char_is t (ObjectParser.st_i st) c_lbrace = true ->
  let i := ObjectParser.st_i st in
  let count := len (filter ObjectParser.f_isObject (ObjectParser.st_braceStack st)) in
  (forall j c, ObjectFacts.nearest_before t i j c ->
     In c [c_eq; c_colon; c_lparen; c_lbrack; c_comma; c_quest] ->
     ObjectParser.step cfg t st =
       ObjectParser.Ok
         (ObjectParser.mkState (i + 1)
            (ObjectParser.mkFrame true count :: ObjectParser.st_braceStack st)
            (ObjectParser.st_braces st ++ [ObjectParser.mkBrace i true count])
            (ObjectParser.st_propertyKeys st)) /\
     (ObjectParser.objectBracesEnabled cfg = true ->
      exists rs, ObjectParser.parse cfg t = ObjectParser.Ok rs /\
                 In (mkRange i (i + 1) count) rs)) /\
  (forall j c keyword, ObjectFacts.nearest_before t i j c ->
     ObjectParser.getKeywordBefore t j = Some keyword ->
     In keyword ObjectParser.BLOCK_KEYWORDS ->
     ObjectParser.step cfg t st =
       ObjectParser.Ok
         (ObjectParser.mkState (i + 1)
            (ObjectParser.mkFrame false count :: ObjectParser.st_braceStack st)
            (ObjectParser.st_braces st)
            (ObjectParser.st_propertyKeys st)) /\
     exists rs, ObjectParser.parse cfg t = ObjectParser.Ok rs /\
                forall r, In r rs -> startOffset r <> i).
Proof.
  intros Hn Hc i count. subst i count.
  fold (ObjectParser.objectCount (ObjectParser.st_braceStack st)).
  pose proof (char_is_in_range _ _ _ Hc) as Hr.
  split.
  - intros j c Hnear Hin.
    assert (Hstep : ObjectParser.step cfg t st =
       ObjectParser.Ok
         (ObjectParser.mkState (ObjectParser.st_i st + 1)
            (ObjectParser.mkFrame true (ObjectParser.objectCount (ObjectParser.st_braceStack st))
               :: ObjectParser.st_braceStack st)
            (ObjectParser.st_braces st ++
               [ObjectParser.mkBrace (ObjectParser.st_i st) true
                  (ObjectParser.objectCount (ObjectParser.st_braceStack st))])
            (ObjectParser.st_propertyKeys st))).
    { rewrite (ObjectFacts.step_open_brace cfg t st Hc). cbv zeta.
      rewrite (ObjectFacts.isObjectContext_after_char t _ j c Hnear Hin). reflexivity. }
    split; [exact Hstep|]. intro He.
    apply (ObjectFacts.brace_emitted cfg t n st _
             (ObjectParser.mkBrace (ObjectParser.st_i st) true
                (ObjectParser.objectCount (ObjectParser.st_braceStack st)))
             He Hn (proj2 Hr) Hstep); reflexivity.
  - intros j c keyword Hnear Hkw Hin.
    assert (Hstep : ObjectParser.step cfg t st =
       ObjectParser.Ok
         (ObjectParser.mkState (ObjectParser.st_i st + 1)
            (ObjectParser.mkFrame false (ObjectParser.objectCount (ObjectParser.st_braceStack st))
               :: ObjectParser.st_braceStack st)
            (ObjectParser.st_braces st)
            (ObjectParser.st_propertyKeys st))).
    { rewrite (ObjectFacts.step_open_brace cfg t st Hc). cbv zeta.
      rewrite (ObjectFacts.isObjectContext_after_block_keyword t _ j c keyword Hnear Hkw).
      - reflexivity.
      - unfold has. apply existsb_exists. exists keyword. split; [exact Hin|].
        apply str_eqb_refl. }
    split; [exact Hstep|].
    apply (ObjectFacts.nothing_emitted cfg t n st _ Hn (proj2 Hr) Hstep); reflexivity.
Qed.

(** C3, the code at the failing input.  The condition of the [if] compares
    with a string that holds an opening parenthesis.  The loop of
    [findObjectBracesAndKeys] skips strings, but the search of
    [getParenContext] for the parenthesis that opens the condition reads
    the text as it is and counts the parentheses inside them: from the [)]
    at offset 12 it stops at the parenthesis in the string (offset 10),
    finds a quote and no keyword before it, and answers [call].  The brace
    of the block is then an object literal, and [parse] returns the two
    braces of the block.  With another character in the string the search
    reaches the parenthesis after [if], the answer is [control] and nothing
    is returned, as for [if (x) { y(); }]. *)
Theorem C3_parenthesis_in_string :
  let cfg := ObjectParser.mkConfig true true in
  let t := str "if (a == '(') { y(); }" in
  ObjectParser.getParenContext t 12 = ObjectParser.call /\
  ObjectParser.isObjectContext t 14 = true /\
  ObjectParser.parse cfg t = ObjectParser.Ok [mkRange 14 15 0; mkRange 21 22 0] /\
  ObjectParser.getParenContext (str "if (a == '[') { y(); }") 12 = ObjectParser.control /\
  ObjectParser.parse cfg (str "if (a == '[') { y(); }") = ObjectParser.Ok [] /\
  ObjectParser.parse cfg (str "if (x) { y(); }") = ObjectParser.Ok [].
Proof. vm_compute. repeat split; reflexivity. Qed.

(** The last part of C10 as the claim words it: a [}] scanned with an empty
    stack changes nothing for the braces around it, so the depths emitted
    are those of the text without it. *)
Definition C10_as_stated : Prop :=
  forall (cfg : ObjectParser.Config) (pre post : text) (n : nat) (st : ObjectParser.State)
         (rs rs' : list ColoredRange),
    ObjectParser.loop n cfg (pre ++ [c_rbrace] ++ post) ObjectParser.init
      = ObjectParser.Ok st ->
    ObjectParser.st_i st = len pre ->
    ObjectParser.st_braceStack st = [] ->
    ObjectParser.parse cfg (pre ++ [c_rbrace] ++ post) = ObjectParser.Ok rs ->
    ObjectParser.parse cfg (pre ++ post) = ObjectParser.Ok rs' ->
    map Types.depth rs = map Types.depth rs'.

(** C10, counterexample.  In [=}{}] the first [}] is scanned with an empty
    stack; the [{] after it is then a block and nothing is emitted, while
    [={}] without the stray brace is an object literal with two ranges. *)
Lemma C10_counterexample :
  ~ C10_as_stated /\
  ObjectParser.parse (ObjectParser.mkConfig true true) (str "=}{}") = ObjectParser.Ok [] /\
  ObjectParser.parse (ObjectParser.mkConfig true true) (str "={}") =
    ObjectParser.Ok [mkRange 1 2 0; mkRange 2 3 0].
Proof.
  split; [|split; vm_compute; reflexivity].
  intro H.
  specialize (H (ObjectParser.mkConfig true true) (str "=") (str "{}") 1%nat
                (ObjectParser.mkState 1 [] [] []) [] [mkRange 1 2 0; mkRange 2 3 0]).
  assert (Hd : map Types.depth (@nil ColoredRange)
               = map Types.depth [mkRange 1 2 0; mkRange 2 3 0]).
  { apply H; vm_compute; reflexivity. }
  discriminate Hd.
Qed.

(** C10, amended.  A [}] the loop of [ObjectParser] scans while the brace
    stack is empty records no brace and no key, leaves the stack empty and
    moves the scan to the next character; no range of the result starts at
    it, and the depths of the braces after it are counted from the same
    empty stack.  A later [{] is still classified by the character before
    it, which can be this [}].  The same guard protects the plain-script
    branch of [JsxParser].  Whatever the text and the settings, [parse]
    never throws, and its loop ends at the end of the text. *)
Theorem C10_stray_closing_brace (cfg : ObjectParser.Config) (t : text) (n : nat)
    (st : ObjectParser.State) :
  ObjectParser.loop n cfg t ObjectParser.init = ObjectParser.Ok st ->
  char_is t (ObjectParser.st_i st) c_rbrace = true ->
  ObjectParser.st_braceStack st = [] ->
  ObjectParser.step cfg t st =
    ObjectParser.Ok
      (ObjectParser.mkState (ObjectParser.st_i st + 1) []
         (ObjectParser.st_braces st) (ObjectParser.st_propertyKeys st)) /\
  (exists rs, ObjectParser.parse cfg t = ObjectParser.Ok rs /\
              forall r, In r rs -> startOffset r <> ObjectParser.st_i st) /\
  (forall cfg' t',
     (exists rs, ObjectParser.parse cfg' t' = ObjectParser.Ok rs) /\
     exists final,
       ObjectParser.loop (List.length t') cfg' t' ObjectParser.init
         = ObjectParser.Ok final /\
       len t' <= ObjectParser.st_i final) /\
  (forall jsx jst,
     char_is t (JsxParser.st_i jst) c_rbrace = true ->
     JsxParser.st_inJsxExpression jst = false ->
     JsxParser.st_objectBraceStack jst = [] ->
     JsxParser.tokenize_step jsx t jst = JsxParser.set_i jst (JsxParser.st_i jst + 1) /\
     (forall k : nat, JsxParser.tokenize_loop k jsx t JsxParser.init = jst ->
        forall r, In r (JsxParser.parse jsx t) -> startOffset r <> JsxParser.st_i jst)).
Proof.
  intros Hn Hc Hs.
  pose proof (char_is_in_range _ _ _ Hc) as Hr.
  assert (Hstep : ObjectParser.step cfg t st =
    ObjectParser.Ok
      (ObjectParser.mkState (ObjectParser.st_i st + 1) []
         (ObjectParser.st_braces st) (ObjectParser.st_propertyKeys st))).
  { rewrite (ObjectFacts.step_close_brace cfg t st Hc). rewrite Hs. reflexivity. }
  split; [exact Hstep|]. split; [|split].
  - apply (ObjectFacts.nothing_emitted cfg t n st _ Hn (proj2 Hr) Hstep); reflexivity.
  - intros cfg' t'. split.
    + destruct (ObjectFacts.parse_ok cfg' t') as [rs [E _]]. exists rs. exact E.
    + destruct (ObjectFacts.loop_ok (List.length t') cfg' t' ObjectParser.init
                  ObjectFacts.inv_init_object) as [final [Hf _]].
      exists final. split; [exact Hf|].
      apply (ObjectFacts.loop_reaches_end cfg' t' (List.length t') ObjectParser.init final);
        [cbn; lia|cbn; unfold len; lia|exact Hf].
  - intros jsx jst Hjc Hin Hobj.
    assert (Hjstep : JsxParser.tokenize_step jsx t jst =
                     JsxParser.set_i jst (JsxParser.st_i jst + 1)).
    { rewrite (JsxFacts.tokenize_step_brace jsx t jst c_rbrace) by (auto; right; reflexivity).
      rewrite Hin. rewrite (JsxFacts.step_tag_not_lt t jst c_rbrace Hjc) by discriminate.
      assert (Hl : char_is t (JsxParser.st_i jst) c_lbrace = false)
        by (apply (char_is_other _ _ _ _ Hjc); discriminate).
      unfold JsxParser.step_rest. rewrite Hl, Hobj. cbn [andb].
      rewrite andb_false_r. cbn [andb].
      destruct (JsxParser.objectBracesEnabled jsx && char_is t (JsxParser.st_i jst) c_rbrace
                && (len (JsxParser.st_tagStack jst) =? 0)); cbv iota;
        rewrite andb_false_r; reflexivity. }
    split; [exact Hjstep|]. intros k Hk.
    apply (JsxRun.no_range_at jsx t k jst Hk (proj2 (char_is_in_range _ _ _ Hjc))).
    rewrite Hjstep. reflexivity.
Qed.

Lemma C10_stray_closing_brace_witness :
  ObjectParser.step (ObjectParser.mkConfig true true) (str "x } = {a: 1}")
    (ObjectParser.mkState 2 [] [] []) =
  ObjectParser.Ok (ObjectParser.mkState 3 [] [] []).
Proof.
  exact (proj1 (C10_stray_closing_brace (ObjectParser.mkConfig true true)
                  (str "x } = {a: 1}") 2 (ObjectParser.mkState 2 [] [] [])
                  eq_refl eq_refl eq_refl)).
Defined.

(** C6, the code at the failing input.  The text is one assignment of one
    template literal, whose interpolation holds a nested template literal
    with a closing brace in it.  [JsxParser.skipString] only counts braces in
    an interpolation, so it ends the interpolation at that brace and the
    literal at the nested backtick that follows (offset 10 instead of 21);
    the braces and the key that follow, inside the literal, are emitted.
    [ObjectParser.skipString] calls itself on the nested backtick, skips the
    whole literal and emits nothing. *)
Theorem C6_nested_template_literal :
  let t := str "x = `${`}`} = {k: 1}`" in
  JsxParser.skipString t 4 c_backtick = 10 /\
  ObjectParser.skipString t 4 c_backtick = 21 /\
  len t = 21 /\
  JsxParser.parse (JsxParser.mkConfig true true) t =
    [mkRange 14 15 0; mkRange 15 16 0; mkRange 19 20 0] /\
  ObjectParser.parse (ObjectParser.mkConfig true true) t = ObjectParser.Ok [].
Proof. vm_compute. repeat split; reflexivity. Qed.

End Claims.

(** * Further properties of the three parsers *)

(** ** HtmlParser: what [findAllTags] and [parse] return on any text *)

Module HtmlMore.
Import HtmlParser HtmlFacts HtmlScan.

Lemma findTagEnd_loop_Some (t : text) (fuel : nat) :
  forall i s q cl e sc,
    findTagEnd_loop fuel t i s q cl = Some (e, sc) ->
    i < e <= len t /\ char_is t (e - 1) c_gt = true /\
    sc = negb cl && char_is t (e - 2) c_slash.
Proof.
  induction fuel as [|f IH]; intros i s q cl e sc H; cbn [findTagEnd_loop] in H;
    [discriminate|].
  destruct (i <? len t) eqn:E; [|discriminate]. apply Z.ltb_lt in E. cbv zeta in H.
  assert (Hnext : forall s', findTagEnd_loop f t (i + 1) s' q cl = Some (e, sc) ->
            i < e <= len t /\ char_is t (e - 1) c_gt = true /\
            sc = negb cl && char_is t (e - 2) c_slash).
  { intros s' H'. apply IH in H'. destruct H' as [H1 H2]. split; [lia|exact H2]. }
  destruct s.
  - destruct (_ && _) in H; apply Hnext in H; exact H.
  - destruct (char_is t i c_dquote || char_is t i c_squote).
    { apply IH in H. destruct H as [H1 H2]. split; [lia|exact H2]. }
    destruct (char_is t i c_gt) eqn:Eg.
    + inversion H; subst.
      replace (i + 1 - 1) with i by lia. replace (i + 1 - 2) with (i - 1) by lia.
      split; [lia|]. split; [exact Eg|reflexivity].
    + destruct (char_is t i c_lt); [discriminate|]. apply Hnext in H. exact H.
Qed.

Lemma findTagEnd_Some (t : text) (startPos : Z) (cl : bool) (e : Z) (sc : bool) :
  findTagEnd t startPos cl = Some (e, sc) ->
  startPos < e <= len t /\ char_is t (e - 1) c_gt = true /\
  sc = negb cl && char_is t (e - 2) c_slash.
Proof. apply findTagEnd_loop_Some. Qed.

(** The facts on one tag of [findAllTags]. *)
Definition tag_in_text (t : text) (tag : TagMatch) : Prop :=
  char_is t (bracketStart tag) c_lt = true /\
  (type tag = close <-> char_is t (bracketStart tag + 1) c_slash = true) /\
  nameStart tag = bracketStart tag + (if char_is t (bracketStart tag + 1) c_slash then 2 else 1) /\
  nameStart tag < nameEnd tag /\ nameEnd tag < bracketEnd tag <= len t /\
  tagName tag = slice t (nameStart tag) (nameEnd tag) /\
  (forall j, nameStart tag <= j < nameEnd tag -> name_char_at (char_at t j) = true) /\
  char_is t (bracketEnd tag - 1) c_gt = true /\
  (type tag = selfClose <->
   type tag <> close /\ char_is t (bracketEnd tag - 2) c_slash = true) /\
  (type tag = selfClose -> nameEnd tag <= bracketEnd tag - 2).

Lemma name_start_not_slash (t : text) (i : Z) :
  name_start_at t i = true -> char_is t i c_slash = false.
Proof.
  unfold name_start_at, char_is. destruct (char_at t i) as [c|]; [|discriminate].
  intro H. apply Z.eqb_neq. intros ->. discriminate H.
Qed.

Lemma findAllTags_tag_in_text (t : text) (tag : TagMatch) :
  In tag (findAllTags t) -> tag_in_text t tag.
Proof.
  intro Hin. rewrite findAllTags_tags_from in Hin.
  destruct (HtmlDiscard.tags_from_In t tag (List.length t) 0 ltac:(unfold len; lia) Hin)
    as [cl [ns [ne [Hstart Hm]]]].
  rewrite (HtmlDiscard.tag_of_match_eq t _ cl ns ne Hstart) in Hm.
  destruct (findTagEnd t ne cl) as [[e sc]|] eqn:Ee; [|discriminate].
  destruct (findTagEnd_Some _ _ _ _ _ Ee) as [He [Hgt Hsc]].
  pose proof (HtmlDiscard.tagStart_at_name t _ cl ns ne Hstart) as Hname.
  destruct (tagStart_at_bounds _ _ _ _ _ Hstart) as [Hlt [H0 [Hns Hne]]].
  assert (Hslash : char_is t (bracketStart tag + 1) c_slash = cl).
  { unfold tagStart_at in Hstart. rewrite Hlt in Hstart.
    destruct (char_is t (bracketStart tag + 1) c_slash) eqn:Es; cbn [andb] in Hstart.
    - destruct (name_start_at t (bracketStart tag + 2)).
      + inversion Hstart. reflexivity.
      + destruct (name_start_at t (bracketStart tag + 1)) eqn:En; [|discriminate].
        apply name_start_not_slash in En. congruence.
    - destruct (name_start_at t (bracketStart tag + 1)); [|discriminate].
      inversion Hstart. reflexivity. }
  remember (bracketStart tag) as k eqn:Hk.
  inversion Hm as [Htag]. clear Hm.
  unfold tag_in_text. cbn [type tagName bracketStart bracketEnd nameStart nameEnd].
  rewrite Hslash.
  split; [exact Hlt|].
  split; [destruct cl; [split; reflexivity|split; [destruct sc; discriminate|discriminate]]|].
  split; [destruct cl; exact Hns|].
  split; [lia|]. split; [lia|]. split; [reflexivity|].
  split.
  { intros j Hj. destruct (Hname j Hj) as [c [Hc Hn]]. rewrite Hc. exact Hn. }
  split; [exact Hgt|].
  assert (Hsc' : sc = true -> ne <= e - 2).
  { intro Ht. rewrite Ht in Hsc. symmetry in Hsc. apply andb_true_iff in Hsc.
    destruct Hsc as [_ Hs].
    destruct (Z.eq_dec (e - 2) (ne - 1)) as [Heq|Hneq]; [|lia].
    exfalso. destruct (Hname (ne - 1) ltac:(lia)) as [c [Hc Hn]].
    rewrite Heq in Hs. apply char_is_true in Hs. rewrite Hs in Hc.
    inversion Hc; subst c. discriminate Hn. }
  split.
  - destruct cl.
    + split; [discriminate|intros [Hc _]; contradiction].
    + cbn [negb andb] in Hsc. rewrite <- Hsc. destruct sc; split; try discriminate.
      * intros _. split; [discriminate|reflexivity].
      * intros _. reflexivity.
      * intros [_ Hf]. discriminate.
  - destruct cl; [discriminate|]. destruct sc; [intros _; apply Hsc'; reflexivity|discriminate].
Qed.

(** What the replay of a list of tags emits comes from its tags. *)
Lemma emitted_single (stack : list text) (tag : TagMatch) :
  exists d, 0 <= d /\ emitted stack [tag] = createTagRanges tag d.
Proof.
  unfold emitted, parse_tags. cbn [fold_left]. unfold parse_tag.
  destruct (type tag); cbn [tagStack ranges app].
  - exists (len stack). split; [apply len_nonneg|].
    destruct (negb (has VOID_ELEMENTS (toLowerCase (tagName tag)))); reflexivity.
  - eexists. split; [|reflexivity]. apply len_nonneg.
  - exists (len stack). split; [apply len_nonneg|reflexivity].
Qed.

Lemma emitted_In (tags : list TagMatch) :
  forall stack r, In r (emitted stack tags) ->
    exists tag d, In tag tags /\ 0 <= d /\ In r (createTagRanges tag d).
Proof.
  induction tags as [|tag tags IH]; intros stack r Hr.
  - destruct Hr.
  - rewrite emitted_cons in Hr. apply in_app_or in Hr. destruct Hr as [Hr|Hr].
    + destruct (emitted_single stack tag) as [d [Hd E]]. rewrite E in Hr.
      exists tag, d. split; [left; reflexivity|]. split; assumption.
    + destruct (IH _ _ Hr) as [tag' [d [Hin [Hd Hc]]]].
      exists tag', d. split; [right; exact Hin|]. split; assumption.
Qed.

Lemma emitted_length (tags : list TagMatch) :
  forall stack, List.length (emitted stack tags) = (3 * List.length tags)%nat.
Proof.
  induction tags as [|tag tags IH]; intro stack; [reflexivity|].
  rewrite emitted_cons, length_app, IH.
  destruct (emitted_single stack tag) as [d [_ E]]. rewrite E.
  unfold createTagRanges. destruct (type tag); cbn [List.length]; lia.
Qed.

Lemma char_is_In (t : text) (i c : Z) : char_is t i c = true -> In c t.
Proof.
  intro H. apply char_is_true in H. unfold char_at in H.
  destruct (i <? 0); [discriminate|]. eapply nth_error_In. exact H.
Qed.

Lemma findAllTags_no_lt (t : text) : ~ In c_lt t -> findAllTags t = [].
Proof.
  intro Hno. rewrite findAllTags_tags_from, tags_from_eq.
  rewrite exec_none; [reflexivity|].
  intros j _. apply tagStart_at_not_lt.
  destruct (char_is t j c_lt) eqn:E; [|reflexivity].
  exfalso. apply Hno. exact (char_is_In _ _ _ E).
Qed.

(** *** No void name is ever pushed *)

Definition no_void (stack : list text) : Prop :=
  Forall (fun s => has VOID_ELEMENTS (toLowerCase s) = false) stack.

Lemma no_void_firstn (stack : list text) (k : nat) : no_void stack -> no_void (firstn k stack).
Proof.
  unfold no_void. revert k. induction stack as [|s stack IH]; intros [|k] H; cbn [firstn];
    try constructor.
  - inversion H; assumption.
  - apply IH. inversion H; assumption.
Qed.

Lemma parse_tag_no_void (st : State) (tag : TagMatch) :
  no_void (tagStack st) -> no_void (tagStack (parse_tag st tag)).
Proof.
  intro H. unfold parse_tag. destruct (type tag); cbn [tagStack].
  - destruct (has VOID_ELEMENTS (toLowerCase (tagName tag))) eqn:E; cbn [negb tagStack];
      [exact H|].
    apply Forall_app. split; [exact H|]. constructor; [exact E|constructor].
  - destruct (negb (findMatchingOpenTag (tagStack st) (tagName tag) =? -1));
      [apply no_void_firstn|]; exact H.
  - exact H.
Qed.

Lemma parse_tags_no_void (tags : list TagMatch) :
  forall st, no_void (tagStack st) -> no_void (tagStack (parse_tags st tags)).
Proof.
  unfold parse_tags. induction tags as [|tag tags IH]; intros st H; cbn [fold_left];
    [exact H|].
  apply IH. apply parse_tag_no_void. exact H.
Qed.

End HtmlMore.

Section HtmlExtras.

Import HtmlFacts Markup MarkupLaws.

Ltac absent :=
  let Hin := fresh "Hin" in
  intro Hin; vm_compute in Hin;
  repeat (destruct Hin as [Hin|Hin]; [discriminate Hin|]); exact Hin.

Ltac document_ok :=
  cbn -[has HtmlParser.VOID_ELEMENTS];
  repeat match goal with
    | |- Forall _ (_ :: _) => apply Forall_cons
    | |- Forall _ [] => apply Forall_nil
    | |- _ /\ _ => split
    | |- True => exact I
    | |- ~ In _ _ => absent
    | |- valid_name _ => vm_compute
    | |- ok_piece _ => cbn [ok_piece]
    | |- ok_item _ => cbn -[has HtmlParser.VOID_ELEMENTS]
    | |- _ = _ => reflexivity
    | |- _ <> _ => discriminate
    | |- _ -> _ <> _ => intros _; discriminate
    | |- _ \/ _ => (left; reflexivity) || (right; reflexivity)
    end.

(** X1.  [HtmlParser.findAllTags] is complete and exact on well-formed
    markup: on the text of any sequence of character data without [<] and
    of tags (opening, closing or self-closing, with a name the tag pattern
    captures whole and attributes whose quoted values hold no [<] and do not
    end in a backslash), it returns exactly the tags of the document, in
    order, each with the offsets of its brackets and of its name.  A [>] in
    a quoted attribute value does not end the tag. *)
Theorem X1_findAllTags_well_formed (items : list Item) :
  Forall ok_item items ->
  HtmlParser.findAllTags (render items) = tag_seq 0 items.
Proof. apply HtmlLex.findAllTags_render. Qed.

Lemma X1_findAllTags_well_formed_witness :
  let items :=
    [ Tag HtmlParser.open (str "a")
        [Plain c_space; Plain 104; Plain c_eq; Quoted c_dquote (str "x>y")];
      Chars (str "t");
      Tag HtmlParser.selfClose (str "br") [];
      Tag HtmlParser.close (str "a") [] ] in
  render items = str "<a h=" ++ [c_dquote] ++ str "x>y" ++ [c_dquote] ++ str ">t<br/></a>" /\
  HtmlParser.findAllTags (render items) =
    [ HtmlParser.mkTag HtmlParser.open (str "a") 0 11 1 2;
      HtmlParser.mkTag HtmlParser.selfClose (str "br") 12 17 13 15;
      HtmlParser.mkTag HtmlParser.close (str "a") 17 21 19 20 ].
Proof.
  intro items. split; [reflexivity|].
  assert (Hok : Forall ok_item items) by (unfold items; document_ok).
  rewrite (X1_findAllTags_well_formed items Hok). reflexivity.
Defined.

(** X2.  Whatever the text, every tag [HtmlParser.findAllTags] returns lies
    in the text: it starts at a [<], it is a closing tag exactly when a [/]
    follows, its name starts right after, is not empty, is made of name
    characters and is the slice of the text between [nameStart] and
    [nameEnd], the tag ends after the name and inside the text at a [>], and
    it is self-closing exactly when it is not closing and a [/] stands
    before that [>], which then comes after the name. *)
Theorem X2_tag_lies_in_text (t : text) (tag : HtmlParser.TagMatch) :
  In tag (HtmlParser.findAllTags t) ->
  let bs := HtmlParser.bracketStart tag in
  let be := HtmlParser.bracketEnd tag in
  let ns := HtmlParser.nameStart tag in
  let ne := HtmlParser.nameEnd tag in
  char_is t bs c_lt = true /\
  (HtmlParser.type tag = HtmlParser.close <-> char_is t (bs + 1) c_slash = true) /\
  ns = bs + (if char_is t (bs + 1) c_slash then 2 else 1) /\
  ns < ne /\ ne < be <= len t /\
  HtmlParser.tagName tag = slice t ns ne /\
  (forall j, ns <= j < ne -> HtmlParser.name_char_at (char_at t j) = true) /\
  char_is t (be - 1) c_gt = true /\
  (HtmlParser.type tag = HtmlParser.selfClose <->
   HtmlParser.type tag <> HtmlParser.close /\ char_is t (be - 2) c_slash = true) /\
  (HtmlParser.type tag = HtmlParser.selfClose -> ne <= be - 2).
Proof. intro Hin. exact (HtmlMore.findAllTags_tag_in_text t tag Hin). Qed.

Lemma X2_tag_lies_in_text_witness :
  let t := str "a <b <i x='>'/> c" in
  let tag := HtmlParser.mkTag HtmlParser.selfClose (str "i") 5 15 6 7 in
  In tag (HtmlParser.findAllTags t) /\
  char_is t 14 c_gt = true /\ char_is t 13 c_slash = true.
Proof.
  intros t tag.
  assert (Hin : In tag (HtmlParser.findAllTags t)) by (vm_compute; left; reflexivity).
  split; [exact Hin|].
  destruct (X2_tag_lies_in_text t tag Hin) as [_ [_ [_ [_ [_ [_ [_ [Hgt [Hsc _]]]]]]]]].
  split; [exact Hgt|]. exact (proj2 (proj1 Hsc eq_refl)).
Defined.

(** X3.  Whatever the text, every range [HtmlParser.parse] returns is a
    span of the text that is not empty: its offsets satisfy
    [0 <= startOffset < endOffset <= text.length]. *)
Theorem X3_html_range_in_text (t : text) (r : ColoredRange) :
  In r (HtmlParser.parse t) ->
  0 <= startOffset r < endOffset r /\ endOffset r <= len t.
Proof.
  intro Hr. rewrite parse_emitted in Hr.
  destruct (HtmlMore.emitted_In _ _ _ Hr) as [tag [d [Hin [_ Hc]]]].
  destruct (HtmlMore.findAllTags_tag_in_text t tag Hin)
    as [Hlt [_ [Hns [Hne [Hbe [_ [_ [_ [_ Hsc]]]]]]]]].
  pose proof (char_is_in_range _ _ _ Hlt) as Hbs.
  assert (Hns' : HtmlParser.bracketStart tag + 1 <= HtmlParser.nameStart tag
                 <= HtmlParser.bracketStart tag + 2)
    by (destruct (char_is t (HtmlParser.bracketStart tag + 1) c_slash); lia).
  unfold HtmlParser.createTagRanges in Hc.
  destruct (HtmlParser.type tag) eqn:Ety; cbn [In] in Hc.
  - destruct Hc as [<-|[<-|[<-|[]]]]; cbn; lia.
  - destruct (HtmlMore.findAllTags_tag_in_text t tag Hin) as [_ [Hcl [Hns2 _]]].
    rewrite (proj1 Hcl Ety) in Hns2.
    destruct Hc as [<-|[<-|[<-|[]]]]; cbn; lia.
  - specialize (Hsc eq_refl).
    destruct Hc as [<-|[<-|[<-|[]]]]; cbn; lia.
Qed.

Lemma X3_html_range_in_text_witness :
  let t := str "<p>a</P" in
  In (mkRange 1 2 0) (HtmlParser.parse t) /\ 0 <= 1 < 2 /\ 2 <= len t.
Proof.
  intro t.
  assert (Hin : In (mkRange 1 2 0) (HtmlParser.parse t))
    by (vm_compute; right; left; reflexivity).
  split; [exact Hin|]. exact (X3_html_range_in_text t (mkRange 1 2 0) Hin).
Defined.

(** X4.  [HtmlParser.parse] returns three ranges for each tag
    [findAllTags] finds, and on a text without [<], the empty text
    included, it returns no range and leaves the stack empty. *)
Theorem X4_html_three_ranges_per_tag (t : text) :
  List.length (HtmlParser.parse t) = (3 * List.length (HtmlParser.findAllTags t))%nat /\
  (~ In c_lt t ->
   HtmlParser.parse_state t = HtmlParser.mkState [] []).
Proof.
  split.
  - rewrite parse_emitted. apply HtmlMore.emitted_length.
  - intro Hno. unfold HtmlParser.parse_state.
    rewrite (HtmlMore.findAllTags_no_lt t Hno). reflexivity.
Qed.

(** X5.  No void element is ever on the tag stack of [HtmlParser.parse],
    so a closing tag with the name of a void element (as in [</br>] or
    [</IMG>]) never pops a frame: whatever tags came before, the stack is
    left as it is and the tag is emitted at its length. *)
Theorem X5_void_closing_tag_pops_nothing (tags : list HtmlParser.TagMatch)
    (tag : HtmlParser.TagMatch) :
  HtmlParser.type tag = HtmlParser.close ->
  has HtmlParser.VOID_ELEMENTS (toLowerCase (HtmlParser.tagName tag)) = true ->
  let st := HtmlParser.parse_tags (HtmlParser.mkState [] []) tags in
  Forall (fun s => has HtmlParser.VOID_ELEMENTS (toLowerCase s) = false)
    (HtmlParser.tagStack st) /\
  HtmlParser.parse_tag st tag =
    HtmlParser.mkState (HtmlParser.tagStack st)
      (HtmlParser.ranges st ++
         HtmlParser.createTagRanges tag (len (HtmlParser.tagStack st))).
Proof.
  intros Hty Hvoid st.
  assert (Hnv : HtmlMore.no_void (HtmlParser.tagStack st))
    by (apply HtmlMore.parse_tags_no_void; constructor).
  split; [exact Hnv|].
  assert (Hno : no_match (HtmlParser.tagStack st) (HtmlParser.tagName tag)).
  { intros j s Hs Hc. unfold closes in Hc.
    unfold HtmlMore.no_void in Hnv. rewrite Forall_forall in Hnv.
    specialize (Hnv s (nth_error_In _ _ Hs)). rewrite Hc in Hnv. congruence. }
  destruct (emitted_close_none _ tag Hty Hno) as [E S].
  destruct st as [stack rs]. cbn [HtmlParser.tagStack HtmlParser.ranges] in *.
  change (HtmlParser.parse_tag (HtmlParser.mkState stack rs) tag)
    with (HtmlParser.parse_tags (HtmlParser.mkState stack rs) [tag]).
  rewrite parse_tags_ranges, E, S. reflexivity.
Qed.

Lemma X5_void_closing_tag_pops_nothing_witness :
  HtmlParser.parse (str "<p><br></BR></p>") =
    [ mkRange 0 1 0; mkRange 1 2 0; mkRange 2 3 0;
      mkRange 3 4 1; mkRange 4 6 1; mkRange 6 7 1;
      mkRange 7 9 1; mkRange 9 11 1; mkRange 11 12 1;
      mkRange 12 14 0; mkRange 14 15 0; mkRange 15 16 0 ].
Proof.
  pose (t := str "<p><br></BR></p>").
  pose (tags := firstn 2 (HtmlParser.findAllTags t)).
  pose (tag := HtmlParser.mkTag HtmlParser.close (str "BR") 7 12 9 11).
  pose (rest := skipn 3 (HtmlParser.findAllTags t)).
  assert (Hsplit : HtmlParser.findAllTags t = tags ++ tag :: rest) by reflexivity.
  destruct (X5_void_closing_tag_pops_nothing tags tag eq_refl eq_refl) as [_ H].
  unfold HtmlParser.parse, HtmlParser.parse_state. fold t. rewrite Hsplit.
  unfold HtmlParser.parse_tags. rewrite fold_left_app. cbn [fold_left].
  fold (HtmlParser.parse_tags (HtmlParser.mkState [] []) tags).
  rewrite H. reflexivity.
Defined.

End HtmlExtras.

(** ** Lists whose elements are related pairwise *)

Lemma ordpairs_snoc {A : Type} (R : A -> A -> Prop) (l : list A) (x : A) :
  ForallOrdPairs R l -> Forall (fun a => R a x) l -> ForallOrdPairs R (l ++ [x]).
Proof.
  induction l as [|a l IH]; intros Hl Hx; cbn [app].
  - constructor; constructor.
  - inversion Hl; subst. inversion Hx; subst. constructor.
    + apply Forall_app. split; [assumption|]. constructor; [assumption|constructor].
    + apply IH; assumption.
Qed.

Lemma ordpairs_app {A : Type} (R : A -> A -> Prop) (l1 l2 : list A) :
  ForallOrdPairs R l1 -> ForallOrdPairs R l2 ->
  (forall a b, In a l1 -> In b l2 -> R a b) ->
  ForallOrdPairs R (l1 ++ l2).
Proof.
  induction l1 as [|a l1 IH]; intros H1 H2 Hc; cbn [app]; [exact H2|].
  inversion H1; subst. constructor.
  - apply Forall_app. split; [assumption|].
    apply Forall_forall. intros b Hb. apply Hc; [left; reflexivity|exact Hb].
  - apply IH; try assumption. intros x y Hx Hy. apply Hc; [right; exact Hx|exact Hy].
Qed.

Lemma ordpairs_map {A B : Type} (R : B -> B -> Prop) (f : A -> B) (l : list A) :
  ForallOrdPairs (fun a b => R (f a) (f b)) l -> ForallOrdPairs R (map f l).
Proof.
  induction 1 as [|a l Ha Hl IH]; cbn [map]; constructor.
  - apply Forall_map. exact Ha.
  - exact IH.
Qed.

Lemma ordpairs_filter {A : Type} (R : A -> A -> Prop) (p : A -> bool) (l : list A) :
  ForallOrdPairs R l -> ForallOrdPairs R (filter p l).
Proof.
  induction 1 as [|a l Ha Hl IH]; cbn [filter]; [constructor|].
  destruct (p a); [|exact IH]. constructor; [|exact IH].
  rewrite Forall_forall in *. intros x Hx. apply Ha. apply filter_In in Hx. apply Hx.
Qed.

Lemma ordpairs_impl {A : Type} (R S : A -> A -> Prop) (l : list A) :
  (forall a b, R a b -> S a b) -> ForallOrdPairs R l -> ForallOrdPairs S l.
Proof.
  intros H. induction 1 as [|a l Ha Hl IH]; constructor; [|exact IH].
  eapply Forall_impl; [|exact Ha]. intros b. apply H.
Qed.

(** ** ObjectParser: what a run records *)

Module ObjectMore.
Import ObjectParser ObjectFacts.

(** An invariant of the iterations made inside the text is an invariant of
    the loop. *)
Lemma loop_invariant (P : State -> Prop) (cfg : Config) (t : text) :
  (forall st st', 0 <= st_i st < len t -> P st -> step cfg t st = Ok st' -> P st') ->
  forall n st st', 0 <= st_i st -> P st -> loop n cfg t st = Ok st' -> P st'.
Proof.
  intros Hstep. induction n as [|n IH]; intros st st' H0 HP H; cbn [loop] in H.
  - inversion H; subst. exact HP.
  - destruct (st_i st <? len t) eqn:E; [|inversion H; subst; exact HP].
    apply Z.ltb_lt in E.
    destruct (step cfg t st) as [st1|] eqn:Es; cbn [bind] in H; [|discriminate].
    pose proof (step_progress cfg t st st1 H0 ltac:(lia) Es).
    apply (IH st1 st'); [lia| |exact H].
    apply (Hstep st st1); [lia|exact HP|exact Es].
Qed.

Lemma computedKey_loop_le (fuel : nat) (t : text) :
  forall pos d, pos <= len t -> computedKey_loop fuel t pos d <= len t.
Proof.
  induction fuel as [|f IH]; intros pos d H; cbn [computedKey_loop]; [exact H|].
  destruct (pos <? len t) eqn:E; cbn [andb]; [|exact H]. apply Z.ltb_lt in E.
  destruct (0 <? d); [|exact H].
  destruct (char_is t pos c_lbrack); [apply IH; lia|].
  destruct (char_is t pos c_rbrack); apply IH; lia.
Qed.

(** A key [matchPropertyKey] finds ends inside the text. *)
Lemma object_matchPropertyKey_le (t : text) (pos s e : Z) :
  matchPropertyKey t pos = Some (s, e) -> e <= len t.
Proof.
  intro H. unfold matchPropertyKey in H.
  set (p0 := scan_fwd (test is_space) t pos) in *.
  destruct (len t <=? p0) eqn:E; [discriminate|]. apply Z.leb_gt in E.
  unfold identifierKey in H.
  destruct (test is_ident_start (char_at t p0)).
  - pose proof (scan_fwd_le (test is_ident_char) t p0 ltac:(lia)) as H1.
    set (p1 := scan_fwd (test is_ident_char) t p0) in *. cbv zeta in H.
    destruct (colon_at t (scan_fwd (test is_space) t p1)).
    { inversion H; subst. exact H1. }
    revert H. generalize (scan_fwd (test is_space) t p1). intros q H.
    unfold stringKey in H.
    destruct (char_is t q c_dquote || char_is t q c_squote) eqn:Eq.
    + cbv zeta in H.
      destruct (_ <? len t) eqn:El in H.
      * apply Z.ltb_lt in El.
        destruct (colon_at t _) in H; [inversion H; subst; lia|].
        unfold computedKey in H. destruct (char_is t _ c_lbrack) eqn:Eb in H; [|discriminate].
        cbv zeta in H. destruct (colon_at t _) in H; [|discriminate].
        inversion H; subst. apply computedKey_loop_le.
        apply char_is_in_range in Eb. lia.
      * unfold computedKey in H. destruct (char_is t _ c_lbrack) eqn:Eb in H; [|discriminate].
        cbv zeta in H. destruct (colon_at t _) in H; [|discriminate].
        inversion H; subst. apply computedKey_loop_le.
        apply char_is_in_range in Eb. lia.
    + unfold computedKey in H. destruct (char_is t q c_lbrack) eqn:Eb; [|discriminate].
      cbv zeta in H. destruct (colon_at t _) in H; [|discriminate].
      inversion H; subst. apply computedKey_loop_le.
      apply char_is_in_range in Eb. lia.
  - unfold stringKey in H.
    destruct (char_is t p0 c_dquote || char_is t p0 c_squote) eqn:Eq.
    + cbv zeta in H.
      destruct (_ <? len t) eqn:El in H.
      * apply Z.ltb_lt in El.
        destruct (colon_at t _) in H; [inversion H; subst; lia|].
        unfold computedKey in H. destruct (char_is t _ c_lbrack) eqn:Eb in H; [|discriminate].
        cbv zeta in H. destruct (colon_at t _) in H; [|discriminate].
        inversion H; subst. apply computedKey_loop_le.
        apply char_is_in_range in Eb. lia.
      * unfold computedKey in H. destruct (char_is t _ c_lbrack) eqn:Eb in H; [|discriminate].
        cbv zeta in H. destruct (colon_at t _) in H; [|discriminate].
        inversion H; subst. apply computedKey_loop_le.
        apply char_is_in_range in Eb. lia.
    + unfold computedKey in H. destruct (char_is t p0 c_lbrack) eqn:Eb; [|discriminate].
      cbv zeta in H. destruct (colon_at t _) in H; [|discriminate].
      inversion H; subst. apply computedKey_loop_le.
      apply char_is_in_range in Eb. lia.
Qed.

(** What one iteration records: nothing, one brace at [i], or one key that
    ends where the scan goes on. *)
Lemma step_shape (cfg : Config) (t : text) (st st' : State) :
  0 <= st_i st < len t -> step cfg t st = Ok st' ->
  (st_braces st' = st_braces st /\ st_propertyKeys st' = st_propertyKeys st) \/
  (exists d, st_braces st' = st_braces st ++ [mkBrace (st_i st) true d] /\
             st_propertyKeys st' = st_propertyKeys st /\ st_i st' = st_i st + 1) \/
  (exists s e d, st_braces st' = st_braces st /\
                 st_propertyKeys st' = st_propertyKeys st ++ [mkKey s e d] /\
                 st_i st <= s < e /\ e = st_i st' /\ e <= len t).
Proof.
  intros Hr H. unfold step in H.
  destruct (char_is t (st_i st) c_slash && (st_i st + 1 <? len t)
            && char_is t (st_i st + 1) c_slash);
    [inversion H; left; split; reflexivity|].
  destruct (char_is t (st_i st) c_slash && (st_i st + 1 <? len t)
            && char_is t (st_i st + 1) c_star);
    [inversion H; left; split; reflexivity|].
  destruct (quote_at t (st_i st)); [inversion H; left; split; reflexivity|].
  destruct (char_is t (st_i st) c_slash && isRegexContext t (st_i st));
    [inversion H; left; split; reflexivity|].
  destruct (char_is t (st_i st) c_lbrace).
  { inversion H; subst. cbn [st_braces st_propertyKeys st_i].
    destruct (isObjectContext t (st_i st)); [|left; split; reflexivity].
    right. left. eexists. repeat split; reflexivity. }
  destruct (char_is t (st_i st) c_rbrace).
  { destruct (hd_error (st_braceStack st)) as [f|]; cbn [and_prop prop bind] in H.
    - destruct (f_isObject f); inversion H; subst; cbn [st_braces st_propertyKeys st_i];
        [|left; split; reflexivity].
      right. left. eexists. repeat split; reflexivity.
    - inversion H; subst. left. split; reflexivity. }
  destruct (colorizeKeys cfg && (0 <? len (st_braceStack st))).
  - destruct (hd_error (st_braceStack st)) as [f|]; cbn [prop bind] in H; [|discriminate].
    destruct (f_isObject f); [|inversion H; left; split; reflexivity].
    destruct (matchPropertyKey t (st_i st)) as [[s e]|] eqn:Ek;
      [|inversion H; left; split; reflexivity].
    inversion H; subst. cbn [st_braces st_propertyKeys st_i].
    pose proof (Progress.object_matchPropertyKey_gt t (st_i st) s e (proj1 Hr) Ek).
    pose proof (object_matchPropertyKey_le t (st_i st) s e Ek).
    right. right. exists s, e, (objectCount (st_braceStack st) - 1).
    repeat split; try reflexivity; lia.
  - cbn [bind] in H. inversion H. left. split; reflexivity.
Qed.

(** The layout of what has been recorded when the scan is at [i]: every
    brace and every key lies in the text before [i], the braces are in the
    order of the text, so are the keys, and no key covers a brace. *)
Definition laid_out (t : text) (st : State) : Prop :=
  Forall (fun b => 0 <= position b /\ position b + 1 <= st_i st /\ position b < len t)
    (st_braces st) /\
  Forall (fun k => 0 <= start k < end_ k /\ end_ k <= st_i st /\ end_ k <= len t)
    (st_propertyKeys st) /\
  ForallOrdPairs (fun a b => position a < position b) (st_braces st) /\
  ForallOrdPairs (fun a b => end_ a <= start b) (st_propertyKeys st) /\
  (forall b k, In b (st_braces st) -> In k (st_propertyKeys st) ->
     position b < start k \/ end_ k <= position b).

Lemma laid_out_step (cfg : Config) (t : text) (st st' : State) :
  0 <= st_i st < len t -> laid_out t st -> step cfg t st = Ok st' -> laid_out t st'.
Proof.
  intros Hr [Hb [Hk [Ob [Ok_ Hx]]]] Hs.
  pose proof (step_progress cfg t st st' (proj1 Hr) ltac:(lia) Hs) as Hp.
  assert (Hb' : Forall (fun b => 0 <= position b /\ position b + 1 <= st_i st' /\
                                 position b < len t) (st_braces st)).
  { eapply Forall_impl; [|exact Hb]. cbv beta. intros b Hb0. lia. }
  assert (Hk' : Forall (fun k => 0 <= start k < end_ k /\ end_ k <= st_i st' /\
                                 end_ k <= len t) (st_propertyKeys st)).
  { eapply Forall_impl; [|exact Hk]. cbv beta. intros k Hk0. lia. }
  rewrite Forall_forall in Hb, Hk.
  destruct (step_shape cfg t st st' Hr Hs)
    as [[Eb Ek]|[[d [Eb [Ek Ei]]]|[s [e [d [Eb [Ek [Hse [He Hl]]]]]]]]];
    unfold laid_out; rewrite Eb, Ek.
  - repeat split; assumption.
  - split; [|split; [|split; [|split]]].
    + apply Forall_app. split; [exact Hb'|]. constructor; [cbn; lia|constructor].
    + exact Hk'.
    + apply ordpairs_snoc; [exact Ob|]. apply Forall_forall. intros a Ha.
      specialize (Hb a Ha). cbn. lia.
    + exact Ok_.
    + intros b k Hin Hkin. apply in_app_or in Hin. destruct Hin as [Hin|[<-|[]]].
      * apply Hx; assumption.
      * specialize (Hk k Hkin). cbn. lia.
  - split; [|split; [|split; [|split]]].
    + exact Hb'.
    + apply Forall_app. split; [exact Hk'|]. constructor; [cbn; lia|constructor].
    + exact Ob.
    + apply ordpairs_snoc; [exact Ok_|]. apply Forall_forall. intros a Ha.
      specialize (Hk a Ha). cbn. lia.
    + intros b k Hin Hkin. apply in_app_or in Hkin. destruct Hkin as [Hkin|[<-|[]]].
      * apply Hx; assumption.
      * specialize (Hb b Hin). cbn. lia.
Qed.

Lemma laid_out_final (cfg : Config) (t : text) (final : State) :
  loop (List.length t) cfg t init = Ok final -> laid_out t final.
Proof.
  apply (loop_invariant (laid_out t) cfg t (laid_out_step cfg t)).
  - cbn. lia.
  - unfold laid_out. cbn [init st_braces st_propertyKeys].
    split; [constructor|]. split; [constructor|]. split; [constructor|].
    split; [constructor|]. intros b k [].
Qed.

(** *** A text without an opening brace *)

Lemma step_no_brace (cfg : Config) (t : text) (st st' : State) :
  ~ In c_lbrace t ->
  st_braceStack st = [] -> step cfg t st = Ok st' ->
  st_braceStack st' = [] /\ st_braces st' = st_braces st /\
  st_propertyKeys st' = st_propertyKeys st.
Proof.
  intros Hno Hs H. unfold step in H.
  assert (Hl : char_is t (st_i st) c_lbrace = false).
  { destruct (char_is t (st_i st) c_lbrace) eqn:E; [|reflexivity].
    exfalso. apply Hno. exact (HtmlMore.char_is_In _ _ _ E). }
  rewrite Hl, Hs in H. cbn [hd_error tl and_prop prop bind len] in H.
  rewrite andb_false_r in H. cbn [bind] in H.
  destruct (char_is t (st_i st) c_slash && (st_i st + 1 <? len t)
            && char_is t (st_i st + 1) c_slash);
    [inversion H; subst; repeat split; assumption|].
  destruct (char_is t (st_i st) c_slash && (st_i st + 1 <? len t)
            && char_is t (st_i st + 1) c_star);
    [inversion H; subst; repeat split; assumption|].
  destruct (quote_at t (st_i st)); [inversion H; subst; repeat split; assumption|].
  destruct (char_is t (st_i st) c_slash && isRegexContext t (st_i st));
    [inversion H; subst; repeat split; assumption|].
  destruct (char_is t (st_i st) c_rbrace); inversion H; subst; repeat split;
    cbn; try assumption; reflexivity.
Qed.

(** *** The depth stored in a frame *)

(** Every frame holds the number of object frames below it. *)
Fixpoint frames_ok (braceStack : list Frame) : Prop :=
  match braceStack with
  | [] => True
  | f :: rest => f_depth f = objectCount rest /\ frames_ok rest
  end.

Lemma frames_ok_step (cfg : Config) (t : text) (st st' : State) :
  frames_ok (st_braceStack st) -> step cfg t st = Ok st' -> frames_ok (st_braceStack st').
Proof.
  intros Hf H. unfold step in H.
  destruct (char_is t (st_i st) c_slash && (st_i st + 1 <? len t)
            && char_is t (st_i st + 1) c_slash); [inversion H; exact Hf|].
  destruct (char_is t (st_i st) c_slash && (st_i st + 1 <? len t)
            && char_is t (st_i st + 1) c_star); [inversion H; exact Hf|].
  destruct (quote_at t (st_i st)); [inversion H; exact Hf|].
  destruct (char_is t (st_i st) c_slash && isRegexContext t (st_i st));
    [inversion H; exact Hf|].
  destruct (char_is t (st_i st) c_lbrace).
  { inversion H; subst. cbn [st_braceStack frames_ok f_depth]. split; [reflexivity|exact Hf]. }
  destruct (char_is t (st_i st) c_rbrace).
  { destruct (st_braceStack st) as [|f rest]; cbn [hd_error tl and_prop prop bind] in H.
    - inversion H; subst. exact I.
    - destruct Hf as [_ Hf]. destruct (f_isObject f); inversion H; subst; exact Hf. }
  destruct (colorizeKeys cfg && (0 <? len (st_braceStack st))).
  - destruct (hd_error (st_braceStack st)) as [f|]; cbn [prop bind] in H; [|discriminate].
    destruct (f_isObject f); [|inversion H; exact Hf].
    destruct (matchPropertyKey t (st_i st)) as [[s e]|]; inversion H; exact Hf.
  - cbn [bind] in H. inversion H. exact Hf.
Qed.

Lemma frames_ok_loop (cfg : Config) (t : text) (n : nat) (st : State) :
  loop n cfg t init = Ok st -> frames_ok (st_braceStack st).
Proof.
  apply (loop_invariant (fun s => frames_ok (st_braceStack s)) cfg t).
  - intros s s' _. apply frames_ok_step.
  - cbn. lia.
  - exact I.
Qed.

Lemma loop_index_nonneg (cfg : Config) (t : text) (n : nat) (st : State) :
  loop n cfg t init = Ok st -> 0 <= st_i st.
Proof.
  intro H. destruct (loop_index cfg t n init st ltac:(cbn; lia) H) as [H0 _]. exact H0.
Qed.

End ObjectMore.

Section ObjectExtras.

Import ObjectParser.

(** Two ranges that share no character. *)
Definition apart (a b : ColoredRange) : Prop :=
  endOffset a <= startOffset b \/ endOffset b <= startOffset a.

(** X6.  Whatever the text and the settings, every range
    [ObjectParser.parse] returns is a span of the text that is not empty:
    [0 <= startOffset < endOffset <= text.length], for the braces and for
    the keys of the three forms (identifier, quoted, computed). *)
Theorem X6_object_range_in_text (cfg : Config) (t : text) (rs : list ColoredRange) :
  parse cfg t = Ok rs ->
  Forall (fun r => 0 <= startOffset r < endOffset r /\ endOffset r <= len t) rs.
Proof.
  intro H. destruct (objectBracesEnabled cfg) eqn:He.
  - destruct (ObjectFacts.loop_ok (List.length t) cfg t init ObjectFacts.inv_init_object)
      as [final [Hf _]].
    rewrite (ObjectFacts.parse_ranges cfg t final He Hf) in H. inversion H; subst rs.
    destruct (ObjectMore.laid_out_final cfg t final Hf) as [Hb [Hk _]].
    apply Forall_app. split.
    + apply Forall_map. apply Forall_forall. intros b Hin. apply filter_In in Hin.
      rewrite Forall_forall in Hb. specialize (Hb b (proj1 Hin)). cbn. lia.
    + destruct (colorizeKeys cfg); [|constructor].
      apply Forall_map. eapply Forall_impl; [|exact Hk]. cbv beta. intros k Hk0. cbn. lia.
  - unfold parse in H. rewrite He in H. inversion H. constructor.
Qed.

Lemma X6_object_range_in_text_witness :
  Forall (fun r => 0 <= startOffset r < endOffset r /\ endOffset r <= 21)
    [mkRange 4 5 0; mkRange 20 21 0; mkRange 6 9 0; mkRange 14 17 0].
Proof.
  exact (X6_object_range_in_text (mkConfig true true) (str "x = { 'a': 1, [b]: 2}")
           [mkRange 4 5 0; mkRange 20 21 0; mkRange 6 9 0; mkRange 14 17 0] eq_refl).
Defined.

(** X7.  The ranges [ObjectParser.parse] returns are pairwise apart: no
    character of the text is covered by two of them, so no brace and no key
    is coloured twice. *)
Theorem X7_object_ranges_apart (cfg : Config) (t : text) (rs : list ColoredRange) :
  parse cfg t = Ok rs -> ForallOrdPairs apart rs.
Proof.
  intro H. destruct (objectBracesEnabled cfg) eqn:He.
  - destruct (ObjectFacts.loop_ok (List.length t) cfg t init ObjectFacts.inv_init_object)
      as [final [Hf _]].
    rewrite (ObjectFacts.parse_ranges cfg t final He Hf) in H. inversion H; subst rs.
    destruct (ObjectMore.laid_out_final cfg t final Hf) as [Hb [Hk [Ob [Ok_ Hx]]]].
    apply ordpairs_app.
    + apply ordpairs_map. apply ordpairs_filter.
      eapply ordpairs_impl; [|exact Ob]. intros a b Hab. cbv beta in Hab.
      unfold apart, createColoredRange. cbn [startOffset endOffset]. lia.
    + destruct (colorizeKeys cfg); [|constructor].
      apply ordpairs_map. eapply ordpairs_impl; [|exact Ok_].
      intros a b Hab. cbv beta in Hab.
      unfold apart, createColoredRange. cbn [startOffset endOffset]. lia.
    + intros a b Ha Hb0. destruct (colorizeKeys cfg); [|destruct Hb0].
      apply in_map_iff in Ha. destruct Ha as [br [<- Hbr]].
      apply in_map_iff in Hb0. destruct Hb0 as [k [<- Hkin]].
      apply filter_In in Hbr. unfold apart, createColoredRange.
      cbn [startOffset endOffset].
      pose proof (Hx br k (proj1 Hbr) Hkin) as Hc.
      rewrite Forall_forall in Hk. specialize (Hk k Hkin). lia.
  - unfold parse in H. rewrite He in H. inversion H. constructor.
Qed.

Lemma X7_object_ranges_apart_witness :
  ForallOrdPairs apart [mkRange 4 5 0; mkRange 11 12 0; mkRange 5 6 0].
Proof.
  exact (X7_object_ranges_apart (mkConfig true true) (str "x = {a: '}'}")
           [mkRange 4 5 0; mkRange 11 12 0; mkRange 5 6 0] eq_refl).
Defined.

(** X8.  On a text without [{], the empty text included,
    [ObjectParser.parse] returns no range, whatever the settings: a [}] has
    nothing to close and no key is looked for outside a brace. *)
Theorem X8_object_no_opening_brace (cfg : Config) (t : text) :
  ~ In c_lbrace t -> parse cfg t = Ok [].
Proof.
  intro Hno. destruct (objectBracesEnabled cfg) eqn:He;
    [|unfold parse; rewrite He; reflexivity].
  destruct (ObjectFacts.loop_ok (List.length t) cfg t init ObjectFacts.inv_init_object)
    as [final [Hf _]].
  rewrite (ObjectFacts.parse_ranges cfg t final He Hf).
  assert (Hempty : st_braceStack final = [] /\ st_braces final = [] /\
                   st_propertyKeys final = []).
  { apply (ObjectMore.loop_invariant
             (fun s => st_braceStack s = [] /\ st_braces s = [] /\ st_propertyKeys s = [])
             cfg t) with (n := List.length t) (st := init); try assumption.
    - intros s s' _ [Hs [Hb Hk]] Hstep.
      destruct (ObjectMore.step_no_brace cfg t s s' Hno Hs Hstep) as [Hs' [Hb' Hk']].
      rewrite Hb', Hk'. repeat split; assumption.
    - cbn. lia.
    - repeat split. }
  destruct Hempty as [_ [Hb Hk]]. rewrite Hb, Hk.
  destruct (colorizeKeys cfg); reflexivity.
Qed.

Lemma X8_object_no_opening_brace_witness :
  parse (mkConfig true true) (str "a: 1 } b: 2 }") = Ok [].
Proof.
  apply X8_object_no_opening_brace.
  intro Hin. vm_compute in Hin.
  repeat (destruct Hin as [Hin|Hin]; [discriminate Hin|]). exact Hin.
Defined.

(** X9.  In [ObjectParser], every frame of the brace stack holds the number
    of object frames below it.  So a [}] the loop scans with an object
    frame on top is recorded at the number of object frames that stay open
    after it, the count its opening brace was recorded at, and [parse]
    returns its range at that depth. *)
Theorem X9_closing_brace_depth (cfg : Config) (t : text) (n : nat) (st : State)
    (f : Frame) (rest : list Frame) :
  loop n cfg t init = Ok st ->
  char_is t (st_i st) c_rbrace = true ->
  st_braceStack st = f :: rest ->
  f_isObject f = true ->
  f_depth f = objectCount rest /\
  step cfg t st =
    Ok (mkState (st_i st + 1) rest
          (st_braces st ++ [mkBrace (st_i st) true (objectCount rest)])
          (st_propertyKeys st)) /\
  (objectBracesEnabled cfg = true ->
   exists rs, parse cfg t = Ok rs /\
              In (mkRange (st_i st) (st_i st + 1) (objectCount rest)) rs).
Proof.
  intros Hn Hc Hs Hobj.
  pose proof (ObjectMore.frames_ok_loop cfg t n st Hn) as Hf.
  rewrite Hs in Hf. destruct Hf as [Hd _].
  assert (Hstep : step cfg t st =
    Ok (mkState (st_i st + 1) rest
          (st_braces st ++ [mkBrace (st_i st) true (objectCount rest)])
          (st_propertyKeys st))).
  { rewrite (ObjectFacts.step_close_brace cfg t st Hc), Hs, Hobj, Hd. reflexivity. }
  split; [exact Hd|]. split; [exact Hstep|]. intro He.
  apply (ObjectFacts.brace_emitted cfg t n st _
           (mkBrace (st_i st) true (objectCount rest)) He Hn
           (proj2 (char_is_in_range _ _ _ Hc)) Hstep); reflexivity.
Qed.

Lemma X9_closing_brace_depth_witness :
  exists rs, parse (mkConfig true true) (str "a = {b: {c: 1}}") = Ok rs /\
             In (mkRange 13 14 1) rs.
Proof.
  destruct (X9_closing_brace_depth (mkConfig true true) (str "a = {b: {c: 1}}") 13
              (mkState 13 [mkFrame true 1; mkFrame true 0]
                 [mkBrace 4 true 0; mkBrace 8 true 1] [mkKey 5 6 0; mkKey 9 10 1])
              (mkFrame true 1) [mkFrame true 0] eq_refl eq_refl eq_refl eq_refl)
    as [_ [_ H]].
  exact (H eq_refl).
Defined.

(** X10.  A property key is recorded by [ObjectParser] only while the
    innermost open brace is an object literal, with key colouring on, and
    at the depth of that brace: a key has the colour of the braces of the
    object it belongs to. *)
Theorem X10_key_depth (cfg : Config) (t : text) (n : nat) (st st1 : State)
    (k : PropertyKeyMatch) :
  loop n cfg t init = Ok st ->
  step cfg t st = Ok st1 ->
  st_propertyKeys st1 = st_propertyKeys st ++ [k] ->
  colorizeKeys cfg = true /\
  exists f rest,
    st_braceStack st = f :: rest /\ f_isObject f = true /\
    k_depth k = f_depth f /\ k_depth k = objectCount rest /\
    matchPropertyKey t (st_i st) = Some (start k, end_ k) /\
    st1 = mkState (end_ k) (st_braceStack st) (st_braces st) (st_propertyKeys st ++ [k]).
Proof.
  intros Hn Hs Hk.
  pose proof (ObjectMore.frames_ok_loop cfg t n st Hn) as Hf.
  assert (Hsame : forall s', st_propertyKeys s' = st_propertyKeys st ->
                             st_propertyKeys s' <> st_propertyKeys st ++ [k]).
  { intros s' E1 E2. rewrite E1 in E2.
    apply (f_equal (@List.length _)) in E2. rewrite length_app in E2. cbn in E2. lia. }
  unfold step in Hs.
  destruct (char_is t (st_i st) c_slash && (st_i st + 1 <? len t)
            && char_is t (st_i st + 1) c_slash);
    [inversion Hs; subst; exfalso; exact (Hsame _ eq_refl Hk)|].
  destruct (char_is t (st_i st) c_slash && (st_i st + 1 <? len t)
            && char_is t (st_i st + 1) c_star);
    [inversion Hs; subst; exfalso; exact (Hsame _ eq_refl Hk)|].
  destruct (quote_at t (st_i st));
    [inversion Hs; subst; exfalso; exact (Hsame _ eq_refl Hk)|].
  destruct (char_is t (st_i st) c_slash && isRegexContext t (st_i st));
    [inversion Hs; subst; exfalso; exact (Hsame _ eq_refl Hk)|].
  destruct (char_is t (st_i st) c_lbrace);
    [inversion Hs; subst; exfalso; exact (Hsame _ eq_refl Hk)|].
  destruct (char_is t (st_i st) c_rbrace).
  { destruct (hd_error (st_braceStack st)) as [f|]; cbn [and_prop prop bind] in Hs.
    - destruct (f_isObject f); inversion Hs; subst; exfalso; exact (Hsame _ eq_refl Hk).
    - inversion Hs; subst. exfalso. exact (Hsame _ eq_refl Hk). }
  destruct (colorizeKeys cfg) eqn:Ec; cbn [andb] in Hs;
    [|cbn [bind] in Hs; inversion Hs; subst; exfalso; exact (Hsame _ eq_refl Hk)].
  destruct (0 <? len (st_braceStack st));
    [|cbn [bind] in Hs; inversion Hs; subst; exfalso; exact (Hsame _ eq_refl Hk)].
  destruct (st_braceStack st) as [|f rest] eqn:Estack; cbn [hd_error prop bind] in Hs;
    [discriminate|].
  destruct (f_isObject f) eqn:Eo;
    [|inversion Hs; subst; exfalso; exact (Hsame _ eq_refl Hk)].
  destruct (matchPropertyKey t (st_i st)) as [[s e]|] eqn:Em;
    [|inversion Hs; subst; exfalso; exact (Hsame _ eq_refl Hk)].
  inversion Hs; subst st1. cbn [st_propertyKeys] in Hk.
  apply app_inv_head in Hk. inversion Hk; subst k. clear Hk.
  cbn [k_depth start end_]. destruct Hf as [Hd _].
  assert (Hcount : objectCount (f :: rest) - 1 = objectCount rest).
  { unfold objectCount. cbn [filter]. rewrite Eo, len_cons. lia. }
  split; [reflexivity|]. exists f, rest.
  split; [reflexivity|]. split; [exact Eo|].
  split; [rewrite Hcount; symmetry; exact Hd|]. split; [exact Hcount|].
  split; reflexivity.
Qed.

Lemma X10_key_depth_witness :
  colorizeKeys (mkConfig true true) = true /\
  exists f rest,
    [mkFrame true 1; mkFrame true 0] = f :: rest /\ f_isObject f = true /\
    1 = f_depth f /\ 1 = objectCount rest /\
    matchPropertyKey (str "a = {b: {c: 1}}") 9 = Some (9, 10) /\
    mkState 10 [mkFrame true 1; mkFrame true 0] [mkBrace 4 true 0; mkBrace 8 true 1]
      [mkKey 5 6 0; mkKey 9 10 1] =
    mkState 10 [mkFrame true 1; mkFrame true 0] [mkBrace 4 true 0; mkBrace 8 true 1]
      ([mkKey 5 6 0] ++ [mkKey 9 10 1]).
Proof.
  exact (X10_key_depth (mkConfig true true) (str "a = {b: {c: 1}}") 9
           (mkState 9 [mkFrame true 1; mkFrame true 0]
              [mkBrace 4 true 0; mkBrace 8 true 1] [mkKey 5 6 0])
           (mkState 10 [mkFrame true 1; mkFrame true 0]
              [mkBrace 4 true 0; mkBrace 8 true 1] [mkKey 5 6 0; mkKey 9 10 1])
           (mkKey 9 10 1) eq_refl eq_refl eq_refl).
Defined.

End ObjectExtras.

(** ** The skipping functions *)

Module SkipFacts.
Import Markup HtmlLex.

(** *** The copies in [JsxParser] against those of [ObjectParser] *)

Lemma skipBlockComment_loop_same (fuel : nat) (t : text) (pos : Z) :
  JsxParser.skipBlockComment_loop fuel t pos = ObjectParser.skipBlockComment_loop fuel t pos.
Proof.
  revert pos. induction fuel as [|f IH]; intro pos;
    cbn [JsxParser.skipBlockComment_loop ObjectParser.skipBlockComment_loop]; [reflexivity|].
  rewrite IH. reflexivity.
Qed.

Lemma skipString_loop_quoted (fuel : nat) (t : text) (quote : Z) :
  (quote =? c_backtick) = false ->
  forall pos, JsxParser.skipString_loop fuel t pos quote =
              ObjectParser.skipQuoted_loop fuel t pos quote.
Proof.
  intro Hq. induction fuel as [|f IH]; intro pos;
    cbn [JsxParser.skipString_loop ObjectParser.skipQuoted_loop]; [reflexivity|].
  rewrite Hq. cbn [andb negb]. rewrite !IH. reflexivity.
Qed.

(** Without [${] in the text the two template loops make the same steps. *)
Lemma skipString_loop_template (fuel : nat) (t : text) :
  (forall j, char_is t j c_dollar = true -> char_is t (j + 1) c_lbrace = false) ->
  forall pos, JsxParser.skipString_loop fuel t pos c_backtick =
              ObjectParser.skipTemplate_loop fuel t pos.
Proof.
  intro Hno. induction fuel as [|f IH]; intro pos;
    cbn [JsxParser.skipString_loop ObjectParser.skipTemplate_loop]; [reflexivity|].
  change (c_backtick =? c_backtick) with true. cbn [andb negb].
  rewrite andb_false_r.
  assert (Hd : char_is t pos c_dollar && char_is t (pos + 1) c_lbrace = false).
  { destruct (char_is t pos c_dollar) eqn:E; [|reflexivity]. cbn [andb]. apply Hno. exact E. }
  rewrite Hd, !IH. reflexivity.
Qed.

(** *** Strings with escapes *)

(** A character of a string literal: written as it is, or after a
    backslash. *)
Inductive StrPiece : Type :=
  | Lit (c : Z)
  | Esc (c : Z).

Definition render_str_piece (p : StrPiece) : text :=
  match p with
  | Lit c => [c]
  | Esc c => [c_backslash; c]
  end.

Definition render_str (body : list StrPiece) : text := flat_map render_str_piece body.

(** A character written as it is is no backslash, no closing quote and no
    line end. *)
Definition plain_in (quote : Z) (p : StrPiece) : Prop :=
  match p with
  | Lit c => c <> c_backslash /\ c <> quote /\ c <> c_nl
  | Esc _ => True
  end.

Definition skipQuoted_from (t : text) (pos quote : Z) : Z :=
  ObjectParser.skipQuoted_loop (Z.to_nat (len t - pos)) t pos quote.

(** The equation of the loop of [skipString] on a quoted string. *)
Lemma skipQuoted_from_eq (t : text) (pos quote : Z) :
  skipQuoted_from t pos quote =
  if pos <? len t then
    if char_is t pos c_backslash then skipQuoted_from t (pos + 2) quote
    else if char_is t pos quote then pos + 1
    else if char_is t pos c_nl && negb (quote =? c_backtick) then pos
    else skipQuoted_from t (pos + 1) quote
  else pos.
Proof.
  unfold skipQuoted_from. destruct (pos <? len t) eqn:E.
  - apply Z.ltb_lt in E.
    replace (Z.to_nat (len t - pos)) with (S (Z.to_nat (len t - pos - 1))) by lia.
    cbn [ObjectParser.skipQuoted_loop]. apply Z.ltb_lt in E. rewrite E. apply Z.ltb_lt in E.
    destruct (char_is t pos c_backslash).
    { apply Fuel.skipQuoted_loop_fuel; lia. }
    destruct (char_is t pos quote); [reflexivity|].
    destruct (char_is t pos c_nl && negb (quote =? c_backtick)); [reflexivity|].
    apply Fuel.skipQuoted_loop_fuel; lia.
  - apply Z.ltb_ge in E. replace (Z.to_nat (len t - pos)) with O by lia. reflexivity.
Qed.

Lemma skipQuoted_from_body (t : text) (quote : Z) (body : list StrPiece) :
  Forall (plain_in quote) body ->
  forall pos rest, text_at t pos (render_str body ++ rest) ->
    skipQuoted_from t pos quote = skipQuoted_from t (pos + len (render_str body)) quote.
Proof.
  induction 1 as [|p body Hp Hbody IH]; intros pos rest Ht.
  - change (render_str []) with (@nil Z). rewrite len_nil, Z.add_0_r. reflexivity.
  - change (render_str (p :: body)) with (render_str_piece p ++ render_str body) in *.
    rewrite <- app_assoc in Ht. rewrite len_app.
    pose proof (text_at_end _ _ _ Ht) as Hend. rewrite len_app in Hend.
    destruct p as [c|c]; cbn [render_str_piece app] in Ht.
    + apply text_at_cons in Ht. destruct Ht as [Hc Ht]. cbn [plain_in] in Hp.
      rewrite skipQuoted_from_eq.
      pose proof (char_at_Some _ _ _ Hc) as Hr.
      replace (pos <? len t) with true by (symmetry; apply Z.ltb_lt; lia).
      rewrite !(char_is_of_char_at t pos c _ Hc).
      replace (c =? c_backslash) with false by (symmetry; apply Z.eqb_neq; tauto).
      replace (c =? quote) with false by (symmetry; apply Z.eqb_neq; tauto).
      replace (c =? c_nl) with false by (symmetry; apply Z.eqb_neq; tauto).
      cbn [andb]. rewrite (IH _ _ Ht). f_equal. cbn [render_str_piece].
      rewrite len_cons, len_nil. lia.
    + apply text_at_cons in Ht. destruct Ht as [Hc Ht].
      apply text_at_cons in Ht. destruct Ht as [_ Ht].
      rewrite skipQuoted_from_eq.
      pose proof (char_at_Some _ _ _ Hc) as Hr.
      replace (pos <? len t) with true by (symmetry; apply Z.ltb_lt; lia).
      rewrite (proj2 (char_is_true t pos c_backslash) Hc).
      replace (pos + 2) with (pos + 1 + 1) by lia. rewrite (IH _ _ Ht). f_equal.
      cbn [render_str_piece]. rewrite !len_cons, len_nil. lia.
Qed.

(** *** Comments *)

Definition comment_end_at (t : text) (j : Z) : Prop :=
  char_is t j c_star = true /\ char_is t (j + 1) c_slash = true.

Lemma skipBlockComment_loop_spec (t : text) (fuel : nat) :
  forall p, len t - p <= Z.of_nat fuel ->
    let r := ObjectParser.skipBlockComment_loop fuel t p in
    (exists k, p <= k /\ r = k + 2 /\ r <= len t /\ comment_end_at t k /\
               forall j, p <= j < k -> ~ comment_end_at t j) \/
    (r = len t /\ forall j, p <= j -> ~ comment_end_at t j).
Proof.
  induction fuel as [|f IH]; intros p Hf; cbn [ObjectParser.skipBlockComment_loop]; cbv zeta.
  - right. split; [reflexivity|]. intros j Hj [_ Hs].
    apply char_is_in_range in Hs. lia.
  - destruct (p <? len t - 1) eqn:E.
    + apply Z.ltb_lt in E.
      destruct (char_is t p c_star && char_is t (p + 1) c_slash) eqn:Ec.
      * apply andb_true_iff in Ec. left. exists p.
        split; [lia|]. split; [reflexivity|]. split; [lia|]. split; [exact Ec|].
        intros j Hj. lia.
      * destruct (IH (p + 1) ltac:(lia)) as [[k [Hk [Hr [Hle [He Hno]]]]]|[Hr Hno]].
        -- left. exists k. split; [lia|]. split; [exact Hr|]. split; [exact Hle|].
           split; [exact He|]. intros j Hj.
           destruct (Z.eq_dec j p) as [->|Hne]; [|apply Hno; lia].
           intros [H1 H2]. rewrite H1, H2 in Ec. discriminate.
        -- right. split; [exact Hr|]. intros j Hj.
           destruct (Z.eq_dec j p) as [->|Hne]; [|apply Hno; lia].
           intros [H1 H2]. rewrite H1, H2 in Ec. discriminate.
    + apply Z.ltb_ge in E. right. split; [reflexivity|]. intros j Hj [_ Hs].
      apply char_is_in_range in Hs. lia.
Qed.

End SkipFacts.

Section SkipExtras.

Import Markup SkipFacts.

(** X11.  The skipping functions [JsxParser] repeats are those of
    [ObjectParser]: [skipToEndOfLine] and [skipBlockComment] agree on every
    input, and [skipString] agrees on every string in single or double
    quotes and on every template literal of a text without [${]; the two
    differ only inside an interpolation. *)
Theorem X11_skipping_agrees (t : text) (pos quote : Z) :
  JsxParser.skipToEndOfLine t pos = ObjectParser.skipToEndOfLine t pos /\
  JsxParser.skipBlockComment t pos = ObjectParser.skipBlockComment t pos /\
  (quote <> c_backtick \/
   (forall j, char_is t j c_dollar = true -> char_is t (j + 1) c_lbrace = false) ->
   JsxParser.skipString t pos quote = ObjectParser.skipString t pos quote).
Proof.
  split; [reflexivity|]. split; [apply skipBlockComment_loop_same|].
  intro H. unfold JsxParser.skipString, ObjectParser.skipString.
  destruct (quote =? c_backtick) eqn:Eq.
  - apply Z.eqb_eq in Eq. subst quote. destruct H as [H|H]; [contradiction|].
    apply skipString_loop_template. exact H.
  - apply skipString_loop_quoted. exact Eq.
Qed.

(** X12.  [skipString] on a string in single or double quotes, in both
    parsers: the characters of the string are taken one at a time, a
    backslash with the character after it, so an escaped quote or an
    escaped line end does not end the string.  The string ends after the
    first quote that is not escaped; a line end that is not escaped ends it
    at the line end, which is not consumed.  A string the text ends in
    ends at the end of the text when the text ends after a character or
    after an escaped character, and one offset past the end of the text
    when the last character of the text is the backslash of an escape: the
    loop adds 2 at a backslash without looking at what follows. *)
Theorem X12_skipString_quoted (t : text) (pos quote : Z) (body : list StrPiece) :
  quote = c_dquote \/ quote = c_squote ->
  Forall (plain_in quote) body ->
  let after := pos + 1 + len (render_str body) in
  (text_at t pos (quote :: render_str body ++ [quote]) ->
   ObjectParser.skipString t pos quote = after + 1) /\
  (text_at t pos (quote :: render_str body ++ [c_nl]) ->
   ObjectParser.skipString t pos quote = after) /\
  (text_at t pos (quote :: render_str body) -> after = len t ->
   ObjectParser.skipString t pos quote = len t) /\
  (text_at t pos (quote :: render_str body ++ [c_backslash]) -> after + 1 = len t ->
   ObjectParser.skipString t pos quote = len t + 1) /\
  JsxParser.skipString t pos quote = ObjectParser.skipString t pos quote.
Proof.
  intros Hq Hbody after.
  assert (Hnb : (quote =? c_backtick) = false) by (destruct Hq; subst; reflexivity).
  assert (Hskip : forall stop, text_at t pos (quote :: render_str body ++ stop) ->
            ObjectParser.skipString t pos quote = skipQuoted_from t after quote).
  { intros stop Ht. apply HtmlLex.text_at_cons in Ht. destruct Ht as [_ Ht].
    unfold ObjectParser.skipString. rewrite Hnb.
    replace (Z.to_nat (len t - (pos + 1))) with (Z.to_nat (len t - (pos + 1))) by reflexivity.
    fold (skipQuoted_from t (pos + 1) quote).
    rewrite (skipQuoted_from_body t quote body Hbody (pos + 1) stop Ht). reflexivity. }
  assert (Hstop : forall c, text_at t pos (quote :: render_str body ++ [c]) ->
            char_at t after = Some c /\ after < len t).
  { intros c Ht. apply HtmlLex.text_at_cons in Ht. destruct Ht as [_ Ht].
    apply HtmlLex.text_at_app in Ht. destruct Ht as [_ Ht].
    apply HtmlLex.text_at_cons in Ht. destruct Ht as [Hc _].
    split; [exact Hc|]. apply char_at_Some in Hc. lia. }
  split; [|split; [|split; [|split]]].
  - intro Ht. rewrite (Hskip _ Ht). destruct (Hstop _ Ht) as [Hc Hlt].
    rewrite skipQuoted_from_eq.
    replace (after <? len t) with true by (symmetry; apply Z.ltb_lt; lia).
    rewrite !(HtmlLex.char_is_of_char_at t after quote _ Hc).
    replace (quote =? c_backslash) with false by (destruct Hq; subst; reflexivity).
    rewrite Z.eqb_refl. reflexivity.
  - intro Ht. rewrite (Hskip _ Ht). destruct (Hstop _ Ht) as [Hc Hlt].
    rewrite skipQuoted_from_eq.
    replace (after <? len t) with true by (symmetry; apply Z.ltb_lt; lia).
    rewrite !(HtmlLex.char_is_of_char_at t after c_nl _ Hc).
    replace (c_nl =? quote) with false by (destruct Hq; subst; reflexivity).
    rewrite Hnb. reflexivity.
  - intros Ht Hend. rewrite <- (app_nil_r (render_str body)) in Ht.
    rewrite (Hskip _ Ht). rewrite skipQuoted_from_eq, Hend, Z.ltb_irrefl. reflexivity.
  - intros Ht Hend. rewrite (Hskip _ Ht). destruct (Hstop _ Ht) as [Hc Hlt].
    rewrite skipQuoted_from_eq.
    replace (after <? len t) with true by (symmetry; apply Z.ltb_lt; lia).
    rewrite (proj2 (char_is_true t after c_backslash) Hc).
    rewrite skipQuoted_from_eq.
    replace (after + 2 <? len t) with false by (symmetry; apply Z.ltb_ge; lia).
    lia.
  - unfold JsxParser.skipString, ObjectParser.skipString. rewrite Hnb.
    apply skipString_loop_quoted. exact Hnb.
Qed.

Lemma X12_skipString_quoted_witness :
  let t := str "s = 'it\'s'; t = {a: 1}" in
  let u := str "s = 'a" ++ [c_backslash] in
  (ObjectParser.skipString t 4 c_squote = 11 /\ JsxParser.skipString t 4 c_squote = 11) /\
  (len u = 7 /\ ObjectParser.skipString u 4 c_squote = 8).
Proof.
  intros t u. split.
  - assert (Hbody : Forall (plain_in c_squote) [Lit 105; Lit 116; Esc c_squote; Lit 115])
      by (repeat constructor; discriminate).
    assert (Ht : text_at t 4
                   (c_squote :: render_str [Lit 105; Lit 116; Esc c_squote; Lit 115]
                      ++ [c_squote])).
    { split; [vm_compute; split; discriminate|]. intros j c Hj.
      do 7 (destruct j as [|j]; [inversion Hj; reflexivity|]). destruct j; discriminate. }
    destruct (X12_skipString_quoted t 4 c_squote _ (or_intror eq_refl) Hbody)
      as [H [_ [_ [_ HJ]]]].
    rewrite HJ. split; exact (H Ht).
  - split; [reflexivity|].
    assert (Hbody : Forall (plain_in c_squote) [Lit 97])
      by (repeat constructor; discriminate).
    assert (Hu : text_at u 4 (c_squote :: render_str [Lit 97] ++ [c_backslash])).
    { split; [vm_compute; split; discriminate|]. intros j c Hj.
      do 3 (destruct j as [|j]; [inversion Hj; reflexivity|]). destruct j; discriminate. }
    destruct (X12_skipString_quoted u 4 c_squote _ (or_intror eq_refl) Hbody)
      as [_ [_ [_ [H _]]]].
    exact (H Hu eq_refl).
Defined.

(** X13.  What the two comment skippers return.  [skipToEndOfLine] returns
    the offset after the first line end at or after [pos] (one more than the
    length of the text when there is none), and nothing before that offset
    is a line end.  [skipBlockComment] returns the offset after the first
    [*/] that starts at or after [pos + 2], so the [*] of the opening [/*]
    closes nothing, and the length of the text when there is none. *)
Theorem X13_comment_skipping (t : text) (pos : Z) :
  0 <= pos <= len t ->
  (let r := ObjectParser.skipToEndOfLine t pos in
   pos < r <= len t + 1 /\
   (forall j, pos <= j < r - 1 -> char_is t j c_nl = false) /\
   (r <= len t -> char_is t (r - 1) c_nl = true)) /\
  (let r := ObjectParser.skipBlockComment t pos in
   (exists k, pos + 2 <= k /\ r = k + 2 /\ r <= len t /\ comment_end_at t k /\
              forall j, pos + 2 <= j < k -> ~ comment_end_at t j) \/
   (r = len t /\ forall j, pos + 2 <= j -> ~ comment_end_at t j)).
Proof.
  intro Hpos. split.
  - cbv zeta. unfold ObjectParser.skipToEndOfLine.
    set (p := fun o => negb (is_char c_nl o)).
    pose proof (scan_fwd_ge p t pos) as Hge.
    pose proof (scan_fwd_le p t pos (proj2 Hpos)) as Hle.
    split; [lia|]. split.
    + intros j Hj. pose proof (scan_fwd_run p t pos j ltac:(lia)) as Hrun.
      unfold char_is. destruct (char_at t j); [|reflexivity].
      unfold p, is_char in Hrun. apply negb_true_iff in Hrun. exact Hrun.
    + intro Hr. pose proof (scan_fwd_stop p t pos ltac:(lia)) as Hstop.
      replace (scan_fwd p t pos + 1 - 1) with (scan_fwd p t pos) by lia.
      unfold char_is. destruct (char_at t (scan_fwd p t pos)) eqn:E.
      * unfold p, is_char in Hstop. apply negb_false_iff in Hstop. exact Hstop.
      * apply char_at_None in E. lia.
  - cbv zeta. unfold ObjectParser.skipBlockComment.
    apply (skipBlockComment_loop_spec t (Z.to_nat (len t - (pos + 2))) (pos + 2)). lia.
Qed.

Lemma X13_comment_skipping_witness :
  let t := str "/*/ a */ b" in
  ObjectParser.skipBlockComment t 0 = 8 /\
  (forall j, 2 <= j < 6 -> ~ comment_end_at t j).
Proof.
  intro t.
  destruct (X13_comment_skipping t 0 ltac:(vm_compute; split; discriminate)) as [_ [[k [Hk [Hr [_ [_ Hno]]]]]|[Hr _]]].
  - assert (E : ObjectParser.skipBlockComment t 0 = 8) by reflexivity.
    split; [exact E|]. intros j Hj. apply Hno. lia.
  - exfalso. assert (E : ObjectParser.skipBlockComment t 0 = 8) by reflexivity.
    rewrite E in Hr. vm_compute in Hr. discriminate Hr.
Defined.

End SkipExtras.

(** ** JsxParser: what a run of [tokenize] emits *)

Module JsxMore.
Import JsxParser.

(** An invariant of the loop body is an invariant of the loop. *)
Lemma tokenize_loop_invariant (P : State -> Prop) (cfg : Config) (t : text) :
  (forall st, 0 <= st_i st < len t -> P st -> P (tokenize_step cfg t st)) ->
  forall n st, 0 <= st_i st -> P st -> P (tokenize_loop n cfg t st).
Proof.
  intro Hstep. induction n as [|n IH]; intros st H0 HP; cbn [tokenize_loop]; [exact HP|].
  destruct (st_i st <? len t) eqn:E; [|exact HP]. apply Z.ltb_lt in E.
  pose proof (JsxRun.tokenize_step_progress cfg t st H0).
  apply IH; [lia|]. apply Hstep; [lia|exact HP].
Qed.

Lemma jsx_name_start (c : Z) : is_alpha_ c = true -> is_jsx_name_char c = true.
Proof.
  unfold is_alpha_, is_jsx_name_char. intro H. apply orb_true_iff in H.
  destruct H as [H|H]; rewrite H; rewrite ?orb_true_r; reflexivity.
Qed.

(** What [parseClosingTag] returns. *)
Lemma parseClosingTag_Some (t : text) (pos : Z) (closeTag : CloseTag) :
  parseClosingTag t pos = Some closeTag ->
  char_is t pos c_lt = true /\ char_is t (pos + 1) c_slash = true /\
  pos + 2 <= c_nameStart closeTag /\ c_nameStart closeTag < c_nameEnd closeTag /\
  c_nameEnd closeTag < c_end closeTag <= len t /\
  c_tagName closeTag = slice t (c_nameStart closeTag) (c_nameEnd closeTag) /\
  (forall j, pos + 2 <= j < c_nameStart closeTag -> test is_space (char_at t j) = true) /\
  test is_alpha_ (char_at t (c_nameStart closeTag)) = true /\
  (forall j, c_nameStart closeTag <= j < c_nameEnd closeTag ->
     test is_jsx_name_char (char_at t j) = true) /\
  (forall j, c_nameEnd closeTag <= j < c_end closeTag - 1 ->
     test is_space (char_at t j) = true) /\
  char_is t (c_end closeTag - 1) c_gt = true.
Proof.
  unfold parseClosingTag. intro H.
  destruct (char_is t pos c_lt) eqn:Elt; cbn [negb orb] in H; [|discriminate].
  destruct (char_is t (pos + 1) c_slash) eqn:Esl; cbn [negb] in H; [|discriminate].
  cbv zeta in H.
  pose proof (scan_fwd_ge (test is_space) t (pos + 2)) as H1.
  pose proof (scan_fwd_run (test is_space) t (pos + 2)) as R1.
  set (i1 := scan_fwd (test is_space) t (pos + 2)) in *.
  destruct (test is_alpha_ (char_at t i1)) eqn:Ea; cbn [negb] in H; [|discriminate].
  pose proof (scan_fwd_ge (test is_jsx_name_char) t i1) as H2.
  pose proof (scan_fwd_run (test is_jsx_name_char) t i1) as R2.
  set (i2 := scan_fwd (test is_jsx_name_char) t i1) in *.
  pose proof (scan_fwd_ge (test is_space) t i2) as H3.
  pose proof (scan_fwd_run (test is_space) t i2) as R3.
  set (i3 := scan_fwd (test is_space) t i2) in *.
  destruct (char_is t i3 c_gt) eqn:Eg; cbn [negb] in H; [|discriminate].
  pose proof (char_is_in_range _ _ _ Eg) as Hi3.
  pose proof (char_is_in_range _ _ _ Elt) as Hpos.
  assert (Hname : i1 < i2).
  { destruct (char_at_in_range t i1 ltac:(lia)) as [c Hc].
    pose proof (Progress.scan_fwd_step (test is_jsx_name_char) t i1 ltac:(lia)) as Hs.
    rewrite Hc in Hs, Ea. cbn [test] in Hs, Ea. specialize (Hs (jsx_name_start c Ea)).
    fold i2 in Hs. lia. }
  inversion H; subst closeTag.
  cbn [c_tagName c_nameStart c_nameEnd c_end].
  replace (i3 + 1 - 1) with i3 by lia.
  repeat split; try assumption; try lia.
Qed.

(** What [parseOpeningTag] returns. *)
Lemma parseOpeningTag_loop_Some (fuel : nat) (t : text) :
  forall i inString stringChar e selfClosing,
    parseOpeningTag_loop fuel t i inString stringChar = Some (e, selfClosing) ->
    e <= len t /\ char_is t (e - 1) c_gt = true /\
    (selfClosing = true -> char_is t (e - 2) c_slash = true).
Proof.
  induction fuel as [|f IH]; intros i b q e sc H; cbn [parseOpeningTag_loop] in H;
    [discriminate|].
  destruct (i <? len t) eqn:E; [|discriminate]. apply Z.ltb_lt in E. cbv zeta in H.
  destruct b.
  - destruct (_ && _) in H; apply IH in H; exact H.
  - destruct (char_is t i c_dquote || char_is t i c_squote || char_is t i c_lbrace).
    + destruct (char_is t i c_lbrace); apply IH in H; exact H.
    + destruct (char_is t i c_slash && char_is t (i + 1) c_gt) eqn:Es.
      { inversion H; subst. apply andb_true_iff in Es. destruct Es as [Es Eg].
        replace (i + 2 - 1) with (i + 1) by lia. replace (i + 2 - 2) with i by lia.
        pose proof (char_is_in_range _ _ _ Eg). split; [lia|]. split; [exact Eg|].
        intros _. exact Es. }
      destruct (char_is t i c_gt) eqn:Eg.
      { inversion H; subst. replace (i + 1 - 1) with i by lia.
        split; [lia|]. split; [exact Eg|discriminate]. }
      destruct (char_is t i c_lt); [discriminate|].
      apply IH in H. exact H.
Qed.

Lemma parseOpeningTag_Some (t : text) (pos : Z) (openTag : OpenTag) :
  parseOpeningTag t pos = Some openTag ->
  char_is t pos c_lt = true /\
  o_nameStart openTag = pos + 1 /\ o_nameStart openTag < o_nameEnd openTag /\
  o_nameEnd openTag < o_end openTag <= len t /\
  o_tagName openTag = slice t (o_nameStart openTag) (o_nameEnd openTag) /\
  test is_alpha_ (char_at t (o_nameStart openTag)) = true /\
  (forall j, o_nameStart openTag <= j < o_nameEnd openTag ->
     test is_jsx_name_char (char_at t j) = true) /\
  char_is t (o_end openTag - 1) c_gt = true /\
  (o_selfClosing openTag = true ->
   char_is t (o_end openTag - 2) c_slash = true /\ o_nameEnd openTag + 2 <= o_end openTag).
Proof.
  unfold parseOpeningTag. intro H.
  destruct (char_is t pos c_lt) eqn:Elt; cbn [negb] in H; [|discriminate].
  destruct (test is_alpha_ (char_at t (pos + 1))) eqn:Ea; cbn [negb] in H; [|discriminate].
  cbv zeta in H.
  pose proof (scan_fwd_ge (test is_jsx_name_char) t (pos + 1)) as H2.
  pose proof (scan_fwd_run (test is_jsx_name_char) t (pos + 1)) as R2.
  set (ne := scan_fwd (test is_jsx_name_char) t (pos + 1)) in *.
  destruct (parseOpeningTag_loop _ t ne false None) as [[e sc]|] eqn:El; [|discriminate].
  pose proof (JsxRun.parseOpeningTag_loop_bounds _ _ _ _ _ _ _ El) as [Hlt Hsc].
  pose proof (parseOpeningTag_loop_Some _ _ _ _ _ _ _ El) as [Hle [Hgt Hsl]].
  assert (Hname : pos + 1 < ne).
  { destruct (char_at_in_range t (pos + 1)) as [c Hc].
    { pose proof (char_is_in_range _ _ _ Elt). lia. }
    pose proof (Progress.scan_fwd_step (test is_jsx_name_char) t (pos + 1) ltac:(lia)) as Hs.
    rewrite Hc in Hs, Ea. cbn [test] in Hs, Ea. specialize (Hs (jsx_name_start c Ea)).
    fold ne in Hs. lia. }
  inversion H; subst openTag.
  cbn [o_tagName o_nameStart o_nameEnd o_end o_selfClosing].
  split; [reflexivity|]. split; [reflexivity|]. split; [exact Hname|].
  split; [lia|]. split; [reflexivity|]. split; [exact Ea|].
  split; [intros j Hj; apply R2; lia|]. split; [exact Hgt|].
  intro Hs. split; [apply Hsl; exact Hs|]. specialize (Hsc Hs). lia.
Qed.

Lemma jsx_matchPropertyKey_le (t : text) (pos s e : Z) :
  matchPropertyKey t pos = Some (s, e) -> e <= len t.
Proof.
  intro H. unfold matchPropertyKey in H.
  set (p0 := scan_fwd (test is_space) t pos) in *.
  destruct (len t <=? p0) eqn:E; [discriminate|]. apply Z.leb_gt in E.
  destruct (test is_ident_start (char_at t p0)); [|discriminate]. cbv zeta in H.
  destruct (_ && _) in H; [|discriminate]. inversion H; subst.
  apply scan_fwd_le. lia.
Qed.

(** The tokens one iteration adds: in the order of the text, not empty,
    inside the text, between the position of the iteration and the next. *)
Definition in_order (a b : Token) : Prop := end_ a <= start b.

Definition fresh (t : text) (st st' : State) : Prop :=
  exists new,
    st_tokens st' = st_tokens st ++ new /\
    ForallOrdPairs in_order new /\
    Forall (fun tk => st_i st <= start tk < end_ tk /\ end_ tk <= st_i st' /\
                      end_ tk <= len t) new.

Lemma fresh_nothing (t : text) (st st' : State) :
  st_tokens st' = st_tokens st -> fresh t st st'.
Proof.
  intro H. exists []. rewrite app_nil_r. split; [exact H|]. split; constructor.
Qed.

Lemma fresh_one (t : text) (st st' : State) (tk : Token) :
  st_tokens st' = st_tokens st ++ [tk] ->
  st_i st <= start tk < end_ tk /\ end_ tk <= st_i st' /\ end_ tk <= len t ->
  fresh t st st'.
Proof.
  intros H Hr. exists [tk]. split; [exact H|]. split.
  - constructor; constructor.
  - constructor; [exact Hr|constructor].
Qed.

Lemma fresh_three (t : text) (st st' : State) (a b c : Token) :
  st_tokens st' = st_tokens st ++ [a; b; c] ->
  st_i st <= start a < end_ a -> end_ a <= start b < end_ b ->
  end_ b <= start c < end_ c -> end_ c <= st_i st' -> end_ c <= len t ->
  fresh t st st'.
Proof.
  intros H Ha Hb Hc He Hl. exists [a; b; c]. split; [exact H|]. split.
  - unfold in_order. repeat constructor; lia.
  - repeat constructor; lia.
Qed.

Lemma tokenize_step_fresh (cfg : Config) (t : text) (st : State) :
  0 <= st_i st < len t -> fresh t st (tokenize_step cfg t st).
Proof.
  intros [H0 Hlt]. unfold tokenize_step.
  destruct (char_is t (st_i st) c_slash && (st_i st + 1 <? len t)
            && char_is t (st_i st + 1) c_slash); [apply fresh_nothing; reflexivity|].
  destruct (char_is t (st_i st) c_slash && (st_i st + 1 <? len t)
            && char_is t (st_i st + 1) c_star); [apply fresh_nothing; reflexivity|].
  destruct (if negb (isInsideJsxTag t (st_i st)) then quote_at t (st_i st) else None);
    [apply fresh_nothing; reflexivity|].
  destruct (st_inJsxExpression st).
  - unfold step_expression.
    destruct (char_is t (st_i st) c_lbrace).
    { destruct (objectBracesEnabled cfg && isObjectContext t (st_i st));
        [|apply fresh_nothing; reflexivity].
      eapply fresh_one; [reflexivity|cbn; lia]. }
    destruct (char_is t (st_i st) c_rbrace).
    { destruct (st_jsxExpressionBraceDepth st - 1 =? 0);
        [eapply fresh_one; [reflexivity|cbn; lia]|].
      destruct (st_objectBraceStack st); [apply fresh_nothing; reflexivity|].
      eapply fresh_one; [reflexivity|cbn; lia]. }
    destruct (if colorizeKeys cfg && (0 <? len (st_objectBraceStack st))
              then matchPropertyKey t (st_i st) else None) as [[s e]|] eqn:Ek.
    + destruct (colorizeKeys cfg && (0 <? len (st_objectBraceStack st))); [|discriminate].
      pose proof (JsxRun.jsx_matchPropertyKey_gt t (st_i st) s e H0 Ek).
      pose proof (jsx_matchPropertyKey_le t (st_i st) s e Ek).
      eapply fresh_one; [reflexivity|cbn; lia].
    + destruct (quote_at t (st_i st)); apply fresh_nothing; reflexivity.
  - destruct (step_tag t st) as [st'|] eqn:Et.
    + unfold step_tag in Et. destruct (char_is t (st_i st) c_lt); [|discriminate].
      destruct (step_closing_tag t st) as [st1|] eqn:Ec.
      * inversion Et; subst st1. unfold step_closing_tag in Ec.
        destruct (char_is t (st_i st + 1) c_slash); [|discriminate].
        destruct (parseClosingTag t (st_i st)) as [closeTag|] eqn:Ep; [|discriminate].
        apply parseClosingTag_Some in Ep.
        destruct Ep as [_ [_ [Hs [Hn [He _]]]]].
        inversion Ec; subst. eapply fresh_three; [reflexivity|..]; cbn; lia.
      * unfold step_opening_tag in Et.
        destruct (parseOpeningTag t (st_i st)) as [openTag|] eqn:Ep; [|discriminate].
        apply parseOpeningTag_Some in Ep.
        destruct Ep as [_ [Hs [Hn [He [_ [_ [_ [_ Hsc]]]]]]]].
        destruct (o_selfClosing openTag); inversion Et; subst.
        -- destruct (Hsc eq_refl) as [_ Hsc'].
           eapply fresh_three; [reflexivity|..]; cbn; lia.
        -- eapply fresh_three; [reflexivity|..]; cbn; lia.
    + unfold step_rest.
      destruct (char_is t (st_i st) c_lbrace && (0 <? len (st_tagStack st)));
        [eapply fresh_one; [reflexivity|cbn; lia]|].
      destruct (objectBracesEnabled cfg && char_is t (st_i st) c_lbrace
                && (len (st_tagStack st) =? 0)).
      { destruct (isObjectContext t (st_i st)); [|apply fresh_nothing; reflexivity].
        eapply fresh_one; [reflexivity|cbn; lia]. }
      destruct (if objectBracesEnabled cfg && char_is t (st_i st) c_rbrace
                   && (len (st_tagStack st) =? 0)
                then st_objectBraceStack st else []);
        [|eapply fresh_one; [reflexivity|cbn; lia]].
      destruct (if colorizeKeys cfg && (len (st_tagStack st) =? 0)
                   && (0 <? len (st_objectBraceStack st))
                then matchPropertyKey t (st_i st) else None) as [[s e]|] eqn:Ek;
        [|apply fresh_nothing; reflexivity].
      destruct (colorizeKeys cfg && (len (st_tagStack st) =? 0)
                && (0 <? len (st_objectBraceStack st))); [|discriminate].
      pose proof (JsxRun.jsx_matchPropertyKey_gt t (st_i st) s e H0 Ek).
      pose proof (jsx_matchPropertyKey_le t (st_i st) s e Ek).
      eapply fresh_one; [reflexivity|cbn; lia].
Qed.

(** The tokens emitted when the scan is at [i]: in the order of the text,
    not empty, inside the text and before [i]. *)
Definition lined_up (t : text) (st : State) : Prop :=
  ForallOrdPairs in_order (st_tokens st) /\
  Forall (fun tk => 0 <= start tk < end_ tk /\ end_ tk <= st_i st /\ end_ tk <= len t)
    (st_tokens st).

Lemma lined_up_step (cfg : Config) (t : text) (st : State) :
  0 <= st_i st < len t -> lined_up t st -> lined_up t (tokenize_step cfg t st).
Proof.
  intros Hr [Ho Hb].
  pose proof (JsxRun.tokenize_step_progress cfg t st (proj1 Hr)) as Hp.
  destruct (tokenize_step_fresh cfg t st Hr) as [new [E [On Bn]]].
  unfold lined_up. rewrite E. split.
  - apply ordpairs_app; [exact Ho|exact On|].
    intros a b Ha Hb0. rewrite Forall_forall in Hb, Bn.
    specialize (Hb a Ha). specialize (Bn b Hb0). unfold in_order. lia.
  - apply Forall_app. split.
    + eapply Forall_impl; [|exact Hb]. cbv beta. intros tk Htk. lia.
    + eapply Forall_impl; [|exact Bn]. cbv beta. intros tk Htk. lia.
Qed.

Lemma lined_up_final (cfg : Config) (t : text) : lined_up t (tokenize_state cfg t).
Proof.
  unfold tokenize_state.
  apply (tokenize_loop_invariant (lined_up t) cfg t (lined_up_step cfg t)).
  - cbn. lia.
  - split; constructor.
Qed.

End JsxMore.

(** ** JsxParser: which tokens an iteration can emit *)

Module JsxKinds.
Import JsxParser.

(** What the state must be for an iteration to emit a token of each type:
    tag tokens at a [<], an expression start under an open tag, an
    expression end inside an expression, an object brace with a frame to
    close or, the object braces on, at a [{], a key with the keys on inside
    a frame. *)
Definition allowed (cfg : Config) (t : text) (st : State) (tk : Token) : Prop :=
  match type tk with
  | ObjectBrace =>
      st_objectBraceStack st <> [] \/
      (objectBracesEnabled cfg = true /\ char_is t (st_i st) c_lbrace = true)
  | PropertyKey => colorizeKeys cfg = true /\ st_objectBraceStack st <> []
  | ExpressionStart => st_tagStack st <> []
  | ExpressionEnd => st_inJsxExpression st = true
  | _ => char_is t (st_i st) c_lt = true
  end.

Definition step_kinds_of (cfg : Config) (t : text) (st st' : State) : Prop :=
  exists new,
    st_tokens st' = st_tokens st ++ new /\
    Forall (allowed cfg t st) new /\
    (st_objectBraceStack st' <> [] ->
     st_objectBraceStack st <> [] \/
     (objectBracesEnabled cfg = true /\ char_is t (st_i st) c_lbrace = true)) /\
    (st_tagStack st' <> [] -> st_tagStack st <> [] \/ char_is t (st_i st) c_lt = true) /\
    (st_inJsxExpression st' = true ->
     st_inJsxExpression st = true \/ st_tagStack st <> []).

Ltac side :=
  cbn [st_tokens st_objectBraceStack st_tagStack st_inJsxExpression set_i push];
  repeat split; intros;
  try solve [ assumption | reflexivity | discriminate | congruence
            | left; assumption | left; reflexivity | left; discriminate | left; congruence
            | right; assumption | right; reflexivity | right; discriminate
            | right; congruence
            | right; split; [reflexivity|assumption]
            | right; split; assumption
            | right; split; [assumption|reflexivity]
            | right; split; reflexivity ].

Ltac leaf :=
  eexists; split;
  [ cbn [st_tokens set_i push]; first [reflexivity | symmetry; apply app_nil_r]
  | split;
    [ repeat (apply Forall_cons; [unfold allowed; cbn [type tok tok_named]; side|]);
      apply Forall_nil
    | side ] ].

Lemma firstn_nonempty {A : Type} (k : nat) (l : list A) : firstn k l <> [] -> l <> [].
Proof. destruct l; [rewrite firstn_nil; auto|discriminate]. Qed.

Lemma step_kinds (cfg : Config) (t : text) (st : State) :
  step_kinds_of cfg t st (tokenize_step cfg t st).
Proof.
  unfold step_kinds_of, tokenize_step.
  destruct (char_is t (st_i st) c_slash && (st_i st + 1 <? len t)
            && char_is t (st_i st + 1) c_slash); [leaf|].
  destruct (char_is t (st_i st) c_slash && (st_i st + 1 <? len t)
            && char_is t (st_i st + 1) c_star); [leaf|].
  destruct (if negb (isInsideJsxTag t (st_i st)) then quote_at t (st_i st) else None);
    [leaf|].
  destruct (st_inJsxExpression st) eqn:Ein.
  - unfold step_expression.
    destruct (char_is t (st_i st) c_lbrace) eqn:Elb.
    { destruct (objectBracesEnabled cfg) eqn:En; cbn [andb];
        [destruct (isObjectContext t (st_i st))|]; leaf. }
    destruct (char_is t (st_i st) c_rbrace).
    { destruct (st_jsxExpressionBraceDepth st - 1 =? 0); [leaf|].
      destruct (st_objectBraceStack st) as [|d rest] eqn:Eo; leaf. }
    destruct (colorizeKeys cfg) eqn:Ck; cbn [andb].
    + destruct (st_objectBraceStack st) as [|d rest] eqn:Eo.
      * change (0 <? len (@nil Z)) with false. cbv iota.
        destruct (quote_at t (st_i st)); leaf.
      * destruct (0 <? len (d :: rest)).
        -- destruct (matchPropertyKey t (st_i st)) as [[s e]|]; [leaf|].
           destruct (quote_at t (st_i st)); leaf.
        -- destruct (quote_at t (st_i st)); leaf.
    + destruct (quote_at t (st_i st)); leaf.
  - destruct (step_tag t st) as [st'|] eqn:Et.
    + unfold step_tag in Et. destruct (char_is t (st_i st) c_lt) eqn:Elt; [|discriminate].
      destruct (step_closing_tag t st) as [st1|] eqn:Ec.
      * inversion Et; subst st1. unfold step_closing_tag in Ec.
        destruct (char_is t (st_i st + 1) c_slash); [|discriminate].
        destruct (parseClosingTag t (st_i st)) as [closeTag|]; [|discriminate].
        inversion Ec; subst. leaf.
      * unfold step_opening_tag in Et.
        destruct (parseOpeningTag t (st_i st)) as [openTag|]; [|discriminate].
        destruct (o_selfClosing openTag); inversion Et; subst; leaf.
    + unfold step_rest.
      destruct (st_tagStack st) as [|s0 stack] eqn:Es.
      * change (0 <? len (@nil text)) with false. change (len (@nil text) =? 0) with true.
        rewrite !andb_false_r, !andb_true_r.
        destruct (objectBracesEnabled cfg) eqn:En; cbn [andb].
        -- destruct (char_is t (st_i st) c_lbrace) eqn:Elb.
           { destruct (isObjectContext t (st_i st)); leaf. }
           destruct (char_is t (st_i st) c_rbrace).
           ++ destruct (st_objectBraceStack st) as [|d rest] eqn:Eo; [|leaf].
              change (0 <? len (@nil Z)) with false. rewrite andb_false_r. leaf.
           ++ destruct (colorizeKeys cfg) eqn:Ck; cbn [andb]; [|leaf].
              destruct (st_objectBraceStack st) as [|d rest] eqn:Eo.
              ** change (0 <? len (@nil Z)) with false. leaf.
              ** destruct (0 <? len (d :: rest)); [|leaf].
                 destruct (matchPropertyKey t (st_i st)) as [[s e]|]; leaf.
        -- destruct (colorizeKeys cfg) eqn:Ck; cbn [andb]; [|leaf].
           destruct (st_objectBraceStack st) as [|d rest] eqn:Eo.
           ** change (0 <? len (@nil Z)) with false. leaf.
           ** destruct (0 <? len (d :: rest)); [|leaf].
              destruct (matchPropertyKey t (st_i st)) as [[s e]|]; leaf.
      * replace (0 <? len (s0 :: stack)) with true
          by (symmetry; apply Z.ltb_lt; rewrite len_cons; pose proof (len_nonneg stack); lia).
        replace (len (s0 :: stack) =? 0) with false
          by (symmetry; apply Z.eqb_neq; rewrite len_cons; pose proof (len_nonneg stack); lia).
        rewrite !andb_true_r, !andb_false_r. cbn [andb].
        destruct (char_is t (st_i st) c_lbrace) eqn:Elb; leaf.
Qed.

End JsxKinds.

Module JsxGates.
Import JsxParser JsxKinds.

Definition is_object_token (tk : Token) : Prop :=
  type tk = ObjectBrace \/ type tk = PropertyKey.

(** With the object braces off no frame is pushed and no object token is
    emitted. *)
Lemma braces_off (cfg : Config) (t : text) (st : State) :
  objectBracesEnabled cfg = false ->
  st_objectBraceStack st = [] /\ Forall (fun tk => ~ is_object_token tk) (st_tokens st) ->
  st_objectBraceStack (tokenize_step cfg t st) = [] /\
  Forall (fun tk => ~ is_object_token tk) (st_tokens (tokenize_step cfg t st)).
Proof.
  intros Hoff [Hs Ht].
  destruct (step_kinds cfg t st) as [new [E [Hnew [Hobj _]]]].
  split.
  - destruct (st_objectBraceStack (tokenize_step cfg t st)) as [|d rest]; [reflexivity|].
    destruct (Hobj ltac:(discriminate)) as [H|[H _]]; congruence.
  - rewrite E. apply Forall_app. split; [exact Ht|].
    eapply Forall_impl; [|exact Hnew]. intros tk Hall [Hb|Hk]; unfold allowed in Hall;
      [rewrite Hb in Hall|rewrite Hk in Hall].
    + destruct Hall as [H|[H _]]; congruence.
    + destruct Hall as [_ H]. congruence.
Qed.

Lemma keys_off (cfg : Config) (t : text) (st : State) :
  colorizeKeys cfg = false ->
  Forall (fun tk => type tk <> PropertyKey) (st_tokens st) ->
  Forall (fun tk => type tk <> PropertyKey) (st_tokens (tokenize_step cfg t st)).
Proof.
  intros Hoff Ht.
  destruct (step_kinds cfg t st) as [new [E [Hnew _]]].
  rewrite E. apply Forall_app. split; [exact Ht|].
  eapply Forall_impl; [|exact Hnew]. intros tk Hall Hk. unfold allowed in Hall.
  rewrite Hk in Hall. destruct Hall as [H _]. congruence.
Qed.

(** Without [<] in the text no tag is opened and no expression entered. *)
Lemma no_tag_step (cfg : Config) (t : text) (st : State) :
  ~ In c_lt t ->
  st_tagStack st = [] /\ st_inJsxExpression st = false /\
  Forall is_object_token (st_tokens st) ->
  st_tagStack (tokenize_step cfg t st) = [] /\
  st_inJsxExpression (tokenize_step cfg t st) = false /\
  Forall is_object_token (st_tokens (tokenize_step cfg t st)).
Proof.
  intros Hno [Hs [Hin Ht]].
  assert (Hlt : char_is t (st_i st) c_lt = false).
  { destruct (char_is t (st_i st) c_lt) eqn:E; [|reflexivity].
    exfalso. apply Hno. exact (HtmlMore.char_is_In _ _ _ E). }
  destruct (step_kinds cfg t st) as [new [E [Hnew [_ [Htag Hexp]]]]].
  split; [|split].
  - destruct (st_tagStack (tokenize_step cfg t st)) as [|s rest]; [reflexivity|].
    destruct (Htag ltac:(discriminate)) as [H|H]; congruence.
  - destruct (st_inJsxExpression (tokenize_step cfg t st)); [|reflexivity].
    destruct (Hexp eq_refl) as [H|H]; congruence.
  - rewrite E. apply Forall_app. split; [exact Ht|].
    eapply Forall_impl; [|exact Hnew]. intros tk Hall. unfold allowed in Hall.
    unfold is_object_token.
    destruct (type tk); try congruence; try (left; reflexivity); right; reflexivity.
Qed.

(** Without [<] and without [{] nothing is emitted. *)
Lemma nothing_step (cfg : Config) (t : text) (st : State) :
  ~ In c_lt t -> ~ In c_lbrace t ->
  st_tagStack st = [] /\ st_inJsxExpression st = false /\
  st_objectBraceStack st = [] /\ st_tokens st = [] ->
  st_tagStack (tokenize_step cfg t st) = [] /\
  st_inJsxExpression (tokenize_step cfg t st) = false /\
  st_objectBraceStack (tokenize_step cfg t st) = [] /\
  st_tokens (tokenize_step cfg t st) = [].
Proof.
  intros Hno Hnb [Hs [Hin [Ho Ht]]].
  assert (Hlb : char_is t (st_i st) c_lbrace = false).
  { destruct (char_is t (st_i st) c_lbrace) eqn:E; [|reflexivity].
    exfalso. apply Hnb. exact (HtmlMore.char_is_In _ _ _ E). }
  destruct (no_tag_step cfg t st Hno) as [Hs' [Hin' _]].
  { rewrite Ht. repeat split; try assumption. constructor. }
  destruct (step_kinds cfg t st) as [new [E [Hnew [Hobj _]]]].
  split; [exact Hs'|]. split; [exact Hin'|]. split.
  - destruct (st_objectBraceStack (tokenize_step cfg t st)) as [|d rest]; [reflexivity|].
    destruct (Hobj ltac:(discriminate)) as [H|[_ H]]; congruence.
  - rewrite E, Ht. cbn [app]. destruct new as [|tk new']; [reflexivity|].
    exfalso. inversion Hnew as [|? ? Hall _]; subst.
    assert (Hlt : char_is t (st_i st) c_lt = false).
    { destruct (char_is t (st_i st) c_lt) eqn:El; [|reflexivity].
      exfalso. apply Hno. exact (HtmlMore.char_is_In _ _ _ El). }
    unfold allowed in Hall. destruct (type tk); try congruence.
    + destruct Hall as [H|[_ H]]; congruence.
    + destruct Hall as [_ H]. congruence.
Qed.

(** *** The search of the tag stack *)

Lemma findMatchingOpenTag_loop_exact (fuel : nat) (stack : list text) (name : text) :
  forall i, i < len stack -> i < Z.of_nat fuel ->
    let r := findMatchingOpenTag_loop fuel stack name i in
    (r = -1 /\ forall j, Z.of_nat j <= i -> nth_error stack j <> Some name) \/
    (0 <= r <= i /\ nth_error stack (Z.to_nat r) = Some name /\
     forall j, r < Z.of_nat j <= i -> nth_error stack j <> Some name).
Proof.
  induction fuel as [|f IH]; intros i Hi Hf; cbn [findMatchingOpenTag_loop]; cbv zeta.
  - left. split; [reflexivity|]. intros j Hj. lia.
  - destruct (0 <=? i) eqn:E.
    + apply Z.leb_le in E.
      destruct (nth_error stack (Z.to_nat i)) as [s|] eqn:Es.
      * destruct (str_eqb s name) eqn:Eq.
        -- apply str_eqb_eq in Eq. subst s. right.
           split; [lia|]. split; [exact Es|]. intros j Hj. lia.
        -- assert (Hne : s <> name).
           { intro Hs. subst s. rewrite str_eqb_refl in Eq. discriminate. }
           destruct (IH (i - 1) ltac:(lia) ltac:(lia)) as [[Hr Hno]|[Hr [Hs Hno]]].
           ++ left. split; [exact Hr|]. intros j Hj.
              destruct (Z.eq_dec (Z.of_nat j) i) as [Hji|Hji]; [|apply Hno; lia].
              replace j with (Z.to_nat i) by lia. rewrite Es. congruence.
           ++ right. split; [lia|]. split; [exact Hs|]. intros j Hj.
              destruct (Z.eq_dec (Z.of_nat j) i) as [Hji|Hji]; [|apply Hno; lia].
              replace j with (Z.to_nat i) by lia. rewrite Es. congruence.
      * exfalso. apply nth_error_None in Es. unfold len in Hi. lia.
    + apply Z.leb_gt in E. left. split; [reflexivity|]. intros j Hj. lia.
Qed.

End JsxGates.

Section JsxExtras.

Import JsxParser.

(** X14.  Whatever the text and the settings, the ranges
    [JsxParser.parse] returns are spans of the text that are not empty,
    [0 <= startOffset < endOffset <= text.length], and they come in the
    order of the text without overlap: each range ends at or before the
    start of every range after it. *)
Theorem X14_jsx_ranges_in_order (cfg : Config) (t : text) :
  Forall (fun r => 0 <= startOffset r < endOffset r /\ endOffset r <= len t)
    (parse cfg t) /\
  ForallOrdPairs (fun a b => endOffset a <= startOffset b) (parse cfg t).
Proof.
  destruct (JsxMore.lined_up_final cfg t) as [Ho Hb].
  unfold parse, tokenize. split.
  - apply Forall_map. eapply Forall_impl; [|exact Hb]. cbv beta.
    intros tk Htk. unfold createColoredRange. cbn [startOffset endOffset]. lia.
  - apply ordpairs_map. eapply ordpairs_impl; [|exact Ho].
    intros a b Hab. exact Hab.
Qed.

(** X15.  The two settings of [JsxParser].  With the object braces off,
    [tokenize] emits no object brace and, as no frame is ever open, no
    property key either, whatever [colorizeKeys] says; with the keys off it
    emits no property key. *)
Theorem X15_jsx_settings (cfg : Config) (t : text) :
  (objectBracesEnabled cfg = false ->
   Forall (fun tk => type tk <> ObjectBrace /\ type tk <> PropertyKey) (tokenize cfg t)) /\
  (colorizeKeys cfg = false ->
   Forall (fun tk => type tk <> PropertyKey) (tokenize cfg t)).
Proof.
  split; intro Hoff; unfold tokenize, tokenize_state.
  - assert (H : st_objectBraceStack (tokenize_loop (List.length t) cfg t init) = [] /\
                Forall (fun tk => ~ JsxGates.is_object_token tk)
                  (st_tokens (tokenize_loop (List.length t) cfg t init))).
    { apply (JsxMore.tokenize_loop_invariant
               (fun s => st_objectBraceStack s = [] /\
                         Forall (fun tk => ~ JsxGates.is_object_token tk) (st_tokens s))
               cfg t).
      - intros st _. apply JsxGates.braces_off. exact Hoff.
      - cbn. lia.
      - split; [reflexivity|constructor]. }
    destruct H as [_ H]. eapply Forall_impl; [|exact H]. cbv beta.
    intros tk Hn. unfold JsxGates.is_object_token in Hn. tauto.
  - apply (JsxMore.tokenize_loop_invariant
             (fun s => Forall (fun tk => type tk <> PropertyKey) (st_tokens s)) cfg t).
    + intros st _. apply JsxGates.keys_off. exact Hoff.
    + cbn. lia.
    + constructor.
Qed.

(** X16.  On a text without [<], [JsxParser] opens no tag and enters no
    expression: it emits object braces and property keys only, the
    plain-script part of the loop; on a text with neither [<] nor [{] it
    emits nothing. *)
Theorem X16_jsx_without_tags (cfg : Config) (t : text) :
  ~ In c_lt t ->
  Forall (fun tk => type tk = ObjectBrace \/ type tk = PropertyKey) (tokenize cfg t) /\
  st_tagStack (tokenize_state cfg t) = [] /\
  (~ In c_lbrace t -> parse cfg t = []).
Proof.
  intro Hno. unfold parse, tokenize, tokenize_state. split; [|split].
  - apply (JsxMore.tokenize_loop_invariant
             (fun s => st_tagStack s = [] /\ st_inJsxExpression s = false /\
                       Forall JsxGates.is_object_token (st_tokens s)) cfg t).
    + intros st _. apply JsxGates.no_tag_step. exact Hno.
    + cbn. lia.
    + repeat split; constructor.
  - apply (JsxMore.tokenize_loop_invariant
             (fun s => st_tagStack s = [] /\ st_inJsxExpression s = false /\
                       Forall JsxGates.is_object_token (st_tokens s)) cfg t).
    + intros st _. apply JsxGates.no_tag_step. exact Hno.
    + cbn. lia.
    + repeat split; constructor.
  - intro Hnb.
    assert (H : st_tagStack (tokenize_loop (List.length t) cfg t init) = [] /\
                st_inJsxExpression (tokenize_loop (List.length t) cfg t init) = false /\
                st_objectBraceStack (tokenize_loop (List.length t) cfg t init) = [] /\
                st_tokens (tokenize_loop (List.length t) cfg t init) = []).
    { apply (JsxMore.tokenize_loop_invariant
               (fun s => st_tagStack s = [] /\ st_inJsxExpression s = false /\
                         st_objectBraceStack s = [] /\ st_tokens s = []) cfg t).
      - intros st _. apply JsxGates.nothing_step; assumption.
      - cbn. lia.
      - repeat split. }
    destruct H as [_ [_ [_ H]]]. rewrite H. reflexivity.
Qed.

Lemma X16_jsx_without_tags_witness :
  tokenize (mkConfig true true) (str "x = {a: 1} > 2") =
    [tok ObjectBrace 4 5 0; tok PropertyKey 5 6 0; tok ObjectBrace 9 10 0] /\
  Forall (fun tk => type tk = ObjectBrace \/ type tk = PropertyKey)
    (tokenize (mkConfig true true) (str "x = {a: 1} > 2")).
Proof.
  split; [reflexivity|].
  apply (X16_jsx_without_tags (mkConfig true true) (str "x = {a: 1} > 2")).
  intro Hin. vm_compute in Hin.
  repeat (destruct Hin as [Hin|Hin]; [discriminate Hin|]). exact Hin.
Defined.

(** X17.  [JsxParser.findMatchingOpenTag] compares names as they are: it
    returns -1 exactly when the name is not on the stack, and otherwise the
    index of its topmost occurrence.  The frame [HtmlParser] would pop for
    the same stack and name, found without regard to case, is at that index
    or above. *)
Theorem X17_jsx_findMatchingOpenTag (stack : list text) (name : text) :
  let r := findMatchingOpenTag stack name in
  ((r = -1 /\ ~ In name stack) \/
   (exists k, r = Z.of_nat k /\ nth_error stack k = Some name /\
              forall j, (k < j)%nat -> nth_error stack j <> Some name)) /\
  r <= HtmlParser.findMatchingOpenTag stack name.
Proof.
  cbv zeta. unfold findMatchingOpenTag.
  assert (Hspec :
    (findMatchingOpenTag_loop (List.length stack) stack name (len stack - 1) = -1 /\
     ~ In name stack) \/
    (exists k, findMatchingOpenTag_loop (List.length stack) stack name (len stack - 1)
               = Z.of_nat k /\ nth_error stack k = Some name /\
               forall j, (k < j)%nat -> nth_error stack j <> Some name)).
  { destruct (JsxGates.findMatchingOpenTag_loop_exact (List.length stack) stack name
                (len stack - 1) ltac:(lia) ltac:(unfold len; lia))
      as [[Hr Hno]|[Hr [Hs Hno]]].
    - left. split; [exact Hr|]. intro Hin. apply In_nth_error in Hin.
      destruct Hin as [j Hj]. apply (Hno j); [|exact Hj].
      assert (j < List.length stack)%nat by (apply nth_error_Some; congruence).
      unfold len. lia.
    - right. exists (Z.to_nat (findMatchingOpenTag_loop (List.length stack) stack name
                                 (len stack - 1))).
      split; [lia|]. split; [exact Hs|]. intros j Hj.
      destruct (Nat.lt_ge_cases j (List.length stack)) as [Hlt|Hge].
      + apply Hno. unfold len in *. lia.
      + apply nth_error_None in Hge. congruence. }
  split; [exact Hspec|].
  destruct Hspec as [[Hr _]|[k [Hr [Hs Hno]]]]; rewrite Hr.
  - destruct (HtmlFacts.findMatchingOpenTag_spec stack name) as [[Hh _]|[k' [Hh _]]];
      rewrite Hh; lia.
  - destruct (HtmlFacts.findMatchingOpenTag_spec stack name) as [[_ Hnone]|[k' [Hh Htop]]].
    + exfalso. apply (Hnone k name Hs). reflexivity.
    + rewrite Hh. destruct Htop as [_ Htop].
      destruct (Nat.lt_ge_cases k' k) as [Hlt|Hge]; [|lia].
      exfalso. apply (Htop k name Hlt Hs). reflexivity.
Qed.

(** X18.  What [JsxParser.parseClosingTag] accepts: a [<], a [/], white
    space, a name that starts with a letter or [_] and goes on with
    letters, digits, [.], [_] and [-], white space, and a [>].  The name it
    returns is not empty and is the slice of the text between [nameStart]
    and [nameEnd]; [end] is the offset after the [>], inside the text. *)
Theorem X18_parseClosingTag (t : text) (pos : Z) (closeTag : CloseTag) :
  parseClosingTag t pos = Some closeTag ->
  char_is t pos c_lt = true /\ char_is t (pos + 1) c_slash = true /\
  pos + 2 <= c_nameStart closeTag /\ c_nameStart closeTag < c_nameEnd closeTag /\
  c_nameEnd closeTag < c_end closeTag <= len t /\
  c_tagName closeTag = slice t (c_nameStart closeTag) (c_nameEnd closeTag) /\
  (forall j, pos + 2 <= j < c_nameStart closeTag -> test is_space (char_at t j) = true) /\
  test is_alpha_ (char_at t (c_nameStart closeTag)) = true /\
  (forall j, c_nameStart closeTag <= j < c_nameEnd closeTag ->
     test is_jsx_name_char (char_at t j) = true) /\
  (forall j, c_nameEnd closeTag <= j < c_end closeTag - 1 ->
     test is_space (char_at t j) = true) /\
  char_is t (c_end closeTag - 1) c_gt = true.
Proof. apply JsxMore.parseClosingTag_Some. Qed.

Lemma X18_parseClosingTag_witness :
  let t := str "a</ Foo.Bar >" in
  parseClosingTag t 1 = Some (mkCloseTag (str "Foo.Bar") 4 11 13) /\
  char_is t 12 c_gt = true.
Proof.
  intro t.
  assert (E : parseClosingTag t 1 = Some (mkCloseTag (str "Foo.Bar") 4 11 13))
    by reflexivity.
  split; [exact E|].
  exact (proj2 (proj2 (proj2 (proj2 (proj2 (proj2 (proj2 (proj2 (proj2 (proj2
           (X18_parseClosingTag t 1 _ E))))))))))).
Defined.

(** X19.  What [JsxParser.parseOpeningTag] returns: the tag starts at a
    [<], its name starts right after with a letter or [_], is not empty and
    is the slice of the text between [nameStart] and [nameEnd]; [end] is
    the offset after a [>], inside the text and after the name; and a tag
    returned as self-closing has a [/] right before that [>], after the
    name. *)
Theorem X19_parseOpeningTag (t : text) (pos : Z) (openTag : OpenTag) :
  parseOpeningTag t pos = Some openTag ->
  char_is t pos c_lt = true /\
  o_nameStart openTag = pos + 1 /\ o_nameStart openTag < o_nameEnd openTag /\
  o_nameEnd openTag < o_end openTag <= len t /\
  o_tagName openTag = slice t (o_nameStart openTag) (o_nameEnd openTag) /\
  test is_alpha_ (char_at t (o_nameStart openTag)) = true /\
  (forall j, o_nameStart openTag <= j < o_nameEnd openTag ->
     test is_jsx_name_char (char_at t j) = true) /\
  char_is t (o_end openTag - 1) c_gt = true /\
  (o_selfClosing openTag = true ->
   char_is t (o_end openTag - 2) c_slash = true /\ o_nameEnd openTag + 2 <= o_end openTag).
Proof. apply JsxMore.parseOpeningTag_Some. Qed.

Lemma X19_parseOpeningTag_witness :
  let t := str "<A b={c > 1} d='/>' />" in
  parseOpeningTag t 0 = Some (mkOpenTag (str "A") 1 2 22 true) /\
  char_is t 20 c_slash = true.
Proof.
  intro t.
  assert (E : parseOpeningTag t 0 = Some (mkOpenTag (str "A") 1 2 22 true)) by reflexivity.
  split; [exact E|].
  destruct (X19_parseOpeningTag t 0 _ E) as [_ [_ [_ [_ [_ [_ [_ [_ H]]]]]]]].
  exact (proj1 (H eq_refl)).
Defined.

End JsxExtras.

(** ** The context checks and the property keys of the two script parsers *)

Module ContextFacts.

Lemma scan_back_run p (t : text) (i j : Z) :
  scan_back p t i < j <= i -> p (char_at t j) = true.
Proof.
  unfold scan_back. generalize (Z.to_nat (i + 1)) as n.
  intro n. revert i. induction n as [|n IH]; intros i; simpl; [lia|].
  destruct ((0 <=? i) && p (char_at t i)) eqn:E; [|lia].
  apply andb_true_iff in E. destruct E as [_ Hp].
  intro H. destruct (Z.eq_dec j i) as [->|Hne]; [exact Hp|].
  apply (IH (i - 1)). lia.
Qed.

Lemma scan_back_stop p (t : text) (i : Z) :
  0 <= scan_back p t i -> p (char_at t (scan_back p t i)) = false.
Proof.
  unfold scan_back. remember (Z.to_nat (i + 1)) as n eqn:Hn.
  assert (Hfuel : i + 1 <= Z.of_nat n) by lia. clear Hn.
  revert i Hfuel. induction n as [|n IH]; intros i Hfuel; simpl.
  - lia.
  - destruct (0 <=? i) eqn:E; simpl.
    + destruct (p (char_at t i)) eqn:Hp; [|intros _; exact Hp].
      apply IH. lia.
    + apply Z.leb_gt in E. lia.
Qed.

(** The characters of a slice are characters of the text, at the offsets of
    the slice. *)
Lemma slice_In (t : text) (a b c : Z) :
  0 <= a -> In c (slice t a b) -> exists j, a <= j < b /\ char_at t j = Some c.
Proof.
  intros Ha Hin. unfold slice in Hin. apply In_nth_error in Hin.
  destruct Hin as [k Hk].
  assert (Hlt : (k < Z.to_nat (b - a))%nat).
  { assert (Hs : nth_error (firstn (Z.to_nat (b - a)) (skipn (Z.to_nat a) t)) k <> None)
      by congruence.
    apply nth_error_Some in Hs. rewrite length_firstn in Hs. lia. }
  rewrite nth_error_firstn in Hk.
  destruct (k <? Z.to_nat (b - a))%nat eqn:E; [|apply Nat.ltb_ge in E; lia].
  rewrite nth_error_skipn in Hk.
  exists (a + Z.of_nat k). split; [lia|].
  unfold char_at. destruct (a + Z.of_nat k <? 0) eqn:E0; [apply Z.ltb_lt in E0; lia|].
  replace (Z.to_nat (a + Z.of_nat k)) with (Z.to_nat a + k)%nat by lia. exact Hk.
Qed.

(** The two copies of [getKeywordBefore] are one function. *)
Lemma getKeywordBefore_same (t : text) (endPos : Z) :
  JsxParser.getKeywordBefore t endPos = ObjectParser.getKeywordBefore t endPos.
Proof. reflexivity. Qed.

(** A keyword is made of letters. *)
Lemma keyword_letters (t : text) (endPos : Z) (w : text) :
  ObjectParser.getKeywordBefore t endPos = Some w -> Forall (fun c => is_alpha c = true) w.
Proof.
  unfold ObjectParser.getKeywordBefore. intro H.
  destruct (endPos <? 0) eqn:E0; cbn [orb] in H; [discriminate|]. apply Z.ltb_ge in E0.
  destruct (test is_alpha (char_at t endPos)) eqn:Ee; cbn [negb] in H; [|discriminate].
  cbv zeta in H. inversion H as [Hw]. clear H.
  pose proof (scan_back_ge (test is_alpha) t (endPos - 1) ltac:(lia)) as Hge.
  apply Forall_forall. intros c Hc.
  apply slice_In in Hc; [|lia]. destruct Hc as [j [Hj Hcj]].
  destruct (Z.eq_dec j endPos) as [->|Hne].
  - rewrite Hcj in Ee. exact Ee.
  - pose proof (scan_back_run (test is_alpha) t (endPos - 1) j ltac:(lia)) as Hr.
    rewrite Hcj in Hr. exact Hr.
Qed.

Lemma keyword_not_arrow (t : text) (endPos : Z) (w : text) :
  ObjectParser.getKeywordBefore t endPos = Some w -> str_eqb w (str "=>") = false.
Proof.
  intro H. apply keyword_letters in H. apply str_eqb_neq. intro E. subst w.
  inversion H as [|? ? Hc _]. vm_compute in Hc. discriminate.
Qed.

(** The characters after which a brace opens an object are the same six in
    both parsers; [JsxParser] lists one of them twice. *)
Lemma context_chars_same (t : text) (i : Z) :
  existsb (fun c => char_is t i c) JsxParser.objectContextChars =
  existsb (fun c => char_is t i c) ObjectParser.OBJECT_CONTEXT_CHARS.
Proof.
  unfold JsxParser.objectContextChars, ObjectParser.OBJECT_CONTEXT_CHARS. cbn [existsb].
  destruct (char_is t i c_eq), (char_is t i c_colon), (char_is t i c_lparen),
    (char_is t i c_lbrack), (char_is t i c_comma), (char_is t i c_quest); reflexivity.
Qed.

(** The brace after a call or after the parameters of an arrow function:
    what [ObjectParser] accepts and [JsxParser] does not. *)
Definition after_call_or_arrow (t : text) (position : Z) : bool :=
  let i := scan_back (test is_space) t (position - 1) in
  char_is t i c_rparen &&
  match ObjectParser.getParenContext t i with
  | ObjectParser.arrow | ObjectParser.call => true
  | _ => false
  end.

Lemma isObjectContext_both (t : text) (position : Z) :
  ObjectParser.isObjectContext t position =
  JsxParser.isObjectContext t position || after_call_or_arrow t position.
Proof.
  unfold ObjectParser.isObjectContext, JsxParser.isObjectContext, after_call_or_arrow.
  cbv zeta. set (i := scan_back (test is_space) t (position - 1)).
  destruct (i <? 0) eqn:E0.
  { apply Z.ltb_lt in E0. cbn [orb].
    destruct (char_is t i c_rparen) eqn:Ep; [|reflexivity].
    apply char_is_in_range in Ep. lia. }
  destruct (char_is t i c_gt && (0 <? i) && char_is t (i - 1) c_eq); [reflexivity|].
  rewrite context_chars_same.
  destruct (existsb (fun c => char_is t i c) ObjectParser.OBJECT_CONTEXT_CHARS);
    [reflexivity|].
  change (JsxParser.getKeywordBefore t i) with (ObjectParser.getKeywordBefore t i).
  destruct (char_is t i c_rparen) eqn:Ep.
  - assert (Hk : ObjectParser.getKeywordBefore t i = None).
    { unfold ObjectParser.getKeywordBefore. apply char_is_true in Ep. rewrite Ep.
      rewrite E0. reflexivity. }
    rewrite Hk. cbn [orb andb]. destruct (ObjectParser.getParenContext t i); reflexivity.
  - cbn [andb]. rewrite orb_false_r.
    destruct (ObjectParser.getKeywordBefore t i) as [w|] eqn:Ek; [|reflexivity].
    unfold has, ObjectParser.OBJECT_CONTEXT_KEYWORDS. cbn [map existsb].
    rewrite (keyword_not_arrow _ _ _ Ek). rewrite !orb_false_r.
    destruct (str_eqb w (str "return")); [reflexivity|].
    destruct (existsb (str_eqb w) ObjectParser.BLOCK_KEYWORDS); reflexivity.
Qed.

End ContextFacts.

Module KeyFacts.
Import ObjectParser.

(** The loop over a quoted key, left inside the text, has stopped at the
    closing quote. *)
Lemma stringKey_loop_stop (fuel : nat) (t : text) (quote : Z) :
  forall pos, len t - pos <= Z.of_nat fuel ->
    stringKey_loop fuel t pos quote < len t ->
    char_is t (stringKey_loop fuel t pos quote) quote = true.
Proof.
  induction fuel as [|f IH]; intros pos Hf H; cbn [stringKey_loop] in *; [lia|].
  destruct (pos <? len t) eqn:E; cbn [andb] in *; [|apply Z.ltb_ge in E; lia].
  destruct (char_is t pos quote) eqn:Eq; cbn [negb] in *; [exact Eq|].
  destruct (char_is t pos c_backslash); apply IH; solve [lia|exact H].
Qed.

(** The loop over a computed key, left inside the text, has stopped after
    the bracket that closes the key. *)
Lemma computedKey_loop_stop (fuel : nat) (t : text) :
  forall pos d, len t - pos <= Z.of_nat fuel -> 0 < d ->
    computedKey_loop fuel t pos d < len t ->
    pos < computedKey_loop fuel t pos d /\
    char_is t (computedKey_loop fuel t pos d - 1) c_rbrack = true.
Proof.
  induction fuel as [|f IH]; intros pos d Hf Hd H; cbn [computedKey_loop] in *; [lia|].
  destruct (pos <? len t) eqn:E; cbn [andb] in *; [|apply Z.ltb_ge in E; lia].
  apply Z.ltb_lt in E.
  replace (0 <? d) with true in * by (symmetry; apply Z.ltb_lt; exact Hd).
  destruct (char_is t pos c_lbrack).
  { destruct (IH (pos + 1) (d + 1) ltac:(lia) ltac:(lia) H) as [H1 H2].
    split; [lia|exact H2]. }
  destruct (char_is t pos c_rbrack) eqn:Er.
  - destruct (Z.eq_dec d 1) as [->|Hne].
    + assert (Hr : computedKey_loop f t (pos + 1) (1 - 1) = pos + 1).
      { destruct f as [|f']; cbn [computedKey_loop]; [reflexivity|].
        replace (0 <? 1 - 1) with false by reflexivity.
        rewrite andb_false_r. reflexivity. }
      rewrite Hr. split; [lia|]. replace (pos + 1 - 1) with pos by lia. exact Er.
    + destruct (IH (pos + 1) (d - 1) ltac:(lia) ltac:(lia) H) as [H1 H2].
      split; [lia|exact H2].
  - destruct (IH (pos + 1) d ltac:(lia) ltac:(lia) H) as [H1 H2].
    split; [lia|exact H2].
Qed.

Lemma colon_at_in_range (t : text) (pos : Z) : colon_at t pos = true -> pos < len t.
Proof.
  unfold colon_at. intro H. apply andb_true_iff in H. destruct H as [H _].
  apply char_is_in_range in H. lia.
Qed.

(** The three kinds of key. *)
Definition identifier_key (t : text) (pos s e : Z) : Prop :=
  s = scan_fwd (test is_space) t pos /\ s < len t /\
  test is_ident_start (char_at t s) = true /\
  e = scan_fwd (test is_ident_char) t s.

Definition quoted_key (t : text) (s e : Z) : Prop :=
  exists q, (q = c_dquote \/ q = c_squote) /\
            char_at t s = Some q /\ s + 1 <= e - 1 /\ char_at t (e - 1) = Some q.

Definition computed_key (t : text) (s e : Z) : Prop :=
  char_is t s c_lbrack = true /\ s + 1 <= e - 1 /\ char_is t (e - 1) c_rbrack = true.

Lemma stringKey_inl (t : text) (p s e : Z) :
  stringKey t p = inl (s, e) ->
  quoted_key t s e /\ colon_at t (scan_fwd (test is_space) t e) = true.
Proof.
  unfold stringKey. intro H.
  destruct (char_is t p c_dquote || char_is t p c_squote) eqn:Eq; [|discriminate].
  cbv zeta in H.
  assert (Hq : exists q, (q = c_dquote \/ q = c_squote) /\ char_at t p = Some q).
  { apply orb_true_iff in Eq. destruct Eq as [Eq|Eq]; apply char_is_true in Eq;
      eexists; (split; [|exact Eq]); [left|right]; reflexivity. }
  destruct Hq as [q [Hq Hp]]. rewrite Hp in H.
  pose proof (Progress.stringKey_loop_ge (Z.to_nat (len t - (p + 1))) t (p + 1) q) as Hge.
  pose proof (stringKey_loop_stop (Z.to_nat (len t - (p + 1))) t q (p + 1) ltac:(lia))
    as Hstop.
  set (r := stringKey_loop (Z.to_nat (len t - (p + 1))) t (p + 1) q) in *.
  destruct (r <? len t) eqn:Er; [|discriminate]. apply Z.ltb_lt in Er.
  destruct (colon_at t (scan_fwd (test is_space) t (r + 1))) eqn:Ec; [|discriminate].
  inversion H; subst s e. split; [|exact Ec].
  exists q. split; [exact Hq|]. split; [exact Hp|]. split; [lia|].
  replace (r + 1 - 1) with r by lia. apply char_is_true. apply Hstop. exact Er.
Qed.

Lemma computedKey_Some (t : text) (p s e : Z) :
  computedKey t p = Some (s, e) ->
  computed_key t s e /\ colon_at t (scan_fwd (test is_space) t e) = true.
Proof.
  unfold computedKey. intro H.
  destruct (char_is t p c_lbrack) eqn:Eb; [|discriminate]. cbv zeta in H.
  pose proof (computedKey_loop_stop (Z.to_nat (len t - (p + 1))) t (p + 1) 1
                ltac:(lia) ltac:(lia)) as Hstop.
  set (r := computedKey_loop (Z.to_nat (len t - (p + 1))) t (p + 1) 1) in *.
  destruct (colon_at t (scan_fwd (test is_space) t r)) eqn:Ec; [|discriminate].
  inversion H; subst s e. split; [|exact Ec].
  pose proof (colon_at_in_range _ _ Ec) as Hc.
  pose proof (scan_fwd_ge (test is_space) t r) as Hr.
  destruct (Hstop ltac:(lia)) as [H1 H2].
  split; [exact Eb|]. split; [lia|exact H2].
Qed.

(** What [ObjectParser.matchPropertyKey] returns. *)
Lemma matchPropertyKey_cases (t : text) (pos s e : Z) :
  matchPropertyKey t pos = Some (s, e) ->
  colon_at t (scan_fwd (test is_space) t e) = true /\
  (identifier_key t pos s e \/ quoted_key t s e \/ computed_key t s e).
Proof.
  unfold matchPropertyKey. intro H. cbv zeta in H.
  set (p0 := scan_fwd (test is_space) t pos) in *.
  destruct (len t <=? p0) eqn:E0; [discriminate|]. apply Z.leb_gt in E0.
  destruct (identifierKey t p0) as [[s1 e1]|p1] eqn:Ei.
  - inversion H; subst s1 e1. clear H. unfold identifierKey in Ei.
    destruct (test is_ident_start (char_at t p0)) eqn:Es; [|discriminate].
    cbv zeta in Ei.
    destruct (colon_at t (scan_fwd (test is_space) t (scan_fwd (test is_ident_char) t p0)))
      eqn:Ec; [|discriminate].
    inversion Ei; subst s e. split; [exact Ec|]. left.
    split; [reflexivity|]. split; [exact E0|]. split; [exact Es|reflexivity].
  - destruct (stringKey t p1) as [[s2 e2]|p2] eqn:Eq.
    + inversion H; subst s2 e2. destruct (stringKey_inl _ _ _ _ Eq) as [Hk Hc].
      split; [exact Hc|]. right. left. exact Hk.
    + destruct (computedKey_Some _ _ _ _ H) as [Hk Hc].
      split; [exact Hc|]. right. right. exact Hk.
Qed.

(** An identifier key of [ObjectParser] is the key of [JsxParser]. *)
Lemma identifier_key_jsx (t : text) (pos s e : Z) :
  identifier_key t pos s e ->
  colon_at t (scan_fwd (test is_space) t e) = true ->
  JsxParser.matchPropertyKey t pos = Some (s, e).
Proof.
  intros [Hs [Hlt [Hi He]]] Hc. unfold JsxParser.matchPropertyKey. cbv zeta.
  rewrite <- Hs. rewrite Hi.
  replace (len t <=? s) with false by (symmetry; apply Z.leb_gt; exact Hlt).
  rewrite <- He. unfold colon_at in Hc. rewrite Hc. reflexivity.
Qed.

Lemma jsx_key_object (t : text) (pos : Z) (k : Z * Z) :
  JsxParser.matchPropertyKey t pos = Some k -> matchPropertyKey t pos = Some k.
Proof.
  unfold JsxParser.matchPropertyKey, matchPropertyKey. cbv zeta.
  set (p0 := scan_fwd (test is_space) t pos).
  destruct (len t <=? p0); [discriminate|].
  unfold identifierKey. destruct (test is_ident_start (char_at t p0)); [|discriminate].
  cbv zeta. unfold colon_at.
  destruct (char_is t _ c_colon && negb (char_is t _ c_colon)); [|discriminate].
  intro H. exact H.
Qed.

End KeyFacts.

Section ContextExtras.

Import ContextFacts KeyFacts.

(** X20.  [getKeywordBefore], the same function in [JsxParser] and in
    [ObjectParser]: asked at an offset of the text it returns nothing when
    the character there is not a letter, and otherwise the longest run of
    letters that ends there, which a digit, [_] or [$] before it cuts
    short.  As the result holds letters only, it is never [=>]: of the two
    [OBJECT_CONTEXT_KEYWORDS] only [return] can match. *)
Theorem X20_getKeywordBefore (t : text) (endPos : Z) :
  0 <= endPos < len t ->
  JsxParser.getKeywordBefore t endPos = ObjectParser.getKeywordBefore t endPos /\
  match ObjectParser.getKeywordBefore t endPos with
  | None => test is_alpha (char_at t endPos) = false
  | Some w =>
      (exists start, 0 <= start <= endPos /\ w = slice t start (endPos + 1) /\
         (forall j, start <= j <= endPos -> test is_alpha (char_at t j) = true) /\
         (0 < start -> test is_alpha (char_at t (start - 1)) = false)) /\
      (has ObjectParser.OBJECT_CONTEXT_KEYWORDS w = true <-> w = str "return")
  end.
Proof.
  intro Hr. split; [reflexivity|].
  destruct (ObjectParser.getKeywordBefore t endPos) as [w|] eqn:Ek.
  - split.
    + unfold ObjectParser.getKeywordBefore in Ek.
      destruct (endPos <? 0) eqn:E0; cbn [orb] in Ek; [discriminate|].
      destruct (test is_alpha (char_at t endPos)) eqn:Ee; cbn [negb] in Ek; [|discriminate].
      cbv zeta in Ek. inversion Ek as [Hw]. clear Ek.
      pose proof (scan_back_ge (test is_alpha) t (endPos - 1) ltac:(lia)) as Hge.
      pose proof (scan_back_le (test is_alpha) t (endPos - 1)) as Hle.
      exists (scan_back (test is_alpha) t (endPos - 1) + 1).
      split; [lia|]. split; [reflexivity|]. split.
      * intros j Hj. destruct (Z.eq_dec j endPos) as [->|Hne]; [exact Ee|].
        apply (scan_back_run (test is_alpha) t (endPos - 1) j). lia.
      * intro Hpos.
        replace (scan_back (test is_alpha) t (endPos - 1) + 1 - 1)
          with (scan_back (test is_alpha) t (endPos - 1)) by lia.
        apply scan_back_stop. lia.
    + unfold has, ObjectParser.OBJECT_CONTEXT_KEYWORDS. cbn [map existsb].
      rewrite (keyword_not_arrow _ _ _ Ek), !orb_false_r. apply str_eqb_eq.
  - unfold ObjectParser.getKeywordBefore in Ek.
    destruct (endPos <? 0) eqn:E0; cbn [orb] in Ek; [apply Z.ltb_lt in E0; lia|].
    destruct (test is_alpha (char_at t endPos)); [discriminate|reflexivity].
Qed.

Lemma X20_getKeywordBefore_witness :
  ObjectParser.getKeywordBefore (str "x_return {") 7 = Some (str "return") /\
  JsxParser.getKeywordBefore (str "x_return {") 7 =
    ObjectParser.getKeywordBefore (str "x_return {") 7.
Proof.
  split; [reflexivity|].
  apply (X20_getKeywordBefore (str "x_return {") 7). vm_compute.
  split; [discriminate|reflexivity].
Defined.

(** X21.  The two [isObjectContext] compared: [ObjectParser] takes a brace
    for an object literal wherever [JsxParser] does, and besides only where
    the nearest character before the brace that is not white space is the
    [)] of a call or of the parameters of an arrow function. *)
Theorem X21_isObjectContext_both (t : text) (position : Z) :
  ObjectParser.isObjectContext t position =
    JsxParser.isObjectContext t position || after_call_or_arrow t position /\
  (JsxParser.isObjectContext t position = true ->
   ObjectParser.isObjectContext t position = true) /\
  (ObjectParser.isObjectContext t position = true ->
   JsxParser.isObjectContext t position = false ->
   let i := scan_back (test is_space) t (position - 1) in
   char_is t i c_rparen = true /\ ObjectParser.getParenContext t i <> ObjectParser.control).
Proof.
  pose proof (isObjectContext_both t position) as H. split; [exact H|]. split.
  - intro Hj. rewrite H, Hj. reflexivity.
  - intros Ho Hj. rewrite H, Hj in Ho. cbn [orb] in Ho.
    unfold after_call_or_arrow in Ho. cbv zeta in *.
    apply andb_true_iff in Ho. destruct Ho as [Hp Hc]. split; [exact Hp|].
    intro E. rewrite E in Hc. discriminate.
Qed.

(** X22.  The two [matchPropertyKey] compared: a key [JsxParser] finds,
    [ObjectParser] finds too, the same span; and a key [ObjectParser]
    finds is the one [JsxParser] finds unless it is a quoted or a computed
    key, the two kinds [JsxParser] does not look for. *)
Theorem X22_matchPropertyKey_both (t : text) (pos : Z) :
  (forall k, JsxParser.matchPropertyKey t pos = Some k ->
             ObjectParser.matchPropertyKey t pos = Some k) /\
  (forall s e, ObjectParser.matchPropertyKey t pos = Some (s, e) ->
               JsxParser.matchPropertyKey t pos = Some (s, e) \/
               quoted_key t s e \/ computed_key t s e).
Proof.
  split.
  - intros k. apply jsx_key_object.
  - intros s e H. destruct (matchPropertyKey_cases _ _ _ _ H) as [Hc [Hi|[Hq|Hb]]].
    + left. apply identifier_key_jsx; assumption.
    + right. left. exact Hq.
    + right. right. exact Hb.
Qed.

(** X23.  What [ObjectParser.matchPropertyKey] accepts as a key.  The key
    is a span of the text at or after [pos], not empty; after it come white
    space, if any, and a [:] that no second [:] follows.  The key is an
    identifier, the first thing after the white space at [pos], made of
    identifier characters up to the first character that is not one; or a
    string in single or double quotes, from its quote to the same quote; or
    a computed key, from its [[] to a []]. *)
Theorem X23_object_key (t : text) (pos s e : Z) :
  0 <= pos ->
  ObjectParser.matchPropertyKey t pos = Some (s, e) ->
  pos <= s < e /\ e <= len t /\
  (exists p, e <= p < len t /\
     (forall j, e <= j < p -> test is_space (char_at t j) = true) /\
     char_is t p c_colon = true /\ char_is t (p + 1) c_colon = false) /\
  ((s = scan_fwd (test is_space) t pos /\
    test is_ident_start (char_at t s) = true /\
    (forall j, s <= j < e -> test is_ident_char (char_at t j) = true) /\
    test is_ident_char (char_at t e) = false) \/
   quoted_key t s e \/ computed_key t s e).
Proof.
  intros H0 H.
  pose proof (Progress.object_matchPropertyKey_gt t pos s e H0 H) as Hgt.
  pose proof (ObjectMore.object_matchPropertyKey_le t pos s e H) as Hle.
  destruct (matchPropertyKey_cases _ _ _ _ H) as [Hc Hk].
  split; [exact Hgt|]. split; [exact Hle|]. split.
  - exists (scan_fwd (test is_space) t e).
    pose proof (scan_fwd_ge (test is_space) t e) as Hge.
    pose proof (colon_at_in_range _ _ Hc) as Hin.
    split; [lia|]. split; [intros j Hj; apply (scan_fwd_run _ t e j Hj)|].
    unfold ObjectParser.colon_at in Hc. apply andb_true_iff in Hc.
    destruct Hc as [Hc1 Hc2]. split; [exact Hc1|].
    destruct (char_is t (scan_fwd (test is_space) t e + 1) c_colon); [discriminate|reflexivity].
  - destruct Hk as [[Hs [Hlt [Hi He]]]|[Hq|Hb]]; [left|right; left; exact Hq|right; right; exact Hb].
    split; [exact Hs|]. split; [exact Hi|]. split.
    + intros j Hj. apply (scan_fwd_run _ t s j). rewrite <- He. exact Hj.
    + rewrite He. apply scan_fwd_stop. rewrite <- He.
      pose proof (scan_fwd_ge (test is_space) t e). apply colon_at_in_range in Hc. lia.
Qed.

Lemma X23_object_key_witness :
  ObjectParser.matchPropertyKey (str "{ 'a b' : 1 }") 1 = Some (2, 7) /\
  quoted_key (str "{ 'a b' : 1 }") 2 7.
Proof.
  assert (E : ObjectParser.matchPropertyKey (str "{ 'a b' : 1 }") 1 = Some (2, 7))
    by reflexivity.
  split; [exact E|].
  destruct (X23_object_key (str "{ 'a b' : 1 }") 1 2 7 ltac:(lia) E)
    as [_ [_ [_ [[_ [Hi _]]|[Hq|[Hb _]]]]]].
  - vm_compute in Hi. discriminate Hi.
  - exact Hq.
  - vm_compute in Hb. discriminate Hb.
Defined.

End ContextExtras.

(** ** ObjectParser: regular expression literals *)

Module RegexFacts.
Import Markup HtmlLex SkipFacts.

Definition skipClass_from (t : text) (pos : Z) : Z :=
  ObjectParser.skipClass_loop (Z.to_nat (len t - pos)) t pos.

Definition skipRegex_from (t : text) (pos : Z) : Z :=
  ObjectParser.skipRegex_loop (Z.to_nat (len t - pos)) t pos.

Lemma skipClass_from_eq (t : text) (pos : Z) :
  skipClass_from t pos =
  if (pos <? len t) && negb (char_is t pos c_rbrack) then
    if char_is t pos c_backslash then skipClass_from t (pos + 2)
    else skipClass_from t (pos + 1)
  else pos.
Proof.
  unfold skipClass_from. destruct (pos <? len t) eqn:E.
  - apply Z.ltb_lt in E.
    replace (Z.to_nat (len t - pos)) with (S (Z.to_nat (len t - pos - 1))) by lia.
    cbn [ObjectParser.skipClass_loop]. apply Z.ltb_lt in E. rewrite E. apply Z.ltb_lt in E.
    cbn [andb]. destruct (negb (char_is t pos c_rbrack)); [|reflexivity].
    destruct (char_is t pos c_backslash); apply Fuel.skipClass_loop_fuel; lia.
  - apply Z.ltb_ge in E. replace (Z.to_nat (len t - pos)) with O by lia. reflexivity.
Qed.

Lemma skipRegex_from_eq (t : text) (pos : Z) :
  skipRegex_from t pos =
  if pos <? len t then
    if char_is t pos c_backslash then skipRegex_from t (pos + 2)
    else if char_is t pos c_slash then scan_fwd (test is_regex_flag) t (pos + 1)
    else if char_is t pos c_nl then pos
    else if char_is t pos c_lbrack then skipRegex_from t (skipClass_from t (pos + 1) + 1)
    else skipRegex_from t (pos + 1)
  else pos.
Proof.
  unfold skipRegex_from. destruct (pos <? len t) eqn:E.
  - apply Z.ltb_lt in E.
    replace (Z.to_nat (len t - pos)) with (S (Z.to_nat (len t - pos - 1))) by lia.
    cbn [ObjectParser.skipRegex_loop]. apply Z.ltb_lt in E. rewrite E. apply Z.ltb_lt in E.
    destruct (char_is t pos c_backslash); [apply Fuel.skipRegex_loop_fuel; lia|].
    destruct (char_is t pos c_slash); [reflexivity|].
    destruct (char_is t pos c_nl); [reflexivity|].
    destruct (char_is t pos c_lbrack); [|apply Fuel.skipRegex_loop_fuel; lia].
    unfold skipClass_from.
    pose proof (Progress.skipClass_loop_ge (Z.to_nat (len t - (pos + 1))) t (pos + 1)).
    apply Fuel.skipRegex_loop_fuel; lia.
  - apply Z.ltb_ge in E. replace (Z.to_nat (len t - pos)) with O by lia. reflexivity.
Qed.

(** A piece of the body of a regular expression literal: a character, an
    escaped character, or a character class. *)
Inductive RePiece : Type :=
  | Chr (c : Z)
  | Bsl (c : Z)
  | Cls (body : list StrPiece).

Definition render_re_piece (p : RePiece) : text :=
  match p with
  | Chr c => [c]
  | Bsl c => [c_backslash; c]
  | Cls body => c_lbrack :: render_str body ++ [c_rbrack]
  end.

Definition render_re (body : list RePiece) : text := flat_map render_re_piece body.

(** Inside a class only a backslash and the closing bracket are special. *)
Definition plain_in_class (p : StrPiece) : Prop :=
  match p with
  | Lit c => c <> c_backslash /\ c <> c_rbrack
  | Esc _ => True
  end.

(** Outside a class a character written as it is is no backslash, no [/],
    no line end and no opening bracket. *)
Definition plain_re (p : RePiece) : Prop :=
  match p with
  | Chr c => c <> c_backslash /\ c <> c_slash /\ c <> c_nl /\ c <> c_lbrack
  | Bsl _ => True
  | Cls body => Forall plain_in_class body
  end.

Lemma skipClass_from_body (t : text) (body : list StrPiece) :
  Forall plain_in_class body ->
  forall pos, text_at t pos (render_str body ++ [c_rbrack]) ->
    skipClass_from t pos = pos + len (render_str body).
Proof.
  induction 1 as [|p body Hp Hbody IH]; intros pos Ht.
  - change (render_str []) with (@nil Z) in *. rewrite len_nil, Z.add_0_r.
    cbn [app] in Ht. apply text_at_cons in Ht. destruct Ht as [Hc _].
    rewrite skipClass_from_eq. rewrite (proj2 (char_is_true t pos c_rbrack) Hc).
    rewrite andb_false_r. reflexivity.
  - change (render_str (p :: body)) with (render_str_piece p ++ render_str body) in *.
    rewrite <- app_assoc in Ht. rewrite len_app.
    destruct p as [c|c]; cbn [render_str_piece app] in Ht.
    + apply text_at_cons in Ht. destruct Ht as [Hc Ht]. cbn [plain_in_class] in Hp.
      rewrite skipClass_from_eq.
      pose proof (char_at_Some _ _ _ Hc) as Hr.
      replace (pos <? len t) with true by (symmetry; apply Z.ltb_lt; lia).
      rewrite !(char_is_of_char_at t pos c _ Hc).
      replace (c =? c_backslash) with false by (symmetry; apply Z.eqb_neq; tauto).
      replace (c =? c_rbrack) with false by (symmetry; apply Z.eqb_neq; tauto).
      cbn [andb negb]. rewrite (IH _ Ht). cbn [render_str_piece].
      rewrite len_cons, len_nil. lia.
    + apply text_at_cons in Ht. destruct Ht as [Hc Ht].
      apply text_at_cons in Ht. destruct Ht as [_ Ht].
      rewrite skipClass_from_eq.
      pose proof (char_at_Some _ _ _ Hc) as Hr.
      replace (pos <? len t) with true by (symmetry; apply Z.ltb_lt; lia).
      rewrite !(char_is_of_char_at t pos c_backslash _ Hc).
      change (c_backslash =? c_rbrack) with false.
      change (c_backslash =? c_backslash) with true. cbn [andb negb].
      replace (pos + 2) with (pos + 1 + 1) by lia. rewrite (IH _ Ht).
      cbn [render_str_piece]. rewrite !len_cons, len_nil. lia.
Qed.

Lemma skipRegex_from_body (t : text) (body : list RePiece) :
  Forall plain_re body ->
  forall pos rest, text_at t pos (render_re body ++ rest) ->
    skipRegex_from t pos = skipRegex_from t (pos + len (render_re body)).
Proof.
  induction 1 as [|p body Hp Hbody IH]; intros pos rest Ht.
  - change (render_re []) with (@nil Z). rewrite len_nil, Z.add_0_r. reflexivity.
  - change (render_re (p :: body)) with (render_re_piece p ++ render_re body) in *.
    rewrite <- app_assoc in Ht. rewrite len_app.
    destruct p as [c|c|cls]; cbn [render_re_piece app] in Ht.
    + apply text_at_cons in Ht. destruct Ht as [Hc Ht]. cbn [plain_re] in Hp.
      rewrite skipRegex_from_eq.
      pose proof (char_at_Some _ _ _ Hc) as Hr.
      replace (pos <? len t) with true by (symmetry; apply Z.ltb_lt; lia).
      rewrite !(char_is_of_char_at t pos c _ Hc).
      replace (c =? c_backslash) with false by (symmetry; apply Z.eqb_neq; tauto).
      replace (c =? c_slash) with false by (symmetry; apply Z.eqb_neq; tauto).
      replace (c =? c_nl) with false by (symmetry; apply Z.eqb_neq; tauto).
      replace (c =? c_lbrack) with false by (symmetry; apply Z.eqb_neq; tauto).
      rewrite (IH _ _ Ht). f_equal. cbn [render_re_piece].
      rewrite len_cons, len_nil. lia.
    + apply text_at_cons in Ht. destruct Ht as [Hc Ht].
      apply text_at_cons in Ht. destruct Ht as [_ Ht].
      rewrite skipRegex_from_eq.
      pose proof (char_at_Some _ _ _ Hc) as Hr.
      replace (pos <? len t) with true by (symmetry; apply Z.ltb_lt; lia).
      rewrite (proj2 (char_is_true t pos c_backslash) Hc).
      replace (pos + 2) with (pos + 1 + 1) by lia. rewrite (IH _ _ Ht). f_equal.
      cbn [render_re_piece]. rewrite !len_cons, len_nil. lia.
    + apply text_at_cons in Ht. destruct Ht as [Hc Ht]. cbn [plain_re] in Hp.
      rewrite <- app_assoc in Ht.
      apply text_at_app in Ht. destruct Ht as [Hcls Ht].
      assert (Hcls' : text_at t (pos + 1) (render_str cls ++ [c_rbrack])).
      { apply text_at_app. split; [exact Hcls|].
        cbn [app] in Ht. apply text_at_cons in Ht. destruct Ht as [Hb Ht'].
        apply text_at_cons. split; [exact Hb|]. apply text_at_nil.
        destruct Ht' as [Hr' _]. exact Hr'. }
      cbn [app] in Ht. apply text_at_cons in Ht. destruct Ht as [_ Ht].
      rewrite skipRegex_from_eq.
      pose proof (char_at_Some _ _ _ Hc) as Hr.
      replace (pos <? len t) with true by (symmetry; apply Z.ltb_lt; lia).
      rewrite !(char_is_of_char_at t pos c_lbrack _ Hc).
      change (c_lbrack =? c_backslash) with false.
      change (c_lbrack =? c_slash) with false.
      change (c_lbrack =? c_nl) with false.
      change (c_lbrack =? c_lbrack) with true.
      rewrite (skipClass_from_body t cls Hp (pos + 1) Hcls').
      rewrite (IH _ _ Ht). f_equal. cbn [render_re_piece].
      rewrite len_cons, len_app, len_cons, len_nil. lia.
Qed.

End RegexFacts.

Section RegexExtras.

Import Markup SkipFacts RegexFacts.

(** X24.  [ObjectParser.skipRegex] on a regular expression literal whose
    body is made of characters, escaped characters and character classes.
    A [/] that is escaped or stands in a class does not end the literal,
    and neither does a line end there; the literal ends at the first [/]
    outside of them, and the result is the offset after the flags that
    follow it.  A line end outside a class and not escaped ends the scan at
    the line end, which is not consumed, and a literal the text ends in ends
    at the end of the text. *)
Theorem X24_skipRegex (t : text) (pos : Z) (body : list RePiece) :
  Forall plain_re body ->
  let after := pos + 1 + len (render_re body) in
  (text_at t pos (c_slash :: render_re body ++ [c_slash]) ->
   let r := ObjectParser.skipRegex t pos in
   after + 1 <= r <= len t /\
   (forall j, after + 1 <= j < r -> test is_regex_flag (char_at t j) = true) /\
   (r < len t -> test is_regex_flag (char_at t r) = false)) /\
  (text_at t pos (c_slash :: render_re body ++ [c_nl]) ->
   ObjectParser.skipRegex t pos = after) /\
  (text_at t pos (c_slash :: render_re body) -> after = len t ->
   ObjectParser.skipRegex t pos = len t).
Proof.
  intros Hbody after.
  assert (Hskip : forall stop, text_at t pos (c_slash :: render_re body ++ stop) ->
            ObjectParser.skipRegex t pos = skipRegex_from t after).
  { intros stop Ht. apply HtmlLex.text_at_cons in Ht. destruct Ht as [_ Ht].
    unfold ObjectParser.skipRegex. fold (skipRegex_from t (pos + 1)).
    rewrite (skipRegex_from_body t body Hbody (pos + 1) stop Ht). reflexivity. }
  assert (Hstop : forall c, text_at t pos (c_slash :: render_re body ++ [c]) ->
            char_at t after = Some c /\ after < len t).
  { intros c Ht. apply HtmlLex.text_at_cons in Ht. destruct Ht as [_ Ht].
    apply HtmlLex.text_at_app in Ht. destruct Ht as [_ Ht].
    apply HtmlLex.text_at_cons in Ht. destruct Ht as [Hc _].
    split; [exact Hc|]. apply char_at_Some in Hc. lia. }
  split; [|split].
  - intros Ht r. unfold r. rewrite (Hskip _ Ht). destruct (Hstop _ Ht) as [Hc Hlt].
    rewrite skipRegex_from_eq.
    replace (after <? len t) with true by (symmetry; apply Z.ltb_lt; lia).
    rewrite !(HtmlLex.char_is_of_char_at t after c_slash _ Hc).
    change (c_slash =? c_backslash) with false. change (c_slash =? c_slash) with true.
    cbv iota.
    pose proof (scan_fwd_ge (test is_regex_flag) t (after + 1)) as Hge.
    pose proof (scan_fwd_le (test is_regex_flag) t (after + 1) ltac:(lia)) as Hle.
    split; [lia|]. split.
    + intros j Hj. apply (scan_fwd_run _ t (after + 1) j Hj).
    + apply scan_fwd_stop.
  - intro Ht. rewrite (Hskip _ Ht). destruct (Hstop _ Ht) as [Hc Hlt].
    rewrite skipRegex_from_eq.
    replace (after <? len t) with true by (symmetry; apply Z.ltb_lt; lia).
    rewrite !(HtmlLex.char_is_of_char_at t after c_nl _ Hc). reflexivity.
  - intros Ht Hend. rewrite <- (app_nil_r (render_re body)) in Ht.
    rewrite (Hskip _ Ht). rewrite skipRegex_from_eq, Hend, Z.ltb_irrefl. reflexivity.
Qed.

Lemma X24_skipRegex_witness :
  let t := str "x = /a[/]\/b/gi;" in
  12 + 1 <= ObjectParser.skipRegex t 4 <= len t /\ ObjectParser.skipRegex t 4 = 15.
Proof.
  intro t.
  assert (Hbody : Forall plain_re [Chr 97; Cls [Lit c_slash]; Bsl c_slash; Chr 98]).
  { repeat constructor; discriminate. }
  assert (Ht : text_at t 4
                 (c_slash :: render_re [Chr 97; Cls [Lit c_slash]; Bsl c_slash; Chr 98]
                    ++ [c_slash])).
  { split; [vm_compute; split; discriminate|]. intros j c Hj.
    do 9 (destruct j as [|j]; [inversion Hj; reflexivity|]). destruct j; discriminate. }
  destruct (X24_skipRegex t 4 _ Hbody) as [H _].
  split; [exact (proj1 (H Ht))|reflexivity].
Defined.

End RegexExtras.

(** ** ObjectParser: the parentheses before a brace *)

Module ParenFacts.
Import Markup HtmlLex ObjectParser.

Definition paren_back_from (t : text) (i depth : Z) : Z :=
  paren_back_loop (Z.to_nat (i + 1)) t i depth.

Lemma paren_back_from_eq (t : text) (i depth : Z) :
  paren_back_from t i depth =
  if (0 <=? i) && (0 <? depth) then
    if char_is t i c_rparen then paren_back_from t (i - 1) (depth + 1)
    else if char_is t i c_lparen then paren_back_from t (i - 1) (depth - 1)
    else paren_back_from t (i - 1) depth
  else i.
Proof.
  unfold paren_back_from. destruct (0 <=? i) eqn:E.
  - apply Z.leb_le in E.
    replace (Z.to_nat (i + 1)) with (S (Z.to_nat (i - 1 + 1))) by lia.
    cbn [paren_back_loop]. apply Z.leb_le in E. rewrite E. reflexivity.
  - apply Z.leb_gt in E. replace (Z.to_nat (i + 1)) with O by lia. reflexivity.
Qed.

(** Text in which every parenthesis has its partner, built from the
    right as the backward search reads it. *)
Inductive balanced : text -> Prop :=
  | bal_nil : balanced []
  | bal_char (w : text) (c : Z) :
      balanced w -> c <> c_lparen -> c <> c_rparen -> balanced (w ++ [c])
  | bal_group (w u : text) :
      balanced w -> balanced u -> balanced (w ++ c_lparen :: u ++ [c_rparen]).

(** The backward search crosses balanced text at the depth it entered
    with. *)
Lemma paren_back_balanced (t : text) (w : text) :
  balanced w ->
  forall p d, 0 < d -> text_at t p w ->
    paren_back_from t (p + len w - 1) d = paren_back_from t (p - 1) d.
Proof.
  induction 1 as [|w c Hw IH Hl Hr|w u Hw IHw Hu IHu]; intros p d Hd Ht.
  - rewrite len_nil. f_equal. lia.
  - apply text_at_app in Ht. destruct Ht as [Htw Htc].
    apply text_at_cons in Htc. destruct Htc as [Hc _].
    pose proof (char_at_Some _ _ _ Hc) as Hrg.
    rewrite len_app, len_cons, len_nil.
    replace (p + (len w + (1 + 0)) - 1) with (p + len w) by lia.
    rewrite paren_back_from_eq.
    replace (0 <=? p + len w) with true by (symmetry; apply Z.leb_le; lia).
    replace (0 <? d) with true by (symmetry; apply Z.ltb_lt; lia). cbn [andb].
    rewrite !(char_is_of_char_at t _ c _ Hc).
    replace (c =? c_rparen) with false by (symmetry; apply Z.eqb_neq; exact Hr).
    replace (c =? c_lparen) with false by (symmetry; apply Z.eqb_neq; exact Hl).
    apply IH; assumption.
  - apply text_at_app in Ht. destruct Ht as [Htw Htg].
    apply text_at_cons in Htg. destruct Htg as [Hopen Htg].
    apply text_at_app in Htg. destruct Htg as [Htu Htc].
    apply text_at_cons in Htc. destruct Htc as [Hclose _].
    pose proof (char_at_Some _ _ _ Hopen) as Hrg.
    rewrite len_app, len_cons, len_app, len_cons, len_nil.
    replace (p + (len w + (1 + (len u + (1 + 0)))) - 1) with (p + len w + 1 + len u) by lia.
    rewrite paren_back_from_eq.
    pose proof (len_nonneg u) as Hu0.
    replace (0 <=? p + len w + 1 + len u) with true by (symmetry; apply Z.leb_le; lia).
    replace (0 <? d) with true by (symmetry; apply Z.ltb_lt; lia). cbn [andb].
    rewrite (proj2 (char_is_true t _ c_rparen) Hclose).
    rewrite (IHu (p + len w + 1) (d + 1) ltac:(lia) Htu).
    replace (p + len w + 1 - 1) with (p + len w) by lia.
    rewrite paren_back_from_eq.
    replace (0 <=? p + len w) with true by (symmetry; apply Z.leb_le; lia).
    replace (0 <? d + 1) with true by (symmetry; apply Z.ltb_lt; lia). cbn [andb].
    rewrite !(char_is_of_char_at t _ c_lparen _ Hopen).
    change (c_lparen =? c_rparen) with false. change (c_lparen =? c_lparen) with true.
    cbv iota. replace (d + 1 - 1) with d by lia.
    apply IHw; assumption.
Qed.

(** From the [)] of a balanced pair the search stops before its [(]. *)
Lemma paren_back_matching (t : text) (o : Z) (w : text) :
  balanced w -> text_at t o (c_lparen :: w ++ [c_rparen]) ->
  paren_back_from t (o + 1 + len w - 1) 1 = o - 1.
Proof.
  intros Hw Ht. apply text_at_cons in Ht. destruct Ht as [Hopen Ht].
  apply text_at_app in Ht. destruct Ht as [Htw _].
  pose proof (char_at_Some _ _ _ Hopen) as Hrg.
  rewrite (paren_back_balanced t w Hw (o + 1) 1 ltac:(lia) Htw).
  replace (o + 1 - 1) with o by lia.
  rewrite paren_back_from_eq.
  replace (0 <=? o) with true by (symmetry; apply Z.leb_le; lia). cbn [andb Z.ltb Z.compare].
  rewrite !(char_is_of_char_at t _ c_lparen _ Hopen).
  change (c_lparen =? c_rparen) with false. change (c_lparen =? c_lparen) with true.
  cbv iota. rewrite paren_back_from_eq. rewrite andb_false_r. reflexivity.
Qed.

End ParenFacts.

Section ParenExtras.

Import Markup ObjectParser ParenFacts.

Lemma has_In (set : list text) (s : text) : has set s = true <-> In s set.
Proof.
  unfold has. rewrite existsb_exists. split.
  - intros [x [Hin Heq]]. apply str_eqb_eq in Heq. subst x. exact Hin.
  - intro Hin. exists s. split; [exact Hin|apply str_eqb_refl].
Qed.

(** X25.  A brace after a parenthesised group, in [ObjectParser].  When
    the nearest character before the brace that is not white space is a [)]
    and the text between it and a [(] is balanced, [getParenContext] finds
    that [(], however deep the parentheses nest between the two.  The group
    is a control header exactly when the letters that end at the nearest
    character before the [(] that is not white space spell a keyword of
    [BLOCK_KEYWORDS]; it is of unknown kind exactly when only white space
    stands before the [(]; and the brace is a block in these two cases and
    an object literal in all others. *)
Theorem X25_brace_after_parens (t : text) (o position : Z) (w : text) :
  balanced w ->
  text_at t o (c_lparen :: w ++ [c_rparen]) ->
  scan_back (test is_space) t (position - 1) = o + 1 + len w ->
  let j := scan_back (test is_space) t (o - 1) in
  (getParenContext t (o + 1 + len w) = control <->
   exists keyword, getKeywordBefore t j = Some keyword /\ In keyword BLOCK_KEYWORDS) /\
  (getParenContext t (o + 1 + len w) = unknown <-> j < 0) /\
  (isObjectContext t position = false <->
   j < 0 \/ exists keyword, getKeywordBefore t j = Some keyword /\ In keyword BLOCK_KEYWORDS).
Proof.
  intros Hw Ht Hscan j.
  pose proof (paren_back_matching t o w Hw Ht) as Hback.
  assert (Hclose : char_is t (o + 1 + len w) c_rparen = true).
  { apply HtmlLex.text_at_cons in Ht. destruct Ht as [_ Ht].
    apply HtmlLex.text_at_app in Ht. destruct Ht as [_ Ht].
    apply HtmlLex.text_at_cons in Ht. destruct Ht as [Hc _].
    apply char_is_true. exact Hc. }
  pose proof (char_is_in_range _ _ _ Hclose) as Hrg.
  assert (Hctx : getParenContext t (o + 1 + len w) =
                 if j <? 0 then unknown
                 else if match getKeywordBefore t j with
                         | Some keyword => has BLOCK_KEYWORDS keyword
                         | None => false
                         end
                      then control
                      else
                        let k := scan_fwd (test is_space) t (o + 1 + len w + 1) in
                        if (k <? len t - 1) && char_is t k c_eq && char_is t (k + 1) c_gt
                        then arrow else call).
  { unfold getParenContext. cbv zeta.
    replace (Z.to_nat (o + 1 + len w)) with (Z.to_nat (o + 1 + len w - 1 + 1)) by lia.
    fold (paren_back_from t (o + 1 + len w - 1) 1). rewrite Hback.
    replace (o - 1 + 1 - 1) with (o - 1) by lia. reflexivity. }
  assert (Hneg : j < 0 -> getKeywordBefore t j = None).
  { intro Hj. unfold getKeywordBefore.
    replace (j <? 0) with true by (symmetry; apply Z.ltb_lt; exact Hj). reflexivity. }
  assert (Hcontrol : getParenContext t (o + 1 + len w) = control <->
            exists keyword, getKeywordBefore t j = Some keyword /\ In keyword BLOCK_KEYWORDS).
  { rewrite Hctx. destruct (j <? 0) eqn:Ej.
    - apply Z.ltb_lt in Ej. split; [discriminate|].
      intros [keyword [Hk _]]. rewrite (Hneg Ej) in Hk. discriminate.
    - destruct (getKeywordBefore t j) as [keyword|] eqn:Ek.
      + destruct (has BLOCK_KEYWORDS keyword) eqn:Eh.
        * split; [|reflexivity]. intros _. exists keyword.
          split; [reflexivity|apply has_In; exact Eh].
        * split.
          -- cbv zeta. destruct (_ && _ && _); discriminate.
          -- intros [kw [Hk Hin]]. inversion Hk; subst kw.
             apply has_In in Hin. congruence.
      + split.
        * cbv zeta. destruct (_ && _ && _); discriminate.
        * intros [kw [Hk _]]. discriminate. }
  assert (Hunknown : getParenContext t (o + 1 + len w) = unknown <-> j < 0).
  { rewrite Hctx. destruct (j <? 0) eqn:Ej.
    - apply Z.ltb_lt in Ej. split; [intros _; exact Ej|reflexivity].
    - apply Z.ltb_ge in Ej. split; [|lia].
      destruct (match getKeywordBefore t j with Some _ => _ | None => _ end);
        [discriminate|]. cbv zeta. destruct (_ && _ && _); discriminate. }
  split; [exact Hcontrol|]. split; [exact Hunknown|].
  assert (Hnot : forall d, d <> c_rparen -> char_is t (o + 1 + len w) d = false)
    by (intros d Hd; apply (char_is_other _ _ _ _ Hclose); intro E; apply Hd; symmetry; exact E).
  assert (Hobj : isObjectContext t position =
                 match getParenContext t (o + 1 + len w) with
                 | control | unknown => false
                 | arrow | call => true
                 end).
  { unfold isObjectContext. cbv zeta. rewrite Hscan.
    replace (o + 1 + len w <? 0) with false by (symmetry; apply Z.ltb_ge; lia).
    rewrite (Hnot c_gt) by discriminate. cbn [andb].
    assert (Hex : existsb (fun c0 => char_is t (o + 1 + len w) c0) OBJECT_CONTEXT_CHARS = false).
    { unfold OBJECT_CONTEXT_CHARS. cbn [existsb]. rewrite !Hnot by discriminate. reflexivity. }
    rewrite Hex, Hclose.
    assert (Hk : getKeywordBefore t (o + 1 + len w) = None).
    { unfold getKeywordBefore. apply char_is_true in Hclose. rewrite Hclose.
      replace (o + 1 + len w <? 0) with false by (symmetry; apply Z.ltb_ge; lia).
      reflexivity. }
    rewrite Hk. reflexivity. }
  rewrite Hobj. rewrite <- Hcontrol, <- Hunknown.
  destruct (getParenContext t (o + 1 + len w)); split; intro H;
    try reflexivity; try discriminate; try (destruct H as [H|H]; discriminate);
    try (left; reflexivity); right; reflexivity.
Qed.

Lemma X25_brace_after_parens_witness :
  isObjectContext (str "if ((a)) {") 9 = false /\
  isObjectContext (str "f((a)) {") 7 = true.
Proof.
  split.
  - assert (Ha : balanced (str "a"))
      by exact (bal_char [] 97 bal_nil ltac:(discriminate) ltac:(discriminate)).
    assert (Hw : balanced (str "(a)")) by exact (bal_group [] (str "a") bal_nil Ha).
    apply (X25_brace_after_parens (str "if ((a)) {") 3 9 _ Hw).
    + split; [vm_compute; split; discriminate|]. intros k c Hk.
      do 5 (destruct k as [|k]; [inversion Hk; reflexivity|]). destruct k; discriminate.
    + reflexivity.
    + right. exists (str "if"). split; [reflexivity|]. left. reflexivity.
  - reflexivity.
Defined.

End ParenExtras.

(** ** The decorations: from the ranges to the calls on the editor *)

Module DecorationFacts.
Import DecorationManager.

Lemma get_set_levels (count : nat) :
  forall i k, get (set_levels count i) k =
              if (i <=? k) && (k <? i + Z.of_nat count) then Some [] else None.
Proof.
  induction count as [|n IH]; intros i k; cbn [set_levels get].
  - destruct (i <=? k) eqn:E1; [|reflexivity]. cbn [andb].
    destruct (k <? i + Z.of_nat 0) eqn:E2; [|reflexivity].
    apply Z.leb_le in E1. apply Z.ltb_lt in E2. lia.
  - destruct (i =? k) eqn:E.
    + apply Z.eqb_eq in E. subst k.
      replace (i <=? i) with true by (symmetry; apply Z.leb_le; lia).
      replace (i <? i + Z.of_nat (S n)) with true by (symmetry; apply Z.ltb_lt; lia).
      reflexivity.
    + apply Z.eqb_neq in E. rewrite IH.
      destruct (i + 1 <=? k) eqn:E1; destruct (i <=? k) eqn:E2; cbn [andb];
        try reflexivity;
        try (apply Z.leb_le in E1; apply Z.leb_gt in E2; lia);
        try (apply Z.leb_gt in E1; apply Z.leb_le in E2; lia).
      replace (i + 1 + Z.of_nat n) with (i + Z.of_nat (S n)) by lia. reflexivity.
Qed.

Lemma get_push_at (rangesByLevel : LevelMap) (level : Z) (r : Range) (k : Z) :
  get (push_at rangesByLevel level r) k =
  if k =? level then option_map (fun l => l ++ [r]) (get rangesByLevel level)
  else get rangesByLevel k.
Proof.
  induction rangesByLevel as [|[j l] rest IH]; cbn [push_at get option_map].
  - destruct (k =? level); reflexivity.
  - destruct (j =? level) eqn:Ej; cbn [get option_map].
    + apply Z.eqb_eq in Ej. subst j. rewrite (Z.eqb_sym level k).
      destruct (k =? level); reflexivity.
    + destruct (k =? level) eqn:Ek.
      * apply Z.eqb_eq in Ek. subst k. rewrite Ej. exact IH.
      * destruct (j =? k); [reflexivity|exact IH].
Qed.

(** The ranges of a level, in the order of the list. *)
Definition at_level (numColors : Z) (level : Z) (ranges : list ColoredRange) : list Range :=
  map range (filter (fun r => Z.rem (depth r) numColors =? level) ranges).

Lemma at_level_snoc (numColors level : Z) (ranges : list ColoredRange) (r : ColoredRange) :
  at_level numColors level (ranges ++ [r]) =
  if Z.rem (depth r) numColors =? level
  then at_level numColors level ranges ++ [range r]
  else at_level numColors level ranges.
Proof.
  unfold at_level. rewrite filter_app, map_app. cbn [filter].
  destruct (Z.rem (depth r) numColors =? level); cbn [map]; [reflexivity|apply app_nil_r].
Qed.

(** The map holds, for each level, the ranges of that level seen so far. *)
Definition holds (numColors : Z) (rangesByLevel : LevelMap) (seen : list ColoredRange) : Prop :=
  forall k, get rangesByLevel k =
            if (0 <=? k) && (k <? numColors) then Some (at_level numColors k seen) else None.

Lemma holds_set_levels (count : nat) : holds (Z.of_nat count) (set_levels count 0) [].
Proof. intro k. rewrite get_set_levels. cbn [Z.add]. reflexivity. Qed.

Lemma holds_push (numColors : Z) (rangesByLevel : LevelMap) (seen : list ColoredRange)
    (r : ColoredRange) :
  holds numColors rangesByLevel seen ->
  0 <= Z.rem (depth r) numColors < numColors ->
  holds numColors (push_at rangesByLevel (Z.rem (depth r) numColors) (range r)) (seen ++ [r]).
Proof.
  intros H Hr k. rewrite get_push_at, at_level_snoc.
  destruct (k =? Z.rem (depth r) numColors) eqn:E.
  - apply Z.eqb_eq in E. subst k. rewrite H.
    replace (0 <=? Z.rem (depth r) numColors) with true by (symmetry; apply Z.leb_le; lia).
    replace (Z.rem (depth r) numColors <? numColors) with true
      by (symmetry; apply Z.ltb_lt; lia).
    cbn [andb option_map]. rewrite Z.eqb_refl. reflexivity.
  - rewrite H. rewrite (Z.eqb_sym _ k), E. reflexivity.
Qed.

Lemma rem_lt (d numColors : Z) : 0 < numColors -> Z.rem d numColors < numColors.
Proof.
  intro Hn. pose proof (Z.rem_bound_abs d numColors ltac:(lia)). lia.
Qed.

Lemma group_holds (numColors : Z) (ranges : list ColoredRange) :
  0 < numColors ->
  forall rangesByLevel seen, holds numColors rangesByLevel seen ->
    (Exists (fun r => Z.rem (depth r) numColors < 0) ranges /\
     group numColors ranges rangesByLevel = ObjectParser.Throw) \/
    (Forall (fun r => 0 <= Z.rem (depth r) numColors) ranges /\
     exists rangesByLevel',
       group numColors ranges rangesByLevel = ObjectParser.Ok rangesByLevel' /\
       holds numColors rangesByLevel' (seen ++ ranges)).
Proof.
  intro Hn. induction ranges as [|r ranges IH]; intros lm seen H; cbn [group].
  - right. split; [constructor|]. exists lm. split; [reflexivity|].
    rewrite app_nil_r. exact H.
  - cbv zeta. pose proof (rem_lt (depth r) numColors Hn) as Hlt.
    pose proof (H (Z.rem (depth r) numColors)) as Hget.
    destruct (0 <=? Z.rem (depth r) numColors) eqn:E0.
    + apply Z.leb_le in E0.
      replace (Z.rem (depth r) numColors <? numColors) with true in Hget
        by (symmetry; apply Z.ltb_lt; lia).
      cbn [andb] in Hget.
      destruct (IH _ _ (holds_push numColors lm seen r H ltac:(lia)))
        as [[Hex Ht]|[Hall [lm' [Hok Hh]]]].
      * left. split; [apply Exists_cons_tl; exact Hex|rewrite Hget; exact Ht].
      * right. split; [constructor; assumption|]. exists lm'.
        split; [rewrite Hget; exact Hok|].
        rewrite <- app_assoc in Hh. exact Hh.
    + apply Z.leb_gt in E0. cbn [andb] in Hget. left.
      split; [apply Exists_cons_hd; exact E0|rewrite Hget; reflexivity].
Qed.

Lemma set_all_types (types : list TextEditorDecorationType) (rangesByLevel : LevelMap) :
  forall i, map decorationType (set_all types i rangesByLevel) = types.
Proof.
  induction types as [|ty rest IH]; intro i; cbn [set_all map]; [reflexivity|].
  rewrite IH. reflexivity.
Qed.

Lemma set_all_nth (types : list TextEditorDecorationType) (rangesByLevel : LevelMap) :
  forall i j call, nth_error (set_all types i rangesByLevel) j = Some call ->
    levelRanges call =
    match get rangesByLevel (i + Z.of_nat j) with Some l => l | None => [] end /\
    (j < List.length types)%nat.
Proof.
  induction types as [|ty rest IH]; intros i j call H; cbn [set_all] in H.
  - destruct j; discriminate.
  - destruct j as [|j]; cbn [nth_error] in H.
    + inversion H; subst call. cbn [levelRanges]. rewrite Z.add_0_r.
      split; [reflexivity|cbn; lia].
    + destruct (IH _ _ _ H) as [H1 H2].
      replace (i + Z.of_nat (S j)) with (i + 1 + Z.of_nat j) by lia.
      split; [exact H1|cbn; lia].
Qed.

Lemma clear_is_set_all (types : list TextEditorDecorationType) (rangesByLevel : LevelMap) :
  (forall k, get rangesByLevel k = None \/ get rangesByLevel k = Some []) ->
  forall i, set_all types i rangesByLevel = map (fun ty => setDecorations ty []) types.
Proof.
  intro H. induction types as [|ty rest IH]; intro i; cbn [set_all map]; [reflexivity|].
  rewrite IH. destruct (H i) as [E|E]; rewrite E; reflexivity.
Qed.

(** What [applyDecorations] does, when there is a decoration type. *)
Lemma applyDecorations_cases (m : Manager) (ranges : list ColoredRange) :
  decorationTypes m <> [] ->
  let numColors := len (decorationTypes m) in
  (Exists (fun r => Z.rem (depth r) numColors < 0) ranges /\
   applyDecorations m ranges = ObjectParser.Throw) \/
  (Forall (fun r => 0 <= Z.rem (depth r) numColors) ranges /\
   exists calls,
     applyDecorations m ranges = ObjectParser.Ok calls /\
     map decorationType calls = decorationTypes m /\
     forall j call, nth_error calls j = Some call ->
       levelRanges call = at_level numColors (Z.of_nat j) ranges).
Proof.
  intros Hne numColors. unfold applyDecorations. fold numColors.
  assert (Hn : 0 < numColors).
  { unfold numColors, len. destruct (decorationTypes m); [contradiction|cbn; lia]. }
  replace (numColors =? 0) with false by (symmetry; apply Z.eqb_neq; lia). cbv zeta.
  destruct (group_holds numColors ranges Hn _ [] (holds_set_levels _))
    as [[Hex Ht]|[Hall [lm [Hok Hh]]]].
  - left. split; [exact Hex|]. unfold numColors, len in Ht |- *. rewrite Ht. reflexivity.
  - right. split; [exact Hall|]. unfold numColors, len in Hok |- *. rewrite Hok.
    eexists. split; [reflexivity|]. split; [apply set_all_types|].
    intros j call Hj. destruct (set_all_nth _ _ _ _ _ Hj) as [H1 H2].
    rewrite H1. cbn [app] in Hh. rewrite Z.add_0_l, (Hh (Z.of_nat j)).
    replace (0 <=? Z.of_nat j) with true by (symmetry; apply Z.leb_le; lia).
    replace (Z.of_nat j <? numColors) with true
      by (symmetry; apply Z.ltb_lt; unfold numColors, len; lia).
    reflexivity.
Qed.

End DecorationFacts.

Module ExtensionFacts.
Import Configuration DecorationManager DecorationFacts Extension.

Lemma clearDecorations_types (m : Manager) :
  map decorationType (clearDecorations m) = decorationTypes m.
Proof.
  unfold clearDecorations. rewrite map_map. cbn [decorationType]. apply map_id.
Qed.

Lemma applyDecorations_nil (m : Manager) :
  applyDecorations m [] = ObjectParser.Ok (clearDecorations m).
Proof.
  unfold applyDecorations, clearDecorations.
  destruct (len (decorationTypes m) =? 0) eqn:E.
  - apply Z.eqb_eq in E. unfold len in E.
    destruct (decorationTypes m); [reflexivity|cbn in E; lia].
  - cbn [group]. f_equal. apply clear_is_set_all. intro k. rewrite get_set_levels.
    destruct (_ && _); [right|left]; reflexivity.
Qed.

(** Ranges of depths that are not negative are applied, a call for each
    decoration type. *)
Lemma applyDecorations_nonneg (m : Manager) (ranges : list ColoredRange) :
  Forall (fun r => 0 <= depth r) ranges ->
  exists calls, applyDecorations m ranges = ObjectParser.Ok calls /\
                map decorationType calls = decorationTypes m.
Proof.
  intro Hall. destruct (decorationTypes m) as [|ty types] eqn:Et.
  - exists []. split; [|reflexivity]. unfold applyDecorations. rewrite Et. reflexivity.
  - assert (Hne : decorationTypes m <> []) by (rewrite Et; discriminate).
    destruct (applyDecorations_cases m ranges Hne) as [[Hex _]|[_ [calls [Hok [Hty _]]]]].
    + exfalso. apply Exists_exists in Hex. destruct Hex as [r [Hin Hr]].
      rewrite Forall_forall in Hall. specialize (Hall r Hin).
      assert (Hn : 0 < len (decorationTypes m))
        by (rewrite Et, len_cons; pose proof (len_nonneg types); lia).
      pose proof (Z.rem_nonneg (depth r) (len (decorationTypes m)) ltac:(lia) Hall). lia.
    + exists calls. rewrite <- Et. split; assumption.
Qed.

(** The three parsers return, and with depths that are not negative. *)
Lemma parse_nonneg (config : HtmlRainbowConfig) (parser : Parser) (t : text) :
  exists ranges, parse config parser t = ObjectParser.Ok ranges /\
                 Forall (fun r => 0 <= depth r) ranges.
Proof.
  destruct parser; cbn [parse].
  - eexists. split; [reflexivity|].
    unfold HtmlParser.parse, HtmlParser.parse_state.
    apply HtmlFacts.parse_tags_nonneg. constructor.
  - eexists. split; [reflexivity|].
    unfold JsxParser.parse, JsxParser.tokenize, JsxParser.tokenize_state.
    destruct (JsxFacts.inv_tokenize_loop (List.length t)
                (JsxParser.mkConfig (objectBraces_colorizeKeys config)
                   (objectBraces_enabled config)) t JsxParser.init
                JsxFacts.inv_init_jsx) as [_ [_ [_ H]]].
    apply Forall_map. eapply Forall_impl; [|exact H]. intros tk Htk. exact Htk.
  - apply ObjectFacts.parse_ok.
Qed.

(** The languages that have a parser. *)
Lemma getParser_cases (languageId : text) :
  match getParser languageId with
  | Some htmlParser => languageId = str "html" \/ languageId = str "xml"
  | Some jsxParser =>
      languageId = str "javascriptreact" \/ languageId = str "typescriptreact"
  | Some objectParser => languageId = str "javascript" \/ languageId = str "typescript"
  | None =>
      ~ In languageId (map str [ "html"; "xml"; "javascriptreact"; "typescriptreact";
                                 "javascript"; "typescript" ]%string)
  end.
Proof.
  unfold getParser, isHtmlLanguage, isJsxLanguage, isJsTsLanguage.
  destruct (str_eqb languageId (str "html")) eqn:E1;
    [apply str_eqb_eq in E1; left; exact E1|].
  destruct (str_eqb languageId (str "xml")) eqn:E2;
    [apply str_eqb_eq in E2; right; exact E2|].
  destruct (str_eqb languageId (str "javascriptreact")) eqn:E3;
    [apply str_eqb_eq in E3; left; exact E3|].
  destruct (str_eqb languageId (str "typescriptreact")) eqn:E4;
    [apply str_eqb_eq in E4; right; exact E4|].
  destruct (str_eqb languageId (str "javascript")) eqn:E5;
    [apply str_eqb_eq in E5; left; exact E5|].
  destruct (str_eqb languageId (str "typescript")) eqn:E6;
    [apply str_eqb_eq in E6; right; exact E6|].
  cbn [orb map In]. apply str_eqb_neq in E1, E2, E3, E4, E5, E6.
  intros [H|[H|[H|[H|[H|[H|[]]]]]]]; congruence.
Qed.

End ExtensionFacts.

Section DecorationExtras.

Import Configuration DecorationManager DecorationFacts Extension ExtensionFacts.

(** X26.  [DecorationManager.applyDecorations] with a palette of
    [numColors] decoration types.  With no type it sets nothing.  Otherwise
    it throws exactly when the remainder of some depth by [numColors] is
    negative, no array being there for such a level; and on depths that
    are not negative it calls [editor.setDecorations] once for each type,
    in the order of the palette, the call of index [j] with the ranges whose
    depth is [j] modulo [numColors], in the order of the list: each range
    goes to one colour, and the colours repeat every [numColors] depths.
    With no range at all it does what [clearDecorations] does. *)
Theorem X26_applyDecorations (m : Manager) (ranges : list ColoredRange) :
  let numColors := len (decorationTypes m) in
  (decorationTypes m = [] -> applyDecorations m ranges = ObjectParser.Ok []) /\
  applyDecorations m [] = ObjectParser.Ok (clearDecorations m) /\
  (decorationTypes m <> [] ->
   (applyDecorations m ranges = ObjectParser.Throw <->
    Exists (fun r => Z.rem (depth r) numColors < 0) ranges) /\
   (Forall (fun r => 0 <= depth r) ranges ->
    exists calls,
      applyDecorations m ranges = ObjectParser.Ok calls /\
      map decorationType calls = decorationTypes m /\
      forall j call, nth_error calls j = Some call ->
        levelRanges call =
        map range (filter (fun r => depth r mod numColors =? Z.of_nat j) ranges))).
Proof.
  intro numColors. split; [|split].
  - intro Et. unfold applyDecorations. rewrite Et. reflexivity.
  - apply applyDecorations_nil.
  - intro Hne.
    assert (Hn : 0 < numColors).
    { unfold numColors, len. destruct (decorationTypes m); [contradiction|cbn; lia]. }
    pose proof (applyDecorations_cases m ranges Hne) as Hc. cbv zeta in Hc.
    fold numColors in Hc. split.
    + destruct Hc as [[Hex Ht]|[Hall [calls [Hok _]]]].
      * split; [intros _; exact Hex|intros _; exact Ht].
      * split; [rewrite Hok; discriminate|]. intro Hex. exfalso.
        apply Exists_exists in Hex. destruct Hex as [r [Hin Hr]].
        rewrite Forall_forall in Hall. specialize (Hall r Hin). lia.
    + intro Hpos. destruct Hc as [[Hex _]|[_ [calls [Hok [Hty Hcalls]]]]].
      * exfalso. apply Exists_exists in Hex. destruct Hex as [r [Hin Hr]].
        rewrite Forall_forall in Hpos. specialize (Hpos r Hin).
        pose proof (Z.rem_nonneg (depth r) numColors ltac:(lia) Hpos). lia.
      * exists calls. split; [exact Hok|]. split; [exact Hty|].
        intros j call Hj. rewrite (Hcalls j call Hj). unfold at_level. f_equal.
        apply filter_ext_in. intros r Hin. rewrite Forall_forall in Hpos.
        rewrite (Z.rem_mod_nonneg (depth r) numColors (Hpos r Hin) Hn). reflexivity.
Qed.

(** X27.  [updateDecorations] does not throw, whatever the settings, the
    language and the text: the parser it chooses returns, and with depths
    that are not negative, for which [applyDecorations] has a level.  And
    whether it clears or applies, it calls [editor.setDecorations] once for
    each decoration type of the palette, in order, so that what an earlier
    run has set for a colour is replaced. *)
Theorem X27_updateDecorations_total (config : HtmlRainbowConfig) (m : Manager)
    (languageId t : text) :
  exists calls,
    updateDecorations config m languageId t = ObjectParser.Ok calls /\
    map decorationType calls = decorationTypes m.
Proof.
  unfold updateDecorations.
  destruct (negb (isLanguageEnabled languageId config)).
  { exists (clearDecorations m). split; [reflexivity|apply clearDecorations_types]. }
  destruct (getParser languageId) as [parser|].
  - destruct (parse_nonneg config parser t) as [ranges [Hok Hall]]. rewrite Hok.
    apply applyDecorations_nonneg. exact Hall.
  - exists (clearDecorations m). split; [reflexivity|apply clearDecorations_types].
Qed.

(** X28.  Which documents are coloured, and by which parser.
    [updateDecorations] clears the decorations when the extension is
    disabled, when the language is not set to [true] in [languages], and
    when the language has no parser, whatever [languages] says of it: the
    six languages below are the only ones that can be coloured.  Otherwise
    it applies the ranges of [HtmlParser] for [html] and [xml], of
    [JsxParser] for [javascriptreact] and [typescriptreact] and of
    [ObjectParser] for [javascript] and [typescript], the two script
    parsers reading the settings of [objectBraces]; with the object braces
    off a [javascript] or [typescript] document is cleared.  The languages
    [DEFAULT_LANGUAGES] enables are the languages that have a parser. *)
Theorem X28_language_dispatch (config : HtmlRainbowConfig) (m : Manager)
    (languageId t : text) :
  let jsx := JsxParser.mkConfig (objectBraces_colorizeKeys config)
               (objectBraces_enabled config) in
  let obj := ObjectParser.mkConfig (objectBraces_colorizeKeys config)
               (objectBraces_enabled config) in
  (enabled config = false \/ languages config languageId <> Some true \/
   ~ In languageId (map str [ "html"; "xml"; "javascriptreact"; "typescriptreact";
                              "javascript"; "typescript" ]%string) ->
   updateDecorations config m languageId t = ObjectParser.Ok (clearDecorations m)) /\
  (enabled config = true -> languages config languageId = Some true ->
   (languageId = str "html" \/ languageId = str "xml" ->
    updateDecorations config m languageId t = applyDecorations m (HtmlParser.parse t)) /\
   (languageId = str "javascriptreact" \/ languageId = str "typescriptreact" ->
    updateDecorations config m languageId t = applyDecorations m (JsxParser.parse jsx t)) /\
   (languageId = str "javascript" \/ languageId = str "typescript" ->
    ObjectParser.bind (ObjectParser.parse obj t) (applyDecorations m) =
      updateDecorations config m languageId t /\
    (objectBraces_enabled config = false ->
     updateDecorations config m languageId t = ObjectParser.Ok (clearDecorations m)))) /\
  (forall id, DEFAULT_LANGUAGES id = Some true <-> getParser id <> None).
Proof.
  intros jsx obj. split; [|split].
  - intros H. unfold updateDecorations, isLanguageEnabled.
    destruct (enabled config) eqn:Ee; cbn [negb]; [|reflexivity].
    destruct (languages config languageId) as [[|]|] eqn:El; cbn [negb]; try reflexivity.
    pose proof (getParser_cases languageId) as Hc.
    destruct (getParser languageId) as [[| |]|]; [exfalso..|reflexivity];
      destruct H as [H|[H|H]]; try discriminate; try (apply H; reflexivity);
      apply H; cbn [map In]; destruct Hc as [Hc|Hc]; rewrite Hc; tauto.
  - intros He Hl.
    assert (Hen : negb (isLanguageEnabled languageId config) = false).
    { unfold isLanguageEnabled. rewrite He, Hl. reflexivity. }
    unfold updateDecorations. rewrite Hen.
    split; [|split].
    + intros [H|H]; subst languageId; reflexivity.
    + intros [H|H]; subst languageId; reflexivity.
    + intros H.
      assert (Hp : getParser languageId = Some objectParser)
        by (destruct H as [H|H]; subst languageId; reflexivity).
      rewrite Hp. cbn [parse]. fold obj. split.
      * destruct (ObjectParser.parse obj t); reflexivity.
      * intro Hoff. unfold ObjectParser.parse, obj.
        cbn [ObjectParser.objectBracesEnabled]. rewrite Hoff. cbn [negb].
        apply applyDecorations_nil.
  - intro id. pose proof (getParser_cases id) as Hc. split.
    + intros Hd Hn. rewrite Hn in Hc. apply Hc. clear Hc Hn.
      unfold DEFAULT_LANGUAGES in Hd. cbn [lookup] in Hd. cbn [map In].
      repeat match type of Hd with
             | (if str_eqb ?k id then _ else _) = _ =>
                 let E := fresh "E" in
                 destruct (str_eqb k id) eqn:E; [apply str_eqb_eq in E; tauto|]
             end.
      discriminate.
    + intro Hn. destruct (getParser id) as [[| |]|]; [| | |contradiction];
        destruct Hc as [Hc|Hc]; subst id; reflexivity.
Qed.

End DecorationExtras.

(** ** JsxParser: the expressions among the attributes of a tag *)

Module AttrFacts.
Import Markup HtmlLex SkipFacts JsxParser.

Definition skipJsxExpression_from (t : text) (i depth : Z) : Z :=
  skipJsxExpression_loop (Z.to_nat (len t - i)) t i depth.

Lemma skipJsxExpression_from_eq (t : text) (i depth : Z) :
  skipJsxExpression_from t i depth =
  if (i <? len t) && (0 <? depth) then
    if char_is t i c_lbrace then skipJsxExpression_from t (i + 1) (depth + 1)
    else if char_is t i c_rbrace then skipJsxExpression_from t (i + 1) (depth - 1)
    else match quote_at t i with
         | Some q => skipJsxExpression_from t (skipString t i q) depth
         | None => skipJsxExpression_from t (i + 1) depth
         end
  else i.
Proof.
  unfold skipJsxExpression_from. destruct (i <? len t) eqn:E.
  - apply Z.ltb_lt in E.
    replace (Z.to_nat (len t - i)) with (S (Z.to_nat (len t - i - 1))) by lia.
    cbn [skipJsxExpression_loop]. apply Z.ltb_lt in E. rewrite E. apply Z.ltb_lt in E.
    cbn [andb]. destruct (0 <? depth); [|reflexivity].
    destruct (char_is t i c_lbrace); [apply Fuel.skipJsxExpression_loop_fuel; lia|].
    destruct (char_is t i c_rbrace); [apply Fuel.skipJsxExpression_loop_fuel; lia|].
    destruct (quote_at t i) as [q|]; [|apply Fuel.skipJsxExpression_loop_fuel; lia].
    pose proof (JsxRun.jsx_skipString_gt t i q).
    apply Fuel.skipJsxExpression_loop_fuel; lia.
  - apply Z.ltb_ge in E. replace (Z.to_nat (len t - i)) with O by lia. reflexivity.
Qed.

(** [skipString] on a string in single or double quotes that is closed. *)
Lemma skipString_closed (t : text) (pos quote : Z) (body : list StrPiece) (rest : text) :
  quote = c_dquote \/ quote = c_squote ->
  Forall (plain_in quote) body ->
  text_at t pos (quote :: render_str body ++ quote :: rest) ->
  skipString t pos quote = pos + 1 + len (render_str body) + 1.
Proof.
  intros Hq Hbody Ht.
  assert (Hnb : (quote =? c_backtick) = false) by (destruct Hq; subst; reflexivity).
  apply text_at_cons in Ht. destruct Ht as [_ Ht].
  unfold skipString. rewrite (skipString_loop_quoted _ t quote Hnb).
  fold (skipQuoted_from t (pos + 1) quote).
  rewrite (skipQuoted_from_body t quote body Hbody (pos + 1) _ Ht).
  apply text_at_app in Ht. destruct Ht as [_ Ht].
  apply text_at_cons in Ht. destruct Ht as [Hc _].
  pose proof (char_at_Some _ _ _ Hc) as Hr.
  rewrite skipQuoted_from_eq.
  replace (pos + 1 + len (render_str body) <? len t) with true
    by (symmetry; apply Z.ltb_lt; lia).
  rewrite !(char_is_of_char_at t _ quote _ Hc).
  replace (quote =? c_backslash) with false by (destruct Hq; subst; reflexivity).
  rewrite Z.eqb_refl. reflexivity.
Qed.

(** The text of an expression: characters, groups in braces, and strings
    in single or double quotes. *)
Inductive nested : text -> Prop :=
  | nest_nil : nested []
  | nest_char (c : Z) (w : text) :
      c <> c_lbrace -> c <> c_rbrace ->
      c <> c_dquote -> c <> c_squote -> c <> c_backtick ->
      nested w -> nested (c :: w)
  | nest_group (u w : text) :
      nested u -> nested w -> nested (c_lbrace :: u ++ c_rbrace :: w)
  | nest_string (quote : Z) (body : list StrPiece) (w : text) :
      quote = c_dquote \/ quote = c_squote ->
      Forall (plain_in quote) body ->
      nested w -> nested (quote :: render_str body ++ quote :: w).

(** The loop crosses such a text at the depth it entered with. *)
Lemma skip_nested (t : text) (w : text) :
  nested w ->
  forall pos depth rest, 0 < depth -> text_at t pos (w ++ rest) ->
    skipJsxExpression_from t pos depth = skipJsxExpression_from t (pos + len w) depth.
Proof.
  induction 1 as [|c w H1 H2 H3 H4 H5 Hw IH|u w Hu IHu Hw IHw|q body w Hq Hbody Hw IH];
    intros pos d rest Hd Ht.
  - rewrite len_nil, Z.add_0_r. reflexivity.
  - cbn [app] in Ht. apply text_at_cons in Ht. destruct Ht as [Hc Ht].
    pose proof (char_at_Some _ _ _ Hc) as Hr.
    rewrite skipJsxExpression_from_eq.
    replace (pos <? len t) with true by (symmetry; apply Z.ltb_lt; lia).
    replace (0 <? d) with true by (symmetry; apply Z.ltb_lt; lia). cbn [andb].
    rewrite !(char_is_of_char_at t pos c _ Hc).
    replace (c =? c_lbrace) with false by (symmetry; apply Z.eqb_neq; exact H1).
    replace (c =? c_rbrace) with false by (symmetry; apply Z.eqb_neq; exact H2).
    unfold quote_at. rewrite Hc.
    replace (c =? c_dquote) with false by (symmetry; apply Z.eqb_neq; exact H3).
    replace (c =? c_squote) with false by (symmetry; apply Z.eqb_neq; exact H4).
    replace (c =? c_backtick) with false by (symmetry; apply Z.eqb_neq; exact H5).
    cbn [orb]. rewrite (IH _ _ _ Hd Ht). f_equal. rewrite len_cons. lia.
  - cbn [app] in Ht. apply text_at_cons in Ht. destruct Ht as [Hopen Ht].
    rewrite <- app_assoc in Ht. pose proof Ht as Htu.
    apply text_at_app in Ht. destruct Ht as [_ Ht].
    cbn [app] in Ht. apply text_at_cons in Ht. destruct Ht as [Hclose Ht].
    pose proof (char_at_Some _ _ _ Hopen) as Hr.
    pose proof (char_at_Some _ _ _ Hclose) as Hr'.
    rewrite skipJsxExpression_from_eq.
    replace (pos <? len t) with true by (symmetry; apply Z.ltb_lt; lia).
    replace (0 <? d) with true by (symmetry; apply Z.ltb_lt; lia). cbn [andb].
    rewrite (proj2 (char_is_true t pos c_lbrace) Hopen).
    rewrite (IHu _ (d + 1) _ ltac:(lia) Htu).
    rewrite skipJsxExpression_from_eq.
    replace (pos + 1 + len u <? len t) with true by (symmetry; apply Z.ltb_lt; lia).
    replace (0 <? d + 1) with true by (symmetry; apply Z.ltb_lt; lia). cbn [andb].
    rewrite !(char_is_of_char_at t _ c_rbrace _ Hclose).
    change (c_rbrace =? c_lbrace) with false. change (c_rbrace =? c_rbrace) with true.
    cbv iota. replace (d + 1 - 1) with d by lia.
    rewrite (IHw _ _ _ Hd Ht). f_equal.
    rewrite len_cons, len_app, len_cons. lia.
  - cbn [app] in Ht. pose proof Ht as Hstr.
    rewrite <- app_assoc in Hstr. cbn [app] in Hstr.
    apply text_at_cons in Ht. destruct Ht as [Hopen Ht].
    rewrite <- app_assoc in Ht.
    apply text_at_app in Ht. destruct Ht as [_ Ht].
    cbn [app] in Ht. apply text_at_cons in Ht. destruct Ht as [_ Ht].
    pose proof (char_at_Some _ _ _ Hopen) as Hr.
    rewrite skipJsxExpression_from_eq.
    replace (pos <? len t) with true by (symmetry; apply Z.ltb_lt; lia).
    replace (0 <? d) with true by (symmetry; apply Z.ltb_lt; lia). cbn [andb].
    rewrite !(char_is_of_char_at t pos q _ Hopen).
    replace (q =? c_lbrace) with false by (destruct Hq; subst; reflexivity).
    replace (q =? c_rbrace) with false by (destruct Hq; subst; reflexivity).
    assert (Hqa : quote_at t pos = Some q).
    { unfold quote_at. rewrite Hopen. destruct Hq; subst; reflexivity. }
    rewrite Hqa. rewrite (skipString_closed t pos q body _ Hq Hbody Hstr).
    rewrite (IH _ _ _ Hd Ht). f_equal.
    rewrite len_cons, len_app, len_cons. lia.
Qed.

End AttrFacts.

Section AttrExtras.

Import Markup SkipFacts JsxParser AttrFacts.

(** X30.  [JsxParser.skipJsxExpression] on an expression in braces among
    the attributes of a tag.  Braces nest, and a brace inside a string in
    single or double quotes is not counted: the result is the offset after
    the [}] that closes the [{] at [pos].  An expression the text ends in
    ends at the end of the text.  [parseOpeningTag] goes on looking for the
    end of the tag after the expression, so that a [>], a [/>] or a [<]
    inside it neither ends the tag nor spoils it. *)
Theorem X30_skipJsxExpression (t : text) (pos : Z) (w : text) :
  nested w ->
  (text_at t pos (c_lbrace :: w ++ [c_rbrace]) ->
   skipJsxExpression t pos = pos + 1 + len w + 1 /\
   forall stringChar,
     parseOpeningTag_loop (Z.to_nat (len t - pos)) t pos false stringChar =
     parseOpeningTag_loop (Z.to_nat (len t - (pos + 1 + len w + 1))) t
       (pos + 1 + len w + 1) false stringChar) /\
  (text_at t pos (c_lbrace :: w) -> pos + 1 + len w = len t ->
   skipJsxExpression t pos = len t).
Proof.
  intro Hw.
  assert (Hskip : forall rest, text_at t pos (c_lbrace :: w ++ rest) ->
            skipJsxExpression t pos = skipJsxExpression_from t (pos + 1 + len w) 1).
  { intros rest Ht. apply HtmlLex.text_at_cons in Ht. destruct Ht as [Hopen Ht].
    unfold skipJsxExpression. rewrite (proj2 (char_is_true t pos c_lbrace) Hopen).
    cbn [negb]. fold (skipJsxExpression_from t (pos + 1) 1).
    apply (skip_nested t w Hw (pos + 1) 1 rest ltac:(lia) Ht). }
  split.
  - intro Ht.
    assert (Hend : skipJsxExpression t pos = pos + 1 + len w + 1).
    { rewrite (Hskip _ Ht).
      apply HtmlLex.text_at_cons in Ht. destruct Ht as [_ Ht].
      apply HtmlLex.text_at_app in Ht. destruct Ht as [_ Ht].
      apply HtmlLex.text_at_cons in Ht. destruct Ht as [Hclose _].
      pose proof (char_at_Some _ _ _ Hclose) as Hr.
      rewrite skipJsxExpression_from_eq.
      replace (pos + 1 + len w <? len t) with true by (symmetry; apply Z.ltb_lt; lia).
      cbn [andb Z.ltb Z.compare].
      rewrite !(HtmlLex.char_is_of_char_at t _ c_rbrace _ Hclose).
      change (c_rbrace =? c_lbrace) with false. change (c_rbrace =? c_rbrace) with true.
      cbv iota. rewrite skipJsxExpression_from_eq. rewrite andb_false_r. reflexivity. }
    split; [exact Hend|]. intro sc.
    apply HtmlLex.text_at_cons in Ht. destruct Ht as [Hopen _].
    pose proof (char_at_Some _ _ _ Hopen) as Hr. pose proof (len_nonneg w) as Hw0.
    replace (Z.to_nat (len t - pos)) with (S (Z.to_nat (len t - pos - 1))) by lia.
    cbn [parseOpeningTag_loop].
    replace (pos <? len t) with true by (symmetry; apply Z.ltb_lt; lia). cbv zeta.
    rewrite (proj2 (char_is_true t pos c_lbrace) Hopen). rewrite !orb_true_r.
    rewrite Hend. apply Fuel.parseOpeningTag_loop_fuel; lia.
  - intros Ht Hlen. rewrite <- (app_nil_r w) in Ht. rewrite (Hskip _ Ht).
    rewrite skipJsxExpression_from_eq, Hlen, Z.ltb_irrefl. reflexivity.
Qed.

Lemma X30_skipJsxExpression_witness :
  let t := str "<A b={f({x: '}'}) > 1}>" in
  skipJsxExpression t 5 = 22 /\
  parseOpeningTag t 0 = Some (mkOpenTag (str "A") 1 2 23 false).
Proof.
  intro t.
  assert (Hs : nested (str " > 1")).
  { exact (nest_char 32 _ ltac:(discriminate) ltac:(discriminate) ltac:(discriminate)
             ltac:(discriminate) ltac:(discriminate)
          (nest_char 62 _ ltac:(discriminate) ltac:(discriminate) ltac:(discriminate)
             ltac:(discriminate) ltac:(discriminate)
          (nest_char 32 _ ltac:(discriminate) ltac:(discriminate) ltac:(discriminate)
             ltac:(discriminate) ltac:(discriminate)
          (nest_char 49 _ ltac:(discriminate) ltac:(discriminate) ltac:(discriminate)
             ltac:(discriminate) ltac:(discriminate) nest_nil)))). }
  assert (Hbody : Forall (plain_in c_squote) [Lit c_rbrace])
    by (repeat constructor; discriminate).
  assert (Hu : nested (str "x: '}'")).
  { exact (nest_char 120 _ ltac:(discriminate) ltac:(discriminate) ltac:(discriminate)
             ltac:(discriminate) ltac:(discriminate)
          (nest_char 58 _ ltac:(discriminate) ltac:(discriminate) ltac:(discriminate)
             ltac:(discriminate) ltac:(discriminate)
          (nest_char 32 _ ltac:(discriminate) ltac:(discriminate) ltac:(discriminate)
             ltac:(discriminate) ltac:(discriminate)
          (nest_string c_squote [Lit c_rbrace] [] (or_intror eq_refl) Hbody nest_nil)))). }
  assert (Hw : nested (str "f({x: '}'}) > 1")).
  { exact (nest_char 102 _ ltac:(discriminate) ltac:(discriminate) ltac:(discriminate)
             ltac:(discriminate) ltac:(discriminate)
          (nest_char 40 _ ltac:(discriminate) ltac:(discriminate) ltac:(discriminate)
             ltac:(discriminate) ltac:(discriminate)
          (nest_group (str "x: '}'") _ Hu
          (nest_char 41 _ ltac:(discriminate) ltac:(discriminate) ltac:(discriminate)
             ltac:(discriminate) ltac:(discriminate) Hs)))). }
  assert (Ht : text_at t 5 (c_lbrace :: str "f({x: '}'}) > 1" ++ [c_rbrace])).
  { split; [vm_compute; split; discriminate|]. intros j c Hj.
    do 17 (destruct j as [|j]; [inversion Hj; reflexivity|]). destruct j; discriminate. }
  destruct (X30_skipJsxExpression t 5 _ Hw) as [H _].
  split; [exact (proj1 (H Ht))|reflexivity].
Defined.

End AttrExtras.

(** ** The debounced update *)

Module DebounceFacts.
Import Debounce.

Section Facts.

Context {Args : Type}.

(** At most one timer is pending, and it is the one [timeoutId] names. *)
Definition inv (s : State Args) : Prop :=
  (timeoutId s = None /\ timers s = []) \/
  (exists i d a, timeoutId s = Some i /\ timers s = [mkTimer i d a]).

Lemma cancel_inv (s : State Args) :
  inv s ->
  cancel s = mkState None (wait s) [] (nextId s) (invoked s).
Proof.
  intros [[Hi Ht]|[i [d [a [Hi Ht]]]]]; unfold cancel; rewrite Hi.
  - destruct s; cbn in *. subst. reflexivity.
  - rewrite Ht. unfold clearTimeout. cbn [filter id]. rewrite Z.eqb_refl. reflexivity.
Qed.

Lemma call_inv (s : State Args) (a : Args) :
  inv s ->
  call s a =
  mkState (Some (nextId s)) (wait s) [mkTimer (nextId s) (wait s) a] (nextId s + 1)
    (invoked s).
Proof. intro H. unfold call. rewrite (cancel_inv s H). reflexivity. Qed.

Lemma expire_one (i d : Z) (a : Args) (w n : Z) (done : list Args) (j : Z) :
  expire (mkState (Some i) w [mkTimer i d a] n done) j =
  if i =? j then mkState None w [] n (done ++ [a])
  else mkState (Some i) w [mkTimer i d a] n done.
Proof.
  unfold expire, clearTimeout. cbn [timers find filter id args wait nextId invoked].
  destruct (i =? j); reflexivity.
Qed.

Lemma expire_none (s : State Args) (j : Z) : timers s = [] -> expire s j = s.
Proof. intro H. unfold expire. rewrite H. reflexivity. Qed.

Lemma step_inv (s : State Args) (e : Event Args) : inv s -> inv (step s e).
Proof.
  intro H. destruct e as [a| |w| |j]; cbn [step].
  - rewrite (call_inv s a H). right. do 3 eexists. split; reflexivity.
  - rewrite (cancel_inv s H). left. split; reflexivity.
  - exact H.
  - unfold dispose. rewrite (cancel_inv s H). left. split; reflexivity.
  - destruct H as [[Hi Ht]|[i [d [a [Hi Ht]]]]].
    + rewrite (expire_none s j Ht). left. split; assumption.
    + destruct s as [ti w ts n done]. cbn in Hi, Ht. subst ti ts.
      rewrite expire_one. destruct (i =? j).
      * left. split; reflexivity.
      * right. do 3 eexists. split; reflexivity.
Qed.

Lemma run_snoc (events : list (Event Args)) (e : Event Args) (s : State Args) :
  run (events ++ [e]) s = step (run events s) e.
Proof. unfold run. rewrite fold_left_app. reflexivity. Qed.

Lemma run_inv (events : list (Event Args)) (s : State Args) : inv s -> inv (run events s).
Proof.
  revert s. induction events as [|e events IH]; intros s H; [exact H|].
  apply IH. apply step_inv. exact H.
Qed.

Lemma new_inv (wait : Z) : inv (new (Args := Args) wait).
Proof. left. split; reflexivity. Qed.

Lemma last_cons (more : list Args) (a b : Args) : last (b :: more) a = last more b.
Proof.
  revert a b. induction more as [|c more IH]; intros a b; [reflexivity|].
  change (last (b :: c :: more) a) with (last (c :: more) a).
  rewrite (IH a c). symmetry. apply IH.
Qed.

(** After a burst of calls the timer of the last one is pending, alone. *)
Lemma run_calls (more : list Args) :
  forall (s : State Args) (a : Args), inv s ->
    run (map Call (a :: more)) s =
    mkState (Some (nextId s + len more)) (wait s)
      [mkTimer (nextId s + len more) (wait s) (last more a)]
      (nextId s + len more + 1) (invoked s).
Proof.
  induction more as [|b more IH]; intros s a H.
  - cbn [map run fold_left step]. rewrite (call_inv s a H), len_nil, !Z.add_0_r.
    reflexivity.
  - change (run (map Call (a :: b :: more)) s) with (run (map Call (b :: more)) (call s a)).
    rewrite (IH (call s a) b (step_inv s (Call a) H)).
    rewrite (call_inv s a H). cbn [nextId wait invoked]. rewrite len_cons.
    replace (nextId s + 1 + len more) with (nextId s + (1 + len more)) by lia.
    rewrite last_cons. reflexivity.
Qed.

(** Expiries when a single timer is pending: [func] is called when that
    timer is among them, and once. *)
Lemma run_expiries (js : list Z) (i d : Z) (a : Args) (w n : Z) (done : list Args) :
  invoked (run (map Expire js) (mkState (Some i) w [mkTimer i d a] n done)) =
  if existsb (Z.eqb i) js then done ++ [a] else done.
Proof.
  induction js as [|j js IH]; [reflexivity|].
  change (run (map Expire (j :: js)) ?s) with (run (map Expire js) (expire s j)).
  rewrite expire_one. cbn [existsb]. destruct (i =? j); cbn [orb]; [|exact IH].
  clear IH. induction js as [|k js IH]; [reflexivity|].
  change (run (map Expire (k :: js)) ?s) with (run (map Expire js) (expire s k)).
  rewrite expire_none by reflexivity. exact IH.
Qed.

Lemma run_expiries_none (js : list Z) (s : State Args) :
  timers s = [] -> run (map Expire js) s = s.
Proof.
  intro H. induction js as [|j js IH]; [reflexivity|].
  change (run (map Expire (j :: js)) s) with (run (map Expire js) (expire s j)).
  rewrite (expire_none s j H). exact IH.
Qed.

Lemma run_app (events events' : list (Event Args)) (s : State Args) :
  run (events ++ events') s = run events' (run events s).
Proof. unfold run. apply fold_left_app. Qed.

(** [func] is called with the arguments of a call, and not more often than
    [call]. *)
Definition is_call (e : Event Args) : bool :=
  match e with Call _ => true | _ => false end.

Definition from_calls (events : list (Event Args)) (s : State Args) : Prop :=
  (forall a, In a (invoked s) -> In (Call a) events) /\
  (forall timer, In timer (timers s) -> In (Call (args timer)) events) /\
  (List.length (invoked s) + List.length (timers s)
   <= List.length (filter is_call events))%nat.

Lemma run_from_calls (wait : Z) (events : list (Event Args)) :
  from_calls events (run events (new wait)).
Proof.
  induction events as [|e events IH] using rev_ind.
  - split; [|split]; cbn; [intros a []|intros a []|lia].
  - rewrite run_snoc. pose proof (run_inv events (new wait) (new_inv wait)) as Hinv.
    destruct IH as [H1 [H2 H3]]. set (s := run events (new wait)) in *.
    unfold from_calls. rewrite filter_app, length_app.
    destruct e as [a| |w| |j]; cbn [step filter is_call List.length].
    + rewrite (call_inv s a Hinv). cbn [invoked timers List.length]. split; [|split].
      * intros b Hb. apply in_or_app. left. apply H1. exact Hb.
      * intros timer [Ht|[]]. subst timer. cbn [args]. apply in_or_app. right. left.
        reflexivity.
      * lia.
    + rewrite (cancel_inv s Hinv). cbn [invoked timers List.length]. split; [|split].
      * intros b Hb. apply in_or_app. left. apply H1. exact Hb.
      * intros timer [].
      * lia.
    + cbn [setWait invoked timers]. split; [|split].
      * intros b Hb. apply in_or_app. left. apply H1. exact Hb.
      * intros timer Ht. apply in_or_app. left. apply H2. exact Ht.
      * lia.
    + unfold dispose. rewrite (cancel_inv s Hinv). cbn [invoked timers List.length].
      split; [|split].
      * intros b Hb. apply in_or_app. left. apply H1. exact Hb.
      * intros timer [].
      * lia.
    + destruct Hinv as [[Hi Ht]|[i [d [a [Hi Ht]]]]].
      * rewrite (expire_none s j Ht). split; [|split].
        -- intros b Hb. apply in_or_app. left. apply H1. exact Hb.
        -- intros timer Ht'. apply in_or_app. left. apply H2. exact Ht'.
        -- lia.
      * destruct s as [ti w ts n done] eqn:Es. cbn in Hi, Ht. subst ti ts.
        cbn [invoked timers] in H1, H2, H3.
        rewrite expire_one. destruct (i =? j); cbn [invoked timers]; split; try split.
        -- intros b Hb. apply in_or_app. left. apply in_app_or in Hb.
           destruct Hb as [Hb|[Hb|[]]]; [apply H1; exact Hb|].
           subst b. apply (H2 (mkTimer i d a)). left. reflexivity.
        -- intros timer [].
        -- rewrite length_app. cbn [List.length] in *. lia.
        -- intros b Hb. apply in_or_app. left. apply H1. exact Hb.
        -- intros timer Ht'. apply in_or_app. left. apply H2. exact Ht'.
        -- cbn [List.length] in *. lia.
Qed.

End Facts.

End DebounceFacts.

Section DebounceExtras.

Import Debounce DebounceFacts.

Context {Args : Type}.

(** X29.  A [DebouncedFunction] after any sequence of calls of its
    methods and of expiries of timers, started from [new].  At most one
    timer is pending, the one [timeoutId] names.  After a burst of calls,
    [func] is called when the timer of the last call expires, once, with
    the arguments of that last call; the timers of the earlier calls of
    the burst have been cleared and their expiry does nothing.  After
    [cancel] or [dispose] no expiry calls [func].  [setWait] leaves the
    pending timer as it is and sets the delay of the next call.  And [func]
    is only ever called with the arguments of some call, not more often
    than [call] was. *)
Theorem X29_debounce (wait0 : Z) (events : list (Event Args)) :
  let s := run events (new wait0) in
  ((timeoutId s = None /\ timers s = []) \/
   (exists i d a, timeoutId s = Some i /\ timers s = [mkTimer i d a])) /\
  (forall (a : Args) (more : list Args) (expiries : list Z),
     invoked (run (map Call (a :: more) ++ map Expire expiries) s) =
     if existsb (Z.eqb (nextId s + len more)) expiries
     then invoked s ++ [last more a]
     else invoked s) /\
  (forall expiries,
     invoked (run (Cancel :: map Expire expiries) s) = invoked s /\
     invoked (run (Dispose :: map Expire expiries) s) = invoked s) /\
  (forall w a,
     timers (setWait s w) = timers s /\
     timers (call (setWait s w) a) = [mkTimer (nextId s) w a]) /\
  (forall a, In a (invoked s) -> In (Call a) events) /\
  (List.length (invoked s) <= List.length (filter is_call events))%nat.
Proof.
  intro s. pose proof (run_inv events (new wait0) (new_inv wait0)) as Hinv.
  fold s in Hinv. split; [exact Hinv|]. split; [|split; [|split; [|split]]].
  - intros a more expiries. rewrite run_app, (run_calls more s a Hinv).
    apply run_expiries.
  - intro expiries.
    change (run (Cancel :: map Expire expiries) s)
      with (run (map Expire expiries) (cancel s)).
    change (run (Dispose :: map Expire expiries) s)
      with (run (map Expire expiries) (cancel s)).
    rewrite (cancel_inv s Hinv). rewrite run_expiries_none by reflexivity.
    split; reflexivity.
  - intros w a. split; [reflexivity|].
    assert (Hw : inv (setWait s w)) by exact (step_inv s (SetWait w) Hinv).
    rewrite (call_inv _ a Hw). reflexivity.
  - apply (run_from_calls wait0 events).
  - destruct (run_from_calls wait0 events) as [_ [_ H]]. fold s in H. lia.
Qed.

End DebounceExtras.
